(** * Zotero connector: the synchronisation engine

    A shallow embedding of the sync engine of the Obsidian Zotero connector:
    the class [SyncManager] (two-way tag sync, [syncAll], [syncSingleItem]),
    the class [VersionTracker], and [fetchItemsByTag] and [patchItemTags] of
    [ZoteroApiClient]; then the properties of the tag merge, of the change
    detection and of the cycle.

    Conventions of the embedding:
    - a JavaScript string is a [string] of bytes; [toLowerCase] and the
      regular expression class [\s] are the ASCII ones, so the tags covered
      are ASCII tags;
    - a JavaScript [number] holding a version is a [Z], a counter is a [nat];
    - [Record<string, T>] is a [gmap string T], a [Set<string>] is a
      [gset string], an array is a [list];
    - asynchronous code is sequential code: every [await] is a bind of the
      monad [M], which threads the state and carries a thrown [Error];
    - [console] output is left out; a [Notice], a progress call and a PATCH
      request are logged in the state. *)

From Stdlib Require Import ZArith Ascii String.
From stdpp Require Import base gmap strings list sorting.

Local Open Scope Z_scope.

Local Set Warnings "-clear-no-such-hyp".

(** ** Strings *)

Module Str.

Fixpoint map (f : ascii → ascii) (s : string) : string :=
  match s with
  | EmptyString => EmptyString
  | String c s' => String (f c) (map f s')
  end.

(** [c.toLowerCase()] on one ASCII character. *)
Definition lower (c : ascii) : ascii :=
  let n := nat_of_ascii c in
  if (Nat.leb 65 n && Nat.leb n 90)%bool then ascii_of_nat (n + 32) else c.

Definition toLowerCase (s : string) : string := map lower s.

(** The class [\s] restricted to ASCII: tab, line feed, vertical tab, form
    feed, carriage return and space. *)
Definition is_space (c : ascii) : bool :=
  let n := nat_of_ascii c in
  (Nat.leb 9 n && Nat.leb n 13 || Nat.eqb n 32)%bool.

(** [s.replace(/-/g, ' ')] *)
Definition hyphens_to_spaces (s : string) : string :=
  map (λ c, if Ascii.eqb c "-"%char then " "%char else c) s.

(** [s.replace(/\s+/g, '-')]: every maximal run of white space becomes one
    hyphen. [in_run] tells that the previous character was white space. *)
Fixpoint spaces_to_hyphen_from (in_run : bool) (s : string) : string :=
  match s with
  | EmptyString => EmptyString
  | String c s' =>
      if is_space c
      then (if in_run then spaces_to_hyphen_from true s'
            else String "-"%char (spaces_to_hyphen_from true s'))
      else String c (spaces_to_hyphen_from false s')
  end.

Definition spaces_to_hyphen (s : string) : string :=
  spaces_to_hyphen_from false s.

(** [s.includes(needle)] *)
Fixpoint includes (needle s : string) : bool :=
  if String.prefix needle s then true
  else match s with
       | EmptyString => false
       | String _ s' => includes needle s'
       end.

(** [s.endsWith(suffix)] *)
Definition endsWith (suffix s : string) : bool :=
  String.prefix (String.rev suffix) (String.rev s).

(** [s.split(sep)] for a separator of one character. *)
Fixpoint split_from (sep : ascii) (cur : string) (s : string) : list string :=
  match s with
  | EmptyString => [String.rev cur]
  | String c s' =>
      if Ascii.eqb c sep then String.rev cur :: split_from sep EmptyString s'
      else split_from sep (String c cur) s'
  end.

Definition split (sep : ascii) (s : string) : list string :=
  split_from sep EmptyString s.

(** [s.lastIndexOf(c)], [None] for the [-1] of JavaScript. *)
Fixpoint lastIndexOf_from (sep : ascii) (i : nat) (found : option nat)
    (s : string) : option nat :=
  match s with
  | EmptyString => found
  | String c s' =>
      lastIndexOf_from sep (S i) (if Ascii.eqb c sep then Some i else found) s'
  end.

Definition lastIndexOf (sep : ascii) (s : string) : option nat :=
  lastIndexOf_from sep 0 None s.

(** [s.substring(0, s.lastIndexOf(c))]: a negative end counts as [0]. *)
Definition before_last (sep : ascii) (s : string) : string :=
  match lastIndexOf sep s with
  | Some n => String.substring 0 n s
  | None => EmptyString
  end.

(** A string used as a condition: the empty string is falsy. *)
Definition truthy (s : string) : bool :=
  match s with EmptyString => false | _ => true end.

End Str.

(** ** Tag helpers of [SyncManager] *)

(** [normalizeTag]: hyphens become spaces, then lower case. *)
Definition normalizeTag (tag : string) : string :=
  Str.toLowerCase (Str.hyphens_to_spaces tag).

(** [arr.every((v, i) => v === other[i])], from index [i] on. *)
Fixpoint every_same_at (other : list string) (i : nat) (arr : list string) : bool :=
  match arr with
  | [] => true
  | v :: arr' => bool_decide (other !! i = Some v) && every_same_at other (S i) arr'
  end.

(** [Array.prototype.sort()] without comparator orders strings by code unit;
    on byte strings this is [String.le], and the sorted array of a total
    order does not depend on the algorithm. *)
Definition sort (l : list string) : list string := merge_sort String.le l.

Definition tagsEqual (a b : list string) : bool :=
  if negb (Nat.eqb (length a) (length b)) then false
  else
    let normA := sort (normalizeTag <$> a) in
    let normB := sort (normalizeTag <$> b) in
    every_same_at normB 0 normA.

(** The first-sync loop of [syncTagsTwoWay]: a remote tag whose normal form
    is not yet in [fmNormSet] is pushed, hyphenated, and its normal form is
    added to the set. *)
Definition firstSyncStep (acc : list string * gset string) (zt : string)
    : list string * gset string :=
  let norm := normalizeTag zt in
  if bool_decide (norm ∈ acc.2) then acc
  else (acc.1 ++ [Str.spaces_to_hyphen zt], {[norm]} ∪ acc.2).

Definition mergeFirstSync (fmTags zoteroTags : list string) : list string :=
  let fmNormSet : gset string := list_to_set (normalizeTag <$> fmTags) in
  (foldl firstSyncStep (fmTags, fmNormSet) zoteroTags).1.

(** The loop that collects [removedInZotero]. *)
Definition removedStep (zoteroNormSet : gset string) (removed : gset string)
    (ls : string) : gset string :=
  let norm := normalizeTag ls in
  if bool_decide (norm ∈ zoteroNormSet) then removed else {[norm]} ∪ removed.

(** The loop that adds the tags new in Zotero since the last sync. *)
Definition normalSyncStep (lastSyncedNormSet : gset string)
    (acc : list string * gset string) (zt : string) : list string * gset string :=
  let norm := normalizeTag zt in
  if (negb (bool_decide (norm ∈ lastSyncedNormSet))
      && negb (bool_decide (norm ∈ acc.2)))%bool
  then (acc.1 ++ [Str.spaces_to_hyphen zt], {[norm]} ∪ acc.2)
  else acc.

Definition mergeNormal (fmTags zoteroTags lastSynced : list string) : list string :=
  let lastSyncedNormSet : gset string := list_to_set (normalizeTag <$> lastSynced) in
  let zoteroNormSet : gset string := list_to_set (normalizeTag <$> zoteroTags) in
  let removedInZotero := foldl (removedStep zoteroNormSet) ∅ lastSynced in
  let merged :=
    List.filter (λ t, negb (bool_decide (normalizeTag t ∈ removedInZotero))) fmTags in
  let mergedNormSet : gset string := list_to_set (normalizeTag <$> merged) in
  (foldl (normalSyncStep lastSyncedNormSet) (merged, mergedNormSet) zoteroTags).1.

(** The payload of [pushTagsToZotero]: the merged tags with their hyphens
    turned into spaces, then the sync tag. *)
Definition tagsForZotero (merged : list string) (syncTag : string) : list string :=
  (Str.hyphens_to_spaces <$> merged) ++ [syncTag].

(** ** Data model *)

(** A Zotero item: [key], [version] and the fields of [data] the engine
    reads. [data_tags] holds the [tag] field of every entry of [data.tags],
    [None] when the field is missing. *)
Record ZoteroItem := {
  key : string;
  version : Z;
  data_itemType : string;
  data_tags : option (list string);
  data_collections : option (list string);
  data_contentType : option string;
  data_annotationType : option string;
  data_annotationPosition : option string;
}.

Record ZoteroAutoSyncSettings := {
  userId : string;
  syncTag : string;
  outputFolder : string;
  fileNameTemplate : string;
  templatePath : string;
  imageOutputFolder : string;
  zoteroCacheDirs : gmap string string;
  preserveUserContent : bool;
  lastSyncVersion : Z;
  itemVersions : gmap string Z;
  itemFilenames : gmap string string;
  lastSyncedTags : gmap string (list string);
}.

Record SyncResult := {
  created : nat;
  updated : nat;
  skipped : nat;
  errors : list string;
}.

Record SyncItemData := {
  item : ZoteroItem;
  children : list ZoteroItem;
  annotations : list ZoteroItem;
  collectionNames : list string;
  bibliography : string;
  annotationImages : option (gmap string string);
  citekey : option string;
}.

Record AnnotationPosition := { pageIndex : Z; pos_x : Z; pos_y : Z }.

(** What [getAbstractFileByPath] finds at a path of the vault. *)
Inductive TAbstractFile :=
  | TFile (content : string)
  | TFolder.

(** A [PATCH /items/<key>] request with its [If-Unmodified-Since-Version]. *)
Record PatchRequest := {
  patch_key : string;
  patch_tags : list string;
  patch_version : Z;
}.

(** A response of [GET /items]: status, the headers [last-modified-version]
    and [total-results] (already read as numbers) and the page of items. *)
Record ItemsResponse := {
  status : Z;
  lastModifiedVersion : option Z;
  totalResults : option Z;
  json : list ZoteroItem;
}.

(** The state the engine runs in: the settings object shared by the plugin,
    [SyncManager] and [VersionTracker]; the settings last written by
    [saveData]; the vault; the [isSyncing] flag; and logs of the requests,
    notices and progress calls sent out. *)
Record World := {
  settings : ZoteroAutoSyncSettings;
  saved : ZoteroAutoSyncSettings;
  vault : gmap string TAbstractFile;
  isSyncing : bool;
  patches : list PatchRequest;
  notices : list string;
  progress : list (nat * nat);
}.

(** The state of one cycle: the world and the [result] object. *)
Record Cycle := { world : World; result : SyncResult }.

(** ** The monad of the engine *)

Inductive outcome (A : Type) :=
  | Ok (a : A)
  | Throw (e : string).
Arguments Ok {A} a.
Arguments Throw {A} e.

(** A computation on a state [S]: [None] when it does not return (a loop out
    of fuel), otherwise a value or a thrown error with the state reached. *)
Definition M (S A : Type) : Type := S → option (outcome A * S).

Definition ret {S A} (a : A) : M S A := λ s, Some (Ok a, s).

Definition throw {S A} (e : string) : M S A := λ s, Some (Throw e, s).

Definition bind {S A B} (m : M S A) (k : A → M S B) : M S B :=
  λ s, match m s with
       | None => None
       | Some (Ok a, s') => k a s'
       | Some (Throw e, s') => Some (Throw e, s')
       end.

Notation "x <- m ;; k" := (bind m (λ x, k))
  (at level 20, m at level 99, k at level 200, format "x  <-  m ;;  '/' k").
Notation "m ;; k" := (bind m (λ _, k))
  (at level 100, k at level 200, right associativity, format "m ;;  '/' k").

Definition gets {S A} (f : S → A) : M S A := λ s, Some (Ok (f s), s).

Definition modify {S} (f : S → S) : M S unit := λ s, Some (Ok tt, f s).

(** [try { m } catch (e) { h e }] *)
Definition try_catch {S A} (m : M S A) (h : string → M S A) : M S A :=
  λ s, match m s with
       | None => None
       | Some (Ok a, s') => Some (Ok a, s')
       | Some (Throw e, s') => h e s'
       end.

(** A world computation run inside a cycle. *)
Definition liftW {A} (m : M World A) : M Cycle A :=
  λ c, match m (world c) with
       | None => None
       | Some (o, w') => Some (o, {| world := w'; result := result c |})
       end.

(** ** State updates *)

Definition set_settings (f : ZoteroAutoSyncSettings → ZoteroAutoSyncSettings)
    (w : World) : World :=
  {| settings := f (settings w); saved := saved w; vault := vault w;
     isSyncing := isSyncing w; patches := patches w; notices := notices w;
     progress := progress w |}.

Definition set_saved (s : ZoteroAutoSyncSettings) (w : World) : World :=
  {| settings := settings w; saved := s; vault := vault w;
     isSyncing := isSyncing w; patches := patches w; notices := notices w;
     progress := progress w |}.

Definition set_vault (f : gmap string TAbstractFile → gmap string TAbstractFile)
    (w : World) : World :=
  {| settings := settings w; saved := saved w; vault := f (vault w);
     isSyncing := isSyncing w; patches := patches w; notices := notices w;
     progress := progress w |}.

Definition set_isSyncing (b : bool) (w : World) : World :=
  {| settings := settings w; saved := saved w; vault := vault w;
     isSyncing := b; patches := patches w; notices := notices w;
     progress := progress w |}.

Definition add_patch (p : PatchRequest) (w : World) : World :=
  {| settings := settings w; saved := saved w; vault := vault w;
     isSyncing := isSyncing w; patches := patches w ++ [p]; notices := notices w;
     progress := progress w |}.

Definition add_notice (n : string) (w : World) : World :=
  {| settings := settings w; saved := saved w; vault := vault w;
     isSyncing := isSyncing w; patches := patches w; notices := notices w ++ [n];
     progress := progress w |}.

Definition add_progress (p : nat * nat) (w : World) : World :=
  {| settings := settings w; saved := saved w; vault := vault w;
     isSyncing := isSyncing w; patches := patches w; notices := notices w;
     progress := progress w ++ [p] |}.

Definition with_lastSyncVersion (v : Z) (s : ZoteroAutoSyncSettings) :=
  {| userId := userId s; syncTag := syncTag s; outputFolder := outputFolder s;
     fileNameTemplate := fileNameTemplate s; templatePath := templatePath s;
     imageOutputFolder := imageOutputFolder s; zoteroCacheDirs := zoteroCacheDirs s;
     preserveUserContent := preserveUserContent s; lastSyncVersion := v;
     itemVersions := itemVersions s; itemFilenames := itemFilenames s;
     lastSyncedTags := lastSyncedTags s |}.

Definition with_itemVersions (m : gmap string Z) (s : ZoteroAutoSyncSettings) :=
  {| userId := userId s; syncTag := syncTag s; outputFolder := outputFolder s;
     fileNameTemplate := fileNameTemplate s; templatePath := templatePath s;
     imageOutputFolder := imageOutputFolder s; zoteroCacheDirs := zoteroCacheDirs s;
     preserveUserContent := preserveUserContent s; lastSyncVersion := lastSyncVersion s;
     itemVersions := m; itemFilenames := itemFilenames s;
     lastSyncedTags := lastSyncedTags s |}.

Definition with_itemFilenames (m : gmap string string) (s : ZoteroAutoSyncSettings) :=
  {| userId := userId s; syncTag := syncTag s; outputFolder := outputFolder s;
     fileNameTemplate := fileNameTemplate s; templatePath := templatePath s;
     imageOutputFolder := imageOutputFolder s; zoteroCacheDirs := zoteroCacheDirs s;
     preserveUserContent := preserveUserContent s; lastSyncVersion := lastSyncVersion s;
     itemVersions := itemVersions s; itemFilenames := m;
     lastSyncedTags := lastSyncedTags s |}.

Definition with_lastSyncedTags (m : gmap string (list string))
    (s : ZoteroAutoSyncSettings) :=
  {| userId := userId s; syncTag := syncTag s; outputFolder := outputFolder s;
     fileNameTemplate := fileNameTemplate s; templatePath := templatePath s;
     imageOutputFolder := imageOutputFolder s; zoteroCacheDirs := zoteroCacheDirs s;
     preserveUserContent := preserveUserContent s; lastSyncVersion := lastSyncVersion s;
     itemVersions := itemVersions s; itemFilenames := itemFilenames s;
     lastSyncedTags := m |}.

Definition set_result (f : SyncResult → SyncResult) (c : Cycle) : Cycle :=
  {| world := world c; result := f (result c) |}.

Definition incr_created (r : SyncResult) : SyncResult :=
  {| created := S (created r); updated := updated r; skipped := skipped r;
     errors := errors r |}.

Definition incr_updated (r : SyncResult) : SyncResult :=
  {| created := created r; updated := S (updated r); skipped := skipped r;
     errors := errors r |}.

Definition incr_skipped (r : SyncResult) : SyncResult :=
  {| created := created r; updated := updated r; skipped := S (skipped r);
     errors := errors r |}.

Definition push_error (msg : string) (r : SyncResult) : SyncResult :=
  {| created := created r; updated := updated r; skipped := skipped r;
     errors := errors r ++ [msg] |}.

(** ** The collaborators of the engine

    What the cycle calls and the properties do not depend on: the Zotero
    Web API behind [ZoteroApiClient.request], the failures of the Obsidian
    vault and of [saveData], the renderer, and the pure readers and builders
    of strings ([parseFrontmatterTags] and the helpers of [utils]). Each is
    a field of [Env], so that every property holds whatever they return; an
    answer of the remote or of the disk may depend on the state reached. *)

Inductive VaultOp :=
  | OpCreate (path content : string)
  | OpCreateBinary (path data : string)
  | OpModify (path content : string)
  | OpCreateFolder (path : string).

Record Env := {
  (** [require('os').hostname()] *)
  hostname : string;
  (** pure readers and builders of strings *)
  parseFrontmatterTags : string → list string;
  generateFilename : ZoteroItem → ZoteroAutoSyncSettings → string;
  extractCitekey : ZoteroItem → string;
  normalizePath : string → string;
  parseAnnotationPosition : option string → option AnnotationPosition;
  buildAnnotationImagePath : string → string → AnnotationPosition → string;
  (** [NoteRenderer] *)
  render : ZoteroAutoSyncSettings → SyncItemData → outcome string;
  renderFromTemplate : ZoteroAutoSyncSettings → SyncItemData → string → outcome string;
  renderWithPreservedComments :
    ZoteroAutoSyncSettings → SyncItemData → string → string → outcome string;
  (** the Zotero Web API as [ZoteroApiClient] sees it *)
  fetchCollections : World → outcome unit;
  requestItems : string → option Z → Z → World → outcome ItemsResponse;
  fetchItem : string → World → option ZoteroItem;
  fetchItemChildren : string → World → outcome (list ZoteroItem);
  fetchAnnotations : string → World → outcome (list ZoteroItem);
  getCollectionName : string → World → option string;
  fetchBibliography : string → World → string;
  fetchAnnotationImage : string → World → option string;
  patchAccepted : PatchRequest → World → bool;
  (** [fs.readFileSync] on the local Zotero cache *)
  readCacheFile : string → string → World → option string;
  (** failures of [saveData] and of the writes to the vault *)
  saveDataError : World → option string;
  vaultError : VaultOp → World → option string;
}.

Definition of_outcome {S A} (o : outcome A) : M S A := λ s, Some (o, s).

Definition PAGE_LIMIT : Z := 100.

Definition emptyResult : SyncResult :=
  {| created := 0; updated := 0; skipped := 0; errors := [] |}.

Definition alreadyInProgress : SyncResult :=
  {| created := 0; updated := 0; skipped := 0;
     errors := ["Sync already in progress"] |}.

Definition is_TFile (f : option TAbstractFile) : bool :=
  match f with Some (TFile _) => true | _ => false end.

Definition is_TFolder (f : option TAbstractFile) : bool :=
  match f with Some TFolder => true | _ => false end.

Section Engine.

Variable E : Env.

(** *** Plugin: [saveSettings] *)

Definition saveSettings : M World unit :=
  failed <- gets (saveDataError E);;
  match failed with
  | Some e => throw e
  | None => modify (λ w, set_saved (settings w) w)
  end.

(** *** Vault

    The vault of Obsidian as the engine uses it: a path holds a file, a
    folder or nothing; [create], [createBinary] and [createFolder] throw when
    the path is taken, [modify] replaces the content; every write may also
    fail on the side of the disk ([vaultError]). The vault has a [delete];
    the engine has no call to it. *)

Definition getAbstractFileByPath (path : string) : M World (option TAbstractFile) :=
  gets (λ w, vault w !! path).

(** [vault.read(file)] for the file found at [path]. *)
Definition vault_read (path : string) : M World string :=
  f <- getAbstractFileByPath path;;
  match f with
  | Some (TFile content) => ret content
  | _ => throw "File not found."
  end.

Definition vault_write (op : VaultOp) (path : string) (f : TAbstractFile)
    : M World unit :=
  failed <- gets (vaultError E op);;
  match failed with
  | Some e => throw e
  | None => modify (set_vault (insert path f))
  end.

Definition vault_create (path content : string) : M World unit :=
  existing <- getAbstractFileByPath path;;
  match existing with
  | Some _ => throw "File already exists."
  | None => vault_write (OpCreate path content) path (TFile content)
  end.

Definition vault_createBinary (path data : string) : M World unit :=
  existing <- getAbstractFileByPath path;;
  match existing with
  | Some _ => throw "File already exists."
  | None => vault_write (OpCreateBinary path data) path (TFile data)
  end.

Definition vault_modify (path content : string) : M World unit :=
  vault_write (OpModify path content) path (TFile content).

Definition vault_createFolder (path : string) : M World unit :=
  existing <- getAbstractFileByPath path;;
  match existing with
  | Some _ => throw "Folder already exists."
  | None => vault_write (OpCreateFolder path) path TFolder
  end.

(** *** [VersionTracker] *)

Definition getLibraryVersion : M World Z :=
  gets (λ w, lastSyncVersion (settings w)).

Definition setLibraryVersion (v : Z) : M World unit :=
  modify (set_settings (with_lastSyncVersion v));;
  saveSettings.

Definition isItemChanged (itemKey : string) (newVersion : Z) : M World bool :=
  stored <- gets (λ w, itemVersions (settings w) !! itemKey);;
  ret match stored with
      | None => true
      | Some v => bool_decide (v < newVersion)
      end.

Definition setItemVersion (itemKey : string) (v : Z) : M World unit :=
  modify (set_settings (λ s, with_itemVersions (<[itemKey := v]> (itemVersions s)) s));;
  saveSettings.

Definition clearAll : M World unit :=
  modify (set_settings (λ s, with_itemVersions ∅ (with_lastSyncVersion 0 s)));;
  saveSettings.

(** *** [ZoteroApiClient] *)

(** The pagination loop of [fetchItemsByTag]; [fuel] bounds the number of
    pages requested. *)
Fixpoint fetchItemsByTag_from (fuel : nat) (tag : string) (since : option Z)
    (allItems : list ZoteroItem) (start : Z) (libraryVersion : Z)
    : M World (list ZoteroItem * Z) :=
  match fuel with
  | O => λ _, None
  | S fuel' =>
      let sinceParam :=
        match since with
        | Some v => if bool_decide (0 < v) then Some v else None
        | None => None
        end in
      response <- (λ w, of_outcome (requestItems E tag sinceParam start w) w);;
      if bool_decide (status response = 304) then ret ([], default 0 since)
      else
        let libraryVersion :=
          default libraryVersion (lastModifiedVersion response) in
        let items := json response in
        let allItems := allItems ++ items in
        let totalResults := default 0 (totalResults response) in
        let start := start + PAGE_LIMIT in
        if (bool_decide (totalResults ≤ start)
            || bool_decide (Z.of_nat (length items) < PAGE_LIMIT))%bool
        then ret (allItems, libraryVersion)
        else fetchItemsByTag_from fuel' tag since allItems start libraryVersion
  end.

Definition fetchItemsByTag (fuel : nat) (tag : string) (since : option Z)
    : M World (list ZoteroItem * Z) :=
  fetchItemsByTag_from fuel tag since [] 0 0.

(** [patchItemTags] sends the request and answers whether it was accepted;
    every failure, a version conflict (409) and a missing permission (403)
    included, is caught and answered with [false]. *)
Definition patchItemTags (itemKey : string) (tags : list string) (v : Z)
    : M World bool :=
  let request := {| patch_key := itemKey; patch_tags := tags; patch_version := v |} in
  accepted <- gets (patchAccepted E request);;
  modify (add_patch request);;
  ret accepted.

(** *** [SyncManager]: tags *)

Definition pushTagsToZotero (it : ZoteroItem) (merged : list string)
    (syncTag : string) (zoteroTags : list string) : M World unit :=
  if tagsEqual merged zoteroTags then ret tt
  else
    patchItemTags (key it) (tagsForZotero merged syncTag) (version it);;
    ret tt.

Definition with_tag_baseline (itemKey : string) (tags : list string)
    (w : World) : World :=
  set_settings (λ s, with_lastSyncedTags (<[itemKey := tags]> (lastSyncedTags s)) s) w.

(** Zotero tags of the item, the sync tag left out. *)
Definition zoteroTagsOf (syncTag : string) (it : ZoteroItem) : list string :=
  List.filter (λ t, negb (String.eqb t syncTag)) (default [] (data_tags it)).

Definition syncTagsTwoWay (it : ZoteroItem) (existingContent : option string)
    : M World (list string) :=
  syncTag <- gets (λ w, syncTag (settings w));;
  let zoteroTags := zoteroTagsOf syncTag it in
  match existingContent with
  | None | Some EmptyString =>
      modify (with_tag_baseline (key it) (Str.spaces_to_hyphen <$> zoteroTags));;
      saveSettings;;
      ret zoteroTags
  | Some content =>
      let fmTags := parseFrontmatterTags E content in
      lastSynced <- gets (λ w, lastSyncedTags (settings w) !! key it);;
      match lastSynced with
      | None =>
          let merged := mergeFirstSync fmTags zoteroTags in
          pushTagsToZotero it merged syncTag zoteroTags;;
          modify (with_tag_baseline (key it) merged);;
          saveSettings;;
          ret merged
      | Some lastSynced =>
          let merged := mergeNormal fmTags zoteroTags lastSynced in
          pushTagsToZotero it merged syncTag zoteroTags;;
          modify (with_tag_baseline (key it) merged);;
          saveSettings;;
          ret merged
      end
  end.

(** *** [SyncManager]: helpers of the cycle *)

Definition hasLocalCache (w : World) : bool :=
  match zoteroCacheDirs (settings w) !! hostname E with
  | Some dir => Str.truthy dir
  | None => false
  end.

Definition hasMissingImageAnnotations (file : string) : M World bool :=
  cache <- gets hasLocalCache;;
  if negb cache then ret false
  else
    content <- vault_read file;;
    ret (Str.includes "[Area highlight" content).

Definition hasLocalTagChanges (file : string) (itemKey : string) : M World bool :=
  lastSynced <- gets (λ w, lastSyncedTags (settings w) !! itemKey);;
  match lastSynced with
  | None => ret false
  | Some lastSynced =>
      content <- vault_read file;;
      let fmTags := parseFrontmatterTags E content in
      ret (negb (tagsEqual fmTags lastSynced))
  end.

Definition ensureFolder (folderPath : string) : M World unit :=
  let normalized := normalizePath E folderPath in
  existing <- getAbstractFileByPath normalized;;
  match existing with
  | None => vault_createFolder normalized
  | Some _ => ret tt
  end.

Fixpoint ensureFolderParts (current : string) (parts : list string) : M World unit :=
  match parts with
  | [] => ret tt
  | part :: parts' =>
      let current := if Str.truthy current then current +:+ "/" +:+ part else part in
      folder <- getAbstractFileByPath current;;
      match folder with
      | None => vault_createFolder current
      | Some _ => ret tt
      end;;
      ensureFolderParts current parts'
  end.

Definition ensureFolderRecursive (folderPath : string) : M World unit :=
  let normalized := normalizePath E folderPath in
  existing <- getAbstractFileByPath normalized;;
  if is_TFolder existing then ret tt
  else ensureFolderParts "" (Str.split "/" normalized).

Definition readFromLocalCache (annotationKey : string) : M World (option string) :=
  cacheDir <- gets (λ w, zoteroCacheDirs (settings w) !! hostname E);;
  match cacheDir with
  | None => ret None
  | Some dir =>
      if Str.truthy dir then gets (readCacheFile E dir annotationKey)
      else ret None
  end.

Fixpoint foldM {S A B} (f : B → A → M S B) (l : list A) (b : B) : M S B :=
  match l with
  | [] => ret b
  | a :: l' => b' <- f b a;; foldM f l' b'
  end.

(** One turn of the loop of [processImageAnnotations]; whatever is thrown
    inside is caught and the annotation is left without image. *)
Definition processImageAnnotation (imageFolder citekey : string)
    (annotationImages : gmap string string) (ann : ZoteroItem)
    : M World (gmap string string) :=
  try_catch
    (match parseAnnotationPosition E (data_annotationPosition ann) with
     | None => ret annotationImages
     | Some position =>
         let imagePath := buildAnnotationImagePath E imageFolder citekey position in
         let normalizedPath := normalizePath E imagePath in
         existingFile <- getAbstractFileByPath normalizedPath;;
         if is_TFile existingFile
         then ret (<[key ann := normalizedPath]> annotationImages)
         else
           web <- gets (fetchAnnotationImage E (key ann));;
           imageData <- match web with
                        | Some data => ret (Some data)
                        | None => readFromLocalCache (key ann)
                        end;;
           match imageData with
           | None => ret annotationImages
           | Some data =>
               ensureFolderRecursive (Str.before_last "/" normalizedPath);;
               vault_createBinary normalizedPath data;;
               ret (<[key ann := normalizedPath]> annotationImages)
           end
     end)
    (λ _, ret annotationImages).

Definition processImageAnnotations (it : ZoteroItem) (anns : list ZoteroItem)
    : M World (gmap string string) :=
  let imageAnnotations :=
    List.filter (λ a, bool_decide (data_annotationType a = Some "image")) anns in
  match imageAnnotations with
  | [] => ret ∅
  | _ =>
      s <- gets settings;;
      let citekey :=
        if Str.truthy (extractCitekey E it) then extractCitekey E it
        else generateFilename E it s in
      let imageFolder :=
        if Str.truthy (imageOutputFolder s) then imageOutputFolder s
        else "Maintenance/Attachments" in
      foldM (processImageAnnotation imageFolder citekey) imageAnnotations ∅
  end.

Definition collectAnnotations (acc : list ZoteroItem) (pdf : ZoteroItem)
    : M World (list ZoteroItem) :=
  anns <- (λ w, of_outcome (fetchAnnotations E (key pdf) w) w);;
  ret (acc ++ anns).

Definition buildSyncData (it : ZoteroItem) : M World SyncItemData :=
  children <- (λ w, of_outcome (fetchItemChildren E (key it) w) w);;
  let pdfAttachments :=
    List.filter (λ c, bool_decide (data_itemType c = "attachment")
                      && bool_decide (data_contentType c = Some "application/pdf"))
                children in
  allAnnotations <- foldM collectAnnotations pdfAttachments [];;
  let collectionKeys := default [] (data_collections it) in
  names <- gets (λ w, omap (λ k, match getCollectionName E k w with
                                 | Some n => if Str.truthy n then Some n else None
                                 | None => None
                                 end) collectionKeys);;
  bib <- gets (fetchBibliography E (key it));;
  images <- processImageAnnotations it allAnnotations;;
  ret {| item := it; children := children; annotations := allAnnotations;
         collectionNames := names; bibliography := bib;
         annotationImages := if bool_decide (images = ∅) then None else Some images;
         citekey := None |}.

Definition renderContent (syncData : SyncItemData) : M World string :=
  s <- gets settings;;
  fromTemplate <-
    (if Str.truthy (templatePath s) then
       let path := normalizePath E (templatePath s) in
       let path := if Str.endsWith ".md" path then path else path +:+ ".md" in
       templateFile <- getAbstractFileByPath path;;
       if is_TFile templateFile then
         template <- vault_read path;;
         rendered <- of_outcome (renderFromTemplate E s syncData template);;
         ret (Some rendered)
       else ret None
     else ret None);;
  match fromTemplate with
  | Some rendered => ret rendered
  | None => of_outcome (render E s syncData)
  end.

(** The stored file name of the item, generated and stored when missing. *)
Definition resolveFilename (itemKey : string) (it : ZoteroItem) : M World string :=
  stored <- gets (λ w, default "" (itemFilenames (settings w) !! itemKey));;
  if Str.truthy stored then ret stored
  else
    s <- gets settings;;
    let filename := generateFilename E it s in
    modify (set_settings
              (λ s, with_itemFilenames (<[itemKey := filename]> (itemFilenames s)) s));;
    saveSettings;;
    ret filename.

Definition filePathOf (s : ZoteroAutoSyncSettings) (filename : string) : string :=
  normalizePath E (outputFolder s +:+ "/" +:+ filename +:+ ".md").

(** The test of [syncAll] that ends in [result.skipped++; continue]. *)
Definition shouldSkip (it : ZoteroItem) (filePath : string)
    (existingFile : option TAbstractFile) : M World bool :=
  let fileExists := is_TFile existingFile in
  changed <- isItemChanged (key it) (version it);;
  if (negb changed && fileExists)%bool then
    hasMissingImages <- hasMissingImageAnnotations filePath;;
    hasTagChanges <- hasLocalTagChanges filePath (key it);;
    ret (negb hasMissingImages && negb hasTagChanges)%bool
  else ret false.

Definition with_tags (tags : list string) (it : ZoteroItem) : ZoteroItem :=
  {| key := key it; version := version it; data_itemType := data_itemType it;
     data_tags := Some tags; data_collections := data_collections it;
     data_contentType := data_contentType it;
     data_annotationType := data_annotationType it;
     data_annotationPosition := data_annotationPosition it |}.

Definition with_item_tags (tags : list string) (d : SyncItemData) : SyncItemData :=
  {| item := with_tags tags (item d); children := children d;
     annotations := annotations d; collectionNames := collectionNames d;
     bibliography := bibliography d; annotationImages := annotationImages d;
     citekey := citekey d |}.

Definition with_citekey (name : string) (d : SyncItemData) : SyncItemData :=
  {| item := item d; children := children d;
     annotations := annotations d; collectionNames := collectionNames d;
     bibliography := bibliography d; annotationImages := annotationImages d;
     citekey := Some name |}.

(** The part [syncAll] and [syncSingleItem] have in common, from the
    two-way tag sync to the write of the document and its count. *)
Definition rewriteDocument (it : ZoteroItem) (syncData : SyncItemData)
    (filePath : string) (existingFile : option TAbstractFile) : M Cycle unit :=
  existingContent <- liftW (if is_TFile existingFile
                            then content <- vault_read filePath;; ret (Some content)
                            else ret None);;
  mergedTags <- liftW (syncTagsTwoWay it existingContent);;
  tag <- liftW (gets (λ w, syncTag (settings w)));;
  let syncData := with_item_tags (mergedTags ++ [tag]) syncData in
  content <- liftW (renderContent syncData);;
  if is_TFile existingFile then
    s <- liftW (gets settings);;
    (if preserveUserContent s then
       merged <- liftW (of_outcome (renderWithPreservedComments E s syncData
                                      (default "" existingContent) content));;
       liftW (vault_modify filePath merged)
     else liftW (vault_modify filePath content));;
    modify (set_result incr_updated)
  else
    liftW (vault_create filePath content);;
    modify (set_result incr_created).

(** ... followed by the update of the version tracking. *)
Definition regenerate (it : ZoteroItem) (syncData : SyncItemData)
    (filePath : string) (existingFile : option TAbstractFile) : M Cycle unit :=
  rewriteDocument it syncData filePath existingFile;;
  liftW (setItemVersion (key it) (version it)).

(** The body of the [try] inside the loop of [syncAll]. *)
Definition syncItem (total processed : nat) (it : ZoteroItem) : M Cycle unit :=
  liftW (modify (add_progress (processed, total)));;
  filename <- liftW (resolveFilename (key it) it);;
  s <- liftW (gets settings);;
  let filePath := filePathOf s filename in
  existingFile <- liftW (getAbstractFileByPath filePath);;
  skip <- liftW (shouldSkip it filePath existingFile);;
  if skip then modify (set_result incr_skipped)
  else
    syncData <- liftW (buildSyncData it);;
    let syncData := with_citekey filename syncData in
    regenerate it syncData filePath existingFile.

Definition itemError (it : ZoteroItem) (e : string) : string :=
  "Error processing item " +:+ key it +:+ ": " +:+ e.

Fixpoint forEachItem (total processed : nat) (items : list ZoteroItem)
    : M Cycle unit :=
  match items with
  | [] => ret tt
  | it :: rest =>
      try_catch (syncItem total (S processed) it)
                (λ e, modify (set_result (push_error (itemError it e))));;
      forEachItem total (S processed) rest
  end.

Definition isTopLevel (it : ZoteroItem) : bool :=
  (negb (String.eqb (data_itemType it) "attachment")
   && negb (String.eqb (data_itemType it) "note")
   && negb (String.eqb (data_itemType it) "annotation"))%bool.

(** The [try] block of [syncAll]; [ret tt] stands for both [return result]
    and the end of the block. *)
Definition syncAll_try (fuel : nat) : M Cycle unit :=
  s <- liftW (gets settings);;
  if negb (Str.truthy (userId s))
  then throw "User ID is required. Configure it in settings."
  else
    liftW (λ w, of_outcome (fetchCollections E w) w);;
    sinceVersion <- liftW getLibraryVersion;;
    fetched <- liftW (fetchItemsByTag fuel (syncTag s)
                        (if bool_decide (0 < sinceVersion)
                         then Some sinceVersion else None));;
    let '(items, libraryVersion) := fetched in
    if (Nat.eqb (length items) 0 && bool_decide (0 < sinceVersion))%bool
    then ret tt
    else
      let topLevelItems := List.filter isTopLevel items in
      folder <- liftW (gets (λ w, outputFolder (settings w)));;
      liftW (ensureFolder folder);;
      forEachItem (length topLevelItems) 0 topLevelItems;;
      if bool_decide (0 < libraryVersion)
      then liftW (setLibraryVersion libraryVersion)
      else ret tt.

(** [catch] and [finally] of [syncAll] and [syncSingleItem]: the error, if
    any, is pushed on [result.errors] under [prefix]; [isSyncing] is reset;
    [result] is returned. *)
Definition finish (o : outcome unit) (c : Cycle) : SyncResult * World :=
  let r := match o with
           | Ok _ => result c
           | Throw e => push_error ("Sync failed: " +:+ e) (result c)
           end in
  (r, set_isSyncing false (world c)).

Definition syncAll (fuel : nat) (w : World) : option (SyncResult * World) :=
  if isSyncing w then
    Some (alreadyInProgress, add_notice "Zotero sync already in progress" w)
  else
    let c := {| world := set_isSyncing true w; result := emptyResult |} in
    match syncAll_try fuel c with
    | None => None
    | Some (o, c') => Some (finish o c')
    end.

(** The [try] block of [syncSingleItem]. *)
Definition syncSingleItem_try (itemKey : string) : M Cycle unit :=
  s <- liftW (gets settings);;
  if negb (Str.truthy (userId s)) then throw "User ID is required."
  else
    liftW (λ w, of_outcome (fetchCollections E w) w);;
    found <- liftW (gets (fetchItem E itemKey));;
    match found with
    | None =>
        modify (set_result (push_error ("Item " +:+ itemKey +:+ " not found in Zotero.")))
    | Some it =>
        folder <- liftW (gets (λ w, outputFolder (settings w)));;
        liftW (ensureFolder folder);;
        filename <- liftW (resolveFilename itemKey it);;
        syncData <- liftW (buildSyncData it);;
        let syncData := with_citekey filename syncData in
        s <- liftW (gets settings);;
        let filePath := filePathOf s filename in
        existingFile <- liftW (getAbstractFileByPath filePath);;
        regenerate it syncData filePath existingFile
    end.

Definition syncSingleItem (itemKey : string) (w : World)
    : option (SyncResult * World) :=
  if isSyncing w then
    Some (alreadyInProgress, add_notice "Zotero sync already in progress" w)
  else
    let c := {| world := set_isSyncing true w; result := emptyResult |} in
    match syncSingleItem_try itemKey c with
    | None => None
    | Some (o, c') => Some (finish o c')
    end.

End Engine.

(** ** Descriptions used by the statements *)

(** The tags [syncTagsTwoWay] returns when nothing fails. *)
Definition mergedTags (E : Env) (it : ZoteroItem) (existingContent : option string)
    (w : World) : list string :=
  let zoteroTags := zoteroTagsOf (syncTag (settings w)) it in
  match existingContent with
  | None | Some EmptyString => zoteroTags
  | Some content =>
      match lastSyncedTags (settings w) !! key it with
      | None => mergeFirstSync (parseFrontmatterTags E content) zoteroTags
      | Some lastSynced => mergeNormal (parseFrontmatterTags E content) zoteroTags lastSynced
      end
  end.

(** The tags of the document handed to [syncTagsTwoWay]: none when there is
    no document or an empty one. *)
Definition documentTagsOf (E : Env) (existingContent : option string) : list string :=
  match existingContent with
  | None | Some EmptyString => []
  | Some content => parseFrontmatterTags E content
  end.

(** The request [pushTagsToZotero] sends for the merged tags. *)
Definition tagPush (it : ZoteroItem) (merged : list string) (syncTag : string)
    : PatchRequest :=
  {| patch_key := key it; patch_tags := tagsForZotero merged syncTag;
     patch_version := version it |}.

(** The baseline [syncTagsTwoWay] stores. *)
Definition storedBaseline (E : Env) (it : ZoteroItem) (existingContent : option string)
    (w : World) : list string :=
  match existingContent with
  | None | Some EmptyString =>
      Str.spaces_to_hyphen <$> zoteroTagsOf (syncTag (settings w)) it
  | Some _ => mergedTags E it existingContent w
  end.

(** [keeps R m]: whenever [m] returns, with a value or an error, the states
    before and after are related by [R]. *)
Definition keeps {S : Type} (R : relation S) {A : Type} (m : M S A) : Prop :=
  ∀ s o s', m s = Some (o, s') → R s s'.

(** [returns m]: from every state [m] returns, with a value or an error. *)
Definition returns {S A : Type} (m : M S A) : Prop :=
  ∀ s, ∃ o s', m s = Some (o, s').

(** The first page of an incremental request reports no changes: the remote
    answers 304, or an empty page. *)
Definition reportsNoChanges (o : outcome ItemsResponse) : Prop :=
  match o with
  | Ok response => status response = 304 ∨ json response = []
  | Throw _ => False
  end.

(** Documents are kept: a path that holds a file still holds a file. *)
Definition docs_kept (w w' : World) : Prop :=
  ∀ path, is_TFile (vault w !! path) = true → is_TFile (vault w' !! path) = true.

(** A relation on worlds, read on the cycles that run in them. *)
Definition on_world (R : relation World) : relation Cycle :=
  λ c c', R (world c) (world c').

(** The version baseline of every record is as it was. *)
Definition versions_kept (w w' : World) : Prop :=
  itemVersions (settings w') = itemVersions (settings w).

(** No version baseline has changed and no document was counted down. *)
Definition quiet (c c' : Cycle) : Prop :=
  versions_kept (world c) (world c')
  ∧ (created (result c) ≤ created (result c'))%nat
  ∧ (updated (result c) ≤ updated (result c'))%nat.

(** No document was written: neither [created] nor [updated] has moved. *)
Definition unwritten (c c' : Cycle) : Prop :=
  created (result c') = created (result c)
  ∧ updated (result c') = updated (result c).

(** The counts do not go down, and as long as no document was written no
    version baseline has changed. *)
Definition guarded (c c' : Cycle) : Prop :=
  (created (result c) ≤ created (result c'))%nat
  ∧ (updated (result c) ≤ updated (result c'))%nat
  ∧ (unwritten c c' → versions_kept (world c) (world c')).

(** The errors recorded so far stay recorded, in their order. *)
Definition errors_kept (c c' : Cycle) : Prop :=
  errors (result c) `prefix_of` errors (result c').

(** The baselines of the engine: the library version, the version of every
    record and the tags last reconciled for every record. *)
Definition baselines (s : ZoteroAutoSyncSettings)
    : Z * gmap string Z * gmap string (list string) :=
  (lastSyncVersion s, itemVersions s, lastSyncedTags s).

(** The side conditions of the skip decision, on the content of the
    document. *)
Definition missingImages (E : Env) (w : World) (content : string) : Prop :=
  hasLocalCache E w = true ∧ Str.includes "[Area highlight" content = true.

(** The tag header of the document no longer matches the tag baseline. *)
Definition tagDrift (E : Env) (w : World) (itemKey : string) (content : string) : Prop :=
  ∃ lastSynced,
    lastSyncedTags (settings w) !! itemKey = Some lastSynced
    ∧ ¬ (normalizeTag <$> parseFrontmatterTags E content) ≡ₚ (normalizeTag <$> lastSynced).


(** ** The tag merge as the specification words it

    A second definition of the merge, written from the text of the
    specification on lists, to be compared with the loops of
    [syncTagsTwoWay]. A tag is present when its normal form is the normal
    form of a tag already in the result; a tag that is added takes the
    formatting of the documents (white space as a hyphen). *)

Module Spec.

(** The tags to append: every tag of [remote] whose normal form is not in
    [present], each normal form once. *)
Fixpoint addMissing (present : list string) (remote : list string) : list string :=
  match remote with
  | [] => []
  | t :: rest =>
      if bool_decide (normalizeTag t ∈ present) then addMissing present rest
      else Str.spaces_to_hyphen t :: addMissing (normalizeTag t :: present) rest
  end.

(** [a − b], the normalized difference. *)
Definition minus (a b : list string) : list string :=
  List.filter (λ t, negb (bool_decide (normalizeTag t ∈ normalizeTag <$> b))) a.

(** Step 1: no baseline. *)
Definition mergeAdditive (documentTags remoteTags : list string) : list string :=
  documentTags ++ addMissing (normalizeTag <$> documentTags) remoteTags.

(** Step 2: with a baseline. *)
Definition mergeWithBaseline (documentTags remoteTags lastReconciledTags : list string)
    : list string :=
  let removedInRemote := minus lastReconciledTags remoteTags in
  let kept := minus documentTags removedInRemote in
  kept ++ addMissing (normalizeTag <$> kept) (minus remoteTags lastReconciledTags).

(** Step 3: the merged tags and the remote tags differ under normalization,
    as collections in which a tag may occur several times. *)
Definition differs (merged remoteTags : list string) : Prop :=
  ¬ (normalizeTag <$> merged) ≡ₚ (normalizeTag <$> remoteTags).

(** Step 3 on sets: the sets of normal forms differ. *)
Definition differs_as_sets (merged remoteTags : list string) : Prop :=
  (list_to_set (normalizeTag <$> merged) : gset string)
  ≠ list_to_set (normalizeTag <$> remoteTags).

End Spec.

(** ** Claims that the code does not meet, as they are worded *)

Module Claimed.

(** With a baseline, the merged tags are those of the specification, as
    sets of normal forms, for every document, a missing one included. *)
Definition merge_with_baseline (E : Env) (it : ZoteroItem)
    (existingContent : option string) (w : World) : Prop :=
  ∀ lastReconciledTags o w' merged,
    lastSyncedTags (settings w) !! key it = Some lastReconciledTags →
    syncTagsTwoWay E it existingContent w = Some (o, w') →
    o = Ok merged →
    ∀ n, n ∈ normalizeTag <$> merged
         ↔ n ∈ normalizeTag <$> Spec.mergeWithBaseline
                                  (documentTagsOf E existingContent)
                                  (zoteroTagsOf (syncTag (settings w)) it)
                                  lastReconciledTags.

(** The push decision on sets, with the merged tags themselves as payload. *)
Definition push (E : Env) (it : ZoteroItem) (existingContent : option string)
    (w : World) : Prop :=
  ∀ o w', syncTagsTwoWay E it existingContent w = Some (o, w') →
    let merged := mergedTags E it existingContent w in
    let remoteTags := zoteroTagsOf (syncTag (settings w)) it in
    (Spec.differs_as_sets merged remoteTags →
       patches w'
       = patches w ++ [{| patch_key := key it;
                          patch_tags := merged ++ [syncTag (settings w)];
                          patch_version := version it |}])
    ∧ (¬ Spec.differs_as_sets merged remoteTags → patches w' = patches w).

(** A record whose processing raised an error keeps its version baseline
    and its tag baseline. *)
Definition failure_keeps_baselines (E : Env) (fuel : nat) (w : World) : Prop :=
  ∀ r w' it e,
    syncAll E fuel w = Some (r, w') →
    itemError it e ∈ errors r →
    itemVersions (settings w') !! key it = itemVersions (settings w) !! key it
    ∧ lastSyncedTags (settings w') !! key it = lastSyncedTags (settings w) !! key it.

(** A full cycle run twice, the second right from the state the first has
    left, so that nothing but the engine itself has reached the remote in
    between: the second creates nothing, updates nothing, and leaves the
    baselines as they were. *)
Definition idempotence (E : Env) (fuel : nat) (w0 : World) : Prop :=
  ∀ r1 w1 r2 w2,
    syncAll E fuel w0 = Some (r1, w1) →
    syncAll E fuel w1 = Some (r2, w2) →
    created r2 = 0%nat ∧ updated r2 = 0%nat
    ∧ baselines (settings w2) = baselines (settings w1).

End Claimed.

(** ** A test double of the collaborators

    Used to run the engine on concrete inputs: a document is its tags, one
    per line; the renderer writes the tags of the item, the sync tag left
    out; the remote answers every [GET /items] with the page [remoteItems]
    at library version [remoteVersion], and nothing when [since] is that
    version; [failWrites] makes every write of a document fail. *)

Module Test.

Fixpoint join (sep : string) (l : list string) : string :=
  match l with
  | [] => ""
  | [x] => x
  | x :: l' => x +:+ sep +:+ join sep l'
  end.

Definition newline : ascii := "010"%char.

Definition parse (content : string) : list string :=
  List.filter Str.truthy (Str.split newline content).

(** A document with the given tags. *)
Definition doc (tags : list string) : string := join (String newline "") tags.

Definition renderTags (s : ZoteroAutoSyncSettings) (d : SyncItemData)
    : outcome string :=
  Ok (doc (List.filter (λ t, negb (String.eqb t (syncTag s)))
                       (default [] (data_tags (item d))))).

Definition respond (remoteItems : list ZoteroItem) (remoteVersion : Z)
    (since : option Z) : outcome ItemsResponse :=
  if bool_decide (since = Some remoteVersion)
  then Ok {| status := 304; lastModifiedVersion := Some remoteVersion;
             totalResults := Some 0; json := [] |}
  else Ok {| status := 200; lastModifiedVersion := Some remoteVersion;
             totalResults := Some (Z.of_nat (length remoteItems));
             json := remoteItems |}.

Definition env (remoteItems : list ZoteroItem) (remoteVersion : Z)
    (failWrites : bool) : Env :=
  {| hostname := "laptop";
     parseFrontmatterTags := parse;
     generateFilename := λ it _, key it;
     extractCitekey := λ _, "";
     normalizePath := λ p, p;
     parseAnnotationPosition := λ _, None;
     buildAnnotationImagePath := λ folder name _, folder +:+ "/" +:+ name;
     render := renderTags;
     renderFromTemplate := λ s d _, renderTags s d;
     renderWithPreservedComments := λ _ _ _ content, Ok content;
     fetchCollections := λ _, Ok tt;
     requestItems := λ _ since _ _, respond remoteItems remoteVersion since;
     fetchItem := λ k _, List.find (λ it, String.eqb (key it) k) remoteItems;
     fetchItemChildren := λ _ _, Ok [];
     fetchAnnotations := λ _ _, Ok [];
     getCollectionName := λ _ _, None;
     fetchBibliography := λ _ _, "";
     fetchAnnotationImage := λ _ _, None;
     patchAccepted := λ _ _, false;
     readCacheFile := λ _ _ _, None;
     saveDataError := λ _, None;
     vaultError := λ op _,
       match op with
       | OpCreate _ _ | OpModify _ _ =>
           if failWrites then Some "disk full" else None
       | _ => None
       end |}.

Definition defaults : ZoteroAutoSyncSettings :=
  {| userId := "42"; syncTag := "obsidian"; outputFolder := "Notes";
     fileNameTemplate := "{{citekey}}"; templatePath := "";
     imageOutputFolder := "Maintenance/Attachments"; zoteroCacheDirs := ∅;
     preserveUserContent := true; lastSyncVersion := 0;
     itemVersions := ∅; itemFilenames := ∅; lastSyncedTags := ∅ |}.

Definition start (s : ZoteroAutoSyncSettings) (files : gmap string TAbstractFile)
    : World :=
  {| settings := s; saved := s; vault := files; isSyncing := false;
     patches := []; notices := []; progress := [] |}.

Definition record (k : string) (v : Z) (tags : list string) : ZoteroItem :=
  {| key := k; version := v; data_itemType := "journalArticle";
     data_tags := Some tags; data_collections := None;
     data_contentType := None; data_annotationType := None;
     data_annotationPosition := None |}.

(** Settings in which the record [k] was synced at version [v] under the
    file name [k], with the tag baseline [tags] if any. *)
Definition synced (k : string) (v : Z) (tags : option (list string))
    : ZoteroAutoSyncSettings :=
  with_lastSyncedTags (from_option (λ t, {[k := t]}) ∅ tags)
    (with_itemFilenames {[k := k]} (with_itemVersions {[k := v]} defaults)).

End Test.

(** * Further definitions

    What the further properties are stated with, and the parts of the
    renderer, of the API client, of the file name helpers and of the
    plugin they are about. *)

From stdpp Require pretty.

(** ** A remote that serves its items in pages *)

(** The page of [items] that starts at [start]. *)
Definition pageAt (items : list ZoteroItem) (start : Z) : list ZoteroItem :=
  take (Z.to_nat PAGE_LIMIT) (drop (Z.to_nat start) items).

(** The remote holds [items] under [tag] at the library version [v]: every
    [GET /items] for [tag] is answered, not by 304, with the page asked for
    and the two headers. *)
Definition servesPages (E : Env) (tag : string) (items : list ZoteroItem) (v : Z)
    : Prop :=
  ∀ since start w, 0 ≤ start →
    ∃ response,
      requestItems E tag since start w = Ok response
      ∧ status response ≠ 304
      ∧ lastModifiedVersion response = Some v
      ∧ totalResults response = Some (Z.of_nat (length items))
      ∧ json response = pageAt items start.

(** [E] with another remote behind [GET /items]. *)
Definition withRequestItems
    (request : string → option Z → Z → World → outcome ItemsResponse) (E : Env) : Env :=
  {| hostname := hostname E;
     parseFrontmatterTags := parseFrontmatterTags E;
     generateFilename := generateFilename E;
     extractCitekey := extractCitekey E;
     normalizePath := normalizePath E;
     parseAnnotationPosition := parseAnnotationPosition E;
     buildAnnotationImagePath := buildAnnotationImagePath E;
     render := render E;
     renderFromTemplate := renderFromTemplate E;
     renderWithPreservedComments := renderWithPreservedComments E;
     fetchCollections := fetchCollections E;
     requestItems := request;
     fetchItem := fetchItem E;
     fetchItemChildren := fetchItemChildren E;
     fetchAnnotations := fetchAnnotations E;
     getCollectionName := getCollectionName E;
     fetchBibliography := fetchBibliography E;
     fetchAnnotationImage := fetchAnnotationImage E;
     patchAccepted := patchAccepted E;
     readCacheFile := readCacheFile E;
     saveDataError := saveDataError E;
     vaultError := vaultError E |}.

Module Paged.

(** The test double [Test.env] with a remote that serves [remoteItems] in
    pages, at the library version [remoteVersion]. *)
Definition env (remoteItems : list ZoteroItem) (remoteVersion : Z) : Env :=
  withRequestItems
    (λ _ _ start _,
       Ok {| status := 200; lastModifiedVersion := Some remoteVersion;
             totalResults := Some (Z.of_nat (length remoteItems));
             json := pageAt remoteItems start |})
    (Test.env remoteItems remoteVersion false).

(** The test double with a remote that is down. *)
Definition down : Env :=
  withRequestItems (λ _ _ _ _, Throw "Zotero API error 503: Unknown error")
    (Test.env [] 0 false).

(** [n] records, at the versions [n], ..., [1]. *)
Fixpoint records (n : nat) : list ZoteroItem :=
  match n with
  | O => []
  | S n' => Test.record "R" (Z.of_nat n) ["obsidian"] :: records n'
  end.

End Paged.

(** ** Descriptions used by the further statements *)

(** The settings the user configures, as far as the engine reads them. *)
Definition configuration (s : ZoteroAutoSyncSettings) :=
  (userId s, syncTag s, outputFolder s, fileNameTemplate s, templatePath s,
   imageOutputFolder s, zoteroCacheDirs s, preserveUserContent s).

Definition configuration_kept (w w' : World) : Prop :=
  configuration (settings w') = configuration (settings w).

(** Every record that has a file name, a string that is not empty, still
    has this file name. *)
Definition filenames_kept (w w' : World) : Prop :=
  ∀ itemKey filename,
    itemFilenames (settings w) !! itemKey = Some filename →
    Str.truthy filename = true →
    itemFilenames (settings w') !! itemKey = Some filename.

(** The sync tag is as it was, and the requests sent since are pushes whose
    tags end with it. *)
Definition pushes_carry_sync_tag (w w' : World) : Prop :=
  syncTag (settings w') = syncTag (settings w)
  ∧ ∃ sent,
      patches w' = patches w ++ sent
      ∧ Forall (λ p, last (patch_tags p) = Some (syncTag (settings w))) sent.

(** Nothing was added to the progress log. *)
Definition progress_kept (w w' : World) : Prop := progress w' = progress w.

(** The file names and the output folder are as they were. *)
Definition naming_kept (w w' : World) : Prop :=
  itemFilenames (settings w') = itemFilenames (settings w)
  ∧ outputFolder (settings w') = outputFolder (settings w).

(** The records a [SyncResult] counts. *)
Definition counted (r : SyncResult) : nat := (created r + updated r + skipped r)%nat.

(** The progress calls of a loop over [total] records: [(1, total)], ...,
    [(total, total)]. *)
Definition progressCalls (total : nat) : list (nat * nat) :=
  (λ i, (i, total)) <$> seq 1 total.

(** The cycle started from [w] gets to the loop, over the top-level records
    among [items]: no cycle is running, the user id is set, the collections
    and the items are fetched, there is an item or no cursor, and the output
    folder is there or made. *)
Definition reachesLoop (E : Env) (fuel : nat) (w : World) (items : list ZoteroItem)
    : Prop :=
  let s := settings w in
  let since :=
    if bool_decide (0 < lastSyncVersion s) then Some (lastSyncVersion s) else None in
  isSyncing w = false
  ∧ Str.truthy (userId s) = true
  ∧ fetchCollections E (set_isSyncing true w) = Ok tt
  ∧ (∃ lv w1, fetchItemsByTag E fuel (syncTag s) since (set_isSyncing true w)
              = Some (Ok (items, lv), w1))
  ∧ (items ≠ [] ∨ ¬ 0 < lastSyncVersion s)
  ∧ ∃ w1, ensureFolder E (outputFolder s) (set_isSyncing true w) = Some (Ok tt, w1).

(** ** [NoteRenderer]: the comments of the user

    [renderWithPreservedComments] and [findCommentsRange], on strings of
    bytes. [SyncManager] always hands over the rendered content, so that
    [newContent ?? this.render(syncData)] is [rendered]. *)

Module Text.

Fixpoint take (n : nat) (s : string) : string :=
  match n, s with
  | S n', String c s' => String c (take n' s')
  | _, _ => EmptyString
  end.

Fixpoint drop (n : nat) (s : string) : string :=
  match n, s with
  | S n', String _ s' => drop n' s'
  | _, _ => s
  end.

(** [s.substring(a, b)]: the characters from [a] to [b], the two taken in
    order; positions beyond the end count as the end. *)
Definition substring (a b : nat) (s : string) : string :=
  if Nat.leb a b then take (b - a) (drop a s) else take (a - b) (drop b s).

(** The first position at which [needle] occurs in [s]. *)
Fixpoint find (needle s : string) : option nat :=
  if String.prefix needle s then Some O
  else match s with
       | EmptyString => None
       | String _ s' => S <$> find needle s'
       end.

(** [s.indexOf(needle, from)], [None] for the [-1] of JavaScript; a
    position beyond the end counts as the end. *)
Definition indexOf (needle : string) (from : nat) (s : string) : option nat :=
  let from := Nat.min from (String.length s) in
  (λ i, (from + i)%nat) <$> find needle (drop from s).

Definition newline : string := String "010"%char EmptyString.

(** [l.join(sep)] *)
Fixpoint join (sep : string) (l : list string) : string :=
  match l with
  | [] => ""
  | [x] => x
  | x :: l' => x +:+ sep +:+ join sep l'
  end.

End Text.

Module NoteRenderer.

Definition beginMarker : string := "%% begin Comments %%".
Definition endMarker : string := "%% end Comments %%".

(** The range between the two markers, the markers included. *)
Definition markerRange (content : string) : option (nat * nat) :=
  match Text.indexOf beginMarker 0 content with
  | Some markerStart =>
      match Text.indexOf endMarker markerStart content with
      | Some markerEnd => Some (markerStart, (markerEnd + String.length endMarker)%nat)
      | None => None
      end
  | None => None
  end.

(** The range of the section under the old heading [## Comments], up to the
    next heading of the same level. *)
Definition headingRange (content : string) : option (nat * nat) :=
  match Text.indexOf "## Comments" 0 content with
  | None => None
  | Some commentsStart =>
      match Text.indexOf Text.newline commentsStart content with
      | None => Some (commentsStart, String.length content)
      | Some afterHeading =>
          match Text.indexOf (Text.newline +:+ "## ") afterHeading content with
          | None => Some (commentsStart, String.length content)
          | Some nextHeading => Some (commentsStart, S nextHeading)
          end
      end
  end.

Definition findCommentsRange (content : string) : option (nat * nat) :=
  match markerRange content with
  | Some range => Some range
  | None => headingRange content
  end.

Definition renderWithPreservedComments (rendered existingContent : string) : string :=
  match findCommentsRange existingContent with
  | None => rendered
  | Some (oldStart, oldEnd) =>
      let preservedComments := Text.substring oldStart oldEnd existingContent in
      let preservedComments :=
        if Str.includes beginMarker preservedComments then preservedComments
        else beginMarker +:+ Text.newline +:+ preservedComments
             +:+ Text.newline +:+ endMarker in
      match findCommentsRange rendered with
      | None => rendered
      | Some (newStart, newEnd) =>
          Text.substring 0 newStart rendered
          +:+ preservedComments
          +:+ Text.drop newEnd rendered
      end
  end.

(** The comments section of a document, when it has one. *)
Definition commentsOf (content : string) : option string :=
  match findCommentsRange content with
  | Some (start, stop) => Some (Text.substring start stop content)
  | None => None
  end.

End NoteRenderer.

Module Notes.

(** A rendered note with an empty comments section, and the note of an
    earlier rendering in which the user has written. *)
Definition rendered : string :=
  "title" +:+ Text.newline +:+ "%% begin Comments %%" +:+ Text.newline
  +:+ "## Comments " +:+ Text.newline +:+ Text.newline
  +:+ "%% end Comments %%" +:+ Text.newline +:+ "## Info".

Definition existing : string :=
  "old" +:+ Text.newline +:+ "%% begin Comments %%" +:+ Text.newline
  +:+ "## Comments " +:+ Text.newline +:+ "my note" +:+ Text.newline
  +:+ "%% end Comments %%" +:+ Text.newline +:+ "## Old info".

End Notes.

(** ** [ZoteroApiClient]: requests

    [request] as a function of what the remote answers to the first
    attempt, the second, and so on: a 429 is waited out and the request is
    made again; [fuel] bounds the number of attempts. Waiting takes time and
    nothing else, and is left out. *)

Module ApiClient.

Record HttpResponse (A : Type) := {
  http_status : Z;
  http_text : string;
  http_json : A;
}.
Arguments http_status {A} _.
Arguments http_text {A} _.
Arguments http_json {A} _.

Section Request.

Context {A : Type}.

(** [this.getApiKey()], and the answers of [requestUrl] by attempt. *)
Variable getApiKey : option string.
Variable requestUrl : nat → HttpResponse A.

Definition apiError (response : HttpResponse A) : string :=
  "Zotero API error " +:+ pretty.pretty (http_status response) +:+ ": "
  +:+ (if Str.truthy (http_text response) then http_text response else "Unknown error").

Fixpoint request (fuel : nat) (attempt : nat) : option (outcome (HttpResponse A)) :=
  match fuel with
  | O => None
  | S fuel' =>
      if Str.truthy (default "" getApiKey) then
        let response := requestUrl attempt in
        if bool_decide (http_status response = 429) then request fuel' (S attempt)
        else if bool_decide (400 ≤ http_status response)
             then Some (Throw (apiError response))
             else Some (Ok response)
      else Some (Throw "Zotero API key not configured. Set it in plugin settings.")
  end.

(** [testConnection]: [ok] and [message]. *)
Definition testConnection (fuel : nat) : option (bool * string) :=
  match request fuel 0 with
  | None => None
  | Some (Ok response) =>
      if bool_decide (http_status response = 200)
      then Some (true, "Connection successful!")
      else if bool_decide (http_status response = 403)
           then Some (false, "Invalid API key or insufficient permissions.")
           else Some (false, "Unexpected response: " +:+ pretty.pretty (http_status response))
  | Some (Throw e) => Some (false, "Connection failed: " +:+ e)
  end.

End Request.

(** [fetchItemsByKeys]: [requestByKeys batch] stands for the request with
    [itemKey: batch.join(',')] and the [json] of its response. The loop
    stops when [i] has reached the number of keys, which it does within as
    many turns. *)
Fixpoint fetchItemsByKeys_from (requestByKeys : list string → M World (list ZoteroItem))
    (fuel : nat) (keys : list string) (i : nat) (allItems : list ZoteroItem)
    : M World (list ZoteroItem) :=
  match fuel with
  | O => λ _, None
  | S fuel' =>
      if bool_decide (i < length keys)%nat then
        let batch := take 50 (drop i keys) in
        items <- requestByKeys batch;;
        fetchItemsByKeys_from requestByKeys fuel' keys (i + 50) (allItems ++ items)
      else ret allItems
  end.

Definition fetchItemsByKeys (requestByKeys : list string → M World (list ZoteroItem))
    (keys : list string) : M World (list ZoteroItem) :=
  fetchItemsByKeys_from requestByKeys (S (length keys)) keys 0 [].

End ApiClient.

Module Remote.

(** A remote that knows every key, and refuses a request for more than 50
    keys, as the Zotero Web API does. *)
Definition known (batch : list string) : list ZoteroItem :=
  (λ k, Test.record k 1 ["obsidian"]) <$> batch.

Definition byKeys (batch : list string) : M World (list ZoteroItem) :=
  if bool_decide (length batch ≤ 50)%nat then ret (known batch)
  else throw "Zotero API error 400: Too many item keys".

(** The keys [K0], ..., [K<n-1>]. *)
Definition keys (n : nat) : list string := (λ i, "K" +:+ pretty.pretty i) <$> seq 0 n.

(** The remote answers the first attempt with [status] and [text]. *)
Definition answers (status : Z) (text : string) : nat → ApiClient.HttpResponse unit :=
  λ _, {| ApiClient.http_status := status; ApiClient.http_text := text;
          ApiClient.http_json := tt |}.

End Remote.

(** ** [utils/filename]

    A field that is missing and a field that is the empty string are both
    falsy, and the code tells them apart nowhere: both are the empty
    string here. [extractCitekey], a regular expression on the field
    [extra], and the substitution of a template of the user are taken as
    given. *)

Module Filename.

Fixpoint filter (keep : ascii → bool) (s : string) : string :=
  match s with
  | EmptyString => EmptyString
  | String c s' => if keep c then String c (filter keep s') else filter keep s'
  end.

(** [s.trimStart()], [s.trimEnd()] and [s.trim()]. *)
Fixpoint trimStart (s : string) : string :=
  match s with
  | EmptyString => EmptyString
  | String c s' => if Str.is_space c then trimStart s' else s
  end.

Definition trimEnd (s : string) : string := String.rev (trimStart (String.rev s)).

Definition trim (s : string) : string := trimEnd (trimStart s).

(** The characters of [UNSAFE_CHARS]: backslash, slash, colon, asterisk,
    question mark, double quote, angle brackets, bar, hash, caret and
    square brackets. *)
Definition UNSAFE_CHARS : list ascii :=
  ["\"; "/"; ":"; "*"; "?"; "034"; "<"; ">"; "|"; "#"; "^"; "["; "]"]%char.

Definition unsafe (c : ascii) : bool := bool_decide (c ∈ UNSAFE_CHARS).

(** [c.toUpperCase()] on one ASCII character. *)
Definition upper (c : ascii) : ascii :=
  let n := nat_of_ascii c in
  if (Nat.leb 97 n && Nat.leb n 122)%bool then ascii_of_nat (n - 32) else c.

Definition is_digit (c : ascii) : bool :=
  let n := nat_of_ascii c in (Nat.leb 48 n && Nat.leb n 57)%bool.

Record Creator := { lastName : string; name : string }.

Record ItemData := {
  title : string;
  creators : list Creator;
  date : string;
}.

(** [capitalizeHyphenated]: the first letter of every segment between
    hyphens in upper case. *)
Definition capitalize (seg : string) : string :=
  match seg with
  | EmptyString => seg
  | String c rest => String (upper c) rest
  end.

Definition capitalizeHyphenated (name : string) : string :=
  Text.join "-" (capitalize <$> Str.split "-" name).

Definition firstAuthorLastName (creators : list Creator) : string :=
  match creators with
  | [] => ""
  | first :: _ =>
      if Str.truthy (lastName first) then lastName first else name first
  end.

(** [extractYear]: the first four digits in a row. *)
Fixpoint extractYear (dateStr : string) : string :=
  match dateStr with
  | EmptyString => ""
  | String _ rest =>
      let four := Text.take 4 dateStr in
      if (Nat.eqb (String.length four) 4
          && forallb is_digit (list_ascii_of_string four))%bool
      then four
      else extractYear rest
  end.

Definition buildCitekeyFallback (d : ItemData) : string :=
  let author := firstAuthorLastName (creators d) in
  let year := extractYear (date d) in
  if Str.truthy author then
    let capitalized := capitalizeHyphenated author in
    if Str.truthy year then capitalized +:+ "_" +:+ year else capitalized
  else "".

Definition buildFallbackName (d : ItemData) : string :=
  let author := firstAuthorLastName (creators d) in
  let year := extractYear (date d) in
  let title := if Str.truthy (title d) then title d else "Untitled" in
  let parts := List.filter Str.truthy [author; year] in
  match parts with
  | [] => title
  | _ => Text.join " " parts +:+ " - " +:+ title
  end.

Section Generate.

Variable extractCitekey : ItemData → string.
Variable substitute : string → string → ItemData → string.

Definition generateFilename (itemKey : string) (d : ItemData)
    (fileNameTemplate : string) : string :=
  let template :=
    if Str.truthy fileNameTemplate then fileNameTemplate else "{{citekey}}" in
  let filename :=
    if String.eqb template "{{citekey}}" then
      let citekey := extractCitekey d in
      if Str.truthy citekey then citekey
      else if Str.truthy (buildCitekeyFallback d) then buildCitekeyFallback d
           else buildFallbackName d
    else if String.eqb template "{{title}}" then
      (if Str.truthy (title d) then title d else itemKey)
    else substitute template itemKey d in
  let filename := trim (filter (λ c, negb (unsafe c)) filename) in
  if Str.truthy filename then filename else itemKey.

End Generate.

End Filename.

(** ** The tags of the frontmatter

    [renderFrontmatter] writes the tags and [parseFrontmatterTags] reads
    them back with three regular expressions. The expressions are followed
    as a backtracking matcher runs them, on strings of bytes: [\s] is
    [Str.is_space], a line terminator is a line feed or a carriage return,
    and [.] is any other character. *)

Module Frontmatter.

Definition is_line_terminator (c : ascii) : bool :=
  (Ascii.eqb c "010" || Ascii.eqb c "013")%bool.

(** The longest prefix of [s] with characters in [p], and the rest. *)
Fixpoint span (p : ascii → bool) (s : string) : string * string :=
  match s with
  | EmptyString => (EmptyString, EmptyString)
  | String c s' =>
      if p c then let '(taken, rest) := span p s' in (String c taken, rest)
      else (EmptyString, s)
  end.

(** Group 1 of [/^---\n([\s\S]*?)\n---/]: a content that starts with the
    fence, up to the first fence at the start of a later line. *)
Definition frontmatterOf (content : string) : option string :=
  if String.prefix ("---" +:+ Text.newline) content
  then let rest := Text.drop 4 content in
       (λ i, Text.take i rest) <$> Text.find (Text.newline +:+ "---") rest
  else None.

(** What is left after [\s*\n]: the white space is taken as far as it
    goes, and given back down to its last line feed. *)
Fixpoint afterKey (r : string) : option string :=
  match r with
  | EmptyString => None
  | String c r' =>
      if Str.is_space c
      then match afterKey r' with
           | Some rest => Some rest
           | None => if Ascii.eqb c "010" then Some r' else None
           end
      else None
  end.

(** The last character of [W] that is no line terminator, with what follows
    it. *)
Fixpoint lastOnLine (W : string) : option (ascii * string) :=
  match W with
  | EmptyString => None
  | String c W' =>
      match lastOnLine W' with
      | Some found => Some found
      | None => if is_line_terminator c then None else Some (c, W')
      end
  end.

(** [\n?] *)
Definition optionalNewline (t : string) : string :=
  match t with
  | String c t' => if Ascii.eqb c "010" then t' else t
  | EmptyString => t
  end.

(** One match of [\s*-\s*(.+)\n?] at the start of [t]: the group and what is
    left. The white space after the hyphen is taken as far as it goes; if
    nothing is left for [.+], it is given back down to its last character
    that is no line terminator, which is then all of the group. *)
Definition item (t : string) : option (string * string) :=
  match (span Str.is_space t).2 with
  | String c t2 =>
      if Ascii.eqb c "-"
      then let '(W, t3) := span Str.is_space t2 in
           match t3 with
           | EmptyString =>
               (λ found : ascii * string,
                  (String found.1 EmptyString, optionalNewline found.2)) <$> lastOnLine W
           | _ =>
               let '(body, t4) := span (λ c, negb (is_line_terminator c)) t3 in
               Some (body, optionalNewline t4)
           end
      else None
  | EmptyString => None
  end.

(** What is left after the matches of [item], one after the other as long
    as there is one. *)
Fixpoint afterItems (fuel : nat) (t : string) : string :=
  match fuel with
  | O => t
  | S fuel' =>
      match item t with
      | Some (_, t') => afterItems fuel' t'
      | None => t
      end
  end.

(** What the matches of [item] take at the start of [t], which is the
    second group of the expression for the tags; every match of [item]
    takes a character at least. *)
Definition tagsBlock (t : string) : string :=
  Text.take (String.length t - String.length (afterItems (String.length t) t)) t.

(** The first match in [fm] of [^tags:\s*\n] followed by the items, with
    the flag [m]: the block of the items. [atLineStart] tells whether [^]
    holds where [fm] starts. *)
Fixpoint tagsMatch (atLineStart : bool) (fm : string) : option string :=
  match (if (atLineStart && String.prefix "tags:" fm)%bool
         then afterKey (Text.drop 5 fm) else None) with
  | Some t => Some (tagsBlock t)
  | None =>
      match fm with
      | EmptyString => None
      | String c fm' => tagsMatch (is_line_terminator c) fm'
      end
  end.

(** [line.match(/^\s*-\s*(.+)/)], and the group trimmed. *)
Definition lineTag (line : string) : option string :=
  (λ found : string * string, Filename.trim found.1) <$> item line.

Definition parseFrontmatterTags (content : string) : list string :=
  match frontmatterOf content with
  | None => []
  | Some fm =>
      match tagsMatch true fm with
      | None => []
      | Some block => omap lineTag (Str.split "010" block)
      end
  end.

(** The lines [renderFrontmatter] writes for the tags. *)
Definition tagLines (syncTag : string) (tags : list string) : list string :=
  let tags := List.filter (λ t, negb (String.eqb t syncTag)) tags in
  match tags with
  | [] => []
  | _ => "tags: " :: ((λ t, "- " +:+ Str.spaces_to_hyphen t) <$> tags)
  end.

(** [renderFrontmatter]: [before] are the lines from [note type] to
    [zotero-uri], [now] the time as [toISOString] gives it, [key] the key of
    the item. *)
Definition renderFrontmatter (before : list string) (syncTag : string)
    (tags : list string) (now key : string) : string :=
  Text.join Text.newline
    (["---"] ++ before ++ tagLines syncTag tags
     ++ ["last-synced: " +:+ now; "zotero-key: " +:+ key; "---"]).

(** A line has no line terminator in it. *)
Definition oneLine (line : string) : Prop :=
  Forall (λ c, is_line_terminator c = false) (list_ascii_of_string line).

(** A line that says nothing to [parseFrontmatterTags]: it starts neither a
    fence nor the tags. *)
Definition plainLine (line : string) : Prop :=
  oneLine line
  ∧ String.prefix "---" line = false
  ∧ String.prefix "tags:" line = false.

End Frontmatter.

(** A frontmatter for the runs: a list of authors before the tags, and the
    sync tag among the tags of the item. *)
Module Written.

Definition before : list string :=
  ["note type: "; "citekey: smith2020"; "title: On tags"; "authors:"; "- Smith, Ann"].

Definition tags : list string := ["machine learning"; "zotero-sync"; "To Read"].

Definition now : string := "2024-05-01T10:00:00.000Z".

Definition key : string := "ABCD1234".

Definition rest : string := Text.newline +:+ "%% begin Comments %%".

End Written.

(** ** The levels of a folder

    The paths [ensureFolderRecursive] goes through, one for each part of
    the path, as its loop builds them. *)

Module Levels.

Fixpoint levelsFrom (current : string) (parts : list string) : list string :=
  match parts with
  | [] => []
  | part :: parts' =>
      let current := if Str.truthy current then current +:+ "/" +:+ part else part in
      current :: levelsFrom current parts'
  end.

Definition levels (normalized : string) : list string :=
  levelsFrom "" (Str.split "/" normalized).

(** [w'] is [w] with folders made at paths of [paths] that were free, and
    nothing else. *)
Definition foldersAdded (paths : list string) (w w' : World) : Prop :=
  settings w' = settings w ∧ saved w' = saved w ∧ isSyncing w' = isSyncing w
  ∧ patches w' = patches w ∧ notices w' = notices w ∧ progress w' = progress w
  ∧ ∀ p, vault w' !! p = vault w !! p
         ∨ (vault w !! p = None ∧ vault w' !! p = Some TFolder ∧ p ∈ paths).

(** A vault with the first level of the image folder only. *)
Definition files : gmap string TAbstractFile := {[ "Maintenance" := TFolder ]}.

End Levels.

(** ** The plugin: a run of the full cycle

    [runSync] and [showSyncResult] of the plugin, as far as notices go: the
    status bar is left out. [syncAll] catches whatever its body throws, so
    that the [catch] of [runSync] has nothing to catch. *)

Module Plugin.

Section Run.

Variable E : Env.

(** [this.getApiKey()] *)
Variable getApiKey : option string.

Definition showSyncResult (r : SyncResult) (silent : bool) (w : World) : World :=
  match errors r with
  | e :: _ =>
      add_notice ("Zotero sync completed with errors:" +:+ Text.newline +:+ e) w
  | [] =>
      if (negb silent && (Nat.ltb 0 (created r) || Nat.ltb 0 (updated r)))%bool
      then add_notice ("Zotero: synced " +:+ pretty.pretty (created r) +:+ " new, "
                       +:+ pretty.pretty (updated r) +:+ " updated") w
      else if (negb silent && Nat.eqb (created r) 0 && Nat.eqb (updated r) 0)%bool
           then add_notice "Zotero: everything up to date" w
           else w
  end.

Definition runSync (fuel : nat) (silent : bool) (w : World) : option World :=
  if (negb (Str.truthy (default "" getApiKey))
      || negb (Str.truthy (userId (settings w))))%bool
  then Some (if silent then w
             else add_notice
                    "Zotero Connector: Please configure API key and User ID in settings." w)
  else
    match syncAll E fuel w with
    | None => None
    | Some (r, w') => Some (showSyncResult r silent w')
    end.

End Run.

End Plugin.

(** No notice was added. *)
Definition notices_kept (w w' : World) : Prop := notices w' = notices w.

(** ** The key of the note in the editor

    [syncCurrentNote] reads the key of the record from the content of the
    note with a regular expression, followed here as [parseFrontmatterTags]
    is. *)

Module NoteKey.

(** Group 1 of [\s*(.+)$] at the start of [t], with the flag [m]: the white
    space is taken as far as it goes; if nothing is left on a line for
    [.+], it is given back down to its last character that is no line
    terminator. What [.+] takes ends at a line terminator or at the end,
    where [$] holds. *)
Definition value (t : string) : option string :=
  let '(W, t3) := Frontmatter.span Str.is_space t in
  match t3 with
  | EmptyString =>
      (λ found : ascii * string, String found.1 EmptyString) <$> Frontmatter.lastOnLine W
  | _ => Some (Frontmatter.span (λ c, negb (Frontmatter.is_line_terminator c)) t3).1
  end.

(** Group 1 of the first match of [/^zotero-key:\s*(.+)$/m] in [content];
    [atLineStart] tells whether [^] holds where [content] starts. *)
Fixpoint keyMatch (atLineStart : bool) (content : string) : option string :=
  match (if (atLineStart && String.prefix "zotero-key:" content)%bool
         then value (Text.drop 11 content) else None) with
  | Some found => Some found
  | None =>
      match content with
      | EmptyString => None
      | String c content' => keyMatch (Frontmatter.is_line_terminator c) content'
      end
  end.

(** [keyMatch[1].trim()], if there is a match. *)
Definition zoteroKeyOf (content : string) : option string :=
  Filename.trim <$> keyMatch true content.

End NoteKey.

(** ** The plugin: registering the notes there are

    [registerExistingNotes]. The scan of the output folder, which reads
    the key and the tags of every note with regular expressions of its own,
    is taken as given: [scanNotes] is the list of the notes with a key, in
    the order of the files, each with its key, the base name of its file
    and its tags. *)

Module Register.

Record NoteInfo := { filename : string; tags : list string }.

(** [noteMap.set(key, info)] and [noteMap.get(key)] on a [Map] kept as the
    list of its entries, in the order of their first insertion. *)
Definition mapSet (noteMap : list (string * NoteInfo)) (key : string) (info : NoteInfo)
    : list (string * NoteInfo) :=
  if bool_decide (key ∈ noteMap.*1)
  then (λ e : string * NoteInfo, if String.eqb e.1 key then (key, info) else e) <$> noteMap
  else noteMap ++ [(key, info)].

Definition mapGet (noteMap : list (string * NoteInfo)) (key : string) : option NoteInfo :=
  snd <$> List.find (λ e : string * NoteInfo, String.eqb e.1 key) noteMap.

Definition noteMapOf (scanned : list (string * NoteInfo)) : list (string * NoteInfo) :=
  foldl (λ noteMap e, mapSet noteMap e.1 e.2) [] scanned.

(** One turn of the loop over [newKeys]; its keys are keys of [noteMap]. *)
Definition register (noteMap : list (string * NoteInfo))
    (s : ZoteroAutoSyncSettings) (key : string) : ZoteroAutoSyncSettings :=
  match mapGet noteMap key with
  | None => s
  | Some info =>
      let s := with_itemFilenames (<[key := filename info]> (itemFilenames s)) s in
      if Nat.ltb 0 (length (tags info))
      then with_lastSyncedTags (<[key := tags info]> (lastSyncedTags s)) s
      else s
  end.

Section Run.

Variable E : Env.

(** [this.getApiKey()], the scan, and the answer of the remote to a request
    for a batch of keys. *)
Variable getApiKey : option string.
Variable scanNotes : gmap string TAbstractFile → list (string * NoteInfo).
Variable requestByKeys : list string → World → outcome (list ZoteroItem).

(** One turn of the loop over the items fetched: the sync tag is added at
    the remote if it is not there, and the version is set to 0 in memory,
    whatever the remote answered. *)
Definition tagItem (it : ZoteroItem) : M World unit :=
  syncTag <- gets (λ w, syncTag (settings w));;
  let itemTags := default [] (data_tags it) in
  (if bool_decide (syncTag ∈ itemTags) then ret tt
   else patchItemTags E (key it) (itemTags ++ [syncTag]) (version it);; ret tt);;
  modify (set_settings (λ s, with_itemVersions (<[key it := 0]> (itemVersions s)) s)).

(** Phase 3: the items of the keys without a version are fetched and
    tagged. *)
Definition tagUnsynced (unsyncedKeys : list string) : M World unit :=
  if Nat.ltb 0 (length unsyncedKeys)
  then
    items <- ApiClient.fetchItemsByKeys
               (λ batch w, of_outcome (requestByKeys batch w) w) unsyncedKeys;;
    foldM (λ _ it, tagItem it) items tt
  else ret tt.

Definition registerExistingNotes : M World unit :=
  s <- gets settings;;
  let folderPath := normalizePath E (outputFolder s) in
  folder <- getAbstractFileByPath folderPath;;
  if negb (is_TFolder folder)
  then modify (add_notice ("Output folder not found: " +:+ folderPath))
  else if (negb (Str.truthy (default "" getApiKey)) || negb (Str.truthy (userId s)))%bool
  then modify (add_notice "Zotero Connector: Please configure API key and User ID first.")
  else
    modify (add_notice "Zotero: Scanning notes and tagging items in Zotero...");;
    scanned <- gets (λ w, scanNotes (vault w));;
    let noteMap := noteMapOf scanned in
    let keys := noteMap.*1 in
    s <- gets settings;;
    let newKeys :=
      List.filter (λ k, negb (Str.truthy (default "" (itemFilenames s !! k)))) keys in
    let unsyncedKeys :=
      List.filter (λ k, bool_decide (default 0 (itemVersions s !! k) = 0)) keys in
    modify (set_settings (λ s, foldl (register noteMap) s newKeys));;
    tagUnsynced unsyncedKeys;;
    modify (set_settings (with_lastSyncVersion 0));;
    saveSettings E;;
    modify (add_notice
              ("Zotero: Registered " +:+ pretty.pretty (length newKeys)
               +:+ " new notes, tagged " +:+ pretty.pretty (length unsyncedKeys)
               +:+ " items in Zotero. Run sync now to update all notes.")).

End Run.

(** What a registration leaves as it is: the vault, the configuration and
    the file names there are; what it sends are pushes that end with the
    sync tag; and a version is as it was or 0. *)
Definition registered (w w' : World) : Prop :=
  vault w' = vault w
  ∧ configuration_kept w w'
  ∧ filenames_kept w w'
  ∧ pushes_carry_sync_tag w w'
  ∧ ∀ k, itemVersions (settings w') !! k = itemVersions (settings w) !! k
         ∨ itemVersions (settings w') !! k = Some 0.

(** Two notes in the output folder, the first with a name stored
    already. *)
Definition notes : list (string * NoteInfo) :=
  [("K1", {| filename := "Smith 2020"; tags := ["a"] |});
   ("K2", {| filename := "Jones 2021"; tags := [] |})].

Definition before : World :=
  Test.start (Test.synced "K1" 7 None) {[ "Notes" := TFolder ]}.

End Register.

(** ** The cycle run twice *)

(** The incremental fetch at the cursor of [w] reports no changes. *)
Definition noChangesSince (E : Env) (w : World) : Prop :=
  0 < lastSyncVersion (settings w)
  ∧ ∀ w', reportsNoChanges
            (requestItems E (syncTag (settings w))
               (Some (lastSyncVersion (settings w))) 0 w').

(** The version baseline of the record [itemKey] is as it was. *)
Definition version_kept_at (itemKey : string) (w w' : World) : Prop :=
  itemVersions (settings w') !! itemKey = itemVersions (settings w) !! itemKey.

(** The record [it] is tracked in [w]: it has a file name that is not
    empty, a document under this name, and a version baseline that is not
    below its version. *)
Definition tracked (E : Env) (w : World) (it : ZoteroItem) : Prop :=
  ∃ filename v,
    itemFilenames (settings w) !! key it = Some filename
    ∧ Str.truthy filename = true
    ∧ is_TFile (vault w !! filePathOf E (settings w) filename) = true
    ∧ itemVersions (settings w) !! key it = Some v
    ∧ version it ≤ v.

(** The document of the record [it] is at rest in [w]: the document under
    the file name of the record has no image to fetch again with a local
    cache at hand, and its tags are those of the tag baseline of the record,
    if there is one. *)
Definition atRest (E : Env) (w : World) (it : ZoteroItem) : Prop :=
  ∀ filename content,
    itemFilenames (settings w) !! key it = Some filename →
    vault w !! filePathOf E (settings w) filename = Some (TFile content) →
    ¬ missingImages E w content ∧ ¬ tagDrift E w (key it) content.

(** The record [it] is settled in [w]: it is tracked and its document is at
    rest. *)
Definition settled (E : Env) (w : World) (it : ZoteroItem) : Prop :=
  ∃ filename content v,
    itemFilenames (settings w) !! key it = Some filename
    ∧ Str.truthy filename = true
    ∧ vault w !! filePathOf E (settings w) filename = Some (TFile content)
    ∧ itemVersions (settings w) !! key it = Some v
    ∧ version it ≤ v
    ∧ ¬ missingImages E w content
    ∧ ¬ tagDrift E w (key it) content.

(** The remote serves the second cycle what it has served the first, the
    cycle from [w0] that has ended in [w1] with the result [r1]: both fetch
    [items], each top-level record once, at the same library version; the
    first cycle has recorded no error; every record has a file name that is
    not empty; and the documents the first cycle has left are at rest. *)
Definition servedAgain (E : Env) (fuel1 fuel2 : nat) (w0 : World)
    (r1 : SyncResult) (w1 : World) (items : list ZoteroItem) : Prop :=
  (∃ lv, servesPages E (syncTag (settings w0)) items lv)
  ∧ (length items < 100 * fuel1)%nat
  ∧ (length items < 100 * fuel2)%nat
  ∧ NoDup (key <$> List.filter isTopLevel items)
  ∧ (∀ it s, it ∈ List.filter isTopLevel items →
             Str.truthy (generateFilename E it s) = true)
  ∧ errors r1 = []
  ∧ ∀ it, it ∈ List.filter isTopLevel items → atRest E w1 it.

(** A test double whose remote takes the pushes: it holds the record [R1],
    at version 6 without a tag of its own and at the library version 9; a
    push is accepted and leaves [R1] with the tags pushed, at version 10, the
    library version being 10 then. The requests sent are the [patches] of the
    state. The other collaborators are those of [Test.env]. *)
Module Echo.

Definition remoteItems (w : World) : list ZoteroItem :=
  match last (patches w) with
  | None => [Test.record "R1" 6 ["obsidian"]]
  | Some p => [Test.record "R1" 10 (patch_tags p)]
  end.

Definition remoteVersion (w : World) : Z :=
  match last (patches w) with
  | None => 9
  | Some _ => 10
  end.

Definition env : Env :=
  {| hostname := hostname (Test.env [] 0 false);
     parseFrontmatterTags := parseFrontmatterTags (Test.env [] 0 false);
     generateFilename := generateFilename (Test.env [] 0 false);
     extractCitekey := extractCitekey (Test.env [] 0 false);
     normalizePath := normalizePath (Test.env [] 0 false);
     parseAnnotationPosition := parseAnnotationPosition (Test.env [] 0 false);
     buildAnnotationImagePath := buildAnnotationImagePath (Test.env [] 0 false);
     render := render (Test.env [] 0 false);
     renderFromTemplate := renderFromTemplate (Test.env [] 0 false);
     renderWithPreservedComments := renderWithPreservedComments (Test.env [] 0 false);
     fetchCollections := fetchCollections (Test.env [] 0 false);
     requestItems := λ _ since _ w, Test.respond (remoteItems w) (remoteVersion w) since;
     fetchItem := λ k w, List.find (λ it, String.eqb (key it) k) (remoteItems w);
     fetchItemChildren := fetchItemChildren (Test.env [] 0 false);
     fetchAnnotations := fetchAnnotations (Test.env [] 0 false);
     getCollectionName := getCollectionName (Test.env [] 0 false);
     fetchBibliography := fetchBibliography (Test.env [] 0 false);
     fetchAnnotationImage := fetchAnnotationImage (Test.env [] 0 false);
     patchAccepted := λ _ _, true;
     readCacheFile := readCacheFile (Test.env [] 0 false);
     saveDataError := saveDataError (Test.env [] 0 false);
     vaultError := vaultError (Test.env [] 0 false) |}.

(** [R1] was synced at version 5 with no tag, at the cursor 8; since then
    the tag [mine] was written in its document. *)
Definition start : World :=
  Test.start (with_lastSyncVersion 8 (Test.synced "R1" 5 (Some [])))
    {[ "Notes/R1.md" := TFile (Test.doc ["mine"]) ]}.

End Echo.

(** * Properties *)

Example normalizeTag_ex : normalizeTag "Machine-Learning" = "machine learning".
Proof. reflexivity. Qed.

Example spaces_to_hyphen_ex : Str.spaces_to_hyphen "deep   learning x" = "deep-learning-x".
Proof. reflexivity. Qed.

Example mergeFirstSync_ex : mergeFirstSync ["b"; "c"] ["a"; "b"] = ["b"; "c"; "a"].
Proof. vm_compute. reflexivity. Qed.

Example mergeNormal_ex : mergeNormal ["a"; "b"; "c"] ["a"] ["a"; "b"] = ["a"; "c"].
Proof. vm_compute. reflexivity. Qed.

Example tagsEqual_ex : tagsEqual ["B-x"; "a"] ["A"; "b X"] = true.
Proof. vm_compute. reflexivity. Qed.

(** ** The loops of the merge compute the merge of the specification *)

Section MergeRefinement.

Implicit Types (merged present fm zs ls : list string) (seen : gset string).

Lemma firstSync_fold zs : ∀ merged seen present,
  (∀ n, n ∈ seen ↔ n ∈ present) →
  (foldl firstSyncStep (merged, seen) zs).1 = merged ++ Spec.addMissing present zs.
Proof.
  induction zs as [|zt zs IH]; intros merged seen present Hseen; simpl.
  - by rewrite app_nil_r.
  - unfold firstSyncStep at 2; simpl.
    rewrite (bool_decide_ext _ (normalizeTag zt ∈ present)) by apply Hseen.
    case_bool_decide.
    + by apply IH.
    + rewrite (IH _ _ (normalizeTag zt :: present)).
      * by rewrite <- app_assoc.
      * intros n. set_solver.
Qed.

Lemma normalSync_fold (known : gset string) lastSynced zs :
  (∀ n, n ∈ known ↔ n ∈ normalizeTag <$> lastSynced) →
  ∀ merged seen present,
  (∀ n, n ∈ seen ↔ n ∈ present) →
  (foldl (normalSyncStep known) (merged, seen) zs).1
  = merged ++ Spec.addMissing present (Spec.minus zs lastSynced).
Proof.
  intros Hknown.
  induction zs as [|zt zs IH]; intros merged seen present Hseen; simpl.
  - by rewrite app_nil_r.
  - unfold normalSyncStep at 2; simpl.
    rewrite (bool_decide_ext _ (normalizeTag zt ∈ normalizeTag <$> lastSynced))
      by apply Hknown.
    rewrite (bool_decide_ext (normalizeTag zt ∈ seen) (normalizeTag zt ∈ present))
      by apply Hseen.
    unfold Spec.minus in *; simpl.
    destruct (bool_decide (normalizeTag zt ∈ normalizeTag <$> lastSynced)); simpl.
    + by apply IH.
    + case_bool_decide; simpl.
      * by apply IH.
      * rewrite (IH _ _ (normalizeTag zt :: present)).
        -- by rewrite <- app_assoc.
        -- intros n. set_solver.
Qed.

Lemma removed_fold (zoteroNormSet : gset string) ls : ∀ removed n,
  n ∈ foldl (removedStep zoteroNormSet) removed ls
  ↔ n ∈ removed ∨ (n ∈ normalizeTag <$> ls ∧ n ∉ zoteroNormSet).
Proof.
  induction ls as [|l ls IH]; intros removed n; simpl.
  - set_solver.
  - rewrite IH. unfold removedStep. case_bool_decide; set_solver.
Qed.

Lemma minus_elem a b t :
  t ∈ Spec.minus a b ↔ t ∈ a ∧ normalizeTag t ∉ normalizeTag <$> b.
Proof.
  unfold Spec.minus. rewrite list_elem_of_In, filter_In, <- list_elem_of_In.
  rewrite negb_true_iff, bool_decide_eq_false. done.
Qed.

Lemma mergeFirstSync_spec fm zs :
  mergeFirstSync fm zs = Spec.mergeAdditive fm zs.
Proof.
  unfold mergeFirstSync, Spec.mergeAdditive.
  apply firstSync_fold. intros n. by rewrite elem_of_list_to_set.
Qed.

Lemma mergeNormal_spec fm zs ls :
  mergeNormal fm zs ls = Spec.mergeWithBaseline fm zs ls.
Proof.
  unfold mergeNormal, Spec.mergeWithBaseline.
  set (removed := foldl (removedStep _) ∅ ls).
  assert (Hkept : List.filter (λ t, negb (bool_decide (normalizeTag t ∈ removed))) fm
                  = Spec.minus fm (Spec.minus ls zs)).
  { unfold Spec.minus at 1. apply filter_ext. intros t. f_equal.
    apply bool_decide_ext. unfold removed. rewrite removed_fold.
    rewrite elem_of_list_to_set. split.
    - intros [Hempty|[Hin Hnot]]; [set_solver|].
      apply list_elem_of_fmap in Hin. destruct Hin as (l & Heq & Hl).
      rewrite Heq. apply list_elem_of_fmap_2, minus_elem. by rewrite <- Heq.
    - intros Hin. apply list_elem_of_fmap in Hin. destruct Hin as (l & Heq & Hl).
      apply minus_elem in Hl. destruct Hl as [Hl Hnot].
      right. rewrite Heq. split; [|done]. by apply list_elem_of_fmap_2. }
  rewrite Hkept.
  apply normalSync_fold; intros n; by rewrite elem_of_list_to_set.
Qed.

End MergeRefinement.

(** ** [tagsEqual] compares the normal forms as multisets *)

Lemma every_same_at_lookup other arr : ∀ i,
  every_same_at other i arr = true
  ↔ ∀ j v, arr !! j = Some v → other !! (i + j)%nat = Some v.
Proof.
  induction arr as [|x arr IH]; intros i; simpl.
  - split; [intros _ j v Hj; by rewrite lookup_nil in Hj | done].
  - rewrite andb_true_iff, bool_decide_eq_true, IH. split.
    + intros [Hx Harr] [|j] v Hj; simpl in Hj.
      * injection Hj as <-. by rewrite Nat.add_0_r.
      * replace (i + S j)%nat with (S i + j)%nat by lia. by apply Harr.
    + intros H. split.
      * rewrite <- (Nat.add_0_r i). by apply H.
      * intros j v Hj. replace (S i + j)%nat with (i + S j)%nat by lia. by apply H.
Qed.

Lemma every_same_at_eq (a b : list string) :
  length a = length b → every_same_at b 0 a = true ↔ a = b.
Proof.
  intros Hlen. rewrite every_same_at_lookup. split.
  - intros H. apply list_eq_same_length with (length a); [done..|].
    intros i x y _ Hx Hy. apply H in Hx. simpl in Hx. congruence.
  - intros -> j v Hj. done.
Qed.

Lemma sort_Permutation (l : list string) : sort l ≡ₚ l.
Proof. apply merge_sort_Permutation. Qed.

Lemma sort_unique (l1 l2 : list string) : l1 ≡ₚ l2 → sort l1 = sort l2.
Proof.
  intros Hperm. apply (Sorted_unique String.le).
  - apply (Sorted_merge_sort String.le).
  - apply (Sorted_merge_sort String.le).
  - by rewrite !sort_Permutation.
Qed.

Lemma tagsEqual_Permutation (a b : list string) :
  tagsEqual a b = true ↔ normalizeTag <$> a ≡ₚ normalizeTag <$> b.
Proof.
  unfold tagsEqual. destruct (Nat.eqb_spec (length a) (length b)) as [Hlen|Hlen]; simpl.
  - rewrite every_same_at_eq.
    + split.
      * intros Heq. by rewrite <- (sort_Permutation (_ <$> a)), Heq, sort_Permutation.
      * apply sort_unique.
    + assert (Hsort : ∀ l, length (sort l) = length l)
        by (intros l; apply Permutation_length, sort_Permutation).
      by rewrite !Hsort, !length_fmap.
  - split; [done|]. intros Hperm. apply Permutation_length in Hperm.
    rewrite !length_fmap in Hperm. done.
Qed.

Lemma tagsEqual_refl (a : list string) : tagsEqual a a = true.
Proof. by apply tagsEqual_Permutation. Qed.

Lemma tagsEqual_false_differs (a b : list string) :
  tagsEqual a b = false ↔ Spec.differs a b.
Proof.
  unfold Spec.differs. rewrite <- tagsEqual_Permutation.
  destruct (tagsEqual a b); naive_solver.
Qed.

(** ** What [syncTagsTwoWay] does *)

Section TagSync.

Variable E : Env.

(** The effect of [syncTagsTwoWay] up to [saveSettings]: the push, if the
    merged tags and the Zotero tags are not equal, then the new baseline. *)
Lemma syncTagsTwoWay_run it existingContent w :
  let merged := mergedTags E it existingContent w in
  let zoteroTags := zoteroTagsOf (syncTag (settings w)) it in
  syncTagsTwoWay E it existingContent w
  = (saveSettings E;; ret merged)
      (with_tag_baseline (key it) (storedBaseline E it existingContent w)
         (if tagsEqual merged zoteroTags then w
          else add_patch (tagPush it merged (syncTag (settings w))) w)).
Proof.
  unfold syncTagsTwoWay, mergedTags, storedBaseline.
  destruct existingContent as [[|c content]|]; simpl.
  - rewrite tagsEqual_refl. reflexivity.
  - unfold bind at 1. simpl. unfold bind at 1. simpl.
    destruct (lastSyncedTags (settings w) !! key it) as [ls|]; simpl;
      unfold pushTagsToZotero, patchItemTags, tagPush;
      match goal with |- context [tagsEqual ?a ?b] => destruct (tagsEqual a b) end;
      reflexivity.
  - rewrite tagsEqual_refl. reflexivity.
Qed.

End TagSync.

(** ** The merge of the specification, read on its members *)

Lemma addMissing_sound remote : ∀ present x,
  x ∈ Spec.addMissing present remote →
  ∃ t, t ∈ remote ∧ x = Str.spaces_to_hyphen t ∧ normalizeTag t ∉ present.
Proof.
  induction remote as [|r remote IH]; intros present x; simpl.
  - by intros ?%elem_of_nil.
  - case_bool_decide as Hr.
    + intros (t & ? & ? & ?)%IH. exists t. set_solver.
    + intros [->|Hx]%elem_of_cons.
      * exists r. set_solver.
      * apply IH in Hx as (t & ? & ? & ?). exists t. set_solver.
Qed.

Lemma addMissing_complete remote : ∀ present t,
  t ∈ remote →
  normalizeTag t ∈ present
  ∨ ∃ t', t' ∈ remote ∧ normalizeTag t' = normalizeTag t
          ∧ Str.spaces_to_hyphen t' ∈ Spec.addMissing present remote.
Proof.
  induction remote as [|r remote IH]; intros present t; simpl.
  - by intros ?%elem_of_nil.
  - intros [->|Ht]%elem_of_cons.
    + case_bool_decide as Hr; [by left|]. right. exists r. set_solver.
    + case_bool_decide as Hr.
      * destruct (IH present t Ht) as [?|(t' & ? & ? & ?)]; [by left|].
        right. exists t'. set_solver.
      * destruct (IH (normalizeTag r :: present) t Ht) as [Hin|(t' & ? & ? & ?)].
        -- apply elem_of_cons in Hin as [Heq|?]; [|by left].
           right. exists r. set_solver.
        -- right. exists t'. set_solver.
Qed.

Lemma minus_minus_elem a b c t :
  t ∈ Spec.minus a (Spec.minus b c)
  ↔ t ∈ a ∧ ¬ (normalizeTag t ∈ normalizeTag <$> b
               ∧ normalizeTag t ∉ normalizeTag <$> c).
Proof.
  rewrite minus_elem. apply and_iff_compat_l, not_iff_compat.
  rewrite list_elem_of_fmap. split.
  - intros (x & Heq & [Hx Hnot]%minus_elem). rewrite Heq.
    split; [by apply list_elem_of_fmap_2|done].
  - intros [(x & Heq & Hx)%list_elem_of_fmap Hnot].
    exists x. split; [done|]. apply minus_elem. by rewrite <- Heq.
Qed.

(** ** The three-way tag merge *)

Section TagMerger.

Variable E : Env.

(** What [saveSettings] leaves of the result of [syncTagsTwoWay]. *)
Lemma save_then_ret {A} (a : A) w :
  ∃ o,
    (saveSettings E;; ret a) w
    = Some (o, (if o is Ok _ then set_saved (settings w) w else w))
    ∧ (∀ x, o = Ok x → x = a)
    ∧ (saveDataError E w = None → o = Ok a).
Proof.
  unfold saveSettings, bind, gets, modify, throw, ret; simpl.
  destruct (saveDataError E w) as [e|]; simpl.
  - exists (Throw e). by split_and!.
  - exists (Ok a). split_and!; [done| |done]. by intros x [= ->].
Qed.

(** [syncTagsTwoWay] returns; it returns the merged tags unless [saveData]
    fails; it stores the baseline and sends at most one push. *)
Lemma syncTagsTwoWay_effect it existingContent w :
  let merged := mergedTags E it existingContent w in
  let remoteTags := zoteroTagsOf (syncTag (settings w)) it in
  ∃ o w',
    syncTagsTwoWay E it existingContent w = Some (o, w')
    ∧ (∀ x, o = Ok x → x = merged)
    ∧ ((∀ w0, saveDataError E w0 = None) → o = Ok merged)
    ∧ lastSyncedTags (settings w') !! key it
      = Some (storedBaseline E it existingContent w)
    ∧ patches w'
      = patches w ++ (if tagsEqual merged remoteTags then []
                      else [tagPush it merged (syncTag (settings w))]).
Proof.
  intros merged remoteTags.
  pose proof (syncTagsTwoWay_run E it existingContent w) as Hrun. cbv zeta in Hrun.
  fold merged remoteTags in Hrun.
  match type of Hrun with _ = (_;; _) ?w1 =>
    destruct (save_then_ret merged w1) as (o & Hsave & Hok & Hnofail)
  end.
  rewrite Hsave in Hrun. eexists o, _. split; [exact Hrun|].
  assert (Hpatches : ∀ w0 : World,
    patches (if o is Ok _ then set_saved (settings w0) w0 else w0) = patches w0).
  { intros w0. by destruct o. }
  assert (Hsettings : ∀ w0 : World,
    settings (if o is Ok _ then set_saved (settings w0) w0 else w0) = settings w0).
  { intros w0. by destruct o. }
  split_and!.
  - exact Hok.
  - intros Hnever. apply Hnofail, Hnever.
  - rewrite Hsettings. simpl. by rewrite lookup_insert_eq.
  - rewrite Hpatches. simpl. destruct (tagsEqual merged remoteTags); simpl.
    + by rewrite app_nil_r.
    + done.
Qed.

(** Without a document, or with an empty one, the Zotero tags are taken as
    they are, whatever the baseline: they are returned, their hyphenated
    forms become the baseline, and nothing is pushed. *)
Lemma new_document_takes_remote_tags it existingContent w :
  existingContent = None ∨ existingContent = Some "" →
  let remoteTags := zoteroTagsOf (syncTag (settings w)) it in
  ∃ o w',
    syncTagsTwoWay E it existingContent w = Some (o, w')
    ∧ (∀ x, o = Ok x → x = remoteTags)
    ∧ ((∀ w0, saveDataError E w0 = None) → o = Ok remoteTags)
    ∧ lastSyncedTags (settings w') !! key it
      = Some (Str.spaces_to_hyphen <$> remoteTags)
    ∧ patches w' = patches w.
Proof.
  intros Hnone remoteTags.
  destruct (syncTagsTwoWay_effect it existingContent w)
    as (o & w' & Hrun & Hok & Hnofail & Hbase & Hpatches).
  assert (Hmerged : mergedTags E it existingContent w = remoteTags)
    by by destruct Hnone as [-> | ->].
  assert (Hstored : storedBaseline E it existingContent w
                    = Str.spaces_to_hyphen <$> remoteTags)
    by by destruct Hnone as [-> | ->].
  rewrite Hmerged in Hok, Hnofail, Hpatches. rewrite Hstored in Hbase.
  fold remoteTags in Hpatches. rewrite tagsEqual_refl, app_nil_r in Hpatches.
  exists o, w'. by split_and!.
Qed.

(** C1, amended. With a last-reconciled baseline and a document that exists
    and is not empty, the merge starts from the document tags minus the
    normalized difference [lastReconciledTags − remoteTags], then adds every
    tag of [remoteTags − lastReconciledTags] not already present; the result
    is stored as the new baseline and pushed when it is not equal to the
    remote tags. For the baseline [a, b], the remote tags [a] and the
    document tags [a, b, c] the merged tags are [a, c] and they are pushed.
    Without a document, or with an empty one, the baseline is not used: the
    merged tags are the remote tags, and nothing is pushed. *)
Theorem merge_with_baseline_propagates_remote_deletion
    (it : ZoteroItem) (existingContent : option string)
    (lastReconciledTags : list string) (w : World) :
  lastSyncedTags (settings w) !! key it = Some lastReconciledTags →
  let documentTags := documentTagsOf E existingContent in
  let remoteTags := zoteroTagsOf (syncTag (settings w)) it in
  let removedInRemote := Spec.minus lastReconciledTags remoteTags in
  let kept := Spec.minus documentTags removedInRemote in
  let merged := mergedTags E it existingContent w in
  ∃ o w',
    syncTagsTwoWay E it existingContent w = Some (o, w')
    ∧ (∀ x, o = Ok x → x = merged)
    ∧ ((∀ w0, saveDataError E w0 = None) → o = Ok merged)
    ∧ patches w'
      = patches w ++ (if tagsEqual merged remoteTags then []
                      else [tagPush it merged (syncTag (settings w))])
    ∧ (∀ content, existingContent = Some content → content ≠ "" →
         merged = Spec.mergeWithBaseline documentTags remoteTags lastReconciledTags
         ∧ lastSyncedTags (settings w') !! key it = Some merged
         ∧ (∃ added, merged = kept ++ added
             ∧ ∀ x, x ∈ added →
                 ∃ t, t ∈ remoteTags ∧ x = Str.spaces_to_hyphen t
                      ∧ (normalizeTag t ∉ normalizeTag <$> lastReconciledTags)
                      ∧ normalizeTag t ∉ normalizeTag <$> kept)
         ∧ (∀ t, t ∈ kept ↔
                 t ∈ documentTags
                 ∧ ¬ (normalizeTag t ∈ normalizeTag <$> lastReconciledTags
                      ∧ normalizeTag t ∉ normalizeTag <$> remoteTags))
         ∧ (∀ t, t ∈ remoteTags →
                 normalizeTag t ∈ normalizeTag <$> lastReconciledTags
                 ∨ normalizeTag t ∈ normalizeTag <$> kept
                 ∨ ∃ t', t' ∈ remoteTags ∧ normalizeTag t' = normalizeTag t
                         ∧ Str.spaces_to_hyphen t' ∈ merged)
         ∧ (lastReconciledTags = ["a"; "b"] → remoteTags = ["a"] →
            documentTags = ["a"; "b"; "c"] →
            merged = ["a"; "c"]
            ∧ patches w' = patches w ++ [tagPush it ["a"; "c"] (syncTag (settings w))]))
    ∧ (existingContent = None ∨ existingContent = Some "" →
         merged = remoteTags
         ∧ lastSyncedTags (settings w') !! key it
           = Some (Str.spaces_to_hyphen <$> remoteTags)
         ∧ patches w' = patches w).
Proof.
  intros Hbase documentTags remoteTags removedInRemote kept merged.
  destruct (syncTagsTwoWay_effect it existingContent w)
    as (o & w' & Hrun & Hok & Hnofail & Hstore & Hpatches).
  fold merged remoteTags in Hok, Hnofail, Hpatches.
  exists o, w'. split_and!; try done.
  - intros content -> Hcontent.
    assert (Hmerged : merged
                      = Spec.mergeWithBaseline documentTags remoteTags lastReconciledTags).
    { unfold merged, mergedTags, documentTags, documentTagsOf.
      destruct content; [done|]. rewrite Hbase. apply mergeNormal_spec. }
    assert (Hstored : storedBaseline E it (Some content) w = merged).
    { unfold storedBaseline. by destruct content. }
    rewrite Hstored in Hstore. split_and!; try done.
    + rewrite Hmerged. eexists. split; [reflexivity|]. intros x Hx.
      apply addMissing_sound in Hx as (t & [Ht Hnew]%minus_elem & -> & Hfresh).
      by exists t.
    + intros t. apply minus_minus_elem.
    + intros t Ht.
      destruct (decide (normalizeTag t ∈ normalizeTag <$> lastReconciledTags))
        as [?|Hnew]; [by left|]. right.
      assert (Hin : t ∈ Spec.minus remoteTags lastReconciledTags) by by apply minus_elem.
      destruct (addMissing_complete _ (normalizeTag <$> kept) t Hin)
        as [?|(t' & [Ht' _]%minus_elem & ? & ?)]; [by left|].
      right. exists t'. split_and!; [done..|]. rewrite Hmerged.
      apply elem_of_app. by right.
    + intros Hls Hremote Hdoc. rewrite Hpatches.
      assert (Heq : merged = ["a"; "c"]).
      { rewrite Hmerged, Hls, Hremote, Hdoc. by vm_compute. }
      rewrite Heq, Hremote. split; [done|]. by vm_compute.
  - intros Hnone.
    destruct (new_document_takes_remote_tags it existingContent w Hnone)
      as (o2 & w2 & Hrun2 & _ & _ & Hbase2 & Hpatches2).
    rewrite Hrun in Hrun2. injection Hrun2 as <- <-.
    split_and!; [|done..]. by destruct Hnone as [-> | ->].
Qed.

(** C2. Without a baseline the merge starts from the document tags and
    appends every remote tag not already present by normal form; nothing is
    removed. With a document that exists and is not empty the result is
    stored as the baseline and pushed when it is not equal to the remote
    tags; without one, the document tags being none, the merged tags are the
    remote tags and nothing is pushed. For the remote tags [a, b] and the
    document tags [b, c] the merged tags are [b, c, a], in that order, and
    they are pushed. *)
Theorem first_sight_merge_is_additive
    (it : ZoteroItem) (existingContent : option string) (w : World) :
  lastSyncedTags (settings w) !! key it = None →
  let documentTags := documentTagsOf E existingContent in
  let remoteTags := zoteroTagsOf (syncTag (settings w)) it in
  let merged := mergedTags E it existingContent w in
  ∃ o w',
    syncTagsTwoWay E it existingContent w = Some (o, w')
    ∧ (∀ x, o = Ok x → x = merged)
    ∧ ((∀ w0, saveDataError E w0 = None) → o = Ok merged)
    ∧ (∃ added, merged = documentTags ++ added
        ∧ ∀ x, x ∈ added →
            ∃ t, t ∈ remoteTags ∧ (x = Str.spaces_to_hyphen t ∨ x = t)
                 ∧ normalizeTag t ∉ normalizeTag <$> documentTags)
    ∧ (∀ t, t ∈ remoteTags →
            normalizeTag t ∈ normalizeTag <$> documentTags
            ∨ ∃ t', t' ∈ remoteTags ∧ normalizeTag t' = normalizeTag t
                    ∧ (Str.spaces_to_hyphen t' ∈ merged ∨ t' ∈ merged))
    ∧ patches w'
      = patches w ++ (if tagsEqual merged remoteTags then []
                      else [tagPush it merged (syncTag (settings w))])
    ∧ (∀ content, existingContent = Some content → content ≠ "" →
         merged = Spec.mergeAdditive documentTags remoteTags
         ∧ lastSyncedTags (settings w') !! key it = Some merged)
    ∧ (existingContent = None ∨ existingContent = Some "" →
         merged = remoteTags ∧ patches w' = patches w)
    ∧ (remoteTags = ["a"; "b"] → documentTags = ["b"; "c"] →
       merged = ["b"; "c"; "a"]
       ∧ patches w' = patches w ++ [tagPush it ["b"; "c"; "a"] (syncTag (settings w))]).
Proof.
  intros Hbase documentTags remoteTags merged.
  destruct (syncTagsTwoWay_effect it existingContent w)
    as (o & w' & Hrun & Hok & Hnofail & Hstore & Hpatches).
  fold merged remoteTags in Hok, Hnofail, Hpatches.
  assert (Hcases :
    (∃ content, existingContent = Some content ∧ content ≠ ""
                ∧ merged = Spec.mergeAdditive documentTags remoteTags
                ∧ storedBaseline E it existingContent w = merged)
    ∨ ((existingContent = None ∨ existingContent = Some "")
       ∧ documentTags = [] ∧ merged = remoteTags)).
  { unfold merged, documentTags, mergedTags, storedBaseline, documentTagsOf.
    destruct existingContent as [[|c content]|].
    - right. by split_and!; [right|..].
    - left. exists (String c content). rewrite Hbase.
      split_and!; [done|done|apply mergeFirstSync_spec|].
      unfold mergedTags. by rewrite Hbase.
    - right. by split_and!; [left|..]. }
  exists o, w'. split_and!; try done.
  - destruct Hcases as [(content & _ & _ & -> & _)|(_ & -> & ->)].
    + eexists. split; [reflexivity|]. intros x Hx.
      apply addMissing_sound in Hx as (t & Ht & -> & Hfresh).
      exists t. split_and!; [done|by left|done].
    + exists remoteTags. split; [done|]. intros x Hx.
      exists x. split_and!; [done|by right|]. by intros ?%elem_of_nil.
  - intros t Ht. destruct Hcases as [(content & _ & _ & -> & _)|(_ & -> & ->)].
    + destruct (addMissing_complete remoteTags (normalizeTag <$> documentTags) t Ht)
        as [?|(t' & ? & ? & ?)]; [by left|].
      right. exists t'. split_and!; [done..|]. left. apply elem_of_app. by right.
    + right. exists t. split_and!; [done..|]. by right.
  - intros content Hsome Hcontent.
    destruct Hcases as [(content' & _ & _ & Heq & Hstored)|([Hnone|Hnone] & _)].
    + split; [done|]. by rewrite <- Hstored.
    + by rewrite Hnone in Hsome.
    + rewrite Hnone in Hsome. by injection Hsome as <-.
  - intros Hnone.
    destruct Hcases as [(content' & Hsome & Hcontent & _)|(_ & _ & Heq)].
    + destruct Hnone as [Hnone|Hnone]; rewrite Hnone in Hsome; [done|].
      by injection Hsome as <-.
    + split; [done|]. rewrite Hpatches, Heq, tagsEqual_refl. apply app_nil_r.
  - intros Hremote Hdoc. rewrite Hpatches.
    assert (Heq : merged = ["b"; "c"; "a"]).
    { destruct Hcases as [(content & _ & _ & -> & _)|(_ & Hnil & _)].
      - rewrite Hremote, Hdoc. by vm_compute.
      - by rewrite Hdoc in Hnil. }
    rewrite Heq, Hremote. split; [done|]. by vm_compute.
Qed.

End TagMerger.

(** ** The push decision *)

(** C3, as worded, fails twice. A document that lists the tag [x-y] twice
    against the remote tag [x y]: the sets of normal forms are equal, yet the
    tags are pushed. A document with the tag [machine-learning] against no
    remote tag: the payload holds [machine learning], not the merged tag. *)
Lemma push_on_sets_with_merged_payload_fails :
  ¬ Claimed.push (Test.env [] 0 false) (Test.record "R1" 5 ["x y"; "obsidian"])
      (Some (Test.doc ["x-y"; "x-y"])) (Test.start Test.defaults ∅)
  ∧ ¬ Claimed.push (Test.env [] 0 false) (Test.record "R2" 7 ["obsidian"])
        (Some (Test.doc ["machine-learning"])) (Test.start Test.defaults ∅).
Proof.
  split; intros Hclaim.
  - edestruct Hclaim as [_ Hno]; [by vm_compute|].
    assert (Hsame : ¬ Spec.differs_as_sets
              (mergedTags (Test.env [] 0 false) (Test.record "R1" 5 ["x y"; "obsidian"])
                 (Some (Test.doc ["x-y"; "x-y"])) (Test.start Test.defaults ∅))
              (zoteroTagsOf (syncTag (settings (Test.start Test.defaults ∅)))
                 (Test.record "R1" 5 ["x y"; "obsidian"]))).
    { intros Hdiff. apply Hdiff. by vm_compute. }
    apply Hno in Hsame. vm_compute in Hsame. discriminate Hsame.
  - edestruct Hclaim as [Hyes _]; [by vm_compute|].
    assert (Hdiff : Spec.differs_as_sets
              (mergedTags (Test.env [] 0 false) (Test.record "R2" 7 ["obsidian"])
                 (Some (Test.doc ["machine-learning"])) (Test.start Test.defaults ∅))
              (zoteroTagsOf (syncTag (settings (Test.start Test.defaults ∅)))
                 (Test.record "R2" 7 ["obsidian"]))).
    { unfold Spec.differs_as_sets. vm_compute. discriminate. }
    apply Hyes in Hdiff. vm_compute in Hdiff. discriminate Hdiff.
Qed.

(** C3, amended. [syncTagsTwoWay] sends a push exactly when the merged tags
    and the remote tags differ under normalization as collections with
    repetitions (lists up to order); the payload is the merged tags, every
    hyphen turned into a space, followed by the sync tag, at the version of
    the item. *)
Theorem push_iff_merged_differs (E : Env) (it : ZoteroItem)
    (existingContent : option string) (w : World) :
  let merged := mergedTags E it existingContent w in
  let remoteTags := zoteroTagsOf (syncTag (settings w)) it in
  ∃ o w',
    syncTagsTwoWay E it existingContent w = Some (o, w')
    ∧ (∀ x, o = Ok x → x = merged)
    ∧ (Spec.differs merged remoteTags →
         patches w'
         = patches w ++ [{| patch_key := key it;
                            patch_tags := (Str.hyphens_to_spaces <$> merged)
                                            ++ [syncTag (settings w)];
                            patch_version := version it |}])
    ∧ (¬ Spec.differs merged remoteTags → patches w' = patches w).
Proof.
  intros merged remoteTags.
  pose proof (syncTagsTwoWay_run E it existingContent w) as Hrun. cbv zeta in Hrun.
  fold merged remoteTags in Hrun.
  match type of Hrun with _ = (_;; _) ?w1 =>
    destruct (save_then_ret E merged w1) as (o & Hsave & Hok & _)
  end.
  rewrite Hsave in Hrun. eexists o, _. split; [exact Hrun|]. split; [exact Hok|].
  assert (Hpatches : ∀ w0 : World,
    patches (if o is Ok _ then set_saved (settings w0) w0 else w0) = patches w0).
  { intros w0. by destruct o. }
  rewrite Hpatches. simpl.
  destruct (tagsEqual merged remoteTags) eqn:Heq.
  - apply tagsEqual_Permutation in Heq. split; [by intros []|done].
  - apply tagsEqual_false_differs in Heq. split; [done|by intros []].
Qed.

(** The remote-delete example of C1, run: baseline [a, b], remote tags [a],
    document tags [a, b, c]. *)
Lemma merge_with_baseline_witness :
  ∃ o w',
    syncTagsTwoWay (Test.env [] 0 false) (Test.record "R1" 5 ["a"; "obsidian"])
      (Some (Test.doc ["a"; "b"; "c"]))
      (Test.start (Test.synced "R1" 4 (Some ["a"; "b"])) ∅) = Some (o, w')
    ∧ o = Ok ["a"; "c"]
    ∧ patches w' = [tagPush (Test.record "R1" 5 ["a"; "obsidian"]) ["a"; "c"] "obsidian"].
Proof.
  destruct (merge_with_baseline_propagates_remote_deletion (Test.env [] 0 false)
              (Test.record "R1" 5 ["a"; "obsidian"])
              (Some (Test.doc ["a"; "b"; "c"]))
              ["a"; "b"] (Test.start (Test.synced "R1" 4 (Some ["a"; "b"])) ∅))
    as (o & w' & Hrun & _ & Hok & _ & Hdoc & _).
  - reflexivity.
  - exists o, w'. split; [exact Hrun|].
    destruct (Hdoc _ eq_refl) as (_ & _ & _ & _ & _ & Hex); [discriminate|].
    destruct Hex as [Hmerged Hpush]; [reflexivity..|].
    split; [|exact Hpush].
    rewrite <- Hmerged. apply Hok. reflexivity.
Defined.

(** The first-sight example of C2, run: no baseline, remote tags [a, b],
    document tags [b, c]. *)
Lemma first_sight_merge_witness :
  ∃ o w',
    syncTagsTwoWay (Test.env [] 0 false) (Test.record "R1" 5 ["a"; "b"; "obsidian"])
      (Some (Test.doc ["b"; "c"])) (Test.start Test.defaults ∅) = Some (o, w')
    ∧ o = Ok ["b"; "c"; "a"]
    ∧ patches w'
      = [tagPush (Test.record "R1" 5 ["a"; "b"; "obsidian"]) ["b"; "c"; "a"] "obsidian"].
Proof.
  destruct (first_sight_merge_is_additive (Test.env [] 0 false)
              (Test.record "R1" 5 ["a"; "b"; "obsidian"]) (Some (Test.doc ["b"; "c"]))
              (Test.start Test.defaults ∅))
    as (o & w' & Hrun & _ & Hok & _ & _ & _ & _ & _ & Hex).
  - reflexivity.
  - exists o, w'. split; [exact Hrun|].
    destruct Hex as [Hmerged Hpush]; [reflexivity..|].
    split; [|exact Hpush].
    rewrite <- Hmerged. apply Hok. reflexivity.
Defined.

(** C1, as worded for every merge with a baseline, fails when the document
    is missing. Baseline [a], remote tags [a], no document: by the wording
    the merged set is empty, the document tags being none and [a] not being
    new on the remote side; the code takes the remote tags as they are and
    returns [a]. *)
Lemma merge_with_baseline_fails_without_document :
  ¬ Claimed.merge_with_baseline (Test.env [] 0 false)
      (Test.record "R1" 5 ["a"; "obsidian"]) None
      (Test.start (Test.synced "R1" 4 (Some ["a"])) ∅).
Proof.
  intros Hclaim.
  edestruct Hclaim with (lastReconciledTags := ["a"]) (merged := ["a"]) as [Hin _];
    [by vm_compute..|].
  apply (elem_of_nil "a"). vm_compute in Hin. apply Hin, list_elem_of_here.
Qed.

(** ** Reasoning on the monad *)

Section MonadFacts.

Context {S : Type}.

Lemma bind_Some {A B} (m : M S A) (k : A → M S B) s o s' :
  (x <- m;; k x) s = Some (o, s')
  ↔ (∃ e, m s = Some (Throw e, s') ∧ o = Throw e)
    ∨ (∃ a s1, m s = Some (Ok a, s1) ∧ k a s1 = Some (o, s')).
Proof.
  unfold bind. destruct (m s) as [[[a|e] s1]|]; split.
  - intros H. right. by exists a, s1.
  - intros [(e & [=] & _)|(a' & s1' & [= <- <-] & H)]; done.
  - intros [= <- <-]. left. by exists e.
  - intros [(e' & [= <- <-] & ->)|(a' & s1' & [=] & _)]; done.
  - done.
  - intros [(e & [=] & _)|(a' & s1' & [=] & _)].
Qed.

Lemma try_catch_Some {A} (m : M S A) (h : string → M S A) s o s' :
  try_catch m h s = Some (o, s')
  ↔ (∃ a, m s = Some (Ok a, s') ∧ o = Ok a)
    ∨ (∃ e s1, m s = Some (Throw e, s1) ∧ h e s1 = Some (o, s')).
Proof.
  unfold try_catch. destruct (m s) as [[[a|e] s1]|]; split.
  - intros [= <- <-]. left. by exists a.
  - intros [(a' & [= <- <-] & ->)|(e & s1' & [=] & _)]; done.
  - intros H. right. by exists e, s1.
  - intros [(a' & [=] & _)|(e' & s1' & [= <- <-] & H)]; done.
  - done.
  - intros [(a & [=] & _)|(e & s1' & [=] & _)].
Qed.

Variable R : relation S.
Context `{!PreOrder R}.

Lemma keeps_ret {A} (a : A) : keeps R (ret a).
Proof. by intros s o s' [= _ <-]. Qed.

Lemma keeps_throw {A} e : keeps R (throw (A := A) e).
Proof. by intros s o s' [= _ <-]. Qed.

Lemma keeps_gets {A} (f : S → A) : keeps R (gets f).
Proof. by intros s o s' [= _ <-]. Qed.

Lemma keeps_of_outcome {A} (o : outcome A) : keeps R (of_outcome o).
Proof. by intros s o' s' [= _ <-]. Qed.

Lemma keeps_ask {A} (f : S → outcome A) : keeps R (λ s, of_outcome (f s) s).
Proof. by intros s o' s' [= _ <-]. Qed.

Lemma keeps_stuck {A} : keeps R (λ _, None : option (outcome A * S)).
Proof. by intros s o s' [=]. Qed.

Lemma keeps_modify (f : S → S) : (∀ s, R s (f s)) → keeps R (modify f).
Proof. intros Hf s o s' [= _ <-]. apply Hf. Qed.

Lemma keeps_bind {A B} (m : M S A) (k : A → M S B) :
  keeps R m → (∀ a, keeps R (k a)) → keeps R (x <- m;; k x).
Proof.
  intros Hm Hk s o s' [(e & H & _)|(a & s1 & H1 & H2)]%bind_Some.
  - by eapply Hm.
  - etrans; [by eapply Hm|by eapply Hk].
Qed.

Lemma keeps_try_catch {A} (m : M S A) (h : string → M S A) :
  keeps R m → (∀ e, keeps R (h e)) → keeps R (try_catch m h).
Proof.
  intros Hm Hh s o s' [(a & H & _)|(e & s1 & H1 & H2)]%try_catch_Some.
  - by eapply Hm.
  - etrans; [by eapply Hm|by eapply Hh].
Qed.

Lemma keeps_foldM {A B} (f : B → A → M S B) (l : list A) :
  (∀ b a, keeps R (f b a)) → ∀ b, keeps R (foldM f l b).
Proof.
  intros Hf. induction l as [|a l IH]; intros b; simpl.
  - apply keeps_ret.
  - apply keeps_bind; [apply Hf|apply IH].
Qed.

End MonadFacts.

Lemma liftW_Some {A} (m : M World A) c o c' :
  liftW m c = Some (o, c')
  ↔ ∃ w', m (world c) = Some (o, w') ∧ c' = {| world := w'; result := result c |}.
Proof.
  unfold liftW. destruct (m (world c)) as [[o1 w1]|]; split.
  - intros [= <- <-]. by exists w1.
  - by intros (w' & [= <- <-] & ->).
  - done.
  - by intros (w' & [=] & _).
Qed.

Lemma liftW_result {A} (m : M World A) c o c' :
  liftW m c = Some (o, c') → result c' = result c.
Proof. by intros (w' & _ & ->)%liftW_Some. Qed.

(** A relation on worlds, read on cycles with the same [result]. *)
Lemma keeps_liftW (R : relation World) (RC : relation Cycle) {A} (m : M World A) :
  (∀ c w', R (world c) w' → RC c {| world := w'; result := result c |}) →
  keeps R m → keeps RC (liftW m).
Proof.
  intros Hlift Hm c o c' (w' & H & ->)%liftW_Some. apply Hlift. by eapply Hm.
Qed.

(** ** Relations the engine keeps

    The operations of the engine change the state by a few updates only. A
    relation that is a preorder and holds across the updates an operation
    uses holds across the operation. Each lemma asks for the updates its
    operation makes, no more. *)

Ltac keeps_step :=
  match goal with
  | |- keeps _ (bind _ _) => apply keeps_bind; [typeclasses eauto.. | | intros ?]
  | |- keeps _ (ret _) => apply keeps_ret; typeclasses eauto
  | |- keeps _ (throw _) => apply keeps_throw; typeclasses eauto
  | |- keeps _ (gets _) => apply keeps_gets; typeclasses eauto
  | |- keeps _ (of_outcome _) => apply keeps_of_outcome; typeclasses eauto
  | |- keeps _ (try_catch _ _) =>
      apply keeps_try_catch; [typeclasses eauto.. | | intros ?]
  | |- keeps _ (foldM _ _ _) => apply keeps_foldM; [typeclasses eauto.. | intros ? ?]
  | |- keeps _ (if ?b then _ else _) => destruct b
  | |- keeps _ (match ?x with _ => _ end) => destruct x
  | |- keeps _ (λ s, of_outcome _ s) => apply keeps_ask; typeclasses eauto
  | |- keeps _ (λ _, None) => apply keeps_stuck
  | |- keeps _ (liftW _) => eapply keeps_liftW; [eassumption|]
  | |- keeps _ (modify _) => apply keeps_modify; [typeclasses eauto.. | intros ?]
  end.

Create HintDb keeps discriminated.

Ltac keeps_go := repeat keeps_step; eauto with keeps.

Section Keeps.

Variable E : Env.
Variable R : relation World.
Variable RC : relation Cycle.

Hypothesis R_pre : PreOrder R.
Hypothesis R_saved : ∀ w s, R w (set_saved s w).
Hypothesis R_file : ∀ w path content, R w (set_vault (insert path (TFile content)) w).
Hypothesis R_folder : ∀ w path,
  vault w !! path = None → R w (set_vault (insert path TFolder) w).
Hypothesis R_filenames : ∀ w f,
  R w (set_settings (λ s, with_itemFilenames (f s) s) w).
Hypothesis R_tags : ∀ w itemKey tags, R w (with_tag_baseline itemKey tags w).
Hypothesis R_version : ∀ w itemKey v,
  R w (set_settings (λ s, with_itemVersions (<[itemKey := v]> (itemVersions s)) s) w).
Hypothesis R_library : ∀ w v, R w (set_settings (with_lastSyncVersion v) w).
Hypothesis R_patch : ∀ w p, R w (add_patch p w).
Hypothesis R_progress : ∀ w p, R w (add_progress p w).

Hypothesis RC_pre : PreOrder RC.
Hypothesis RC_world : ∀ c w',
  R (world c) w' → RC c {| world := w'; result := result c |}.
Hypothesis RC_created : ∀ c, RC c (set_result incr_created c).
Hypothesis RC_updated : ∀ c, RC c (set_result incr_updated c).
Hypothesis RC_skipped : ∀ c, RC c (set_result incr_skipped c).
Hypothesis RC_error : ∀ c msg, RC c (set_result (push_error msg) c).

Lemma keeps_saveSettings : keeps R (saveSettings E).
Proof. unfold saveSettings. keeps_go. Qed.
Hint Resolve keeps_saveSettings : keeps.

Lemma keeps_getAbstractFileByPath path : keeps R (getAbstractFileByPath path).
Proof. unfold getAbstractFileByPath. keeps_go. Qed.
Hint Resolve keeps_getAbstractFileByPath : keeps.

Lemma keeps_vault_read path : keeps R (vault_read path).
Proof. unfold vault_read. keeps_go. Qed.
Hint Resolve keeps_vault_read : keeps.

Lemma keeps_write_file op path content :
  keeps R (vault_write E op path (TFile content)).
Proof. unfold vault_write. keeps_go. Qed.
Hint Resolve keeps_write_file : keeps.

Lemma keeps_vault_create path content : keeps R (vault_create E path content).
Proof. unfold vault_create. keeps_go. Qed.
Hint Resolve keeps_vault_create : keeps.

Lemma keeps_vault_createBinary path data : keeps R (vault_createBinary E path data).
Proof. unfold vault_createBinary. keeps_go. Qed.
Hint Resolve keeps_vault_createBinary : keeps.

Lemma keeps_vault_modify path content : keeps R (vault_modify E path content).
Proof. unfold vault_modify. keeps_go. Qed.
Hint Resolve keeps_vault_modify : keeps.

Lemma keeps_vault_createFolder path : keeps R (vault_createFolder E path).
Proof.
  intros w o w'. unfold vault_createFolder, getAbstractFileByPath, vault_write.
  unfold bind, gets, modify, throw. simpl.
  destruct (vault w !! path) eqn:Hpath; simpl.
  - by intros [= _ <-].
  - destruct (vaultError E (OpCreateFolder path) w); intros [= _ <-]; [done|].
    by apply R_folder.
Qed.
Hint Resolve keeps_vault_createFolder : keeps.

Lemma keeps_setLibraryVersion v : keeps R (setLibraryVersion E v).
Proof. unfold setLibraryVersion. keeps_go. Qed.
Hint Resolve keeps_setLibraryVersion : keeps.

Lemma keeps_getLibraryVersion : keeps R getLibraryVersion.
Proof. unfold getLibraryVersion. keeps_go. Qed.
Hint Resolve keeps_getLibraryVersion : keeps.

Lemma keeps_isItemChanged itemKey v : keeps R (isItemChanged itemKey v).
Proof. unfold isItemChanged. keeps_go. Qed.
Hint Resolve keeps_isItemChanged : keeps.

Lemma keeps_setItemVersion itemKey v : keeps R (setItemVersion E itemKey v).
Proof. unfold setItemVersion. keeps_go. Qed.

Lemma keeps_fetchItemsByTag_from fuel tag since : ∀ allItems start libraryVersion,
  keeps R (fetchItemsByTag_from E fuel tag since allItems start libraryVersion).
Proof.
  induction fuel as [|fuel IH]; intros allItems start libraryVersion; simpl;
    keeps_go.
Qed.

Lemma keeps_fetchItemsByTag fuel tag since : keeps R (fetchItemsByTag E fuel tag since).
Proof. apply keeps_fetchItemsByTag_from. Qed.
Hint Resolve keeps_fetchItemsByTag : keeps.

Lemma keeps_patchItemTags itemKey tags v : keeps R (patchItemTags E itemKey tags v).
Proof. unfold patchItemTags. keeps_go. Qed.
Hint Resolve keeps_patchItemTags : keeps.

Lemma keeps_pushTagsToZotero it merged tag zoteroTags :
  keeps R (pushTagsToZotero E it merged tag zoteroTags).
Proof. unfold pushTagsToZotero. keeps_go. Qed.
Hint Resolve keeps_pushTagsToZotero : keeps.

Lemma keeps_syncTagsTwoWay it existingContent :
  keeps R (syncTagsTwoWay E it existingContent).
Proof. unfold syncTagsTwoWay. keeps_go. Qed.
Hint Resolve keeps_syncTagsTwoWay : keeps.

Lemma keeps_hasMissingImageAnnotations file :
  keeps R (hasMissingImageAnnotations E file).
Proof. unfold hasMissingImageAnnotations. keeps_go. Qed.
Hint Resolve keeps_hasMissingImageAnnotations : keeps.

Lemma keeps_hasLocalTagChanges file itemKey :
  keeps R (hasLocalTagChanges E file itemKey).
Proof. unfold hasLocalTagChanges. keeps_go. Qed.
Hint Resolve keeps_hasLocalTagChanges : keeps.

Lemma keeps_ensureFolder folderPath : keeps R (ensureFolder E folderPath).
Proof. unfold ensureFolder. keeps_go. Qed.
Hint Resolve keeps_ensureFolder : keeps.

Lemma keeps_ensureFolderParts parts : ∀ current,
  keeps R (ensureFolderParts E current parts).
Proof.
  induction parts as [|part parts IH]; intros current; simpl; keeps_go.
Qed.
Hint Resolve keeps_ensureFolderParts : keeps.

Lemma keeps_ensureFolderRecursive folderPath :
  keeps R (ensureFolderRecursive E folderPath).
Proof. unfold ensureFolderRecursive. keeps_go. Qed.
Hint Resolve keeps_ensureFolderRecursive : keeps.

Lemma keeps_readFromLocalCache annotationKey :
  keeps R (readFromLocalCache E annotationKey).
Proof. unfold readFromLocalCache. keeps_go. Qed.
Hint Resolve keeps_readFromLocalCache : keeps.

Lemma keeps_processImageAnnotation imageFolder name images ann :
  keeps R (processImageAnnotation E imageFolder name images ann).
Proof. unfold processImageAnnotation. keeps_go. Qed.
Hint Resolve keeps_processImageAnnotation : keeps.

Lemma keeps_processImageAnnotations it anns :
  keeps R (processImageAnnotations E it anns).
Proof. unfold processImageAnnotations. keeps_go. Qed.
Hint Resolve keeps_processImageAnnotations : keeps.

Lemma keeps_buildSyncData it : keeps R (buildSyncData E it).
Proof. unfold buildSyncData, collectAnnotations. keeps_go. Qed.
Hint Resolve keeps_buildSyncData : keeps.

Lemma keeps_renderContent syncData : keeps R (renderContent E syncData).
Proof. unfold renderContent. keeps_go. Qed.
Hint Resolve keeps_renderContent : keeps.

Lemma keeps_resolveFilename itemKey it : keeps R (resolveFilename E itemKey it).
Proof. unfold resolveFilename. keeps_go. Qed.
Hint Resolve keeps_resolveFilename : keeps.

Lemma keeps_shouldSkip it filePath existingFile :
  keeps R (shouldSkip E it filePath existingFile).
Proof. unfold shouldSkip. keeps_go. Qed.
Hint Resolve keeps_shouldSkip : keeps.

(** On cycles. *)

Lemma keeps_rewriteDocument it syncData filePath existingFile :
  keeps RC (rewriteDocument E it syncData filePath existingFile).
Proof. unfold rewriteDocument. keeps_go. Qed.
Hint Resolve keeps_rewriteDocument : keeps.

Lemma keeps_regenerate it syncData filePath existingFile :
  keeps RC (regenerate E it syncData filePath existingFile).
Proof. unfold regenerate. keeps_go. apply keeps_setItemVersion. Qed.
Hint Resolve keeps_regenerate : keeps.

Lemma keeps_syncItem total processed it : keeps RC (syncItem E total processed it).
Proof. unfold syncItem. keeps_go. Qed.
Hint Resolve keeps_syncItem : keeps.

Lemma keeps_forEachItem total items : ∀ processed,
  keeps RC (forEachItem E total processed items).
Proof.
  induction items as [|it items IH]; intros processed; simpl; keeps_go.
Qed.
Hint Resolve keeps_forEachItem : keeps.

Lemma keeps_syncAll_try fuel : keeps RC (syncAll_try E fuel).
Proof. unfold syncAll_try. keeps_go. Qed.

Lemma keeps_syncSingleItem_try itemKey : keeps RC (syncSingleItem_try E itemKey).
Proof. unfold syncSingleItem_try. keeps_go. Qed.

End Keeps.

(** ** The single-flight guard *)

Lemma guard_released (w : World) :
  isSyncing w = false → set_isSyncing false (set_isSyncing true w) = w.
Proof. destruct w; simpl; by intros ->. Qed.

Lemma finish_resets (m : M Cycle unit) c r w' :
  match m c with None => None | Some (o, c') => Some (finish o c') end = Some (r, w') →
  isSyncing w' = false.
Proof. destruct (m c) as [[o c']|]; [|done]. by intros [= _ <-]. Qed.

(** A cycle that was let in and returned has reset [isSyncing]. *)
Lemma started_cycle_resets E w r w' :
  isSyncing w = false →
  (∃ fuel, syncAll E fuel w = Some (r, w'))
  ∨ (∃ itemKey, syncSingleItem E itemKey w = Some (r, w')) →
  isSyncing w' = false.
Proof.
  intros Hidle [[fuel Hrun]|[itemKey Hrun]];
    unfold syncAll, syncSingleItem in Hrun; rewrite Hidle in Hrun;
    by eapply finish_resets.
Qed.

(** C8. Called while a cycle is running, [syncAll] and [syncSingleItem]
    return at once the outcome with zero counts and the one message
    "Sync already in progress"; a notice is shown, and settings, saved
    settings, vault, requests and progress are untouched; the running cycle
    keeps the guard: the trigger is rejected, not queued. *)
Theorem concurrent_trigger_is_rejected (E : Env) (w : World)
    (fuel : nat) (itemKey : string) :
  isSyncing w = true →
  ∃ w',
    syncAll E fuel w
    = Some ({| created := 0; updated := 0; skipped := 0;
               errors := ["Sync already in progress"] |}, w')
    ∧ syncSingleItem E itemKey w
      = Some ({| created := 0; updated := 0; skipped := 0;
                 errors := ["Sync already in progress"] |}, w')
    ∧ settings w' = settings w ∧ saved w' = saved w ∧ vault w' = vault w
    ∧ patches w' = patches w ∧ progress w' = progress w
    ∧ notices w' = notices w ++ ["Zotero sync already in progress"]
    ∧ isSyncing w' = true.
Proof.
  intros Hbusy. exists (add_notice "Zotero sync already in progress" w).
  unfold syncAll, syncSingleItem. rewrite Hbusy. by split_and!.
Qed.

(** C10. A cycle that was let in, full or single-record, returns with
    [isSyncing] reset, whether its [try] block ended normally or threw; the
    trigger that follows is let in. *)
Theorem in_progress_flag_is_reset (E : Env) (w : World) (r : SyncResult) (w' : World) :
  isSyncing w = false →
  (∃ fuel, syncAll E fuel w = Some (r, w'))
  ∨ (∃ itemKey, syncSingleItem E itemKey w = Some (r, w')) →
  isSyncing w' = false
  ∧ (∀ fuel,
       syncAll E fuel w'
       = match syncAll_try E fuel {| world := set_isSyncing true w';
                                     result := emptyResult |} with
         | None => None
         | Some (o, c) => Some (finish o c)
         end)
  ∧ (∀ itemKey,
       syncSingleItem E itemKey w'
       = match syncSingleItem_try E itemKey {| world := set_isSyncing true w';
                                               result := emptyResult |} with
         | None => None
         | Some (o, c) => Some (finish o c)
         end).
Proof.
  intros Hidle Hrun.
  assert (Hreset : isSyncing w' = false) by by eapply started_cycle_resets.
  split_and!; [done| |]; intros ?; unfold syncAll, syncSingleItem; by rewrite Hreset.
Qed.

(** ** Documents are never deleted *)

Global Instance docs_kept_preorder : PreOrder docs_kept.
Proof. split; [by intros w path|]. intros w1 w2 w3 H12 H23 path H. by apply H23, H12. Qed.

Global Instance on_world_preorder (R : relation World) `{!PreOrder R} :
  PreOrder (on_world R).
Proof.
  split; [intros c; unfold on_world; reflexivity|].
  intros c1 c2 c3; unfold on_world; by etrans.
Qed.

Lemma docs_kept_same_vault w w' : vault w' = vault w → docs_kept w w'.
Proof. intros Heq path. by rewrite Heq. Qed.

Lemma docs_kept_file w path content :
  docs_kept w (set_vault (insert path (TFile content)) w).
Proof.
  intros p Hp. simpl. destruct (decide (path = p)) as [->|Hne].
  - by rewrite lookup_insert_eq.
  - by rewrite lookup_insert_ne.
Qed.

Lemma docs_kept_folder w path :
  vault w !! path = None → docs_kept w (set_vault (insert path TFolder) w).
Proof.
  intros Hfree p Hp. simpl. destruct (decide (path = p)) as [->|Hne].
  - by rewrite Hfree in Hp.
  - by rewrite lookup_insert_ne.
Qed.

Ltac docs_kept_updates :=
  first [ typeclasses eauto
        | by apply docs_kept_file
        | by apply docs_kept_folder
        | by (intros; apply docs_kept_same_vault)
        | by (intros; unfold on_world; simpl; reflexivity)
        | by (intros ? ? H; exact H) ].

Lemma syncAll_try_keeps_docs E fuel : keeps (on_world docs_kept) (syncAll_try E fuel).
Proof. apply keeps_syncAll_try with (R := docs_kept); docs_kept_updates. Qed.

Lemma syncSingleItem_try_keeps_docs E itemKey :
  keeps (on_world docs_kept) (syncSingleItem_try E itemKey).
Proof. apply keeps_syncSingleItem_try with (R := docs_kept); docs_kept_updates. Qed.

Lemma finish_keeps_docs (m : M Cycle unit) w r w' :
  keeps (on_world docs_kept) m →
  match m {| world := set_isSyncing true w; result := emptyResult |} with
  | None => None
  | Some (o, c') => Some (finish o c')
  end = Some (r, w') →
  docs_kept w w'.
Proof.
  intros Hm.
  destruct (m _) as [[o c']|] eqn:Hrun; [|done]. intros [= _ <-].
  apply Hm in Hrun. unfold on_world in Hrun. simpl in Hrun.
  intros path Hpath. by apply Hrun.
Qed.

(** C9. Across a full cycle and across a single-record sync, every path of
    the vault that holds a file holds a file afterwards: documents are
    created or modified, never removed, whatever the remote answers. *)
Theorem documents_are_never_deleted (E : Env) (w : World) (r : SyncResult) (w' : World) :
  (∃ fuel, syncAll E fuel w = Some (r, w'))
  ∨ (∃ itemKey, syncSingleItem E itemKey w = Some (r, w')) →
  ∀ path content,
    vault w !! path = Some (TFile content) →
    ∃ content', vault w' !! path = Some (TFile content').
Proof.
  intros Hrun.
  assert (Hkept : docs_kept w w').
  { destruct Hrun as [[fuel Hrun]|[itemKey Hrun]];
      unfold syncAll, syncSingleItem in Hrun;
      (destruct (isSyncing w);
       [injection Hrun as _ <-; by apply docs_kept_same_vault|]).
    - eapply finish_keeps_docs; [apply (syncAll_try_keeps_docs E fuel)|exact Hrun].
    - eapply finish_keeps_docs; [apply (syncSingleItem_try_keeps_docs E itemKey)|exact Hrun]. }
  intros path content Hpath. specialize (Hkept path). rewrite Hpath in Hkept.
  specialize (Hkept eq_refl).
  destruct (vault w' !! path) as [[content'|]|]; [by exists content'|done..].
Qed.

(** ** A cycle that finds no changes *)

(** An incremental request whose first page reports no changes fetches no
    item, after one request. *)
Lemma fetch_reports_no_changes E fuel tag since w :
  0 < since → (0 < fuel)%nat →
  reportsNoChanges (requestItems E tag (Some since) 0 w) →
  ∃ libraryVersion,
    fetchItemsByTag E fuel tag (Some since) w = Some (Ok ([], libraryVersion), w).
Proof.
  intros Hsince Hfuel Hnone. destruct fuel as [|fuel]; [lia|].
  unfold fetchItemsByTag. simpl. unfold bind, of_outcome.
  rewrite bool_decide_true by done.
  destruct (requestItems E tag (Some since) 0 w) as [response|e]; [|done].
  simpl in Hnone. case_bool_decide as Hstatus.
  - by eexists.
  - destruct Hnone as [?|Hjson]; [done|]. rewrite Hjson. simpl.
    rewrite orb_true_r. by eexists.
Qed.

(** A cycle run at a positive cursor against a remote that reports no
    changes counts nothing and leaves the world as it was. *)
Lemma no_changes_cycle E fuel w :
  isSyncing w = false →
  0 < lastSyncVersion (settings w) →
  (∀ w0, reportsNoChanges
           (requestItems E (syncTag (settings w)) (Some (lastSyncVersion (settings w))) 0 w0)) →
  (0 < fuel)%nat →
  ∃ r,
    syncAll E fuel w = Some (r, w)
    ∧ created r = 0%nat ∧ updated r = 0%nat ∧ skipped r = 0%nat
    ∧ (Str.truthy (userId (settings w)) = true →
       (∀ w0, fetchCollections E w0 = Ok tt) → r = emptyResult).
Proof.
  intros Hidle Hcursor Hnone Hfuel.
  unfold syncAll. rewrite Hidle.
  set (c := {| world := set_isSyncing true w; result := emptyResult |}).
  unfold syncAll_try. unfold bind at 1. simpl.
  destruct (Str.truthy (userId (settings w))) eqn:Huser; simpl.
  - unfold bind at 1. unfold liftW at 1, of_outcome. simpl.
    destruct (fetchCollections E (set_isSyncing true w)) as [[]|e] eqn:Hcollections.
    + simpl. unfold bind at 1. simpl. rewrite bool_decide_true by done.
      destruct (fetch_reports_no_changes E fuel (syncTag (settings w))
                  (lastSyncVersion (settings w)) (set_isSyncing true w))
        as [libraryVersion Hfetch]; [done..|].
      unfold bind at 1, liftW at 1. simpl. rewrite Hfetch. simpl.
      unfold finish. simpl. rewrite guard_released by done.
      eexists. split; [reflexivity|]. by split_and!.
    + simpl. unfold finish. simpl. rewrite guard_released by done.
      eexists. split; [reflexivity|]. split_and!; try done.
      intros _ Hnever. by rewrite Hnever in Hcollections.
  - unfold finish. simpl. rewrite guard_released by done.
    eexists. split; [reflexivity|]. by split_and!.
Qed.

(** ** The skip decision *)

Lemma hasMissingImageAnnotations_run E filePath content w :
  vault w !! filePath = Some (TFile content) →
  ∃ b, hasMissingImageAnnotations E filePath w = Some (Ok b, w)
       ∧ (b = true ↔ missingImages E w content).
Proof.
  intros Hfile. unfold hasMissingImageAnnotations, missingImages, bind, gets. simpl.
  destruct (hasLocalCache E w); simpl.
  - unfold vault_read, getAbstractFileByPath, bind, gets. simpl. rewrite Hfile. simpl.
    eexists. split; [reflexivity|]. naive_solver.
  - eexists. split; [reflexivity|]. naive_solver.
Qed.

Lemma hasLocalTagChanges_run E filePath itemKey content w :
  vault w !! filePath = Some (TFile content) →
  ∃ b, hasLocalTagChanges E filePath itemKey w = Some (Ok b, w)
       ∧ (b = true ↔ tagDrift E w itemKey content).
Proof.
  intros Hfile. unfold hasLocalTagChanges, tagDrift, bind, gets. simpl.
  destruct (lastSyncedTags (settings w) !! itemKey) as [lastSynced|]; simpl.
  - unfold vault_read, getAbstractFileByPath, bind, gets. simpl. rewrite Hfile. simpl.
    eexists. split; [reflexivity|].
    rewrite negb_true_iff, tagsEqual_false_differs. unfold Spec.differs.
    split; [by exists lastSynced|]. by intros (? & [= <-] & ?).
  - eexists. split; [reflexivity|]. split; [done|]. by intros (? & [=] & ?).
Qed.


(** ** Errors of one record *)

Global Instance versions_kept_preorder : PreOrder versions_kept.
Proof.
  split; [by intros w|]. unfold versions_kept. intros w1 w2 w3 H12 H23. congruence.
Qed.

Global Instance quiet_preorder : PreOrder quiet.
Proof.
  split.
  - intros c. unfold quiet. split_and!; [reflexivity|lia..].
  - intros c1 c2 c3 (H12 & ? & ?) (H23 & ? & ?). unfold quiet.
    split_and!; [by etrans|lia..].
Qed.

Global Instance guarded_preorder : PreOrder guarded.
Proof.
  split.
  - intros c. unfold guarded. split_and!; [lia..|]. intros _. reflexivity.
  - intros c1 c2 c3 (? & ? & H12) (? & ? & H23). unfold guarded, unwritten in *.
    split_and!; [lia..|]. intros [? ?].
    etrans; [apply H12|apply H23]; lia.
Qed.

Global Instance errors_kept_preorder : PreOrder errors_kept.
Proof.
  split; [intros c; unfold errors_kept; reflexivity|].
  unfold errors_kept. intros c1 c2 c3 ? ?. by etrans.
Qed.

Lemma quiet_guarded c c' : quiet c c' → guarded c c'.
Proof. intros (? & ? & ?). unfold guarded. by split_and!. Qed.

Lemma versions_kept_same w w' :
  itemVersions (settings w') = itemVersions (settings w) → versions_kept w w'.
Proof. done. Qed.

Ltac versions_kept_updates :=
  first [ typeclasses eauto
        | by (intros; apply versions_kept_same)
        | by (intros [? ?] ? H; unfold quiet; simpl in *; split_and!; [exact H|lia..])
        | by (intros [? ?]; unfold quiet, versions_kept; simpl; split_and!; [done|lia..])
        | by (intros [? ?] ?; unfold quiet, versions_kept; simpl; split_and!; [done|lia..]) ].

Section RecordErrors.

Variable E : Env.

Lemma rewriteDocument_quiet it syncData filePath existingFile :
  keeps quiet (rewriteDocument E it syncData filePath existingFile).
Proof. apply keeps_rewriteDocument with (R := versions_kept); versions_kept_updates. Qed.

Lemma resolveFilename_versions itemKey it :
  keeps versions_kept (resolveFilename E itemKey it).
Proof. apply keeps_resolveFilename; versions_kept_updates. Qed.

Lemma shouldSkip_versions it filePath existingFile :
  keeps versions_kept (shouldSkip E it filePath existingFile).
Proof. apply keeps_shouldSkip; versions_kept_updates. Qed.

Lemma buildSyncData_versions it : keeps versions_kept (buildSyncData E it).
Proof. apply keeps_buildSyncData; versions_kept_updates. Qed.

(** A document that was written was counted. *)
Lemma rewriteDocument_counts it syncData filePath existingFile c c' :
  rewriteDocument E it syncData filePath existingFile c = Some (Ok tt, c') →
  (created (result c') + updated (result c')
   = S (created (result c) + updated (result c)))%nat.
Proof.
  unfold rewriteDocument. intros H.
  apply bind_Some in H as [(? & _ & [=])|(existingContent & c1 & H1 & H)].
  apply bind_Some in H as [(? & _ & [=])|(mergedTags & c2 & H2 & H)].
  apply bind_Some in H as [(? & _ & [=])|(tag & c3 & H3 & H)].
  apply bind_Some in H as [(? & _ & [=])|(content & c4 & H4 & H)].
  apply liftW_result in H1, H2, H3, H4.
  assert (Hsame : result c4 = result c) by congruence.
  rewrite <- Hsame. clear H1 H2 H3 H4 Hsame.
  destruct (is_TFile existingFile).
  - apply bind_Some in H as [(? & _ & [=])|(s & c5 & H5 & H)].
    apply bind_Some in H as [(? & _ & [=])|([] & c6 & H6 & H)].
    injection H as <-. apply liftW_result in H5.
    assert (result c6 = result c5) as Hres.
    { destruct (preserveUserContent s).
      - apply bind_Some in H6 as [(? & _ & [=])|(merged & c7 & H7 & H6)].
        apply liftW_result in H7, H6. congruence.
      - by apply liftW_result in H6. }
    simpl. rewrite Hres, H5. lia.
  - apply bind_Some in H as [(? & _ & [=])|([] & c5 & H5 & H)].
    injection H as <-. apply liftW_result in H5. simpl. rewrite H5. lia.
Qed.

Lemma regenerate_guarded it syncData filePath existingFile :
  keeps guarded (regenerate E it syncData filePath existingFile).
Proof.
  intros c o c1 H. unfold regenerate in H.
  apply bind_Some in H as [(e & H & _)|([] & c' & Hwrite & Hversion)].
  - by apply quiet_guarded, (rewriteDocument_quiet _ _ _ _ _ _ _ H).
  - pose proof (rewriteDocument_counts _ _ _ _ _ _ Hwrite) as Hcount.
    apply rewriteDocument_quiet in Hwrite as (_ & ? & ?).
    apply liftW_result in Hversion.
    unfold guarded, unwritten. rewrite Hversion. split_and!; [lia..|]. lia.
Qed.

Lemma syncItem_guarded total processed it : keeps guarded (syncItem E total processed it).
Proof.
  assert (Hlift : ∀ c w', versions_kept (world c) w' →
                          guarded c {| world := w'; result := result c |}).
  { intros c w' H. apply quiet_guarded. unfold quiet. simpl. split_and!; [done|lia..]. }
  pose proof resolveFilename_versions. pose proof shouldSkip_versions.
  pose proof buildSyncData_versions. pose proof regenerate_guarded.
  unfold syncItem. keeps_go.
  - by apply versions_kept_same.
  - unfold getAbstractFileByPath. keeps_go.
  - apply quiet_guarded. unfold quiet, versions_kept. simpl. split_and!; [done|lia..].
Qed.

Lemma forEachItem_errors_kept total items : ∀ processed,
  keeps errors_kept (forEachItem E total processed items).
Proof.
  apply keeps_forEachItem with (R := λ _ _, True);
    first [ typeclasses eauto | done
          | by (intros; unfold errors_kept; simpl; try apply prefix_app_r)
          | split; done ].
Qed.

End RecordErrors.

(** ** What returns

    Only the pagination of [fetchItemsByTag] can fail to return; everything
    a record goes through returns. *)

Section Returns.

Context {S : Type}.

Lemma returns_ret {A} (a : A) : returns (S := S) (ret a).
Proof. intros s. by eexists _, _. Qed.

Lemma returns_throw {A} e : returns (S := S) (throw (A := A) e).
Proof. intros s. by eexists _, _. Qed.

Lemma returns_gets {A} (f : S → A) : returns (gets f).
Proof. intros s. by eexists _, _. Qed.

Lemma returns_modify (f : S → S) : returns (modify f).
Proof. intros s. by eexists _, _. Qed.

Lemma returns_of_outcome {A} (o : outcome A) : returns (S := S) (of_outcome o).
Proof. intros s. by eexists _, _. Qed.

Lemma returns_ask {A} (f : S → outcome A) : returns (λ s, of_outcome (f s) s).
Proof. intros s. by eexists _, _. Qed.

Lemma returns_bind {A B} (m : M S A) (k : A → M S B) :
  returns m → (∀ a, returns (k a)) → returns (x <- m;; k x).
Proof.
  intros Hm Hk s. unfold bind. destruct (Hm s) as ([a|e] & s1 & ->).
  - apply Hk.
  - by eexists _, _.
Qed.

Lemma returns_try_catch {A} (m : M S A) (h : string → M S A) :
  returns m → (∀ e, returns (h e)) → returns (try_catch m h).
Proof.
  intros Hm Hh s. unfold try_catch. destruct (Hm s) as ([a|e] & s1 & ->).
  - by eexists _, _.
  - apply Hh.
Qed.

Lemma returns_foldM {A B} (f : B → A → M S B) (l : list A) :
  (∀ b a, returns (f b a)) → ∀ b, returns (foldM f l b).
Proof.
  intros Hf. induction l as [|a l IH]; intros b; simpl.
  - apply returns_ret.
  - apply returns_bind; [apply Hf|apply IH].
Qed.

End Returns.

Lemma returns_liftW {A} (m : M World A) : returns m → returns (liftW m).
Proof.
  intros Hm c. unfold liftW. destruct (Hm (world c)) as (o & w' & ->). by eexists _, _.
Qed.

Ltac returns_step :=
  match goal with
  | |- returns (bind _ _) => apply returns_bind; [|intros ?]
  | |- returns (ret _) => apply returns_ret
  | |- returns (throw _) => apply returns_throw
  | |- returns (gets _) => apply returns_gets
  | |- returns (modify _) => apply returns_modify
  | |- returns (of_outcome _) => apply returns_of_outcome
  | |- returns (try_catch _ _) => apply returns_try_catch; [|intros ?]
  | |- returns (foldM _ _ _) => apply returns_foldM; intros ? ?
  | |- returns (if ?b then _ else _) => destruct b
  | |- returns (match ?x with _ => _ end) => destruct x
  | |- returns (λ s, of_outcome _ s) => apply returns_ask
  | |- returns (liftW _) => apply returns_liftW
  end.

Create HintDb returns discriminated.

Ltac returns_go := repeat returns_step; eauto with returns.

Section EngineReturns.

Variable E : Env.

Lemma returns_saveSettings : returns (saveSettings E).
Proof. unfold saveSettings. returns_go. Qed.
Hint Resolve returns_saveSettings : returns.

Lemma returns_getAbstractFileByPath path : returns (getAbstractFileByPath path).
Proof. unfold getAbstractFileByPath. returns_go. Qed.
Hint Resolve returns_getAbstractFileByPath : returns.

Lemma returns_vault_read path : returns (vault_read path).
Proof. unfold vault_read. returns_go. Qed.
Hint Resolve returns_vault_read : returns.

Lemma returns_vault_write op path f : returns (vault_write E op path f).
Proof. unfold vault_write. returns_go. Qed.
Hint Resolve returns_vault_write : returns.

Lemma returns_vault_create path content : returns (vault_create E path content).
Proof. unfold vault_create. returns_go. Qed.
Hint Resolve returns_vault_create : returns.

Lemma returns_vault_createBinary path data : returns (vault_createBinary E path data).
Proof. unfold vault_createBinary. returns_go. Qed.
Hint Resolve returns_vault_createBinary : returns.

Lemma returns_vault_modify path content : returns (vault_modify E path content).
Proof. unfold vault_modify. returns_go. Qed.
Hint Resolve returns_vault_modify : returns.

Lemma returns_vault_createFolder path : returns (vault_createFolder E path).
Proof. unfold vault_createFolder. returns_go. Qed.
Hint Resolve returns_vault_createFolder : returns.

Lemma returns_isItemChanged itemKey v : returns (isItemChanged itemKey v).
Proof. unfold isItemChanged. returns_go. Qed.
Hint Resolve returns_isItemChanged : returns.

Lemma returns_setItemVersion itemKey v : returns (setItemVersion E itemKey v).
Proof. unfold setItemVersion. returns_go. Qed.
Hint Resolve returns_setItemVersion : returns.

Lemma returns_syncTagsTwoWay it existingContent :
  returns (syncTagsTwoWay E it existingContent).
Proof. unfold syncTagsTwoWay, pushTagsToZotero, patchItemTags. returns_go. Qed.
Hint Resolve returns_syncTagsTwoWay : returns.

Lemma returns_shouldSkip it filePath existingFile :
  returns (shouldSkip E it filePath existingFile).
Proof.
  unfold shouldSkip, hasMissingImageAnnotations, hasLocalTagChanges. returns_go.
Qed.
Hint Resolve returns_shouldSkip : returns.

Lemma returns_ensureFolder folderPath : returns (ensureFolder E folderPath).
Proof. unfold ensureFolder. returns_go. Qed.
Hint Resolve returns_ensureFolder : returns.

Lemma returns_ensureFolderParts parts : ∀ current,
  returns (ensureFolderParts E current parts).
Proof. induction parts as [|part parts IH]; intros current; simpl; returns_go. Qed.
Hint Resolve returns_ensureFolderParts : returns.

Lemma returns_processImageAnnotation imageFolder name images ann :
  returns (processImageAnnotation E imageFolder name images ann).
Proof.
  unfold processImageAnnotation, readFromLocalCache, ensureFolderRecursive. returns_go.
Qed.
Hint Resolve returns_processImageAnnotation : returns.

Lemma returns_buildSyncData it : returns (buildSyncData E it).
Proof.
  unfold buildSyncData, collectAnnotations, processImageAnnotations. returns_go.
Qed.
Hint Resolve returns_buildSyncData : returns.

Lemma returns_renderContent syncData : returns (renderContent E syncData).
Proof. unfold renderContent. returns_go. Qed.
Hint Resolve returns_renderContent : returns.

Lemma returns_resolveFilename itemKey it : returns (resolveFilename E itemKey it).
Proof. unfold resolveFilename. returns_go. Qed.
Hint Resolve returns_resolveFilename : returns.

Lemma returns_regenerate it syncData filePath existingFile :
  returns (regenerate E it syncData filePath existingFile).
Proof. unfold regenerate, rewriteDocument. returns_go. Qed.
Hint Resolve returns_regenerate : returns.

Lemma returns_syncItem total processed it : returns (syncItem E total processed it).
Proof. unfold syncItem. returns_go. Qed.

(** The loop of [syncAll] returns, and never with an error: what a record
    throws is caught. *)
Lemma forEachItem_completes total items : ∀ processed c,
  ∃ c', forEachItem E total processed items c = Some (Ok tt, c').
Proof.
  induction items as [|it items IH]; intros processed c; simpl.
  - by eexists.
  - unfold bind, try_catch.
    destruct (returns_syncItem total (S processed) it c) as ([[]|e] & c1 & ->);
      simpl; apply IH.
Qed.

(** A single-record sync returns. *)
Lemma syncSingleItem_returns itemKey w :
  ∃ r w', syncSingleItem E itemKey w = Some (r, w').
Proof.
  unfold syncSingleItem. destruct (isSyncing w); [by eexists _, _|].
  assert (Htry : returns (syncSingleItem_try E itemKey)).
  { unfold syncSingleItem_try. returns_go. }
  destruct (Htry {| world := set_isSyncing true w; result := emptyResult |})
    as (o & c' & ->).
  by eexists _, _.
Qed.

(** A full cycle returns as soon as the pagination of its fetch does. *)
Lemma syncAll_returns fuel w :
  (∀ tag since, returns (fetchItemsByTag E fuel tag since)) →
  ∃ r w', syncAll E fuel w = Some (r, w').
Proof.
  intros Hfetch. unfold syncAll. destruct (isSyncing w); [by eexists _, _|].
  assert (Hloop : ∀ total items, returns (forEachItem E total 0 items)).
  { intros total items c.
    destruct (forEachItem_completes total items 0 c) as [c' ->]. by eexists _, _. }
  assert (Htry : returns (syncAll_try E fuel)).
  { unfold syncAll_try, getLibraryVersion, setLibraryVersion. returns_go. }
  destruct (Htry {| world := set_isSyncing true w; result := emptyResult |})
    as (o & c' & ->).
  by eexists _, _.
Qed.

End EngineReturns.

(** C6, as worded, fails. Record [R1] at version 5 with the tag [x], no
    baseline, no document, and a vault whose writes fail: the error is
    recorded under the key and the version baseline of [R1] stays absent,
    but its tag baseline is set to [x], the merge having run before the
    write. *)
Lemma failed_write_moves_tag_baseline :
  ¬ Claimed.failure_keeps_baselines
      (Test.env [Test.record "R1" 5 ["x"; "obsidian"]] 9 true) 5
      (Test.start Test.defaults ∅).
Proof.
  intros Hclaim.
  edestruct Hclaim with (it := Test.record "R1" 5 ["x"; "obsidian"])
                        (e := "disk full") as [_ Htags].
  - by vm_compute.
  - vm_compute. apply list_elem_of_here.
  - vm_compute in Htags. discriminate Htags.
Qed.

(** C6, amended. An error raised while a record is processed is caught and
    recorded in [errors] with the key of the record; the loop goes on with
    the next record and returns, the error still recorded; and when the
    error came before the document was written (neither [created] nor
    [updated] was counted for it) the version baselines are as they were
    before the record. The tag baseline is not part of the guarantee: the
    tag merge sets it before the write. *)
Theorem record_error_is_isolated (E : Env) (total processed : nat)
    (it : ZoteroItem) (rest : list ZoteroItem) (c : Cycle) (e : string) (c1 : Cycle) :
  syncItem E total (S processed) it c = Some (Throw e, c1) →
  let message := "Error processing item " +:+ key it +:+ ": " +:+ e in
  let recorded := set_result (push_error message) c1 in
  forEachItem E total processed (it :: rest) c
  = forEachItem E total (S processed) rest recorded
  ∧ (∃ c2, forEachItem E total processed (it :: rest) c = Some (Ok tt, c2)
           ∧ message ∈ errors (result c2))
  ∧ (created (result c1) = created (result c) →
     updated (result c1) = updated (result c) →
     itemVersions (settings (world c1)) = itemVersions (settings (world c))).
Proof.
  intros Hthrow message recorded.
  assert (Hstep : forEachItem E total processed (it :: rest) c
                  = forEachItem E total (S processed) rest recorded).
  { simpl. unfold bind at 1, try_catch. by rewrite Hthrow. }
  split_and!.
  - exact Hstep.
  - destruct (forEachItem_completes E total rest (S processed) recorded) as [c2 Hloop].
    exists c2. rewrite Hstep. split; [exact Hloop|].
    apply forEachItem_errors_kept in Hloop. unfold errors_kept in Hloop.
    eapply elem_of_prefix; [|exact Hloop].
    simpl. apply elem_of_app. right. apply list_elem_of_here.
  - intros Hcreated Hupdated.
    apply syncItem_guarded in Hthrow as (_ & _ & Hversions).
    by apply Hversions.
Qed.

(** The failing write of C6, run: the error of [R1] is recorded and the
    version baselines are untouched. *)
Lemma record_error_witness :
  ∃ c1,
    syncItem (Test.env [] 9 true) 1 1 (Test.record "R1" 5 ["x"; "obsidian"])
      {| world := Test.start Test.defaults ∅; result := emptyResult |}
    = Some (Throw "disk full", c1)
    ∧ (∃ c2,
         forEachItem (Test.env [] 9 true) 1 0 [Test.record "R1" 5 ["x"; "obsidian"]]
           {| world := Test.start Test.defaults ∅; result := emptyResult |}
         = Some (Ok tt, c2)
         ∧ "Error processing item R1: disk full" ∈ errors (result c2))
    ∧ itemVersions (settings (world c1)) = ∅.
Proof.
  eexists. split; [by vm_compute|].
  edestruct (record_error_is_isolated (Test.env [] 9 true) 1 0
               (Test.record "R1" 5 ["x"; "obsidian"]) []
               {| world := Test.start Test.defaults ∅; result := emptyResult |})
    as (_ & Hrecorded & Hversions); [by vm_compute|].
  split; [exact Hrecorded|]. apply Hversions; reflexivity.
Defined.

(** ** A rejected push *)

(** Why a rejected push is lost, for every environment: once the merged
    tags are both the baseline and the document tags, a merge against the
    remote tags keeps a merged tag only if the remote has its normal form;
    every other tag of the result comes from the remote. What the push was
    to add on the remote side is taken for removed there. *)
Lemma remerge_keeps_only_remote_tags (merged remoteTags : list string) (t : string) :
  t ∈ mergeNormal merged remoteTags merged →
  (t ∈ merged ∧ normalizeTag t ∈ normalizeTag <$> remoteTags)
  ∨ ∃ z, z ∈ remoteTags ∧ t = Str.spaces_to_hyphen z.
Proof.
  rewrite mergeNormal_spec. unfold Spec.mergeWithBaseline.
  intros [Hkept|Hadded]%elem_of_app.
  - left. apply minus_minus_elem in Hkept as [Hin Hnot]. split; [done|].
    destruct (decide (normalizeTag t ∈ normalizeTag <$> remoteTags)) as [?|Hmiss];
      [done|].
    exfalso. apply Hnot. split; [|done]. by apply list_elem_of_fmap_2.
  - right. apply addMissing_sound in Hadded as (z & [Hz _]%minus_elem & -> & _).
    by exists z.
Qed.

(** C4, run on the remote-delete example against a remote that rejects
    every push. The first cycle does not fail: it pushes [a, c], writes them
    to the document and stores them as the baseline. Nothing is pushed
    again: the next cycle fetches nothing, and a sync of the record merges
    the unchanged remote tags [a] against the baseline [a, c], takes [c] for
    removed in Zotero, drops it from the document and sends no request. *)
Lemma rejected_push_is_not_retried :
  let R1 := Test.record "R1" 5 ["a"; "obsidian"] in
  let E := Test.env [R1] 9 false in
  let w0 := Test.start (Test.synced "R1" 4 (Some ["a"; "b"]))
              {[ "Notes/R1.md" := TFile (Test.doc ["a"; "b"; "c"]) ]} in
  ∃ r1 w1 r2 w2 r3 w3,
    syncAll E 5 w0 = Some (r1, w1)
    ∧ r1 = {| created := 0; updated := 1; skipped := 0; errors := [] |}
    ∧ patches w1 = [tagPush R1 ["a"; "c"] "obsidian"]
    ∧ patchAccepted E (tagPush R1 ["a"; "c"] "obsidian") w0 = false
    ∧ vault w1 !! "Notes/R1.md" = Some (TFile (Test.doc ["a"; "c"]))
    ∧ lastSyncedTags (settings w1) !! "R1" = Some ["a"; "c"]
    ∧ syncAll E 5 w1 = Some (r2, w2)
    ∧ r2 = emptyResult
    ∧ patches w2 = patches w1
    ∧ syncSingleItem E "R1" w2 = Some (r3, w3)
    ∧ r3 = {| created := 0; updated := 1; skipped := 0; errors := [] |}
    ∧ patches w3 = patches w1
    ∧ vault w3 !! "Notes/R1.md" = Some (TFile (Test.doc ["a"]))
    ∧ lastSyncedTags (settings w3) !! "R1" = Some ["a"].
Proof.
  intros R1 E w0.
  destruct (syncAll E 5 w0) as [[r1 w1]|] eqn:H1; [|by vm_compute in H1].
  destruct (syncAll E 5 w1) as [[r2 w2]|] eqn:H2;
    [|vm_compute in H1; injection H1 as <- <-; by vm_compute in H2].
  destruct (syncSingleItem E "R1" w2) as [[r3 w3]|] eqn:H3;
    [|vm_compute in H1; injection H1 as <- <-; vm_compute in H2;
      injection H2 as <- <-; by vm_compute in H3].
  exists r1, w1, r2, w2, r3, w3.
  vm_compute in H1. injection H1 as <- <-.
  vm_compute in H2. injection H2 as <- <-.
  vm_compute in H3. injection H3 as <- <-.
  split_and!; by vm_compute.
Qed.

(** ** The properties, run *)

(** C8, run: a trigger while a cycle is running. *)
Lemma concurrent_trigger_witness :
  ∃ w',
    syncAll (Test.env [Test.record "R1" 5 ["x"; "obsidian"]] 9 false) 5
      (set_isSyncing true (Test.start Test.defaults ∅))
    = Some ({| created := 0; updated := 0; skipped := 0;
               errors := ["Sync already in progress"] |}, w')
    ∧ baselines (settings w') = baselines Test.defaults
    ∧ vault w' = ∅.
Proof.
  destruct (concurrent_trigger_is_rejected
              (Test.env [Test.record "R1" 5 ["x"; "obsidian"]] 9 false)
              (set_isSyncing true (Test.start Test.defaults ∅)) 5 "R1" eq_refl)
    as (w' & Hall & _ & Hsettings & _ & Hvault & _).
  exists w'. split; [exact Hall|]. split.
  - by rewrite Hsettings.
  - by rewrite Hvault.
Defined.

(** C9, run: the document of a record that left the remote library is still
    there after a cycle that creates the document of another record. *)
Lemma documents_kept_witness :
  ∃ r w',
    syncAll (Test.env [Test.record "R2" 7 ["y"; "obsidian"]] 9 false) 5
      (Test.start (Test.synced "R1" 5 (Some ["x"]))
         {[ "Notes/R1.md" := TFile (Test.doc ["x"]) ]}) = Some (r, w')
    ∧ created r = 1%nat
    ∧ ∃ content', vault w' !! "Notes/R1.md" = Some (TFile content').
Proof.
  destruct (syncAll (Test.env [Test.record "R2" 7 ["y"; "obsidian"]] 9 false) 5
              (Test.start (Test.synced "R1" 5 (Some ["x"]))
                 {[ "Notes/R1.md" := TFile (Test.doc ["x"]) ]}))
    as [[r w']|] eqn:Hrun; [|by vm_compute in Hrun].
  exists r, w'. split; [reflexivity|]. split.
  - vm_compute in Hrun. by injection Hrun as <- _.
  - eapply (documents_are_never_deleted
              (Test.env [Test.record "R2" 7 ["y"; "obsidian"]] 9 false)).
    + left. exists 5%nat. exact Hrun.
    + reflexivity.
Defined.

(** C10, run: a cycle that aborts on a missing user id has reset the flag. *)
Lemma flag_reset_witness :
  ∃ r w',
    syncAll (Test.env [] 9 false) 5
      (Test.start (with_itemVersions ∅
                     {| userId := ""; syncTag := "obsidian"; outputFolder := "Notes";
                        fileNameTemplate := ""; templatePath := "";
                        imageOutputFolder := ""; zoteroCacheDirs := ∅;
                        preserveUserContent := true; lastSyncVersion := 3;
                        itemVersions := ∅; itemFilenames := ∅;
                        lastSyncedTags := ∅ |}) ∅) = Some (r, w')
    ∧ errors r = ["Sync failed: User ID is required. Configure it in settings."]
    ∧ isSyncing w' = false.
Proof.
  match goal with |- ∃ r w', ?run = _ ∧ _ =>
    destruct run as [[r w']|] eqn:Hrun; [|by vm_compute in Hrun]
  end.
  exists r, w'. split; [reflexivity|]. split.
  - vm_compute in Hrun. by injection Hrun as <- _.
  - eapply (in_progress_flag_is_reset (Test.env [] 9 false)
              (Test.start _ ∅) r w' eq_refl).
    left. exists 5%nat. exact Hrun.
Defined.

(** C3, run: the document tag [machine-learning] against a remote without
    tags is pushed as [machine learning], followed by the sync tag. *)
Lemma push_witness :
  ∃ o w',
    syncTagsTwoWay (Test.env [] 0 false) (Test.record "R2" 7 ["obsidian"])
      (Some (Test.doc ["machine-learning"])) (Test.start Test.defaults ∅)
    = Some (o, w')
    ∧ patches w'
      = [{| patch_key := "R2"; patch_tags := ["machine learning"; "obsidian"];
            patch_version := 7 |}].
Proof.
  destruct (push_iff_merged_differs (Test.env [] 0 false)
              (Test.record "R2" 7 ["obsidian"])
              (Some (Test.doc ["machine-learning"])) (Test.start Test.defaults ∅))
    as (o & w' & Hrun & _ & Hpush & _).
  exists o, w'. split; [exact Hrun|].
  rewrite Hpush; [reflexivity|].
  intros Hperm. apply Permutation_length in Hperm. vm_compute in Hperm. discriminate.
Defined.

(** * Further properties *)

(** ** Normal forms of tags *)

Lemma Str_map_map (f g : ascii → ascii) s :
  Str.map f (Str.map g s) = Str.map (λ c, f (g c)) s.
Proof. induction s as [|c s IH]; simpl; by rewrite ?IH. Qed.

Lemma Str_map_ext (f g : ascii → ascii) s :
  (∀ c, f c = g c) → Str.map f s = Str.map g s.
Proof. intros Hfg. induction s as [|c s IH]; simpl; by rewrite ?Hfg, ?IH. Qed.

Ltac each_char c := destruct c as [[] [] [] [] [] [] [] []]; reflexivity.

Lemma normalizeTag_idemp t : normalizeTag (normalizeTag t) = normalizeTag t.
Proof.
  unfold normalizeTag, Str.toLowerCase, Str.hyphens_to_spaces.
  rewrite !Str_map_map. apply Str_map_ext. intros c. each_char c.
Qed.

Lemma normalizeTag_hyphens_to_spaces t :
  normalizeTag (Str.hyphens_to_spaces t) = normalizeTag t.
Proof.
  unfold normalizeTag, Str.toLowerCase, Str.hyphens_to_spaces.
  rewrite !Str_map_map. apply Str_map_ext. intros c. each_char c.
Qed.

Lemma normalizeTag_toLowerCase t :
  normalizeTag (Str.toLowerCase t) = normalizeTag t.
Proof.
  unfold normalizeTag, Str.toLowerCase, Str.hyphens_to_spaces.
  rewrite !Str_map_map. apply Str_map_ext. intros c. each_char c.
Qed.

Lemma tagsEqual_same_normal_forms (f : string → string) a :
  (∀ t, normalizeTag (f t) = normalizeTag t) → tagsEqual a (f <$> a) = true.
Proof.
  intros Hf. apply tagsEqual_Permutation. rewrite <- list_fmap_compose.
  erewrite (list_fmap_ext (normalizeTag ∘ f)); [done|]. intros i t _. apply Hf.
Qed.

(** X1. [tagsEqual] is an equivalence on lists of tags, and it does not see
    the order of the tags, the case of their ASCII letters, or whether a
    word break is written as a hyphen or as a space. *)
Theorem tagsEqual_ignores_order_case_and_hyphens :
  (∀ a, tagsEqual a a = true)
  ∧ (∀ a b, tagsEqual a b = tagsEqual b a)
  ∧ (∀ a b c, tagsEqual a b = true → tagsEqual b c = true → tagsEqual a c = true)
  ∧ (∀ a b, a ≡ₚ b → tagsEqual a b = true)
  ∧ (∀ a, tagsEqual a (Str.toLowerCase <$> a) = true)
  ∧ (∀ a, tagsEqual a (Str.hyphens_to_spaces <$> a) = true).
Proof.
  split_and!.
  - apply tagsEqual_refl.
  - intros a b. apply eq_true_iff_eq. rewrite !tagsEqual_Permutation.
    split; intros H; by symmetry.
  - intros a b c. rewrite !tagsEqual_Permutation. intros Hab Hbc. by etrans.
  - intros a b Hab. apply tagsEqual_Permutation. by rewrite Hab.
  - intros a. apply tagsEqual_same_normal_forms, normalizeTag_toLowerCase.
  - intros a. apply tagsEqual_same_normal_forms, normalizeTag_hyphens_to_spaces.
Qed.

(** ** Local edits and the merge *)

Lemma filter_all {A} (p : A → bool) (l : list A) :
  (∀ x, x ∈ l → p x = true) → List.filter p l = l.
Proof.
  induction l as [|x l IH]; intros Hp; simpl; [done|].
  rewrite Hp by apply list_elem_of_here. f_equal. apply IH.
  intros y Hy. apply Hp. by apply list_elem_of_further.
Qed.

Lemma minus_nothing a b :
  (∀ t, t ∈ a → normalizeTag t ∈ normalizeTag <$> b) → Spec.minus a b = [].
Proof.
  intros Hsub. destruct (Spec.minus a b) as [|t l] eqn:Heq; [done|].
  assert (Ht : t ∈ Spec.minus a b) by (rewrite Heq; apply list_elem_of_here).
  apply minus_elem in Ht as [Ht Hnot]. by apply Hsub in Ht.
Qed.

Lemma minus_of_nothing a : Spec.minus a [] = a.
Proof.
  unfold Spec.minus. apply filter_all. intros t _.
  apply negb_true_iff, bool_decide_eq_false. simpl. apply not_elem_of_nil.
Qed.

(** With the remote tags where the baseline left them, the merge returns
    the tags of the document. *)
Lemma mergeNormal_remote_unchanged fm zs ls :
  (∀ n, n ∈ normalizeTag <$> zs ↔ n ∈ normalizeTag <$> ls) →
  mergeNormal fm zs ls = fm.
Proof.
  intros Hsame. rewrite mergeNormal_spec. unfold Spec.mergeWithBaseline.
  rewrite (minus_nothing ls zs), (minus_nothing zs ls), minus_of_nothing; simpl.
  - apply app_nil_r.
  - intros t Ht. apply Hsame. by apply list_elem_of_fmap_2.
  - intros t Ht. apply Hsame. by apply list_elem_of_fmap_2.
Qed.

(** X2. When the remote tags are, as normal forms, those of the baseline,
    the tags of the document win: the merge returns them as they are, with
    whatever was added to or removed from the document since the baseline;
    they become the baseline, and they are pushed when they are not equal to
    the remote tags. *)
Theorem local_edits_win_when_remote_is_unchanged (E : Env) (it : ZoteroItem)
    (content : string) (lastSynced : list string) (w : World) :
  content ≠ "" →
  lastSyncedTags (settings w) !! key it = Some lastSynced →
  (∀ n, n ∈ normalizeTag <$> zoteroTagsOf (syncTag (settings w)) it
        ↔ n ∈ normalizeTag <$> lastSynced) →
  let documentTags := parseFrontmatterTags E content in
  let remoteTags := zoteroTagsOf (syncTag (settings w)) it in
  ∃ o w',
    syncTagsTwoWay E it (Some content) w = Some (o, w')
    ∧ (∀ x, o = Ok x → x = documentTags)
    ∧ ((∀ w0, saveDataError E w0 = None) → o = Ok documentTags)
    ∧ lastSyncedTags (settings w') !! key it = Some documentTags
    ∧ patches w'
      = patches w ++ (if tagsEqual documentTags remoteTags then []
                      else [tagPush it documentTags (syncTag (settings w))]).
Proof.
  intros Hcontent Hbase Hsame documentTags remoteTags.
  destruct (syncTagsTwoWay_effect E it (Some content) w)
    as (o & w' & Hrun & Hok & Hnofail & Hstored & Hpatches).
  assert (Hmerged : mergedTags E it (Some content) w = documentTags).
  { unfold mergedTags. destruct content as [|c content]; [done|].
    rewrite Hbase. by apply mergeNormal_remote_unchanged. }
  assert (Hbaseline : storedBaseline E it (Some content) w = documentTags).
  { unfold storedBaseline. destruct content as [|c content]; [done|]. exact Hmerged. }
  rewrite Hmerged in Hok, Hnofail, Hpatches. rewrite Hbaseline in Hstored.
  exists o, w'. by split_and!.
Qed.

(** X2, run: the baseline and the remote hold [a]; the document holds
    [a, mine]. *)
Lemma local_edits_witness :
  ∃ o w',
    syncTagsTwoWay (Test.env [] 0 false) (Test.record "R1" 5 ["A"; "obsidian"])
      (Some (Test.doc ["a"; "mine"]))
      (Test.start (Test.synced "R1" 5 (Some ["a"])) ∅) = Some (o, w')
    ∧ o = Ok ["a"; "mine"]
    ∧ patches w'
      = [tagPush (Test.record "R1" 5 ["A"; "obsidian"]) ["a"; "mine"] "obsidian"].
Proof.
  destruct (local_edits_win_when_remote_is_unchanged (Test.env [] 0 false)
              (Test.record "R1" 5 ["A"; "obsidian"]) (Test.doc ["a"; "mine"]) ["a"]
              (Test.start (Test.synced "R1" 5 (Some ["a"])) ∅))
    as (o & w' & Hrun & _ & Hok & _ & Hpatches).
  - discriminate.
  - reflexivity.
  - intros n. change (n ∈ ["a"] ↔ n ∈ ["a"]). tauto.
  - exists o, w'. split; [exact Hrun|]. split; [|exact Hpatches].
    apply Hok. reflexivity.
Defined.

Lemma mergeNormal_elem fm zs ls x :
  x ∈ mergeNormal fm zs ls
  ↔ (x ∈ fm ∧ ¬ (normalizeTag x ∈ normalizeTag <$> ls
                  ∧ normalizeTag x ∉ normalizeTag <$> zs))
    ∨ x ∈ Spec.addMissing (normalizeTag <$> Spec.minus fm (Spec.minus ls zs))
                          (Spec.minus zs ls).
Proof.
  rewrite mergeNormal_spec. unfold Spec.mergeWithBaseline.
  by rewrite elem_of_app, minus_minus_elem.
Qed.

(** X3. A tag of the document that is not in the baseline, that is a tag
    added to the document since, is in the merged tags, as it is written,
    whatever the remote tags are. *)
Theorem local_addition_survives_merge (fm zs ls : list string) (t : string) :
  t ∈ fm →
  normalizeTag t ∉ normalizeTag <$> ls →
  t ∈ mergeNormal fm zs ls.
Proof. intros Ht Hnew. apply mergeNormal_elem. left. tauto. Qed.

Lemma local_addition_witness :
  "mine" ∈ mergeNormal ["a"; "mine"] ["b"] ["a"].
Proof.
  apply (local_addition_survives_merge ["a"; "mine"] ["b"] ["a"] "mine").
  - rewrite !elem_of_cons. tauto.
  - change ("mine" ∉ ["a"]). rewrite !elem_of_cons, elem_of_nil. intros [[=]|[]].
Defined.

(** X4. A tag of the baseline that is no longer in the document, that is a
    tag removed from the document since, is not brought back by the remote
    tags: it is not in the merged tags, and if the remote still has it the
    merged tags and the remote tags are not equal, so that the removal is
    pushed. The remote tags are taken to keep their normal form when their
    white space is written as a hyphen, as tags with single spaces do. *)
Theorem local_removal_survives_merge (fm zs ls : list string) (n : string) :
  (∀ t, t ∈ zs → normalizeTag (Str.spaces_to_hyphen t) = normalizeTag t) →
  n ∈ normalizeTag <$> ls →
  n ∉ normalizeTag <$> fm →
  (n ∉ normalizeTag <$> mergeNormal fm zs ls)
  ∧ (n ∈ normalizeTag <$> zs → tagsEqual (mergeNormal fm zs ls) zs = false).
Proof.
  intros Htidy Hbase Hgone.
  assert (Hout : n ∉ normalizeTag <$> mergeNormal fm zs ls).
  { intros (x & -> & [[Hx _]|Hx]%mergeNormal_elem)%list_elem_of_fmap.
    - apply Hgone. by apply list_elem_of_fmap_2.
    - apply addMissing_sound in Hx as (t & [Ht Hnew]%minus_elem & -> & _).
      rewrite Htidy in Hbase by done. done. }
  split; [done|]. intros Hremote. apply tagsEqual_false_differs.
  intros Hperm. apply Hout. by rewrite Hperm.
Qed.

Lemma local_removal_witness :
  ("b c" ∉ normalizeTag <$> mergeNormal ["a"] ["a"; "b c"] ["a"; "b-c"])
  ∧ ("b c" ∈ normalizeTag <$> ["a"; "b c"] →
     tagsEqual (mergeNormal ["a"] ["a"; "b c"] ["a"; "b-c"]) ["a"; "b c"] = false).
Proof.
  apply (local_removal_survives_merge ["a"] ["a"; "b c"] ["a"; "b-c"] "b c").
  - intros t. rewrite !elem_of_cons, elem_of_nil. intros [->|[->|[]]]; reflexivity.
  - change ("b c" ∈ ["a"; "b c"]). rewrite !elem_of_cons. tauto.
  - change ("b c" ∉ ["a"]). rewrite !elem_of_cons, elem_of_nil. intros [[=]|[]].
Defined.

(** ** After an accepted push *)

Lemma filter_app_last_out fm (tag : string) :
  tag ∉ fm →
  List.filter (λ t, negb (String.eqb t tag)) (fm ++ [tag]) = fm.
Proof.
  intros Hout. rewrite List.filter_app. simpl. rewrite String.eqb_refl. simpl.
  rewrite app_nil_r. apply filter_all. intros x Hx.
  apply negb_true_iff, String.eqb_neq. by intros ->.
Qed.

(** The Zotero tags of a record that carries the payload of a push. *)
Lemma zoteroTagsOf_payload merged tag it :
  tag ∉ Str.hyphens_to_spaces <$> merged →
  zoteroTagsOf tag (with_tags (tagsForZotero merged tag) it)
  = Str.hyphens_to_spaces <$> merged.
Proof. intros Hout. unfold zoteroTagsOf, tagsForZotero. simpl. by apply filter_app_last_out. Qed.

Lemma normal_forms_of_payload (merged : list string) :
  normalizeTag <$> (Str.hyphens_to_spaces <$> merged) = normalizeTag <$> merged.
Proof.
  rewrite <- list_fmap_compose. apply list_fmap_ext. intros i t _.
  apply normalizeTag_hyphens_to_spaces.
Qed.

(** X5. Once a push was accepted the tags are settled: when the record
    comes back with the payload as its tags, and the document and the
    baseline hold the merged tags, [syncTagsTwoWay] returns the merged tags
    again, keeps the baseline and sends no request. The sync tag is taken
    not to be one of the merged tags. *)
Theorem accepted_push_settles_the_tags (E : Env) (it : ZoteroItem)
    (content : string) (merged : list string) (w : World) :
  content ≠ "" →
  parseFrontmatterTags E content = merged →
  lastSyncedTags (settings w) !! key it = Some merged →
  syncTag (settings w) ∉ Str.hyphens_to_spaces <$> merged →
  let it' := with_tags (tagsForZotero merged (syncTag (settings w))) it in
  ∃ o w',
    syncTagsTwoWay E it' (Some content) w = Some (o, w')
    ∧ (∀ x, o = Ok x → x = merged)
    ∧ ((∀ w0, saveDataError E w0 = None) → o = Ok merged)
    ∧ lastSyncedTags (settings w') !! key it = Some merged
    ∧ patches w' = patches w.
Proof.
  intros Hcontent Hdoc Hbase Hout it'.
  destruct (syncTagsTwoWay_effect E it' (Some content) w)
    as (o & w' & Hrun & Hok & Hnofail & Hstored & Hpatches).
  assert (Hremote : zoteroTagsOf (syncTag (settings w)) it'
                    = Str.hyphens_to_spaces <$> merged)
    by by apply zoteroTagsOf_payload.
  assert (Hmerged : mergedTags E it' (Some content) w = merged).
  { unfold mergedTags. destruct content as [|c content]; [done|].
    change (key it') with (key it). rewrite Hbase, Hdoc, Hremote.
    apply mergeNormal_remote_unchanged. intros n. by rewrite normal_forms_of_payload. }
  assert (Hbaseline : storedBaseline E it' (Some content) w = merged).
  { unfold storedBaseline. destruct content as [|c content]; [done|]. exact Hmerged. }
  rewrite Hmerged in Hok, Hnofail, Hpatches. rewrite Hbaseline in Hstored.
  rewrite Hremote in Hpatches.
  assert (Heq : tagsEqual merged (Str.hyphens_to_spaces <$> merged) = true)
    by apply tagsEqual_same_normal_forms, normalizeTag_hyphens_to_spaces.
  rewrite Heq, app_nil_r in Hpatches.
  exists o, w'. by split_and!.
Qed.

(** X5, run: the record comes back with the payload [a, c, obsidian];
    document and baseline hold [a, c]. *)
Lemma accepted_push_witness :
  ∃ o w',
    syncTagsTwoWay (Test.env [] 0 false) (Test.record "R1" 6 ["a"; "c"; "obsidian"])
      (Some (Test.doc ["a"; "c"]))
      (Test.start (Test.synced "R1" 5 (Some ["a"; "c"])) ∅) = Some (o, w')
    ∧ o = Ok ["a"; "c"]
    ∧ patches w' = [].
Proof.
  destruct (accepted_push_settles_the_tags (Test.env [] 0 false)
              (Test.record "R1" 6 []) (Test.doc ["a"; "c"]) ["a"; "c"]
              (Test.start (Test.synced "R1" 5 (Some ["a"; "c"])) ∅))
    as (o & w' & Hrun & _ & Hok & _ & Hpatches).
  - discriminate.
  - reflexivity.
  - reflexivity.
  - change ("obsidian" ∉ ["a"; "c"]).
    rewrite !elem_of_cons, elem_of_nil. intros [[=]|[[=]|[]]].
  - exists o, w'. split; [exact Hrun|]. split; [|exact Hpatches].
    apply Hok. reflexivity.
Defined.

(** ** [VersionTracker] *)

(** [saveSettings] changes the saved copy only. *)
Lemma saveSettings_run E w :
  ∃ o, saveSettings E w = Some (o, (if o is Ok _ then set_saved (settings w) w else w)).
Proof.
  unfold saveSettings, bind, gets, modify, throw. simpl.
  destruct (saveDataError E w) as [e|]; [by exists (Throw e)|by exists (Ok tt)].
Qed.

Lemma update_then_save E (f : ZoteroAutoSyncSettings → ZoteroAutoSyncSettings) w :
  ∃ o w',
    (modify (set_settings f);; saveSettings E) w = Some (o, w')
    ∧ settings w' = f (settings w) ∧ vault w' = vault w
    ∧ (∀ x, o = Ok x → saved w' = settings w').
Proof.
  unfold bind at 1, modify at 1. simpl.
  destruct (saveSettings_run E (set_settings f w)) as [o Hsave]. rewrite Hsave.
  exists o. eexists. split; [done|]. destruct o; simpl; split_and!; done.
Qed.

(** [setItemVersion] stores the version, in memory at least, and touches
    neither the vault, the file names nor the output folder. *)
Lemma stored_version_decides_changed_aux E itemKey v w :
  ∃ o w',
    setItemVersion E itemKey v w = Some (o, w')
    ∧ itemVersions (settings w') !! itemKey = Some v
    ∧ vault w' = vault w
    ∧ (itemFilenames (settings w') = itemFilenames (settings w)
       ∧ outputFolder (settings w') = outputFolder (settings w))
    ∧ (∀ x, o = Ok x → saved w' = settings w').
Proof.
  destruct (update_then_save E
              (λ s, with_itemVersions (<[itemKey := v]> (itemVersions s)) s) w)
    as (o & w' & Hrun & Hsettings & Hvault & Hsaved).
  exists o, w'. split; [exact Hrun|]. split_and!; try done.
  - rewrite Hsettings. simpl. by rewrite lookup_insert_eq.
  - by rewrite Hsettings.
  - by rewrite Hsettings.
Qed.

(** X6. What [isItemChanged] answers after [setItemVersion]: for the record
    that was set, whether the version asked about is above the one stored;
    for every other record, what it answered before. The version is stored
    in memory even when [saveData] fails; when it does not fail the settings
    on disk are those in memory. *)
Theorem stored_version_decides_changed (E : Env) (itemKey : string) (v : Z) (w : World) :
  ∃ o w',
    setItemVersion E itemKey v w = Some (o, w')
    ∧ (∀ v', isItemChanged itemKey v' w' = Some (Ok (bool_decide (v < v')), w'))
    ∧ (∀ k v', k ≠ itemKey →
         ∃ b, isItemChanged k v' w = Some (Ok b, w)
              ∧ isItemChanged k v' w' = Some (Ok b, w'))
    ∧ (∀ x, o = Ok x → saved w' = settings w').
Proof.
  destruct (update_then_save E
              (λ s, with_itemVersions (<[itemKey := v]> (itemVersions s)) s) w)
    as (o & w' & Hrun & Hsettings & _ & Hsaved).
  exists o, w'. split; [exact Hrun|]. split_and!; [| |exact Hsaved].
  - intros v'. unfold isItemChanged, bind, gets, ret. simpl.
    rewrite Hsettings. simpl. by rewrite lookup_insert_eq.
  - intros k v' Hne. unfold isItemChanged, bind, gets, ret. simpl.
    rewrite Hsettings. simpl. rewrite lookup_insert_ne by done. by eexists.
Qed.

(** X7. [clearAll] forgets the versions and nothing else: afterwards the
    cursor of the library is 0 and every record counts as changed, at
    whatever version; the tag baselines, the stored file names and the vault
    are as they were. *)
Theorem clearAll_forgets_versions_only (E : Env) (w : World) :
  ∃ o w',
    clearAll E w = Some (o, w')
    ∧ lastSyncVersion (settings w') = 0
    ∧ (∀ k v, isItemChanged k v w' = Some (Ok true, w'))
    ∧ lastSyncedTags (settings w') = lastSyncedTags (settings w)
    ∧ itemFilenames (settings w') = itemFilenames (settings w)
    ∧ vault w' = vault w.
Proof.
  destruct (update_then_save E
              (λ s, with_itemVersions ∅ (with_lastSyncVersion 0 s)) w)
    as (o & w' & Hrun & Hsettings & Hvault & _).
  exists o, w'. split; [exact Hrun|]. rewrite Hsettings. split_and!; try done.
  intros k v. unfold isItemChanged, bind, gets, ret. simpl.
  rewrite Hsettings. simpl. by rewrite lookup_empty.
Qed.

(** ** Pagination of [fetchItemsByTag] *)

Lemma fetchItemsByTag_from_pages E tag items v since w : ∀ fuel n lv,
  servesPages E tag items v →
  (n ≤ length items)%nat →
  (length items < n + 100 * fuel)%nat →
  fetchItemsByTag_from E fuel tag since (take n items) (Z.of_nat n) lv w
  = Some (Ok (items, v), w).
Proof.
  induction fuel as [|fuel IH]; intros n lv Hremote Hn Hfuel; [lia|].
  simpl.
  destruct (Hremote
              (match since with
               | Some v0 => if bool_decide (0 < v0) then Some v0 else None
               | None => None
               end) (Z.of_nat n) w) as (response & Hreq & Hstatus & Hv & Htotal & Hpage);
    [lia|].
  unfold bind at 1. unfold of_outcome at 1. rewrite Hreq.
  rewrite bool_decide_eq_false_2 by done.
  rewrite Hv, Htotal, Hpage. simpl. unfold pageAt, PAGE_LIMIT.
  rewrite Nat2Z.id. change (Z.to_nat 100) with 100%nat.
  rewrite take_take_drop.
  destruct (decide (length items ≤ n + 100)%nat) as [Hlast|Hmore].
  - assert (Hbreak : (bool_decide (Z.of_nat (length items) ≤ Z.of_nat n + 100)
                      || bool_decide (Z.of_nat (length (take 100 (drop n items))) < 100))%bool
                     = true).
    { apply orb_true_iff. left. apply bool_decide_eq_true. lia. }
    rewrite Hbreak. by rewrite take_ge by lia.
  - assert (Hgo : (bool_decide (Z.of_nat (length items) ≤ Z.of_nat n + 100)
                   || bool_decide (Z.of_nat (length (take 100 (drop n items))) < 100))%bool
                  = false).
    { apply orb_false_iff. split; apply bool_decide_eq_false.
      - lia.
      - rewrite length_take, length_drop. lia. }
    rewrite Hgo.
    replace (Z.of_nat n + 100) with (Z.of_nat (n + 100)) by lia.
    apply IH; [done|lia|lia].
Qed.

(** X8. [fetchItemsByTag] collects every page: from a remote that holds
    [items] under the tag and serves them in pages of 100, it returns all of
    [items], in their order, with the library version of the remote, as
    soon as it may request enough pages; the state is not changed. *)
Theorem fetchItemsByTag_collects_every_page (E : Env) (tag : string)
    (items : list ZoteroItem) (v : Z) (since : option Z) (fuel : nat) (w : World) :
  servesPages E tag items v →
  (length items < 100 * fuel)%nat →
  fetchItemsByTag E fuel tag since w = Some (Ok (items, v), w).
Proof.
  intros Hremote Hfuel.
  apply (fetchItemsByTag_from_pages E tag items v since w fuel 0 0); [done|lia|lia].
Qed.

(** X8, run: 250 records come in three pages. *)
Lemma fetchItemsByTag_pages_witness :
  fetchItemsByTag (Paged.env (Paged.records 250) 7) 3 "obsidian" None
    (Test.start Test.defaults ∅)
  = Some (Ok (Paged.records 250, 7), Test.start Test.defaults ∅).
Proof.
  apply (fetchItemsByTag_collects_every_page (Paged.env (Paged.records 250) 7)
           "obsidian" (Paged.records 250) 7 None 3 (Test.start Test.defaults ∅)).
  - intros since start w Hstart. eexists. split; [reflexivity|]. by split_and!.
  - apply Nat.ltb_lt. vm_compute. reflexivity.
Defined.

(** ** Relations a cycle keeps, given what the naming and the tag merge keep

    [Keeps] asks that a relation holds across every update of the stored
    file names and every push. Here the relation is asked to hold across
    [resolveFilename] and [syncTagsTwoWay] as they are, which is less; it
    is read on the worlds, the counts and errors of the cycle being free.
    The progress call is set apart: what follows it in [syncItem] keeps the
    relation without a word on the progress log. *)

Lemma on_world_lift (R : relation World) c w' :
  R (world c) w' → on_world R c {| world := w'; result := result c |}.
Proof. done. Qed.

Lemma on_world_result (R : relation World) `{!PreOrder R} f c :
  on_world R c (set_result f c).
Proof. unfold on_world. simpl. reflexivity. Qed.

Section CycleKeeps.

Variable E : Env.
Variable R : relation World.

Hypothesis R_pre : PreOrder R.
Hypothesis R_saved : ∀ w s, R w (set_saved s w).
Hypothesis R_file : ∀ w path content, R w (set_vault (insert path (TFile content)) w).
Hypothesis R_folder : ∀ w path,
  vault w !! path = None → R w (set_vault (insert path TFolder) w).
Hypothesis R_version : ∀ w itemKey v,
  R w (set_settings (λ s, with_itemVersions (<[itemKey := v]> (itemVersions s)) s) w).
Hypothesis R_library : ∀ w v, R w (set_settings (with_lastSyncVersion v) w).
Hypothesis K_resolve : ∀ itemKey it, keeps R (resolveFilename E itemKey it).
Hypothesis K_tags : ∀ it existingContent, keeps R (syncTagsTwoWay E it existingContent).

Hint Resolve K_resolve K_tags : keeps.
Hint Extern 1 (on_world _ _ (set_result _ _)) => apply on_world_result; assumption : keeps.

Lemma cycle_vault_read path : keeps R (vault_read path).
Proof. by apply keeps_vault_read. Qed.
Hint Resolve cycle_vault_read : keeps.

Lemma cycle_getAbstractFileByPath path : keeps R (getAbstractFileByPath path).
Proof. by apply keeps_getAbstractFileByPath. Qed.
Hint Resolve cycle_getAbstractFileByPath : keeps.

Lemma cycle_vault_modify path content : keeps R (vault_modify E path content).
Proof. by apply keeps_vault_modify. Qed.
Hint Resolve cycle_vault_modify : keeps.

Lemma cycle_vault_create path content : keeps R (vault_create E path content).
Proof. by apply keeps_vault_create. Qed.
Hint Resolve cycle_vault_create : keeps.

Lemma cycle_renderContent syncData : keeps R (renderContent E syncData).
Proof. by apply keeps_renderContent. Qed.
Hint Resolve cycle_renderContent : keeps.

Lemma cycle_shouldSkip it filePath existingFile :
  keeps R (shouldSkip E it filePath existingFile).
Proof. by apply keeps_shouldSkip. Qed.
Hint Resolve cycle_shouldSkip : keeps.

Lemma cycle_buildSyncData it : keeps R (buildSyncData E it).
Proof. by apply keeps_buildSyncData. Qed.
Hint Resolve cycle_buildSyncData : keeps.

Lemma cycle_setItemVersion itemKey v : keeps R (setItemVersion E itemKey v).
Proof. by apply keeps_setItemVersion. Qed.
Hint Resolve cycle_setItemVersion : keeps.

Lemma cycle_ensureFolder folderPath : keeps R (ensureFolder E folderPath).
Proof. by apply keeps_ensureFolder. Qed.
Hint Resolve cycle_ensureFolder : keeps.

Lemma cycle_fetchItemsByTag fuel tag since : keeps R (fetchItemsByTag E fuel tag since).
Proof. by apply keeps_fetchItemsByTag. Qed.
Hint Resolve cycle_fetchItemsByTag : keeps.

Lemma cycle_getLibraryVersion : keeps R getLibraryVersion.
Proof. by apply keeps_getLibraryVersion. Qed.
Hint Resolve cycle_getLibraryVersion : keeps.

Lemma cycle_setLibraryVersion v : keeps R (setLibraryVersion E v).
Proof. by apply keeps_setLibraryVersion. Qed.
Hint Resolve cycle_setLibraryVersion : keeps.

Lemma cycle_rewriteDocument it syncData filePath existingFile :
  keeps (on_world R) (rewriteDocument E it syncData filePath existingFile).
Proof. pose proof (on_world_lift R). unfold rewriteDocument. keeps_go. Qed.
Hint Resolve cycle_rewriteDocument : keeps.

Lemma cycle_regenerate it syncData filePath existingFile :
  keeps (on_world R) (regenerate E it syncData filePath existingFile).
Proof. pose proof (on_world_lift R). unfold regenerate. keeps_go. Qed.
Hint Resolve cycle_regenerate : keeps.

(** What [syncItem] does after its progress call. *)
Lemma cycle_syncItem_after_progress total processed it c o c' :
  syncItem E total processed it c = Some (o, c') →
  on_world R {| world := add_progress (processed, total) (world c);
                result := result c |} c'.
Proof.
  pose proof (on_world_lift R).
  unfold syncItem. intros [(e & [=] & _)|([] & c1 & [= <-] & Hrest)]%bind_Some.
  revert Hrest.
  match goal with |- ?m ?c1 = _ → _ => assert (Hkeeps : keeps (on_world R) m) end.
  { keeps_go. }
  apply Hkeeps.
Qed.

Hypothesis R_progress : ∀ w p, R w (add_progress p w).

Lemma cycle_syncItem total processed it :
  keeps (on_world R) (syncItem E total processed it).
Proof.
  intros c o c' Hrun. apply cycle_syncItem_after_progress in Hrun.
  unfold on_world in *. simpl in Hrun. etrans; [apply R_progress|exact Hrun].
Qed.
Hint Resolve cycle_syncItem : keeps.

Lemma cycle_forEachItem total items : ∀ processed,
  keeps (on_world R) (forEachItem E total processed items).
Proof.
  induction items as [|it items IH]; intros processed; simpl; keeps_go.
Qed.
Hint Resolve cycle_forEachItem : keeps.

Lemma cycle_syncAll_try fuel : keeps (on_world R) (syncAll_try E fuel).
Proof. pose proof (on_world_lift R). unfold syncAll_try. keeps_go. Qed.

Lemma cycle_syncSingleItem_try itemKey :
  keeps (on_world R) (syncSingleItem_try E itemKey).
Proof. pose proof (on_world_lift R). unfold syncSingleItem_try. keeps_go. Qed.

Hypothesis R_flag : ∀ w b, R w (set_isSyncing b w).
Hypothesis R_notice : ∀ w n, R w (add_notice n w).

(** From the [try] blocks to [syncAll] and [syncSingleItem]. *)
Lemma cycle_keeps w r w' :
  (∃ fuel, syncAll E fuel w = Some (r, w'))
  ∨ (∃ itemKey, syncSingleItem E itemKey w = Some (r, w')) →
  R w w'.
Proof.
  assert (Hfinish : ∀ m : M Cycle unit, keeps (on_world R) m →
            match m {| world := set_isSyncing true w; result := emptyResult |} with
            | None => None
            | Some (o, c') => Some (finish o c')
            end = Some (r, w') → R w w').
  { intros m Hm. destruct (m _) as [[o c']|] eqn:Hrun; [|done]. intros [= _ <-].
    apply Hm in Hrun. unfold on_world in Hrun. simpl in Hrun.
    etrans; [apply (R_flag w true)|]. etrans; [exact Hrun|]. apply R_flag. }
  intros [[fuel Hrun]|[itemKey Hrun]]; unfold syncAll, syncSingleItem in Hrun;
    (destruct (isSyncing w); [injection Hrun as _ <-; apply R_notice|]).
  - by apply (Hfinish _ (cycle_syncAll_try fuel)).
  - by apply (Hfinish _ (cycle_syncSingleItem_try itemKey)).
Qed.

End CycleKeeps.

(** ** What a cycle does not touch *)

Global Instance configuration_kept_preorder : PreOrder configuration_kept.
Proof.
  split; [by intros w|]. unfold configuration_kept. intros w1 w2 w3 H12 H23. congruence.
Qed.

Global Instance filenames_kept_preorder : PreOrder filenames_kept.
Proof.
  split; [by intros w k f|]. intros w1 w2 w3 H12 H23 k f Hk Hf. apply H23; [|done]. by apply H12.
Qed.

Global Instance pushes_carry_sync_tag_preorder : PreOrder pushes_carry_sync_tag.
Proof.
  split.
  - intros w. split; [done|]. exists []. by rewrite app_nil_r.
  - intros w1 w2 w3 [Htag12 (l12 & Hl12 & Hall12)] [Htag23 (l23 & Hl23 & Hall23)].
    split; [congruence|]. exists (l12 ++ l23). split.
    + by rewrite Hl23, Hl12, app_assoc.
    + apply Forall_app. split; [done|]. by rewrite <- Htag12.
Qed.

Global Instance progress_kept_preorder : PreOrder progress_kept.
Proof.
  split; [by intros w|]. unfold progress_kept. intros w1 w2 w3 H12 H23. congruence.
Qed.

Lemma configuration_kept_same w w' :
  configuration (settings w') = configuration (settings w) → configuration_kept w w'.
Proof. done. Qed.

Lemma filenames_kept_same w w' :
  itemFilenames (settings w') = itemFilenames (settings w) → filenames_kept w w'.
Proof. intros Heq k f. by rewrite Heq. Qed.

Lemma pushes_carry_sync_tag_same w w' :
  syncTag (settings w') = syncTag (settings w) → patches w' = patches w →
  pushes_carry_sync_tag w w'.
Proof. intros Htag Hpatches. split; [done|]. exists []. by rewrite app_nil_r. Qed.

Ltac same_updates lemma :=
  first [ typeclasses eauto
        | by (intros; apply lemma) ].

(** X9. A cycle, full or for one record, leaves the configuration as it
    was: the user id, the sync tag, the output folder, the file name
    template, the template path, the image folder, the cache directories
    and the switch that preserves the comments. *)
Theorem cycle_keeps_configuration (E : Env) (w : World) (r : SyncResult) (w' : World) :
  (∃ fuel, syncAll E fuel w = Some (r, w'))
  ∨ (∃ itemKey, syncSingleItem E itemKey w = Some (r, w')) →
  configuration (settings w') = configuration (settings w).
Proof.
  apply (cycle_keeps E configuration_kept);
    first [ typeclasses eauto
          | by (intros; apply configuration_kept_same)
          | (intros; apply keeps_resolveFilename)
          | (intros; apply keeps_syncTagsTwoWay) ];
    same_updates configuration_kept_same.
Qed.

(** The naming of a record keeps the names there are. *)
Lemma resolveFilename_filenames E itemKey it :
  keeps filenames_kept (resolveFilename E itemKey it).
Proof.
  unfold resolveFilename. intros w o w' Hrun.
  unfold bind at 1, gets at 1 in Hrun.
  destruct (Str.truthy (default "" (itemFilenames (settings w) !! itemKey))) eqn:Hstored.
  - injection Hrun as _ <-. reflexivity.
  - unfold bind at 1, gets at 1 in Hrun. unfold bind at 1, modify at 1 in Hrun.
    revert Hrun.
    match goal with |- (_;; _) ?w1 = _ → _ => set (named := w1) end.
    intros Hrun.
    assert (Hsaved : filenames_kept named w').
    { revert Hrun.
      match goal with |- ?m named = _ → _ =>
        assert (Hkeeps : keeps filenames_kept m)
      end.
      { keeps_go. apply keeps_saveSettings; same_updates filenames_kept_same. }
      apply Hkeeps. }
    etrans; [|exact Hsaved].
    intros k f Hk Hf. unfold named. simpl.
    destruct (decide (k = itemKey)) as [->|Hne].
    + rewrite Hk in Hstored. simpl in Hstored. congruence.
    + by rewrite lookup_insert_ne.
Qed.

(** X10. A record keeps its file name: a file name stored for a record
    before a cycle, full or for one record, is the file name stored for it
    afterwards. A name is given once, when the record has none. *)
Theorem stored_file_names_are_stable (E : Env) (w : World) (r : SyncResult) (w' : World)
    (itemKey filename : string) :
  (∃ fuel, syncAll E fuel w = Some (r, w'))
  ∨ (∃ k, syncSingleItem E k w = Some (r, w')) →
  itemFilenames (settings w) !! itemKey = Some filename →
  filename ≠ "" →
  itemFilenames (settings w') !! itemKey = Some filename.
Proof.
  intros Hrun Hstored Hname.
  assert (Hkept : filenames_kept w w').
  { revert Hrun. apply (cycle_keeps E filenames_kept);
      first [ typeclasses eauto
            | by (intros; apply filenames_kept_same)
            | (intros; apply resolveFilename_filenames)
            | (intros; apply keeps_syncTagsTwoWay) ];
      same_updates filenames_kept_same. }
  apply Hkept; [done|]. by destruct filename.
Qed.

(** The tag merge sends at most one push, which ends with the sync tag. *)
Lemma syncTagsTwoWay_pushes E it existingContent :
  keeps pushes_carry_sync_tag (syncTagsTwoWay E it existingContent).
Proof.
  intros w o w' Hrun.
  assert (Htag : syncTag (settings w') = syncTag (settings w)).
  { revert Hrun.
    apply (keeps_syncTagsTwoWay E (λ w w', syncTag (settings w') = syncTag (settings w)));
      first [ done | split; [done|]; intros w1 w2 w3; simpl; congruence ]. }
  split; [done|].
  destruct (syncTagsTwoWay_effect E it existingContent w)
    as (o1 & w1 & Hrun1 & _ & _ & _ & Hpatches).
  rewrite Hrun in Hrun1. injection Hrun1 as <- <-.
  eexists. split; [exact Hpatches|].
  destruct (tagsEqual _ _); [done|].
  apply Forall_singleton. unfold tagPush, tagsForZotero. simpl. apply last_snoc.
Qed.

(** X11. A push never takes the sync tag off a record: every request a
    cycle sends, full or for one record, is a push whose tags end with the
    sync tag of the settings. *)
Theorem pushes_keep_the_sync_tag (E : Env) (w : World) (r : SyncResult) (w' : World) :
  (∃ fuel, syncAll E fuel w = Some (r, w'))
  ∨ (∃ itemKey, syncSingleItem E itemKey w = Some (r, w')) →
  ∃ sent,
    patches w' = patches w ++ sent
    ∧ ∀ p, p ∈ sent → last (patch_tags p) = Some (syncTag (settings w)).
Proof.
  intros Hrun.
  assert (Hkept : pushes_carry_sync_tag w w').
  { revert Hrun. apply (cycle_keeps E pushes_carry_sync_tag);
      first [ typeclasses eauto
            | by (intros; apply pushes_carry_sync_tag_same)
            | (intros; apply syncTagsTwoWay_pushes)
            | (intros; apply keeps_resolveFilename) ];
      first [ typeclasses eauto
            | by (intros; apply pushes_carry_sync_tag_same) ]. }
  destruct Hkept as [_ (sent & Hsent & Hall)].
  exists sent. split; [done|]. by apply Forall_forall.
Qed.

(** X9, run. *)
Lemma configuration_witness :
  ∃ r w',
    syncAll (Test.env [Test.record "R1" 5 ["x"; "obsidian"]] 9 false) 5
      (Test.start Test.defaults ∅) = Some (r, w')
    ∧ configuration (settings w') = configuration Test.defaults.
Proof.
  match goal with |- ∃ r w', ?run = _ ∧ _ =>
    destruct run as [[r w']|] eqn:Hrun; [|by vm_compute in Hrun]
  end.
  exists r, w'. split; [reflexivity|].
  apply (cycle_keeps_configuration
           (Test.env [Test.record "R1" 5 ["x"; "obsidian"]] 9 false)
           (Test.start Test.defaults ∅) r w').
  left. exists 5%nat. exact Hrun.
Defined.

(** X10, run: [R1] was named [Smith_2020]; a cycle that would name it [R1]
    today creates its document and leaves the name. *)
Lemma stored_file_names_witness :
  ∃ r w',
    syncAll (Test.env [Test.record "R1" 5 ["x"; "obsidian"]] 9 false) 5
      (Test.start (with_itemFilenames {[ "R1" := "Smith_2020" ]} Test.defaults) ∅)
    = Some (r, w')
    ∧ itemFilenames (settings w') !! "R1" = Some "Smith_2020".
Proof.
  match goal with |- ∃ r w', ?run = _ ∧ _ =>
    destruct run as [[r w']|] eqn:Hrun; [|by vm_compute in Hrun]
  end.
  exists r, w'. split; [reflexivity|].
  apply (stored_file_names_are_stable
           (Test.env [Test.record "R1" 5 ["x"; "obsidian"]] 9 false)
           (Test.start (with_itemFilenames {[ "R1" := "Smith_2020" ]} Test.defaults) ∅)
           r w').
  - left. exists 5%nat. exact Hrun.
  - reflexivity.
  - discriminate.
Defined.

(** X11, run: the document of [R1] lists the tag [c] that the remote does
    not have; the cycle sends one push, [a, c, obsidian]. *)
Lemma pushes_witness :
  ∃ r w' sent,
    syncAll (Test.env [Test.record "R1" 5 ["a"; "obsidian"]] 9 false) 5
      (Test.start (Test.synced "R1" 4 (Some ["a"]))
         {[ "Notes/R1.md" := TFile (Test.doc ["a"; "c"]) ]}) = Some (r, w')
    ∧ patches w' = sent
    ∧ length sent = 1%nat
    ∧ ∀ p, p ∈ sent → last (patch_tags p) = Some "obsidian".
Proof.
  match goal with |- ∃ r w' sent, ?run = _ ∧ _ =>
    destruct run as [[r w']|] eqn:Hrun; [|by vm_compute in Hrun]
  end.
  destruct (pushes_keep_the_sync_tag
              (Test.env [Test.record "R1" 5 ["a"; "obsidian"]] 9 false)
              (Test.start (Test.synced "R1" 4 (Some ["a"]))
                 {[ "Notes/R1.md" := TFile (Test.doc ["a"; "c"]) ]}) r w')
    as (sent & Hsent & Hall).
  { left. exists 5%nat. exact Hrun. }
  exists r, w', sent. split; [reflexivity|]. split; [exact Hsent|]. split; [|exact Hall].
  vm_compute in Hrun. injection Hrun as _ <-. simpl in Hsent. by rewrite <- Hsent.
Defined.

(** ** The course of a full cycle *)

Lemma liftW_gets_Some {A} (f : World → A) c o c' :
  liftW (gets f) c = Some (o, c') → o = Ok (f (world c)) ∧ c' = c.
Proof. destruct c. unfold liftW, gets. simpl. by intros [= <- <-]. Qed.

Lemma liftW_ask_Some {A} (f : World → outcome A) c o c' :
  liftW (λ w, of_outcome (f w) w) c = Some (o, c') → o = f (world c) ∧ c' = c.
Proof. destruct c. unfold liftW, of_outcome. simpl. by intros [= <- <-]. Qed.

Lemma liftW_unchanged {A} (m : M World A) c o c' :
  keeps eq m → liftW m c = Some (o, c') → m (world c) = Some (o, world c) ∧ c' = c.
Proof.
  intros Hm (w' & Hrun & ->)%liftW_Some. pose proof (Hm _ _ _ Hrun) as <-.
  split; [done|by destruct c].
Qed.

Lemma fetchItemsByTag_unchanged E fuel tag since :
  keeps eq (fetchItemsByTag E fuel tag since).
Proof. apply keeps_fetchItemsByTag. typeclasses eauto. Qed.

Lemma liftW_gets_eq {A} (f : World → A) c :
  liftW (gets f) c = Some (Ok (f (world c)), c).
Proof. by destruct c. Qed.

Lemma liftW_ask_eq {A} (f : World → outcome A) c :
  liftW (λ w, of_outcome (f w) w) c = Some (f (world c), c).
Proof. by destruct c. Qed.

Lemma liftW_run {A} (m : M World A) c o w' :
  m (world c) = Some (o, w') →
  liftW m c = Some (o, {| world := w'; result := result c |}).
Proof. unfold liftW. by intros ->. Qed.

(** [ensureFolder] that throws has changed nothing. *)
Lemma ensureFolder_throws E folderPath w e w' :
  ensureFolder E folderPath w = Some (Throw e, w') → w' = w.
Proof.
  unfold ensureFolder, vault_createFolder, vault_write, getAbstractFileByPath,
    bind, gets, throw, modify, ret. simpl.
  destruct (vault w !! normalizePath E folderPath) eqn:Hfree; [by intros [=]|].
  rewrite Hfree.
  destruct (vaultError E (OpCreateFolder (normalizePath E folderPath)) w);
    intros [=]; congruence.
Qed.

(** A full cycle either stops before the loop, the state as it was, or
    fetches the items, makes sure of the output folder, goes through the
    top-level items and then stores the library version. *)
Lemma syncAll_try_inv E fuel c o c' :
  syncAll_try E fuel c = Some (o, c') →
  let s := settings (world c) in
  let since :=
    if bool_decide (0 < lastSyncVersion s) then Some (lastSyncVersion s) else None in
  (c' = c ∧ ∀ x, o = Ok x → 0 < lastSyncVersion s)
  ∨ ∃ items lv c1 c2,
      Str.truthy (userId s) = true
      ∧ fetchCollections E (world c) = Ok tt
      ∧ fetchItemsByTag E fuel (syncTag s) since (world c)
        = Some (Ok (items, lv), world c)
      ∧ (items ≠ [] ∨ ¬ 0 < lastSyncVersion s)
      ∧ liftW (ensureFolder E (outputFolder s)) c = Some (Ok tt, c1)
      ∧ forEachItem E (length (List.filter isTopLevel items)) 0
          (List.filter isTopLevel items) c1 = Some (Ok tt, c2)
      ∧ (if bool_decide (0 < lv)
         then liftW (setLibraryVersion E lv) c2 = Some (o, c')
         else o = Ok tt ∧ c' = c2).
Proof.
  intros H s since. unfold syncAll_try in H.
  apply bind_Some in H as [(e & [[=] _]%liftW_gets_Some & _)
                          |(s0 & c0 & [[= ->] ->]%liftW_gets_Some & H)].
  fold s in H. destruct (Str.truthy (userId s)) eqn:Huser; simpl in H;
    [|injection H as <- <-; left; by split].
  apply bind_Some in H as [(e & [He ->]%liftW_ask_Some & ->)
                          |([] & c0 & [Hcollections ->]%liftW_ask_Some & H)];
    [left; by split|].
  apply bind_Some in H as [(e & [[=] _]%liftW_gets_Some & _)
                          |(v0 & c0 & [[= ->] ->]%liftW_gets_Some & H)].
  fold s in H. fold since in H.
  apply bind_Some in H as [(e & [_ ->]%(liftW_unchanged _ _ _ _
                                          (fetchItemsByTag_unchanged _ _ _ _)) & ->)
                          |([items lv] & c0 & [Hfetch ->]%(liftW_unchanged _ _ _ _
                                          (fetchItemsByTag_unchanged _ _ _ _)) & H)];
    [left; by split|].
  destruct (Nat.eqb (length items) 0 && bool_decide (0 < lastSyncVersion s))%bool
    eqn:Hnone.
  { injection H as <- <-. left. split; [done|]. intros x _.
    apply andb_true_iff in Hnone as [_ ?%bool_decide_eq_true]. done. }
  apply bind_Some in H as [(e & [[=] _]%liftW_gets_Some & _)
                          |(folder & c0 & [[= ->] ->]%liftW_gets_Some & H)].
  fold s in H.
  apply bind_Some in H as [(e & Hfolder & ->)|([] & c1 & Hfolder & H)].
  { left. split; [|done].
    apply liftW_Some in Hfolder as (w' & Hfolder & ->).
    apply ensureFolder_throws in Hfolder as ->. by destruct c. }
  apply bind_Some in H as [(e & Hloop & ->)|([] & c2 & Hloop & H)].
  { destruct (forEachItem_completes E (length (List.filter isTopLevel items))
                (List.filter isTopLevel items) 0 c1) as [c2 Hok].
    rewrite Hok in Hloop. discriminate. }
  right. exists items, lv, c1, c2. split_and!; try done.
  - apply andb_false_iff in Hnone as [Hlen|Hsince].
    + left. apply Nat.eqb_neq in Hlen. by destruct items.
    + right. by apply bool_decide_eq_false in Hsince.
  - destruct (bool_decide (0 < lv)); [done|]. by injection H as <- <-.
Qed.

(** ** What a record does to the result and to the progress log *)

Section RecordResult.

Variable E : Env.

Lemma syncItem_progress total processed it c o c' :
  syncItem E total processed it c = Some (o, c') →
  progress (world c') = progress (world c) ++ [(processed, total)].
Proof.
  intros Hrun.
  apply (cycle_syncItem_after_progress E progress_kept) in Hrun;
    first [ exact Hrun
          | typeclasses eauto
          | done
          | (intros; apply keeps_resolveFilename)
          | (intros; apply keeps_syncTagsTwoWay) ];
    first [ typeclasses eauto | done ].
Qed.

Lemma syncItem_errors total processed it c o c' :
  syncItem E total processed it c = Some (o, c') →
  errors (result c') = errors (result c).
Proof.
  apply (keeps_syncItem E (λ _ _, True)
           (λ c c', errors (result c') = errors (result c)));
    first [ done | split; [done|]; intros c1 c2 c3; simpl; congruence ].
Qed.

(** [rewriteDocument] counts the document when it has written it, and only
    then. *)
Lemma rewriteDocument_result it syncData filePath existingFile c o c' :
  rewriteDocument E it syncData filePath existingFile c = Some (o, c') →
  match o with
  | Ok _ => result c' = incr_updated (result c) ∨ result c' = incr_created (result c)
  | Throw _ => result c' = result c
  end.
Proof.
  unfold rewriteDocument. intros H.
  apply bind_Some in H as [(? & H & ->)|(existingContent & c1 & H1 & H)];
    [by apply liftW_result in H|].
  apply bind_Some in H as [(? & H & ->)|(mergedTags & c2 & H2 & H)];
    [apply liftW_result in H1, H; congruence|].
  apply bind_Some in H as [(? & H & ->)|(tag & c3 & H3 & H)];
    [apply liftW_result in H1, H2, H; congruence|].
  apply bind_Some in H as [(? & H & ->)|(content & c4 & H4 & H)];
    [apply liftW_result in H1, H2, H3, H; congruence|].
  apply liftW_result in H1, H2, H3, H4.
  assert (Hsame : result c4 = result c) by congruence.
  rewrite <- Hsame. clear H1 H2 H3 H4 Hsame.
  destruct (is_TFile existingFile).
  - apply bind_Some in H as [(? & H & ->)|(s & c5 & H5 & H)];
      [by apply liftW_result in H|].
    apply liftW_result in H5. rewrite <- H5.
    assert (Hwrite : ∀ o6 c6,
      (if preserveUserContent s
       then merged <- liftW (of_outcome (renderWithPreservedComments E s
                                           (with_item_tags (mergedTags ++ [tag]) syncData)
                                           (default "" existingContent) content));;
            liftW (vault_modify E filePath merged)
       else liftW (vault_modify E filePath content)) c5 = Some (o6, c6) →
      result c6 = result c5).
    { intros o6 c6 H6. destruct (preserveUserContent s).
      - apply bind_Some in H6 as [(? & H6 & ->)|(merged & c7 & H7 & H6)].
        + by apply liftW_result in H6.
        + apply liftW_result in H7, H6. congruence.
      - by apply liftW_result in H6. }
    apply bind_Some in H as [(? & H & ->)|([] & c6 & H6 & H)].
    + by apply Hwrite in H.
    + apply Hwrite in H6. injection H as <- <-. left. simpl. by rewrite H6.
  - apply bind_Some in H as [(? & H & ->)|([] & c5 & H5 & H)].
    + by apply liftW_result in H.
    + apply liftW_result in H5. injection H as <- <-. right. simpl. by rewrite H5.
Qed.

Lemma regenerate_result it syncData filePath existingFile c o c' :
  regenerate E it syncData filePath existingFile c = Some (o, c') →
  (result c' = incr_updated (result c) ∨ result c' = incr_created (result c))
  ∨ (result c' = result c ∧ ∃ e, o = Throw e).
Proof.
  unfold regenerate.
  intros [(e & H & ->)|([] & c1 & H1 & H)]%bind_Some.
  - apply rewriteDocument_result in H. right. split; [done|by exists e].
  - apply rewriteDocument_result in H1. apply liftW_result in H. left. by rewrite H.
Qed.

(** A record is counted once when it is processed without error, and at
    most once when it is not. *)
Lemma syncItem_result total processed it c o c' :
  syncItem E total processed it c = Some (o, c') →
  (result c' = incr_skipped (result c) ∧ o = Ok tt)
  ∨ (result c' = incr_updated (result c) ∨ result c' = incr_created (result c))
  ∨ (result c' = result c ∧ ∃ e, o = Throw e).
Proof.
  unfold syncItem. intros H.
  apply bind_Some in H as [(e & H & ->)|([] & c1 & H1 & H)];
    [apply liftW_result in H; right; right; split; [done|by exists e]|].
  apply bind_Some in H as [(e & H & ->)|(filename & c2 & H2 & H)];
    [apply liftW_result in H1, H; right; right; split; [congruence|by exists e]|].
  apply bind_Some in H as [(e & H & ->)|(s & c3 & H3 & H)];
    [apply liftW_result in H1, H2, H; right; right; split; [congruence|by exists e]|].
  apply bind_Some in H as [(e & H & ->)|(existingFile & c4 & H4 & H)];
    [apply liftW_result in H1, H2, H3, H; right; right; split; [congruence|by exists e]|].
  apply bind_Some in H as [(e & H & ->)|(skip & c5 & H5 & H)];
    [apply liftW_result in H1, H2, H3, H4, H; right; right;
     split; [congruence|by exists e]|].
  apply liftW_result in H1, H2, H3, H4, H5.
  assert (Hsame : result c5 = result c) by congruence.
  rewrite <- Hsame. clear H1 H2 H3 H4 H5 Hsame.
  destruct skip.
  - injection H as <- <-. by left.
  - apply bind_Some in H as [(e & H & ->)|(syncData & c6 & H6 & H)];
      [apply liftW_result in H; right; right; split; [done|by exists e]|].
    apply liftW_result in H6. rewrite <- H6. right.
    by apply regenerate_result in H.
Qed.

(** The loop reports every record to the progress callback, in order, and
    accounts for every record: a record is counted, or its error is
    recorded, or both. *)
Lemma forEachItem_accounts total items : ∀ processed c o c',
  forEachItem E total processed items c = Some (o, c') →
  progress (world c')
  = progress (world c) ++ ((λ i, (i, total)) <$> seq (S processed) (length items))
  ∧ ∃ reported,
      errors (result c') = errors (result c) ++ reported
      ∧ (counted (result c) ≤ counted (result c'))%nat
      ∧ (counted (result c') ≤ counted (result c) + length items)%nat
      ∧ (length reported ≤ length items)%nat
      ∧ (counted (result c) + length items
         ≤ counted (result c') + length reported)%nat.
Proof.
  induction items as [|it items IH]; intros processed c o c'; simpl.
  - intros [= _ <-]. rewrite app_nil_r. split; [done|].
    exists []. rewrite app_nil_r. simpl. split_and!; [done|lia..].
  - intros [(e & H & _)|([] & c1 & Hitem & Hrest)]%bind_Some.
    { apply try_catch_Some in H as [(? & _ & [=])|(? & ? & _ & [=])]. }
    apply IH in Hrest as (Hprogress & reported & Herrors & Hlow & Hhigh & Hlen & Hall).
    assert (Hone : progress (world c1) = progress (world c) ++ [(S processed, total)]
                   ∧ ∃ mine,
                       errors (result c1) = errors (result c) ++ mine
                       ∧ (counted (result c) ≤ counted (result c1))%nat
                       ∧ (counted (result c1) ≤ S (counted (result c)))%nat
                       ∧ (length mine ≤ 1)%nat
                       ∧ (S (counted (result c))
                          ≤ counted (result c1) + length mine)%nat).
    { apply try_catch_Some in Hitem as [(a & Hitem & _)|(e & c0 & Hitem & [= <-])].
      - pose proof (syncItem_progress _ _ _ _ _ _ Hitem) as Hp.
        pose proof (syncItem_errors _ _ _ _ _ _ Hitem) as He.
        apply syncItem_result in Hitem as [[Hr _]|[[Hr|Hr]|[_ [? [=]]]]];
          (split; [done|]); exists []; rewrite app_nil_r, Hr;
          unfold counted; simpl; split_and!; first [done|lia].
      - pose proof (syncItem_progress _ _ _ _ _ _ Hitem) as Hp.
        pose proof (syncItem_errors _ _ _ _ _ _ Hitem) as He.
        apply syncItem_result in Hitem as [[_ [=]]|[[Hr|Hr]|[Hr _]]];
          (split; [done|]); exists [itemError it e]; simpl; rewrite He;
          (split; [done|]); rewrite Hr; unfold counted; simpl; split_and!; lia. }
    destruct Hone as (Hp1 & mine & He1 & Hlow1 & Hhigh1 & Hlen1 & Hall1). split.
    + rewrite Hprogress, Hp1, <- app_assoc. done.
    + exists (mine ++ reported). rewrite Herrors, He1, <- app_assoc, length_app.
      split_and!; [done|lia..].
Qed.

End RecordResult.

(** A cycle that has fetched the items and has its output folder goes
    through the top-level items and then stores the library version. *)
Lemma syncAll_try_enters E fuel c items lv w1 :
  let s := settings (world c) in
  let since :=
    if bool_decide (0 < lastSyncVersion s) then Some (lastSyncVersion s) else None in
  Str.truthy (userId s) = true →
  fetchCollections E (world c) = Ok tt →
  fetchItemsByTag E fuel (syncTag s) since (world c) = Some (Ok (items, lv), world c) →
  items ≠ [] ∨ ¬ 0 < lastSyncVersion s →
  ensureFolder E (outputFolder s) (world c) = Some (Ok tt, w1) →
  syncAll_try E fuel c
  = bind (forEachItem E (length (List.filter isTopLevel items)) 0
            (List.filter isTopLevel items))
      (λ _, if bool_decide (0 < lv) then liftW (setLibraryVersion E lv) else ret tt)
      {| world := w1; result := result c |}.
Proof.
  intros s since Huser Hcollections Hfetch Hsome Hfolder.
  unfold syncAll_try.
  unfold bind at 1. rewrite liftW_gets_eq. fold s. rewrite Huser.
  change (negb true) with false. cbv iota.
  unfold bind at 1. rewrite liftW_ask_eq, Hcollections.
  unfold bind at 1. unfold getLibraryVersion. rewrite liftW_gets_eq. fold s. fold since.
  unfold bind at 1. rewrite (liftW_run _ c _ _ Hfetch).
  replace {| world := world c; result := result c |} with c by by destruct c.
  assert (Hgo : (Nat.eqb (length items) 0
                 && bool_decide (0 < lastSyncVersion s))%bool = false).
  { apply andb_false_iff. destruct Hsome as [Hitems|Hsince].
    - left. apply Nat.eqb_neq. by destruct items.
    - right. by apply bool_decide_eq_false. }
  rewrite Hgo.
  unfold bind at 1. rewrite liftW_gets_eq. fold s.
  unfold bind at 1. rewrite (liftW_run _ c _ _ Hfolder). done.
Qed.

(** What the loop and the library version after it do to the progress
    log. *)
Lemma loop_progress E items lv c o c' :
  bind (forEachItem E (length items) 0 items)
    (λ _, if bool_decide (0 < lv) then liftW (setLibraryVersion E lv) else ret tt) c
  = Some (o, c') →
  progress (world c') = progress (world c) ++ progressCalls (length items).
Proof.
  intros [(e & Hloop & _)|([] & c2 & Hloop & Hend)]%bind_Some.
  { destruct (forEachItem_completes E (length items) items 0 c) as [c2 Hok].
    rewrite Hok in Hloop. discriminate. }
  apply forEachItem_accounts in Hloop as (Hprogress & _).
  unfold progressCalls. rewrite <- Hprogress.
  destruct (bool_decide (0 < lv)).
  - apply liftW_Some in Hend as (w3 & Hend & ->). simpl.
    revert Hend. apply (keeps_setLibraryVersion E progress_kept);
      first [ typeclasses eauto | done ].
  - by injection Hend as _ <-.
Qed.

(** X12. A full cycle reports the [total] top-level records it goes through
    to the progress callback as [(1, total)], ..., [(total, total)], in this
    order, and accounts for each of them: at most [total] records are
    counted as created, updated or skipped, and the records that are not
    counted have their error in [errors]. [total] is the number of the
    top-level records among the items fetched when the cycle gets to the
    loop; a cycle that stops before the loop (a cycle is running, no user
    id, the collections or the items not fetched, no changes since the
    cursor, no output folder) reports nothing. *)
Theorem cycle_reports_and_accounts_for_every_record (E : Env) (fuel : nat)
    (w : World) (r : SyncResult) (w' : World) :
  syncAll E fuel w = Some (r, w') →
  ∃ total,
    progress w' = progress w ++ progressCalls total
    ∧ (counted r ≤ total)%nat
    ∧ (total ≤ counted r + length (errors r))%nat
    ∧ (∀ items, reachesLoop E fuel w items →
         total = length (List.filter isTopLevel items))
    ∧ ((∀ items, ¬ reachesLoop E fuel w items) →
         total = 0%nat ∧ progress w' = progress w).
Proof.
  unfold syncAll. destruct (isSyncing w) eqn:Hbusy.
  { intros [= <- <-]. exists 0%nat. unfold counted. simpl. rewrite app_nil_r.
    split_and!; [done|lia|lia| |done].
    intros items (Hidle & _). congruence. }
  set (c := {| world := set_isSyncing true w; result := emptyResult |}).
  destruct (syncAll_try E fuel c) as [[o c']|] eqn:Hrun; [|done].
  intros [= <- <-].
  assert (Hreaches : ∀ items, reachesLoop E fuel w items →
            progress (world c') = progress w
                                  ++ progressCalls (length (List.filter isTopLevel items))).
  { intros items (_ & Huser & Hcollections & (lv & w1 & Hfetch) & Hsome & w2 & Hfolder).
    assert (w1 = set_isSyncing true w) as ->.
    { symmetry. exact (fetchItemsByTag_unchanged _ _ _ _ _ _ _ Hfetch). }
    pose proof (syncAll_try_enters E fuel c items lv w2 Huser Hcollections Hfetch
                  Hsome Hfolder) as Henters.
    rewrite Henters in Hrun. apply loop_progress in Hrun. rewrite Hrun. simpl.
    f_equal. revert Hfolder. apply (keeps_ensureFolder E progress_kept);
      first [ typeclasses eauto | done ]. }
  assert (Htotal : ∀ total items,
            progress (world c') = progress w ++ progressCalls total →
            reachesLoop E fuel w items →
            total = length (List.filter isTopLevel items)).
  { intros total items Hprogress Hitems. apply Hreaches in Hitems.
    rewrite Hprogress in Hitems. apply app_inv_head in Hitems.
    apply (f_equal length) in Hitems. unfold progressCalls in Hitems.
    by rewrite !length_fmap, !length_seq in Hitems. }
  pose proof (syncAll_try_inv _ _ _ _ _ Hrun) as Hinv. simpl in Hinv.
  destruct Hinv as [[-> _]|(items & lv & c1 & c2 & Huser & Hcollections & Hfetch & Hsome
                            & Hfolder & Hloop & Hend)].
  { exists 0%nat. simpl. rewrite app_nil_r.
    assert (Hsame : progress w = progress w ++ progressCalls 0)
      by by rewrite app_nil_r.
    split_and!; [done|destruct o; simpl; unfold counted; simpl; lia..
                |intros items; by apply Htotal|done]. }
  assert (Hitems : reachesLoop E fuel w items).
  { apply liftW_Some in Hfolder as (w1 & Hfolder & _).
    split_and!; [done|done|done|by eexists _, _|done|by exists w1]. }
  pose proof (Hreaches items Hitems) as Hprogress.
  apply forEachItem_accounts in Hloop
    as (_ & reported & Herrors & _ & Hhigh & _ & Hall).
  pose proof (liftW_result _ _ _ _ Hfolder) as Hresult. simpl in Hresult.
  rewrite Hresult in Herrors, Hhigh, Hall. unfold counted in Hhigh, Hall.
  simpl in Herrors, Hhigh, Hall.
  exists (length (List.filter isTopLevel items)).
  assert (Hr : result c' = result c2).
  { destruct (bool_decide (0 < lv)).
    - by apply liftW_result in Hend.
    - by destruct Hend as [_ ->]. }
  split_and!.
  - done.
  - destruct o; simpl; unfold counted; simpl; rewrite Hr; lia.
  - destruct o; simpl; unfold counted; simpl; rewrite Hr, ?Herrors, ?length_app;
      simpl; lia.
  - intros items'. by apply Htotal.
  - intros Hnone. by destruct (Hnone items).
Qed.

(** X12, run: two records, both created, are reported as [(1, 2)] and
    [(2, 2)]; a trigger while a cycle is running reports nothing. *)
Lemma cycle_accounts_witness :
  (∃ r w',
     syncAll (Test.env [Test.record "R1" 5 ["x"; "obsidian"];
                        Test.record "R2" 7 ["y"; "obsidian"]] 9 false) 5
       (Test.start Test.defaults ∅) = Some (r, w')
     ∧ progress w' = [(1, 2); (2, 2)]%nat
     ∧ counted r = 2%nat)
  ∧ (∃ r w',
       syncAll (Test.env [Test.record "R1" 5 ["x"; "obsidian"]] 9 false) 5
         (set_isSyncing true (Test.start Test.defaults ∅)) = Some (r, w')
       ∧ progress w' = []).
Proof.
  split.
  - match goal with |- ∃ r w', ?run = _ ∧ _ =>
      destruct run as [[r w']|] eqn:Hrun; [|by vm_compute in Hrun]
    end.
    destruct (cycle_reports_and_accounts_for_every_record _ _ _ _ _ Hrun)
      as (total & Hprogress & Hlow & Hhigh & Htotal & _).
    assert (total = 2%nat) as ->.
    { apply (Htotal [Test.record "R1" 5 ["x"; "obsidian"];
                     Test.record "R2" 7 ["y"; "obsidian"]]).
      split_and!; [done|done|done| |by left|].
      - eexists _, _. vm_compute. reflexivity.
      - eexists. vm_compute. reflexivity. }
    exists r, w'. split; [done|]. split; [exact Hprogress|].
    vm_compute in Hrun. injection Hrun as <- _. reflexivity.
  - match goal with |- ∃ r w', ?run = _ ∧ _ =>
      destruct run as [[r w']|] eqn:Hrun; [|by vm_compute in Hrun]
    end.
    destruct (cycle_reports_and_accounts_for_every_record _ _ _ _ _ Hrun)
      as (total & _ & _ & _ & _ & Hstops).
    exists r, w'. split; [done|].
    destruct Hstops as [_ Hprogress]; [|exact Hprogress].
    intros items (Hidle & _). discriminate Hidle.
Defined.

(** ** A record that was processed without error *)

Section ProcessedRecord.

Variable E : Env.

Global Instance naming_kept_preorder : PreOrder naming_kept.
Proof.
  split; [by intros w|]. intros w1 w2 w3 [? ?] [? ?]. split; congruence.
Qed.

Lemma resolveFilename_Ok itemKey it w filename w' :
  resolveFilename E itemKey it w = Some (Ok filename, w') →
  itemFilenames (settings w') !! itemKey = Some filename
  ∧ outputFolder (settings w') = outputFolder (settings w)
  ∧ vault w' = vault w.
Proof.
  unfold resolveFilename. intros Hrun.
  unfold bind at 1, gets at 1 in Hrun.
  destruct (itemFilenames (settings w) !! itemKey) as [stored|] eqn:Hstored;
    simpl in Hrun.
  - destruct (Str.truthy stored) eqn:Htruthy.
    + injection Hrun as <- <-. by rewrite Hstored.
    + unfold bind at 1, gets at 1 in Hrun. unfold bind at 1, modify at 1 in Hrun.
      apply bind_Some in Hrun as [(? & _ & [=])|([] & w1 & Hsave & [= <- <-])].
      destruct (saveSettings_run E (set_settings
                  (λ s, with_itemFilenames
                          (<[itemKey := generateFilename E it (settings w)]>
                             (itemFilenames s)) s) w)) as [o Ho].
      rewrite Ho in Hsave. injection Hsave as -> <-. simpl.
      by rewrite lookup_insert_eq.
  - unfold bind at 1, gets at 1 in Hrun. unfold bind at 1, modify at 1 in Hrun.
    apply bind_Some in Hrun as [(? & _ & [=])|([] & w1 & Hsave & [= <- <-])].
    destruct (saveSettings_run E (set_settings
                (λ s, with_itemFilenames
                        (<[itemKey := generateFilename E it (settings w)]>
                           (itemFilenames s)) s) w)) as [o Ho].
    rewrite Ho in Hsave. injection Hsave as -> <-. simpl.
    by rewrite lookup_insert_eq.
Qed.

(** A record is skipped only when its version is not above its baseline
    and its document exists; the test changes nothing. *)
Lemma shouldSkip_true it filePath existingFile w w' :
  shouldSkip E it filePath existingFile w = Some (Ok true, w') →
  w' = w
  ∧ is_TFile existingFile = true
  ∧ ∃ v, itemVersions (settings w) !! key it = Some v ∧ version it ≤ v.
Proof.
  intros Hrun. split.
  { symmetry. revert Hrun. apply (keeps_shouldSkip E eq). typeclasses eauto. }
  revert Hrun. unfold shouldSkip, isItemChanged.
  unfold bind at 1. unfold bind at 1, gets at 1, ret at 1.
  destruct (itemVersions (settings w) !! key it) as [v|]; [|by intros [=]].
  case_bool_decide as Hv; simpl; [by intros [=]|].
  destruct (is_TFile existingFile); simpl; [|by intros [=]].
  intros _. split; [done|]. exists v. split; [done|lia].
Qed.

Lemma vault_write_Ok op path f w w' :
  vault_write E op path f w = Some (Ok tt, w') → vault w' !! path = Some f.
Proof.
  unfold vault_write, bind, gets, throw, modify.
  destruct (vaultError E op w); [by intros [=]|].
  intros [= <-]. simpl. by rewrite lookup_insert_eq.
Qed.

Lemma vault_modify_Ok path content w w' :
  vault_modify E path content w = Some (Ok tt, w') →
  is_TFile (vault w' !! path) = true.
Proof. unfold vault_modify. intros ->%vault_write_Ok. done. Qed.

Lemma vault_create_Ok path content w w' :
  vault_create E path content w = Some (Ok tt, w') →
  is_TFile (vault w' !! path) = true.
Proof.
  unfold vault_create, getAbstractFileByPath. unfold bind at 1, gets at 1.
  destruct (vault w !! path); [by intros [=]|]. intros ->%vault_write_Ok. done.
Qed.

(** [rewriteDocument] that returns has written the document. *)
Lemma rewriteDocument_writes it syncData filePath existingFile c c' :
  rewriteDocument E it syncData filePath existingFile c = Some (Ok tt, c') →
  is_TFile (vault (world c') !! filePath) = true.
Proof.
  unfold rewriteDocument. intros H.
  apply bind_Some in H as [(? & _ & [=])|(existingContent & c1 & _ & H)].
  apply bind_Some in H as [(? & _ & [=])|(mergedTags & c2 & _ & H)].
  apply bind_Some in H as [(? & _ & [=])|(tag & c3 & _ & H)].
  apply bind_Some in H as [(? & _ & [=])|(content & c4 & _ & H)].
  destruct (is_TFile existingFile).
  - apply bind_Some in H as [(? & _ & [=])|(s & c5 & _ & H)].
    apply bind_Some in H as [(? & _ & [=])|([] & c6 & H6 & [= <-])]. simpl.
    destruct (preserveUserContent s).
    + apply bind_Some in H6 as [(? & _ & [=])|(merged & c7 & _ & H6)].
      apply liftW_Some in H6 as (w' & H6 & ->). simpl.
      by apply vault_modify_Ok in H6.
    + apply liftW_Some in H6 as (w' & H6 & ->). simpl.
      by apply vault_modify_Ok in H6.
  - apply bind_Some in H as [(? & _ & [=])|([] & c5 & H5 & [= <-])]. simpl.
    apply liftW_Some in H5 as (w' & H5 & ->). simpl.
    by apply vault_create_Ok in H5.
Qed.

Lemma rewriteDocument_naming it syncData filePath existingFile :
  keeps (on_world naming_kept) (rewriteDocument E it syncData filePath existingFile).
Proof.
  apply (cycle_rewriteDocument E naming_kept);
    first [ typeclasses eauto | done
          | (intros; apply keeps_syncTagsTwoWay) ];
    first [ typeclasses eauto | done ].
Qed.

Lemma buildSyncData_naming it : keeps naming_kept (buildSyncData E it).
Proof. apply keeps_buildSyncData; first [ typeclasses eauto | done ]. Qed.

Lemma buildSyncData_unversioned it w o w' :
  buildSyncData E it w = Some (o, w') →
  itemVersions (settings w') = itemVersions (settings w).
Proof. apply buildSyncData_versions. Qed.

(** What a record is left with when [syncItem] returned without error. *)
Lemma syncItem_Ok total processed it c c' :
  syncItem E total processed it c = Some (Ok tt, c') →
  let s' := settings (world c') in
  ∃ filename v,
    itemFilenames s' !! key it = Some filename
    ∧ is_TFile (vault (world c') !! filePathOf E s' filename) = true
    ∧ itemVersions s' !! key it = Some v
    ∧ version it ≤ v
    ∧ (skipped (result c') = skipped (result c) →
       v = version it ∧ saved (world c') = s').
Proof.
  unfold syncItem. intros H.
  apply bind_Some in H as [(? & _ & [=])|([] & c1 & Hprogress & H)].
  apply liftW_Some in Hprogress as (w1 & _ & ->).
  apply bind_Some in H as [(? & _ & [=])|(filename & c2 & Hname & H)].
  apply bind_Some in H as [(? & _ & [=])|(s & c3 & [[= ->] ->]%liftW_gets_Some & H)].
  apply bind_Some in H as [(? & _ & [=])|(existingFile & c3 & Hfile & H)].
  apply bind_Some in H as [(? & _ & [=])|(skip & c4 & Hskip & H)].
  apply liftW_Some in Hname as (w2 & Hname & ->). simpl in *.
  apply resolveFilename_Ok in Hname as (Hstored & _ & _).
  unfold getAbstractFileByPath in Hfile.
  apply liftW_gets_Some in Hfile as [[= ->] ->]. simpl in *.
  apply liftW_Some in Hskip as (w4 & Hskip & ->). simpl in *.
  destruct skip.
  - injection H as <-. simpl.
    apply shouldSkip_true in Hskip as (-> & Hexists & v & Hv & Hle).
    exists filename, v. split_and!; try done. intros Hskipped. lia.
  - apply bind_Some in H as [(? & _ & [=])|(syncData & c5 & Hdata & H)].
    apply liftW_Some in Hdata as (w5 & Hdata & ->). simpl in *.
    unfold regenerate in H.
    apply bind_Some in H as [(? & _ & [=])|([] & c6 & Hwrite & Hversion)].
    apply liftW_Some in Hversion as (w7 & Hversion & ->).
    destruct (stored_version_decides_changed_aux E (key it) (version it) (world c6))
      as (o & w8 & Hset & Hlookup & Hvault & Hnaming & Hsaved).
    rewrite Hversion in Hset. injection Hset as <- <-. simpl.
    assert (Hskip_naming : naming_kept w2 w4).
    { revert Hskip. apply (keeps_shouldSkip E naming_kept). typeclasses eauto. }
    pose proof (buildSyncData_naming _ _ _ _ Hdata) as Hdata_naming.
    pose proof (rewriteDocument_naming _ _ _ _ _ _ _ Hwrite) as Hwrite_naming.
    unfold on_world in Hwrite_naming. simpl in Hwrite_naming.
    assert (Hall : naming_kept w2 (world c6))
      by (etrans; [exact Hskip_naming|]; etrans; [exact Hdata_naming|exact Hwrite_naming]).
    destruct Hall as [Hnames Hfolder]. destruct Hnaming as [Hnames7 Hfolder7].
    apply rewriteDocument_writes in Hwrite.
    exists filename, (version it). split_and!.
    + by rewrite Hnames7, Hnames.
    + rewrite Hvault. unfold filePathOf in *. by rewrite Hfolder7, Hfolder.
    + exact Hlookup.
    + lia.
    + intros _. split; [done|]. by apply (Hsaved tt).
Qed.

End ProcessedRecord.

(** X13. A record that [syncItem] has processed without error is settled:
    it has a file name, its document is in the vault under this name, and
    [isItemChanged] answers no for its version. When it was not skipped, its
    version baseline is the version of the record and the settings on disk
    are those in memory. *)
Theorem processed_record_is_settled (E : Env) (total processed : nat)
    (it : ZoteroItem) (c c' : Cycle) :
  syncItem E total processed it c = Some (Ok tt, c') →
  (∃ filename,
     itemFilenames (settings (world c')) !! key it = Some filename
     ∧ is_TFile (vault (world c') !! filePathOf E (settings (world c')) filename) = true)
  ∧ isItemChanged (key it) (version it) (world c') = Some (Ok false, world c')
  ∧ (skipped (result c') = skipped (result c) →
     itemVersions (settings (world c')) !! key it = Some (version it)
     ∧ saved (world c') = settings (world c')).
Proof.
  intros Hrun. apply syncItem_Ok in Hrun.
  destruct Hrun as (filename & v & Hname & Hfile & Hv & Hle & Hwritten).
  split_and!.
  - by exists filename.
  - unfold isItemChanged, bind, gets, ret. simpl. rewrite Hv.
    by rewrite bool_decide_eq_false_2 by lia.
  - intros Hskipped. destruct (Hwritten Hskipped) as [-> Hsaved]. done.
Qed.

(** X13, run: [R1] at version 5, seen for the first time. *)
Lemma processed_record_witness :
  ∃ c',
    syncItem (Test.env [] 9 false) 1 1 (Test.record "R1" 5 ["x"; "obsidian"])
      {| world := Test.start Test.defaults ∅; result := emptyResult |}
    = Some (Ok tt, c')
    ∧ is_TFile (vault (world c') !! "Notes/R1.md") = true
    ∧ itemVersions (settings (world c')) !! "R1" = Some 5.
Proof.
  match goal with |- ∃ c', ?run = _ ∧ _ =>
    destruct run as [[[[]|e] c']|] eqn:Hrun; [|by vm_compute in Hrun..]
  end.
  exists c'. split; [reflexivity|].
  destruct (processed_record_is_settled _ _ _ _ _ _ Hrun)
    as ((filename & Hname & Hfile) & _ & Hversion).
  vm_compute in Hrun. injection Hrun as <-. split.
  - reflexivity.
  - apply Hversion. reflexivity.
Defined.

(** ** The library version *)

(** X14. The library version is stored whatever happens to the records. A
    full cycle that has fetched the items, at the library version [lv] above
    zero, and finds something at the path of the output folder, goes through
    the records and then sets the cursor [lastSyncVersion] to [lv]: an error
    of a record does not hold the cursor back, so that the next incremental
    fetch does not bring the record again unless it changes. *)
Theorem library_version_is_stored_after_the_loop (E : Env) (fuel : nat) (w : World)
    (items : list ZoteroItem) (lv : Z) :
  isSyncing w = false →
  Str.truthy (userId (settings w)) = true →
  fetchCollections E (set_isSyncing true w) = Ok tt →
  fetchItemsByTag E fuel (syncTag (settings w))
    (if bool_decide (0 < lastSyncVersion (settings w))
     then Some (lastSyncVersion (settings w)) else None)
    (set_isSyncing true w)
  = Some (Ok (items, lv), set_isSyncing true w) →
  items ≠ [] ∨ lastSyncVersion (settings w) ≤ 0 →
  is_Some (vault w !! normalizePath E (outputFolder (settings w))) →
  0 < lv →
  ∃ r w',
    syncAll E fuel w = Some (r, w')
    ∧ lastSyncVersion (settings w') = lv.
Proof.
  intros Hidle Huser Hcollections Hfetch Hsome [existing Hfolder] Hlv.
  unfold syncAll. rewrite Hidle.
  set (c := {| world := set_isSyncing true w; result := emptyResult |}).
  assert (Hensure : liftW (ensureFolder E (outputFolder (settings w))) c
                    = Some (Ok tt, c)).
  { unfold ensureFolder, getAbstractFileByPath, liftW, bind, gets, ret. simpl.
    by rewrite Hfolder. }
  destruct (forEachItem_completes E (length (List.filter isTopLevel items))
              (List.filter isTopLevel items) 0 c) as [c2 Hloop].
  destruct (update_then_save E (with_lastSyncVersion lv) (world c2))
    as (o & w3 & Hset & Hsettings & _ & _).
  assert (Hrun : syncAll_try E fuel c
                 = Some (o, {| world := w3; result := result c2 |})).
  { unfold syncAll_try.
    unfold bind at 1. rewrite liftW_gets_eq.
    change (settings (world c)) with (settings w). rewrite Huser. change (negb true) with false.
    cbv iota.
    unfold bind at 1. rewrite liftW_ask_eq.
    change (world c) with (set_isSyncing true w). rewrite Hcollections.
    unfold bind at 1. unfold getLibraryVersion. rewrite liftW_gets_eq.
    change (settings (world c)) with (settings w).
    unfold bind at 1. rewrite (liftW_run _ c _ _ Hfetch).
    change {| world := set_isSyncing true w; result := result c |} with c.
    assert (Hgo : (Nat.eqb (length items) 0
                   && bool_decide (0 < lastSyncVersion (settings w)))%bool = false).
    { apply andb_false_iff. destruct Hsome as [Hitems|Hsince].
      - left. apply Nat.eqb_neq. by destruct items.
      - right. apply bool_decide_eq_false. lia. }
    rewrite Hgo.
    unfold bind at 1. rewrite liftW_gets_eq.
    change (settings (world c)) with (settings w).
    unfold bind at 1. rewrite Hensure.
    unfold bind at 1. rewrite Hloop.
    rewrite bool_decide_eq_true_2 by done.
    apply liftW_run. exact Hset. }
  rewrite Hrun. eexists _, _. split; [reflexivity|].
  destruct o; simpl; by rewrite Hsettings.
Qed.

(** X14, run: the write of the document of [R1] fails, the error is
    recorded, and the cursor is set to the library version 9. *)
Lemma library_version_witness :
  ∃ r w',
    syncAll (Test.env [Test.record "R1" 5 ["x"; "obsidian"]] 9 true) 5
      (Test.start Test.defaults {[ "Notes" := TFolder ]}) = Some (r, w')
    ∧ errors r = ["Error processing item R1: disk full"]
    ∧ lastSyncVersion (settings w') = 9.
Proof.
  destruct (library_version_is_stored_after_the_loop
              (Test.env [Test.record "R1" 5 ["x"; "obsidian"]] 9 true) 5
              (Test.start Test.defaults {[ "Notes" := TFolder ]})
              [Test.record "R1" 5 ["x"; "obsidian"]] 9)
    as (r & w' & Hrun & Hcursor).
  - reflexivity.
  - reflexivity.
  - reflexivity.
  - by vm_compute.
  - left. discriminate.
  - exists TFolder. by vm_compute.
  - lia.
  - exists r, w'. split; [exact Hrun|]. split; [|exact Hcursor].
    vm_compute in Hrun. by injection Hrun as <- _.
Defined.

(** ** Cycles that stop before the first record *)

(** X15. A full cycle whose first request fails, the request for the
    collections or the request for the first page of items, changes
    nothing: it returns the one error [Sync failed: ...] with zero counts,
    and the state is as it was, the guard released. *)
Theorem failed_fetch_changes_nothing (E : Env) (fuel : nat) (w : World) (e : string) :
  isSyncing w = false →
  Str.truthy (userId (settings w)) = true →
  fetchCollections E (set_isSyncing true w) = Throw e
  ∨ (fetchCollections E (set_isSyncing true w) = Ok tt
     ∧ fuel ≠ 0%nat
     ∧ requestItems E (syncTag (settings w))
         (if bool_decide (0 < lastSyncVersion (settings w))
          then Some (lastSyncVersion (settings w)) else None)
         0 (set_isSyncing true w) = Throw e) →
  syncAll E fuel w
  = Some ({| created := 0; updated := 0; skipped := 0;
             errors := ["Sync failed: " +:+ e] |}, w).
Proof.
  intros Hidle Huser Hfails.
  unfold syncAll. rewrite Hidle.
  set (c := {| world := set_isSyncing true w; result := emptyResult |}).
  assert (Hrun : syncAll_try E fuel c = Some (Throw e, c)).
  { unfold syncAll_try.
    unfold bind at 1. rewrite liftW_gets_eq.
    change (settings (world c)) with (settings w). rewrite Huser.
    change (negb true) with false. cbv iota.
    unfold bind at 1. rewrite liftW_ask_eq.
    change (world c) with (set_isSyncing true w).
    destruct Hfails as [->|(-> & Hfuel & Hpage)]; [done|].
    unfold bind at 1. unfold getLibraryVersion. rewrite liftW_gets_eq.
    change (settings (world c)) with (settings w).
    unfold bind at 1.
    assert (Hfetch : fetchItemsByTag E fuel (syncTag (settings w))
                       (if bool_decide (0 < lastSyncVersion (settings w))
                        then Some (lastSyncVersion (settings w)) else None)
                       (world c) = Some (Throw e, world c)).
    { destruct fuel as [|fuel]; [done|].
      unfold fetchItemsByTag. simpl. unfold bind at 1, of_outcome at 1.
      change (world c) with (set_isSyncing true w).
      case_bool_decide as Hsince; simpl; [rewrite bool_decide_eq_true_2 by done|];
        by rewrite Hpage. }
    rewrite (liftW_run _ c _ _ Hfetch). by destruct c. }
  rewrite Hrun. unfold finish. simpl. by rewrite guard_released.
Qed.

(** X15, run against a remote that is down. *)
Lemma failed_fetch_witness :
  syncAll Paged.down 5 (Test.start (Test.synced "R1" 5 None) ∅)
  = Some ({| created := 0; updated := 0; skipped := 0;
             errors := ["Sync failed: Zotero API error 503: Unknown error"] |},
          Test.start (Test.synced "R1" 5 None) ∅).
Proof.
  apply (failed_fetch_changes_nothing Paged.down 5
           (Test.start (Test.synced "R1" 5 None) ∅)
           "Zotero API error 503: Unknown error").
  - reflexivity.
  - reflexivity.
  - right. split; [reflexivity|]. split; [lia|reflexivity].
Defined.

(** X16. Without a user id a cycle stops at once: [syncAll] and
    [syncSingleItem] return their one error with zero counts, and the state
    is as it was. *)
Theorem missing_user_id_stops_the_cycle (E : Env) (fuel : nat) (itemKey : string)
    (w : World) :
  isSyncing w = false →
  userId (settings w) = "" →
  syncAll E fuel w
  = Some ({| created := 0; updated := 0; skipped := 0;
             errors := ["Sync failed: User ID is required. Configure it in settings."] |},
          w)
  ∧ syncSingleItem E itemKey w
    = Some ({| created := 0; updated := 0; skipped := 0;
               errors := ["Sync failed: User ID is required."] |}, w).
Proof.
  intros Hidle Huser. unfold syncAll, syncSingleItem. rewrite Hidle.
  unfold syncAll_try, syncSingleItem_try.
  unfold bind at 1. rewrite liftW_gets_eq. simpl. rewrite Huser. simpl.
  unfold bind at 1. rewrite liftW_gets_eq. simpl. rewrite Huser. simpl.
  unfold finish. simpl. by rewrite guard_released.
Qed.

Lemma missing_user_id_witness :
  syncAll (Test.env [] 9 false) 5
    (Test.start (with_lastSyncVersion 3
                   {| userId := ""; syncTag := "obsidian"; outputFolder := "Notes";
                      fileNameTemplate := ""; templatePath := "";
                      imageOutputFolder := ""; zoteroCacheDirs := ∅;
                      preserveUserContent := true; lastSyncVersion := 0;
                      itemVersions := ∅; itemFilenames := ∅;
                      lastSyncedTags := ∅ |}) ∅)
  = Some ({| created := 0; updated := 0; skipped := 0;
             errors := ["Sync failed: User ID is required. Configure it in settings."] |},
          Test.start (with_lastSyncVersion 3
                   {| userId := ""; syncTag := "obsidian"; outputFolder := "Notes";
                      fileNameTemplate := ""; templatePath := "";
                      imageOutputFolder := ""; zoteroCacheDirs := ∅;
                      preserveUserContent := true; lastSyncVersion := 0;
                      itemVersions := ∅; itemFilenames := ∅;
                      lastSyncedTags := ∅ |}) ∅).
Proof.
  apply (missing_user_id_stops_the_cycle (Test.env [] 9 false) 5 "R1"
           (Test.start _ ∅)); reflexivity.
Defined.

(** X17. [syncSingleItem] for a key the remote does not know returns the
    one error [Item <key> not found in Zotero.] with zero counts; the state
    is as it was: no folder is made, no name is given, nothing is sent. *)
Theorem unknown_record_is_reported (E : Env) (itemKey : string) (w : World) :
  isSyncing w = false →
  Str.truthy (userId (settings w)) = true →
  fetchCollections E (set_isSyncing true w) = Ok tt →
  fetchItem E itemKey (set_isSyncing true w) = None →
  syncSingleItem E itemKey w
  = Some ({| created := 0; updated := 0; skipped := 0;
             errors := ["Item " +:+ itemKey +:+ " not found in Zotero."] |}, w).
Proof.
  intros Hidle Huser Hcollections Hnone.
  unfold syncSingleItem. rewrite Hidle.
  set (c := {| world := set_isSyncing true w; result := emptyResult |}).
  unfold syncSingleItem_try.
  unfold bind at 1. rewrite liftW_gets_eq.
  change (settings (world c)) with (settings w). rewrite Huser.
  change (negb true) with false. cbv iota.
  unfold bind at 1. rewrite liftW_ask_eq.
  change (world c) with (set_isSyncing true w). rewrite Hcollections.
  unfold bind at 1. rewrite liftW_gets_eq.
  change (world c) with (set_isSyncing true w). rewrite Hnone.
  unfold modify, finish. simpl. by rewrite guard_released.
Qed.

Lemma unknown_record_witness :
  syncSingleItem (Test.env [Test.record "R1" 5 ["x"; "obsidian"]] 9 false) "R2"
    (Test.start Test.defaults ∅)
  = Some ({| created := 0; updated := 0; skipped := 0;
             errors := ["Item R2 not found in Zotero."] |},
          Test.start Test.defaults ∅).
Proof.
  apply (unknown_record_is_reported
           (Test.env [Test.record "R1" 5 ["x"; "obsidian"]] 9 false) "R2"
           (Test.start Test.defaults ∅)); reflexivity.
Defined.

(** ** Images of annotations *)

Section AnnotationImages.

Variable E : Env.

Lemma vault_createBinary_Ok path data w w' :
  vault_createBinary E path data w = Some (Ok tt, w') →
  is_TFile (vault w' !! path) = true.
Proof.
  unfold vault_createBinary, getAbstractFileByPath. unfold bind at 1, gets at 1.
  destruct (vault w !! path); [by intros [=]|].
  unfold vault_write, bind, gets, throw, modify.
  destruct (vaultError E (OpCreateBinary path data) w); [by intros [=]|].
  intros [= <-]. simpl. by rewrite lookup_insert_eq.
Qed.

Lemma processImageAnnotation_docs imageFolder name images ann :
  keeps docs_kept (processImageAnnotation E imageFolder name images ann).
Proof. apply keeps_processImageAnnotation; docs_kept_updates. Qed.

(** One annotation: what is thrown is caught; an image that is added is a
    file of the vault. *)
Lemma processImageAnnotation_adds imageFolder name images ann w o w' :
  processImageAnnotation E imageFolder name images ann w = Some (o, w') →
  ∃ images',
    o = Ok images'
    ∧ ∀ k path, images' !! k = Some path →
        images !! k = Some path
        ∨ (k = key ann ∧ is_TFile (vault w' !! path) = true).
Proof.
  unfold processImageAnnotation.
  intros [(images' & Hrun & ->)|(e & w1 & _ & [= <- <-])]%try_catch_Some;
    [|exists images; split; [done|]; by left].
  exists images'. split; [done|]. intros k path Hk. revert Hrun.
  destruct (parseAnnotationPosition E (data_annotationPosition ann)) as [position|];
    [|intros [= <- <-]; by left].
  set (target := normalizePath E (buildAnnotationImagePath E imageFolder name position)).
  unfold getAbstractFileByPath. unfold bind at 1, gets at 1.
  destruct (is_TFile (vault w !! target)) eqn:Hexists.
  { intros [= <- <-]. destruct (decide (k = key ann)) as [->|Hne].
    - rewrite lookup_insert_eq in Hk. injection Hk as <-. by right.
    - rewrite lookup_insert_ne in Hk by done. by left. }
  intros [(? & _ & [=])|(web & w1 & [= <- <-] & Hrun)]%bind_Some.
  apply bind_Some in Hrun as [(? & _ & [=])|(imageData & w2 & _ & Hrun)].
  destruct imageData as [data|]; [|injection Hrun as <- <-; by left].
  apply bind_Some in Hrun as [(? & _ & [=])|([] & w3 & _ & Hrun)].
  apply bind_Some in Hrun as [(? & _ & [=])|([] & w4 & Hcreate & [= <- <-])].
  destruct (decide (k = key ann)) as [->|Hne].
  - rewrite lookup_insert_eq in Hk. injection Hk as <-. right. split; [done|].
    by apply vault_createBinary_Ok in Hcreate.
  - rewrite lookup_insert_ne in Hk by done. by left.
Qed.

Lemma processImageAnnotations_loop imageFolder name anns : ∀ images w o w',
  (∀ k path, images !! k = Some path → is_TFile (vault w !! path) = true) →
  foldM (processImageAnnotation E imageFolder name) anns images w = Some (o, w') →
  ∃ images',
    o = Ok images'
    ∧ ∀ k path, images' !! k = Some path →
        is_TFile (vault w' !! path) = true
        ∧ (images !! k = Some path ∨ ∃ ann, ann ∈ anns ∧ key ann = k).
Proof.
  induction anns as [|ann anns IH]; intros images w o w' Hfiles; simpl.
  - intros [= <- <-]. exists images. split; [done|]. intros k path Hk.
    split; [by eapply Hfiles|by left].
  - intros [(e & Hone & _)|(images1 & w1 & Hone & Hrest)]%bind_Some.
    { apply processImageAnnotation_adds in Hone as (? & [=] & _). }
    pose proof (processImageAnnotation_docs _ _ _ _ _ _ _ Hone) as Hkept.
    apply processImageAnnotation_adds in Hone as (? & [= <-] & Hadded).
    apply IH in Hrest as (images' & -> & Hall).
    + exists images'. split; [done|]. intros k path Hk.
      destruct (Hall k path Hk) as [Hfile [Hold|(a & Ha & Hkey)]].
      * split; [done|]. destruct (Hadded k path Hold) as [?|[-> _]]; [by left|].
        right. exists ann. split; [apply list_elem_of_here|done].
      * split; [done|]. right. exists a. split; [by apply list_elem_of_further|done].
    + intros k path Hk. destruct (Hadded k path Hk) as [Hold|[_ Hfile]]; [|done].
      apply Hkept. by eapply Hfiles.
Qed.

End AnnotationImages.

(** X18. The images handed to the renderer are in the vault, and a failure
    on an image fails nothing: [processImageAnnotations] returns, never with
    an error, and every path it returns holds a file of the vault and
    belongs to an image annotation of the record. *)
Theorem annotation_images_are_in_the_vault (E : Env) (it : ZoteroItem)
    (anns : list ZoteroItem) (w : World) :
  ∃ images w',
    processImageAnnotations E it anns w = Some (Ok images, w')
    ∧ ∀ k path, images !! k = Some path →
        is_TFile (vault w' !! path) = true
        ∧ ∃ ann, ann ∈ anns ∧ key ann = k ∧ data_annotationType ann = Some "image".
Proof.
  unfold processImageAnnotations.
  destruct (List.filter _ anns) as [|ann imageAnnotations] eqn:Himages.
  { exists ∅, w. split; [done|]. intros k path Hk. by rewrite lookup_empty in Hk. }
  rewrite <- Himages. clear Himages.
  unfold bind at 1, gets at 1.
  match goal with |- ∃ images w', foldM ?f ?l ?start w = _ ∧ _ =>
    destruct (returns_foldM f l
                (λ acc a, returns_processImageAnnotation E _ _ acc a) start w)
      as (o & w' & Hrun)
  end.
  pose proof Hrun as Hloop.
  apply processImageAnnotations_loop in Hloop as (images & -> & Hall);
    [|intros k path Hk; by rewrite lookup_empty in Hk].
  exists images, w'. split; [exact Hrun|]. intros k path Hk.
  destruct (Hall k path Hk) as [Hfile [Hold|(a & Ha & Hkey)]];
    [by rewrite lookup_empty in Hold|].
  split; [done|]. exists a.
  apply list_elem_of_In, filter_In in Ha as [Ha Himage].
  apply bool_decide_eq_true in Himage. split_and!; [by apply list_elem_of_In|done..].
Qed.

(** ** The comments of the user *)

Section TextFacts.

Implicit Types (s t p needle : string) (n i j : nat).

Lemma Text_app_nil t : "" +:+ t = t.
Proof. done. Qed.

Lemma Text_app_cons c s t : String c s +:+ t = String c (s +:+ t).
Proof. done. Qed.

Lemma Text_append_assoc s t u : (s +:+ t) +:+ u = s +:+ t +:+ u.
Proof.
  induction s as [|c s IH]; rewrite ?Text_app_nil, ?Text_app_cons; by rewrite ?IH.
Qed.

Lemma Text_length_app s t :
  String.length (s +:+ t) = (String.length s + String.length t)%nat.
Proof.
  induction s as [|c s IH]; rewrite ?Text_app_nil, ?Text_app_cons; simpl; by rewrite ?IH.
Qed.

Lemma Text_take_drop n s : Text.take n s +:+ Text.drop n s = s.
Proof.
  revert s. induction n as [|n IH]; intros [|c s]; simpl;
    rewrite ?Text_app_nil, ?Text_app_cons; try done. by rewrite IH.
Qed.

Lemma Text_length_take n s :
  (n ≤ String.length s)%nat → String.length (Text.take n s) = n.
Proof.
  revert s. induction n as [|n IH]; intros [|c s]; simpl; try done; try lia.
  intros Hn. rewrite IH; [done|lia].
Qed.

Lemma Text_length_drop n s :
  String.length (Text.drop n s) = (String.length s - n)%nat.
Proof. revert s. induction n as [|n IH]; intros [|c s]; simpl; try done. Qed.

Lemma Text_drop_app s t : Text.drop (String.length s) (s +:+ t) = t.
Proof.
  induction s as [|c s IH]; rewrite ?Text_app_nil, ?Text_app_cons; simpl;
    [by destruct t|done].
Qed.

Lemma Text_take_app s t : Text.take (String.length s) (s +:+ t) = s.
Proof.
  induction s as [|c s IH]; rewrite ?Text_app_nil, ?Text_app_cons; simpl;
    [by destruct t|by rewrite IH].
Qed.

Lemma Text_drop_drop n i s : Text.drop n (Text.drop i s) = Text.drop (i + n) s.
Proof.
  revert s. induction i as [|i IH]; intros s; simpl; [done|].
  destruct s as [|c s]; [by destruct n|apply IH].
Qed.

Lemma Text_drop_app_le j s t :
  (j ≤ String.length s)%nat → Text.drop j (s +:+ t) = Text.drop j s +:+ t.
Proof.
  revert s. induction j as [|j IH]; intros [|c s]; simpl;
    rewrite ?Text_app_nil, ?Text_app_cons; simpl; try done; try lia.
  intros Hj. apply IH. lia.
Qed.

Lemma prefix_nil s : String.prefix "" s = true.
Proof. by destruct s. Qed.

Lemma prefix_cons c p d s :
  String.prefix (String c p) (String d s)
  = (if ascii_dec c d then String.prefix p s else false).
Proof. done. Qed.

Lemma prefix_app p t : String.prefix p (p +:+ t) = true.
Proof.
  induction p as [|c p IH]; [apply prefix_nil|].
  rewrite Text_app_cons, prefix_cons. destruct (ascii_dec c c); [done|congruence].
Qed.

Lemma prefix_split p s :
  String.prefix p s = true → s = p +:+ Text.drop (String.length p) s.
Proof.
  revert s. induction p as [|c p IH]; intros s; [done|].
  destruct s as [|d s]; [done|]. rewrite prefix_cons.
  destruct (ascii_dec c d) as [->|]; [|done].
  intros Hp. rewrite Text_app_cons. simpl. f_equal. by apply IH.
Qed.

Lemma prefix_length p s :
  String.prefix p s = true → (String.length p ≤ String.length s)%nat.
Proof.
  intros Hp. rewrite (prefix_split p s Hp), Text_length_app. lia.
Qed.

(** Whether [p] starts a string depends on the first characters only. *)
Lemma prefix_short p s t :
  (String.length p ≤ String.length s)%nat →
  String.prefix p (s +:+ t) = String.prefix p s.
Proof.
  revert s. induction p as [|c p IH]; intros s; [by rewrite !prefix_nil|].
  destruct s as [|d s]; simpl; [lia|]. intros Hlen.
  rewrite ?Text_app_cons, ?prefix_cons.
  destruct (ascii_dec c d); [|done]. apply IH. lia.
Qed.

Lemma prefix_drop_short j p s t :
  (j + String.length p ≤ String.length s)%nat →
  String.prefix p (Text.drop j (s +:+ t)) = String.prefix p (Text.drop j s).
Proof.
  intros Hlen. rewrite Text_drop_app_le by lia.
  apply prefix_short. rewrite Text_length_drop. lia.
Qed.

Lemma find_nil needle :
  Text.find needle "" = if String.prefix needle "" then Some 0%nat else None.
Proof. done. Qed.

Lemma find_cons needle c s :
  Text.find needle (String c s)
  = if String.prefix needle (String c s) then Some 0%nat else S <$> Text.find needle s.
Proof. done. Qed.

Lemma find_Some needle s : ∀ i,
  Text.find needle s = Some i →
  String.prefix needle (Text.drop i s) = true
  ∧ (i ≤ String.length s)%nat
  ∧ ∀ j, (j < i)%nat → String.prefix needle (Text.drop j s) = false.
Proof.
  induction s as [|c s IH]; intros i.
  - rewrite find_nil. destruct (String.prefix needle "") eqn:Hp; [|done].
    intros [= <-]. split_and!; [done|simpl; lia|lia].
  - rewrite find_cons. destruct (String.prefix needle (String c s)) eqn:Hp.
    + intros [= <-]. split_and!; [done|simpl; lia|lia].
    + destruct (Text.find needle s) as [k|]; [|done]. intros [= <-].
      destruct (IH k eq_refl) as (Hk & Hlen & Hfirst).
      split_and!; [done|simpl; lia|].
      intros [|j] Hj; [done|]. apply Hfirst. lia.
Qed.

Lemma find_first needle s : ∀ i,
  String.prefix needle (Text.drop i s) = true →
  (i ≤ String.length s)%nat →
  (∀ j, (j < i)%nat → String.prefix needle (Text.drop j s) = false) →
  Text.find needle s = Some i.
Proof.
  induction s as [|c s IH]; intros i Hi Hlen Hfirst.
  - assert (i = 0)%nat as -> by (simpl in Hlen; lia).
    rewrite find_nil. change (Text.drop 0 "") with "" in Hi. by rewrite Hi.
  - rewrite find_cons. destruct i as [|i].
    + change (Text.drop 0 (String c s)) with (String c s) in Hi. by rewrite Hi.
    + pose proof (Hfirst 0%nat) as H0.
      change (Text.drop 0 (String c s)) with (String c s) in H0.
      rewrite H0 by lia.
      rewrite (IH i); [done|done|simpl in Hlen; lia|].
      intros j Hj. apply (Hfirst (S j)). lia.
Qed.

(** The first occurrence of [needle] stays the first when what follows it
    is replaced. *)
Lemma find_take_app needle s t i :
  Text.find needle s = Some i →
  Text.find needle (Text.take (i + String.length needle) s +:+ t) = Some i.
Proof.
  intros (Hi & Hlen & Hfirst)%find_Some.
  pose proof (prefix_length _ _ Hi) as Hneedle. rewrite Text_length_drop in Hneedle.
  assert (Hwhole : (i + String.length needle ≤ String.length s)%nat) by lia.
  pose proof (Text_length_take _ _ Hwhole) as Htake.
  assert (Hsame : ∀ j, (j ≤ i)%nat →
    String.prefix needle (Text.drop j (Text.take (i + String.length needle) s +:+ t))
    = String.prefix needle (Text.drop j s)).
  { intros j Hj. rewrite prefix_drop_short by lia.
    rewrite <- (Text_take_drop (i + String.length needle) s) at 2.
    by rewrite prefix_drop_short by lia. }
  apply find_first.
  - by rewrite Hsame.
  - rewrite Text_length_app. lia.
  - intros j Hj. rewrite Hsame by lia. by apply Hfirst.
Qed.

Lemma indexOf_Some needle from s m :
  Text.indexOf needle from s = Some m →
  (from ≤ String.length s)%nat →
  ∃ i, m = (from + i)%nat ∧ Text.find needle (Text.drop from s) = Some i.
Proof.
  unfold Text.indexOf. intros Hfind Hfrom. rewrite Nat.min_l in Hfind by done.
  destruct (Text.find needle (Text.drop from s)) as [i|]; [|done].
  injection Hfind as <-. by exists i.
Qed.

Lemma indexOf_find needle from s i :
  (from ≤ String.length s)%nat →
  Text.find needle (Text.drop from s) = Some i →
  Text.indexOf needle from s = Some (from + i)%nat.
Proof. unfold Text.indexOf. intros Hfrom Hfind. by rewrite Nat.min_l, Hfind. Qed.

Lemma includes_prefix needle s : String.prefix needle s = true → Str.includes needle s = true.
Proof. destruct s; simpl; by intros ->. Qed.

End TextFacts.

Section Comments.

Import NoteRenderer.

(** What [markerRange] has found: the begin marker first occurs at [a];
    from there the end marker first occurs [k] characters on; the range
    ends behind it. *)
Lemma markerRange_Some content a b :
  markerRange content = Some (a, b) →
  ∃ k,
    b = (a + k + String.length endMarker)%nat
    ∧ (a ≤ String.length content)%nat
    ∧ (2 ≤ k)%nat
    ∧ Text.find beginMarker content = Some a
    ∧ Text.find endMarker (Text.drop a content) = Some k.
Proof.
  unfold markerRange.
  destruct (Text.indexOf beginMarker 0 content) as [markerStart|] eqn:Hbegin; [|done].
  destruct (Text.indexOf endMarker markerStart content) as [markerEnd|] eqn:Hend; [|done].
  intros [= -> <-].
  apply indexOf_Some in Hbegin as (i & -> & Hbegin); [|lia]. simpl in Hbegin, Hend.
  pose proof (find_Some _ _ _ Hbegin) as (Hstarts & Hlen & _).
  apply indexOf_Some in Hend as (k & -> & Hend); [|done].
  exists k. split_and!; try done.
  apply prefix_split in Hstarts. rewrite Hstarts in Hend.
  apply find_Some in Hend as (Hk & _ & _).
  destruct k as [|[|k]]; [by simpl in Hk..|lia].
Qed.

Lemma markerRange_found content a k :
  Text.find beginMarker content = Some a →
  Text.find endMarker (Text.drop a content) = Some k →
  markerRange content = Some (a, (a + k + String.length endMarker)%nat).
Proof.
  intros Hbegin Hend. unfold markerRange.
  pose proof (find_Some _ _ _ Hbegin) as (_ & Hlen & _).
  rewrite (indexOf_find beginMarker 0 content a); [|lia|done]. simpl.
  by rewrite (indexOf_find endMarker a content k).
Qed.

(** The section between the markers, put between other texts, is found
    again where it was put, provided the begin marker does not occur
    earlier. *)
Lemma markerRange_transplant content a k before after :
  Text.find beginMarker (Text.drop a content) = Some 0%nat →
  Text.find endMarker (Text.drop a content) = Some k →
  (2 ≤ k)%nat →
  (∀ j, (j < String.length before)%nat →
        String.prefix beginMarker (Text.drop j (before +:+ beginMarker)) = false) →
  let section := Text.take (k + String.length endMarker) (Text.drop a content) in
  Str.includes beginMarker section = true
  ∧ String.length section = (k + String.length endMarker)%nat
  ∧ markerRange (before +:+ section +:+ after)
    = Some (String.length before,
            (String.length before + k + String.length endMarker)%nat).
Proof.
  intros Hbegin Hend Hk Hbefore section.
  set (X := Text.drop a content) in *.
  apply find_Some in Hbegin as (Hstarts & _ & _). simpl in Hstarts.
  pose proof (find_Some _ _ _ Hend) as (Hends & Hklen & _).
  apply prefix_length in Hends. rewrite Text_length_drop in Hends.
  assert (Hlen : String.length section = (k + String.length endMarker)%nat).
  { apply Text_length_take. lia. }
  assert (Hsection : String.prefix beginMarker section = true).
  { unfold section. rewrite <- (Text_take_drop (k + String.length endMarker) X) in Hstarts.
    rewrite prefix_short in Hstarts; [done|]. fold section. rewrite Hlen. simpl. lia. }
  split_and!; [by apply includes_prefix|done|].
  assert (Hwhole : before +:+ section +:+ after
                   = (before +:+ beginMarker)
                     +:+ Text.drop (String.length beginMarker) section +:+ after).
  { rewrite (prefix_split _ _ Hsection) at 1.
    by rewrite !Text_append_assoc. }
  apply markerRange_found.
  - apply find_first.
    + rewrite Text_drop_app, prefix_short; [done|]. by apply prefix_length.
    + rewrite Text_length_app. lia.
    + intros j Hj. rewrite Hwhole, prefix_drop_short; [by apply Hbefore|].
      rewrite Text_length_app. lia.
  - rewrite Text_drop_app. by apply find_take_app.
Qed.

End Comments.

(** X19. The comments of the user survive a new rendering. When the
    existing document and the rendered content both hold the section
    between [%% begin Comments %%] and [%% end Comments %%], the result is
    the rendered content with its section replaced by the section of the
    existing document, character for character; the section is found again
    in the result, so that it survives the rendering after as well; and
    rendering once more over the result gives the result. *)
Theorem comments_survive_rendering (rendered existingContent : string)
    (a b a' b' : nat) :
  NoteRenderer.markerRange existingContent = Some (a, b) →
  NoteRenderer.markerRange rendered = Some (a', b') →
  let result := NoteRenderer.renderWithPreservedComments rendered existingContent in
  result = Text.take a' rendered +:+ Text.substring a b existingContent
           +:+ Text.drop b' rendered
  ∧ NoteRenderer.commentsOf result = Some (Text.substring a b existingContent)
  ∧ NoteRenderer.commentsOf existingContent = Some (Text.substring a b existingContent)
  ∧ NoteRenderer.renderWithPreservedComments rendered result = result.
Proof.
  intros Hold Hnew result.
  pose proof Hold as (k & -> & Ha & Hk & Hbegin & Hend)%markerRange_Some.
  pose proof Hnew as (k' & -> & Ha' & Hk' & Hbegin' & Hend')%markerRange_Some.
  set (section := Text.substring a (a + k + String.length NoteRenderer.endMarker)
                    existingContent) in *.
  assert (Hsection : section = Text.take (k + String.length NoteRenderer.endMarker)
                                 (Text.drop a existingContent)).
  { unfold section, Text.substring. rewrite (proj2 (Nat.leb_le _ _)) by lia.
    f_equal. lia. }
  assert (Hrendered : rendered = Text.take a' rendered +:+ Text.drop a' rendered)
    by by rewrite Text_take_drop.
  pose proof (find_Some _ _ _ Hbegin) as (Hstarts & _ & _).
  pose proof (find_Some _ _ _ Hbegin') as (Hstarts' & _ & Hfirst').
  assert (Hplace : ∀ j, (j < String.length (Text.take a' rendered))%nat →
    String.prefix NoteRenderer.beginMarker
      (Text.drop j (Text.take a' rendered +:+ NoteRenderer.beginMarker)) = false).
  { intros j Hj. rewrite Text_length_take in Hj by done.
    rewrite <- (Hfirst' j Hj). rewrite Hrendered at 2.
    rewrite (prefix_split _ _ Hstarts'), <- Text_append_assoc.
    rewrite (prefix_drop_short j _ (Text.take a' rendered +:+ NoteRenderer.beginMarker));
      [done|].
    rewrite Text_length_app, Text_length_take by done. lia. }
  destruct (markerRange_transplant existingContent a k (Text.take a' rendered)
              (Text.drop (a' + k' + String.length NoteRenderer.endMarker) rendered))
    as (Hincludes & Hlen & Hfound); [|done|done|done|].
  { apply find_first; [done|lia|lia]. }
  rewrite <- Hsection in Hincludes, Hlen, Hfound.
  rewrite Text_length_take in Hfound by done.
  assert (Hrun : result = Text.take a' rendered +:+ section
                          +:+ Text.drop (a' + k' + String.length NoteRenderer.endMarker)
                                rendered).
  { unfold result, NoteRenderer.renderWithPreservedComments,
      NoteRenderer.findCommentsRange.
    rewrite Hold, Hnew. fold section. rewrite Hincludes.
    unfold Text.substring at 1. simpl. by rewrite Nat.sub_0_r. }
  assert (Hcut : Text.substring a' (a' + k + String.length NoteRenderer.endMarker) result
                 = section).
  { rewrite Hrun. unfold Text.substring. rewrite (proj2 (Nat.leb_le _ _)) by lia.
    replace (a' + k + String.length NoteRenderer.endMarker - a')%nat
      with (String.length section) by lia.
    rewrite <- (Text_length_take a' rendered) at 1 by done.
    by rewrite Text_drop_app, Text_take_app. }
  clearbody result. subst result. split_and!.
  - done.
  - unfold NoteRenderer.commentsOf, NoteRenderer.findCommentsRange.
    by rewrite Hfound, Hcut.
  - unfold NoteRenderer.commentsOf, NoteRenderer.findCommentsRange. by rewrite Hold.
  - unfold NoteRenderer.renderWithPreservedComments, NoteRenderer.findCommentsRange.
    rewrite Hfound, Hcut, Hincludes, Hnew.
    unfold Text.substring. simpl. by rewrite Nat.sub_0_r.
Qed.

(** X19, run: the note of the user is taken over into the new rendering. *)
Lemma comments_survive_witness :
  NoteRenderer.renderWithPreservedComments Notes.rendered Notes.existing
  = "title" +:+ Text.newline +:+ "%% begin Comments %%" +:+ Text.newline
    +:+ "## Comments " +:+ Text.newline +:+ "my note" +:+ Text.newline
    +:+ "%% end Comments %%" +:+ Text.newline +:+ "## Info"
  ∧ NoteRenderer.commentsOf
      (NoteRenderer.renderWithPreservedComments Notes.rendered Notes.existing)
    = NoteRenderer.commentsOf Notes.existing.
Proof.
  destruct (comments_survive_rendering Notes.rendered Notes.existing 4 64 6 59)
    as (Hresult & Hfound & Hold & _).
  - by vm_compute.
  - by vm_compute.
  - split; [by rewrite Hresult|]. by rewrite Hfound, Hold.
Defined.

(** ** Requests *)

Section RequestFacts.

Context {A : Type}.
Variable getApiKey : option string.
Variable requestUrl : nat → ApiClient.HttpResponse A.

(** The attempt that is not answered by 429, after [waits] that are. *)
Lemma request_after_429 waits : ∀ fuel attempt,
  Str.truthy (default "" getApiKey) = true →
  (∀ i, (i < waits)%nat → ApiClient.http_status (requestUrl (attempt + i)) = 429) →
  ApiClient.http_status (requestUrl (attempt + waits)) ≠ 429 →
  (waits < fuel)%nat →
  ApiClient.request getApiKey requestUrl fuel attempt
  = Some (if bool_decide (400 ≤ ApiClient.http_status (requestUrl (attempt + waits)))
          then Throw (ApiClient.apiError (requestUrl (attempt + waits)))
          else Ok (requestUrl (attempt + waits))).
Proof.
  induction waits as [|waits IH]; intros fuel attempt Hkey Hbusy Hfree Hfuel;
    (destruct fuel as [|fuel]; [lia|]); simpl; rewrite Hkey.
  - rewrite Nat.add_0_r in *. rewrite bool_decide_eq_false_2 by done.
    by case_bool_decide.
  - rewrite bool_decide_eq_true_2
      by (rewrite <- (Nat.add_0_r attempt); apply Hbusy; lia).
    replace (attempt + S waits)%nat with (S attempt + waits)%nat in * by lia.
    apply IH; [done| |done|lia].
    intros i Hi. replace (S attempt + i)%nat with (attempt + S i)%nat by lia.
    apply Hbusy. lia.
Qed.

Lemma request_Ok fuel : ∀ attempt response,
  ApiClient.request getApiKey requestUrl fuel attempt = Some (Ok response) →
  ApiClient.http_status response < 400
  ∧ ∃ waits, response = requestUrl (attempt + waits)
             ∧ ∀ i, (i < waits)%nat →
                 ApiClient.http_status (requestUrl (attempt + i)) = 429.
Proof.
  induction fuel as [|fuel IH]; intros attempt response; simpl; [done|].
  destruct (Str.truthy (default "" getApiKey)); [|done].
  case_bool_decide as Hbusy.
  - intros (Hstatus & waits & -> & Hwaits)%IH. split; [done|].
    exists (S waits). split; [f_equal; lia|].
    intros [|i] Hi; [by rewrite Nat.add_0_r|].
    replace (attempt + S i)%nat with (S attempt + i)%nat by lia. apply Hwaits. lia.
  - case_bool_decide as Herror; [done|]. intros [= <-]. split; [lia|].
    exists 0%nat. split; [by rewrite Nat.add_0_r|]. intros i Hi. lia.
Qed.

Lemma request_busy fuel : ∀ attempt,
  Str.truthy (default "" getApiKey) = true →
  (∀ i, ApiClient.http_status (requestUrl (attempt + i)) = 429) →
  ApiClient.request getApiKey requestUrl fuel attempt = None.
Proof.
  induction fuel as [|fuel IH]; intros attempt Hkey Hbusy; simpl; [done|].
  rewrite Hkey. rewrite bool_decide_eq_true_2
    by (rewrite <- (Nat.add_0_r attempt); apply Hbusy).
  apply IH; [done|]. intros i.
  replace (S attempt + i)%nat with (attempt + S i)%nat by lia. apply Hbusy.
Qed.

End RequestFacts.

(** X20. [request] hands on no response of failure, and does not give up
    on 429. A response it returns has a status below 400 and is the answer
    to the first attempt that was not answered by 429; a status of 400 or
    above is thrown as [Zotero API error <status>: <text>]; and as long as
    the remote answers 429 the request is made again, without a limit: it
    returns for no number of attempts. *)
Theorem request_filters_failures_and_retries_429 {A : Type}
    (getApiKey : option string) (requestUrl : nat → ApiClient.HttpResponse A) :
  (∀ fuel response,
     ApiClient.request getApiKey requestUrl fuel 0 = Some (Ok response) →
     ApiClient.http_status response < 400
     ∧ ∃ waits, response = requestUrl waits
                ∧ ∀ i, (i < waits)%nat → ApiClient.http_status (requestUrl i) = 429)
  ∧ (∀ waits fuel,
       Str.truthy (default "" getApiKey) = true →
       (∀ i, (i < waits)%nat → ApiClient.http_status (requestUrl i) = 429) →
       ApiClient.http_status (requestUrl waits) ≠ 429 →
       (waits < fuel)%nat →
       ApiClient.request getApiKey requestUrl fuel 0
       = Some (if bool_decide (400 ≤ ApiClient.http_status (requestUrl waits))
               then Throw (ApiClient.apiError (requestUrl waits))
               else Ok (requestUrl waits)))
  ∧ (Str.truthy (default "" getApiKey) = true →
     (∀ i, ApiClient.http_status (requestUrl i) = 429) →
     ∀ fuel, ApiClient.request getApiKey requestUrl fuel 0 = None).
Proof.
  split_and!.
  - intros fuel response Hrun. by apply request_Ok in Hrun.
  - intros waits fuel Hkey Hbusy Hfree Hfuel.
    by apply (request_after_429 getApiKey requestUrl waits fuel 0).
  - intros Hkey Hbusy fuel. by apply request_busy.
Qed.


Example testConnection_403 :
  ApiClient.testConnection (Some "secret") (Remote.answers 403 "Forbidden") 1
  = Some (false, "Connection failed: Zotero API error 403: Forbidden").
Proof. by vm_compute. Qed.

Example testConnection_no_key :
  ApiClient.testConnection None (Remote.answers 200 "") 1
  = Some (false, "Connection failed: Zotero API key not configured. Set it in plugin settings.").
Proof. by vm_compute. Qed.

(** ** [fetchItemsByKeys] *)

Lemma answer_nothing {B} (answer : list string → list B) :
  (∀ a b, answer (a ++ b) = answer a ++ answer b) → answer [] = [].
Proof.
  intros Hanswer. pose proof (Hanswer [] []) as Hnil. simpl in Hnil.
  apply (f_equal length) in Hnil. rewrite length_app in Hnil.
  destruct (answer []); [done|simpl in Hnil; lia].
Qed.

Lemma fetchItemsByKeys_from_batches requestByKeys answer keys w : ∀ fuel i,
  (∀ batch w0, batch ≠ [] → (length batch ≤ 50)%nat →
     requestByKeys batch w0 = Some (Ok (answer batch), w0)) →
  (∀ a b, answer (a ++ b) = answer a ++ answer b) →
  (length keys - i < fuel)%nat →
  ApiClient.fetchItemsByKeys_from requestByKeys fuel keys i (answer (take i keys)) w
  = Some (Ok (answer keys), w).
Proof.
  induction fuel as [|fuel IH]; intros i Hremote Hanswer Hfuel; [lia|]. simpl.
  case_bool_decide as Hi.
  - unfold bind at 1. rewrite Hremote.
    + rewrite <- Hanswer, take_take_drop. apply IH; [done..|lia].
    + assert (Hsome : length (take 50 (drop i keys)) ≠ 0%nat)
        by (rewrite length_take, length_drop; lia).
      by intros Hnone; rewrite Hnone in Hsome.
    + rewrite length_take. lia.
  - by rewrite take_ge by lia.
Qed.

(** X22. [fetchItemsByKeys] asks for every key, in batches the remote
    accepts: against a remote that answers a request for at most 50 keys
    with the items of these keys, and a request for keys taken together with
    the answers taken together, it returns the items of all the keys, in
    their order, whatever their number; no request has more than 50 keys or
    none. *)
Theorem fetchItemsByKeys_collects_every_batch
    (requestByKeys : list string → M World (list ZoteroItem))
    (answer : list string → list ZoteroItem) (keys : list string) (w : World) :
  (∀ batch w0, batch ≠ [] → (length batch ≤ 50)%nat →
     requestByKeys batch w0 = Some (Ok (answer batch), w0)) →
  (∀ a b, answer (a ++ b) = answer a ++ answer b) →
  ApiClient.fetchItemsByKeys requestByKeys keys w = Some (Ok (answer keys), w).
Proof.
  intros Hremote Hanswer. unfold ApiClient.fetchItemsByKeys.
  rewrite <- (answer_nothing answer Hanswer).
  apply (fetchItemsByKeys_from_batches requestByKeys answer keys w
           (S (length keys)) 0 Hremote Hanswer). lia.
Qed.

(** X22, run: 120 keys, against a remote that refuses more than 50. *)
Lemma fetchItemsByKeys_witness :
  ApiClient.fetchItemsByKeys Remote.byKeys (Remote.keys 120) (Test.start Test.defaults ∅)
  = Some (Ok (Remote.known (Remote.keys 120)), Test.start Test.defaults ∅).
Proof.
  apply (fetchItemsByKeys_collects_every_batch Remote.byKeys Remote.known
           (Remote.keys 120) (Test.start Test.defaults ∅)).
  - intros batch w0 _ Hlen. unfold Remote.byKeys. by rewrite bool_decide_eq_true_2.
  - intros a b. unfold Remote.known. apply fmap_app.
Defined.

(** ** File names *)

Section FilenameFacts.

Import Filename.

Lemma rev_app_spec a : ∀ c, String.rev_app a c = String.rev a +:+ c.
Proof.
  unfold String.rev. induction a as [|x a IH]; intros c; simpl; [done|].
  rewrite (IH (String x c)), (IH (String x "")).
  by rewrite Text_append_assoc.
Qed.

Lemma rev_cons x a : String.rev (String x a) = String.rev a +:+ String x "".
Proof. unfold String.rev at 1. simpl. apply rev_app_spec. Qed.

Lemma Text_app_nil_r a : a +:+ "" = a.
Proof. induction a as [|x a IH]; [done|]. by rewrite Text_app_cons, IH. Qed.

Lemma rev_append a b : String.rev (a +:+ b) = String.rev b +:+ String.rev a.
Proof.
  induction a as [|x a IH].
  - by rewrite Text_app_nil, Text_app_nil_r.
  - by rewrite Text_app_cons, !rev_cons, IH, Text_append_assoc.
Qed.

Lemma rev_involutive a : String.rev (String.rev a) = a.
Proof.
  induction a as [|x a IH]; [done|]. by rewrite rev_cons, rev_append, IH.
Qed.

(** [trimStart] takes white space off the front, and nothing else. *)
Lemma trimStart_suffix s : ∃ spaces, s = spaces +:+ trimStart s.
Proof.
  induction s as [|c s [spaces IH]]; simpl; [by exists ""|].
  destruct (Str.is_space c).
  - exists (String c spaces). by rewrite Text_app_cons, <- IH.
  - by exists "".
Qed.

Lemma trimStart_head s c rest : trimStart s = String c rest → Str.is_space c = false.
Proof.
  induction s as [|d s IH]; simpl; [done|].
  destruct (Str.is_space d) eqn:Hd; [done|]. by intros [= <- _].
Qed.

Lemma trimStart_fixed s :
  (∀ c rest, s = String c rest → Str.is_space c = false) → trimStart s = s.
Proof. destruct s as [|c s]; simpl; [done|]. intros Hs. by rewrite (Hs c s). Qed.

Lemma trimStart_idemp s : trimStart (trimStart s) = trimStart s.
Proof. apply trimStart_fixed. intros c rest. apply trimStart_head. Qed.

Lemma trimEnd_prefix s : ∃ spaces, s = trimEnd s +:+ spaces.
Proof.
  unfold trimEnd. destruct (trimStart_suffix (String.rev s)) as [spaces Hs].
  exists (String.rev spaces).
  by rewrite <- rev_append, <- Hs, rev_involutive.
Qed.

Lemma trim_idemp s : trim (trim s) = trim s.
Proof.
  unfold trim at 1.
  assert (Hstart : trimStart (trim s) = trim s).
  { apply trimStart_fixed. intros c rest Hc. unfold trim in Hc.
    destruct (trimEnd_prefix (trimStart s)) as [spaces Hs].
    rewrite Hc, Text_app_cons in Hs. by apply trimStart_head in Hs. }
  rewrite Hstart. unfold trim, trimEnd.
  by rewrite rev_involutive, trimStart_idemp.
Qed.

Lemma chars_app a b :
  list_ascii_of_string (a +:+ b) = list_ascii_of_string a ++ list_ascii_of_string b.
Proof. induction a as [|x a IH]; [done|]. rewrite Text_app_cons. simpl. by rewrite IH. Qed.

Lemma trim_chars s c :
  c ∈ list_ascii_of_string (trim s) → c ∈ list_ascii_of_string s.
Proof.
  intros Hc. unfold trim in Hc.
  destruct (trimEnd_prefix (trimStart s)) as [after Hafter].
  destruct (trimStart_suffix s) as [before Hbefore].
  rewrite Hbefore, Hafter, !chars_app. set_solver.
Qed.

Lemma filter_chars keep s c :
  c ∈ list_ascii_of_string (filter keep s) → keep c = true.
Proof.
  induction s as [|x s IH]; simpl; [by intros ?%elem_of_nil|].
  destruct (keep x) eqn:Hx; [|done]. simpl.
  intros [->|?]%elem_of_cons; [done|by apply IH].
Qed.

End FilenameFacts.

(** X23. [generateFilename] gives a name a file can have: whatever the
    item and the template, the name is the key of the item, or it is not
    empty, holds none of the characters of [UNSAFE_CHARS], and neither
    starts nor ends with white space; it is empty only if the key is. The
    key itself is taken as it is. *)
Theorem generateFilename_is_a_safe_name
    (extractCitekey : Filename.ItemData → string)
    (substitute : string → string → Filename.ItemData → string)
    (itemKey : string) (d : Filename.ItemData) (fileNameTemplate : string) :
  let filename :=
    Filename.generateFilename extractCitekey substitute itemKey d fileNameTemplate in
  (filename = "" → itemKey = "")
  ∧ (filename = itemKey
     ∨ (filename ≠ ""
        ∧ (∀ c, c ∈ list_ascii_of_string filename → Filename.unsafe c = false)
        ∧ Filename.trim filename = filename)).
Proof.
  unfold Filename.generateFilename.
  match goal with |- context [Filename.trim ?raw] => set (name := Filename.trim raw) end.
  simpl. destruct (Str.truthy name) eqn:Hname.
  - split; [intros Hempty; by rewrite Hempty in Hname|]. right.
    split_and!.
    + intros Hempty. by rewrite Hempty in Hname.
    + intros c Hc. apply trim_chars, filter_chars in Hc. by apply negb_true_iff.
    + apply trim_idemp.
  - split; [done|by left].
Qed.

Example generateFilename_default :
  Filename.generateFilename (λ _, "") (λ _ _ _, "") "ABC123"
    {| Filename.title := "What: a title?";
       Filename.creators := [{| Filename.lastName := "van-der waals"; Filename.name := "" |}];
       Filename.date := "2020-01" |} ""
  = "Van-Der waals_2020".
Proof. by vm_compute. Qed.

Example generateFilename_title :
  Filename.generateFilename (λ _, "") (λ _ _ _, "") "ABC123"
    {| Filename.title := " What: a [title]? "; Filename.creators := [];
       Filename.date := "" |} "{{title}}"
  = "What a title".
Proof. by vm_compute. Qed.

Example generateFilename_key :
  Filename.generateFilename (λ _, "") (λ _ _ _, "") "ABC123"
    {| Filename.title := "???"; Filename.creators := []; Filename.date := "" |}
    "{{title}}"
  = "ABC123".
Proof. by vm_compute. Qed.

(** ** The tags of the frontmatter are read back *)

Section FrontmatterFacts.

Import Frontmatter.

(** Lines, each followed by a line feed, and then [tail]. *)
Local Abbreviation lines_then :=
  (fold_right (λ line acc : string, line +:+ Text.newline +:+ acc)).

Lemma join_then (body : list string) (last : string) :
  Text.join Text.newline (body ++ [last]) = lines_then last body.
Proof.
  induction body as [|line body IH]; [done|].
  simpl. rewrite <- IH. by destruct body.
Qed.

Lemma lines_then_app (body : list string) (tail more : string) :
  lines_then tail body +:+ more = lines_then (tail +:+ more) body.
Proof.
  induction body as [|line body IH]; simpl; [done|].
  by rewrite !Text_append_assoc, IH.
Qed.

Lemma lines_then_snoc (body : list string) (line tail : string) :
  lines_then tail (body ++ [line]) = lines_then (line +:+ Text.newline +:+ tail) body.
Proof. by rewrite fold_right_app. Qed.

Lemma lines_then_length (body : list string) (tail : string) :
  (length body ≤ String.length (lines_then tail body))%nat.
Proof.
  induction body as [|line body IH]; simpl; [lia|].
  rewrite !Text_length_app. simpl. lia.
Qed.

Lemma chars_cons c s : list_ascii_of_string (String c s) = c :: list_ascii_of_string s.
Proof. done. Qed.

Lemma line_terminator_is_space c : is_line_terminator c = true → Str.is_space c = true.
Proof.
  unfold is_line_terminator.
  by intros [->%Ascii.eqb_eq | ->%Ascii.eqb_eq]%orb_true_iff.
Qed.

Lemma no_space_no_terminator c : Str.is_space c = false → is_line_terminator c = false.
Proof.
  intros Hc. destruct (is_line_terminator c) eqn:Hlt; [|done].
  apply line_terminator_is_space in Hlt. congruence.
Qed.

Lemma oneLine_cons c line :
  oneLine (String c line) ↔ is_line_terminator c = false ∧ oneLine line.
Proof. unfold oneLine. by rewrite chars_cons, Forall_cons. Qed.

Lemma oneLine_app a b : oneLine a → oneLine b → oneLine (a +:+ b).
Proof. unfold oneLine. rewrite chars_app. apply Forall_app_2. Qed.

(** *** Where the frontmatter ends *)

Lemma prefix_line p line rest :
  String.prefix p line = false →
  oneLine p →
  String.prefix p (line +:+ Text.newline +:+ rest) = false.
Proof.
  revert line. induction p as [|a p IH]; intros line Hp Hone.
  - by rewrite prefix_nil in Hp.
  - apply oneLine_cons in Hone as [Ha Hone].
    destruct line as [|d line].
    + rewrite Text_app_nil. unfold Text.newline. rewrite Text_app_cons, prefix_cons.
      destruct (ascii_dec a "010") as [->|]; [done|done].
    + rewrite Text_app_cons, prefix_cons. rewrite prefix_cons in Hp.
      destruct (ascii_dec a d); [by apply IH|done].
Qed.

Lemma find_skip_line p line rest :
  oneLine line →
  Text.find (String "010" p) (line +:+ rest)
  = (λ i, (String.length line + i)%nat) <$> Text.find (String "010" p) rest.
Proof.
  induction line as [|c line IH]; intros Hone.
  - rewrite Text_app_nil. by destruct (Text.find _ rest).
  - apply oneLine_cons in Hone as [Hc Hone].
    rewrite Text_app_cons, find_cons, prefix_cons.
    destruct (ascii_dec "010" c) as [<-|_]; [done|].
    rewrite IH by done. by destruct (Text.find _ rest).
Qed.

Lemma lines_then_head (body : list string) (line tail : string) (P : string → Prop) :
  Forall P body → P line →
  ∃ first rest, P first ∧ lines_then (line +:+ Text.newline +:+ tail) body
                          = first +:+ Text.newline +:+ rest.
Proof.
  intros Hbody Hline. destruct Hbody as [|first body Hfirst Hbody]; simpl.
  - by exists line, tail.
  - by eexists first, _.
Qed.

Lemma find_fence (body : list string) (last rest : string) :
  Forall (λ line, oneLine line ∧ String.prefix "---" line = false) body →
  oneLine last → String.prefix "---" last = false →
  Text.find (Text.newline +:+ "---") (lines_then (last +:+ Text.newline +:+ "---" +:+ rest) body)
  = Some (String.length (lines_then last body)).
Proof.
  change (Text.newline +:+ "---") with (String "010" "---").
  intros Hbody Hlast Hfence. induction Hbody as [|line body [Hone Hline] Hbody IH].
  - simpl. rewrite find_skip_line by done.
    unfold Text.newline at 1. rewrite Text_app_cons, Text_app_nil, find_cons, prefix_cons.
    destruct (ascii_dec "010" "010"); [|done].
    rewrite prefix_app. simpl. f_equal. lia.
  - simpl. rewrite find_skip_line by done.
    unfold Text.newline at 1. rewrite Text_app_cons, Text_app_nil, find_cons, prefix_cons.
    destruct (ascii_dec "010" "010"); [|done].
    destruct (lines_then_head body last ("---" +:+ rest)
                (λ line, oneLine line ∧ String.prefix "---" line = false))
      as (first & more & [Hfirst Hnofence] & Hhead); [done|done|].
    rewrite Hhead, prefix_line; [|done|by repeat constructor].
    rewrite <- Hhead, IH. simpl. f_equal.
    rewrite !Text_length_app. simpl. lia.
Qed.

(** *** Where the tags start *)

Lemma tagsMatch_eq atLineStart fm :
  tagsMatch atLineStart fm
  = match (if (atLineStart && String.prefix "tags:" fm)%bool
           then afterKey (Text.drop 5 fm) else None) with
    | Some t => Some (tagsBlock t)
    | None =>
        match fm with
        | EmptyString => None
        | String c fm' => tagsMatch (is_line_terminator c) fm'
        end
    end.
Proof. by destruct fm. Qed.

Lemma tagsMatch_inside line rest :
  oneLine line →
  tagsMatch false (line +:+ Text.newline +:+ rest) = tagsMatch true rest.
Proof.
  induction line as [|c line IH]; intros Hone; rewrite tagsMatch_eq.
  - by rewrite Text_app_nil.
  - apply oneLine_cons in Hone as [Hc Hone].
    rewrite Text_app_cons. simpl andb. cbv iota. rewrite Hc. by apply IH.
Qed.

Lemma tagsMatch_skip_line line rest :
  oneLine line → String.prefix "tags:" line = false →
  tagsMatch true (line +:+ Text.newline +:+ rest) = tagsMatch true rest.
Proof.
  intros Hone Hline. rewrite tagsMatch_eq.
  rewrite prefix_line; [|done|by repeat constructor]. simpl andb. cbv iota.
  destruct line as [|c line].
  - by rewrite Text_app_nil.
  - apply oneLine_cons in Hone as [Hc Hone]. rewrite Text_app_cons, Hc.
    by apply tagsMatch_inside.
Qed.

Lemma tagsMatch_inside_last line : oneLine line → tagsMatch false line = None.
Proof.
  induction line as [|c line IH]; intros Hone; rewrite tagsMatch_eq; [done|].
  apply oneLine_cons in Hone as [Hc Hone]. simpl andb. cbv iota. rewrite Hc. by apply IH.
Qed.

Lemma tagsMatch_last_line line :
  oneLine line → String.prefix "tags:" line = false → tagsMatch true line = None.
Proof.
  intros Hone Hline. rewrite tagsMatch_eq, Hline. simpl andb. cbv iota.
  destruct line as [|c line]; [done|].
  apply oneLine_cons in Hone as [Hc Hone]. rewrite Hc. by apply tagsMatch_inside_last.
Qed.

Lemma tagsMatch_skip_lines (body : list string) (tail : string) :
  Forall plainLine body →
  tagsMatch true (lines_then tail body) = tagsMatch true tail.
Proof.
  induction 1 as [|line body (Hone & _ & Htags) Hbody IH]; simpl; [done|].
  by rewrite tagsMatch_skip_line.
Qed.

(** *** One line of the block *)

Lemma span_cons p c s :
  span p (String c s)
  = if p c then (String c (span p s).1, (span p s).2) else (EmptyString, String c s).
Proof. simpl. by destruct (span p s). Qed.

Lemma span_app p line rest :
  Forall (λ c, p c = true) (list_ascii_of_string line) →
  span p rest = (EmptyString, rest) →
  span p (line +:+ rest) = (line, rest).
Proof.
  intros Hline Hrest. induction line as [|c line IH].
  - by rewrite Text_app_nil.
  - rewrite chars_cons in Hline. apply Forall_cons in Hline as [Hc Hline].
    rewrite Text_app_cons, span_cons, Hc, IH by done. done.
Qed.

(** What [spaces_to_hyphen] gives has no white space, and something for
    every tag that is not empty. *)
Lemma spaces_to_hyphen_from_chars in_run t :
  Forall (λ c, Str.is_space c = false)
    (list_ascii_of_string (Str.spaces_to_hyphen_from in_run t)).
Proof.
  revert in_run. induction t as [|c t IH]; intros in_run; simpl; [constructor|].
  destruct (Str.is_space c) eqn:Hc.
  - destruct in_run; [apply IH|]. rewrite chars_cons. by constructor.
  - rewrite chars_cons. by constructor.
Qed.

Lemma spaces_to_hyphen_head t :
  t ≠ "" → ∃ c rest, Str.spaces_to_hyphen t = String c rest.
Proof.
  destruct t as [|c t]; [done|]. intros _. unfold Str.spaces_to_hyphen. simpl.
  destruct (Str.is_space c); by eexists _, _.
Qed.

Lemma item_line tag rest :
  tag ≠ "" →
  Forall (λ c, Str.is_space c = false) (list_ascii_of_string tag) →
  span (λ c, negb (is_line_terminator c)) rest = (EmptyString, rest) →
  item (("- " +:+ tag) +:+ rest) = Some (tag, optionalNewline rest).
Proof.
  intros Hsome Hchars Hrest.
  assert (Hbody : span (λ c, negb (is_line_terminator c)) (tag +:+ rest) = (tag, rest)).
  { apply span_app; [|done]. eapply Forall_impl; [exact Hchars|].
    intros c Hc. simpl. by rewrite no_space_no_terminator. }
  destruct tag as [|c tag]; [done|].
  rewrite chars_cons in Hchars. apply Forall_cons in Hchars as [Hc Hchars].
  rewrite Text_append_assoc, !Text_app_cons, Text_app_nil. unfold item.
  rewrite span_cons. change (Str.is_space "-") with false. cbv iota. simpl snd.
  change (Ascii.eqb "-" "-") with true. cbv iota.
  rewrite span_cons. change (Str.is_space " ") with true. cbv iota.
  rewrite span_cons, Hc. simpl fst. simpl snd. cbv iota beta.
  rewrite Text_app_cons in Hbody. by rewrite Hbody.
Qed.

Lemma item_other c rest :
  Str.is_space c = false → c ≠ "-"%char → item (String c rest) = None.
Proof.
  intros Hc Hhyphen. unfold item. rewrite span_cons, Hc. simpl snd. cbv iota.
  by apply Ascii.eqb_neq in Hhyphen as ->.
Qed.

(** *** The block of the tags *)

Local Abbreviation tagLine := (λ t : string, "- " +:+ Str.spaces_to_hyphen t).

Lemma oneLine_tagLine t : oneLine (tagLine t).
Proof.
  apply oneLine_app; [by repeat constructor|].
  eapply Forall_impl; [apply spaces_to_hyphen_from_chars|].
  intros c. apply no_space_no_terminator.
Qed.

Lemma span_newline rest :
  span (λ c, negb (is_line_terminator c)) (Text.newline +:+ rest)
  = (EmptyString, Text.newline +:+ rest).
Proof. unfold Text.newline. by rewrite Text_app_cons, Text_app_nil. Qed.

Lemma item_tagLine t rest :
  t ≠ "" →
  span (λ c, negb (is_line_terminator c)) rest = (EmptyString, rest) →
  item (tagLine t +:+ rest) = Some (Str.spaces_to_hyphen t, optionalNewline rest).
Proof.
  intros Hsome Hrest. apply item_line; [|apply spaces_to_hyphen_from_chars|done].
  destruct (spaces_to_hyphen_head t Hsome) as (c & more & ->). done.
Qed.

(** After the hyphen of an empty tag the white space goes on over the line
    feed, and the next line is what [.+] takes. *)
Lemma item_empty_tagLine c line rest :
  Str.is_space c = false → oneLine (String c line) →
  item (tagLine "" +:+ Text.newline +:+ String c line +:+ Text.newline +:+ rest)
  = Some (String c line, rest).
Proof.
  intros Hc Hone.
  assert (Hbody : span (λ c, negb (is_line_terminator c))
                    (String c line +:+ Text.newline +:+ rest)
                  = (String c line, Text.newline +:+ rest)).
  { apply span_app; [|apply span_newline]. eapply Forall_impl; [exact Hone|].
    intros x Hx. simpl. by rewrite Hx. }
  change (tagLine "") with "- ". unfold Text.newline at 1.
  rewrite !Text_app_cons, !Text_app_nil in *. unfold item.
  rewrite span_cons. change (Str.is_space "-") with false. cbv iota. simpl snd.
  change (Ascii.eqb "-" "-") with true. cbv iota.
  rewrite !span_cons. change (Str.is_space " ") with true.
  change (Str.is_space "010") with true. rewrite Hc. simpl fst. simpl snd. cbv iota beta.
  rewrite Hbody. unfold Text.newline. by rewrite Text_app_cons, Text_app_nil.
Qed.

Lemma afterItems_stop fuel t : item t = None → afterItems fuel t = t.
Proof. intros Hitem. destruct fuel; simpl; [done|]. by rewrite Hitem. Qed.

(** The matches go through the lines of the tags; after an empty tag at the
    end they take the next line as well. *)
Lemma afterItems_lines (c : ascii) (name zotero_key : string) :
  Str.is_space c = false → c ≠ "-"%char → oneLine (String c name) →
  item zotero_key = None →
  ∀ n (ts : list string) fuel, (length ts ≤ n)%nat → (length ts ≤ fuel)%nat →
    let tail := String c name +:+ Text.newline +:+ zotero_key in
    afterItems fuel (lines_then tail (tagLine <$> ts)) = tail
    ∨ afterItems fuel (lines_then tail (tagLine <$> ts)) = zotero_key.
Proof.
  intros Hc Hhyphen Hone Hkey.
  assert (Htail : item (String c name +:+ Text.newline +:+ zotero_key) = None).
  { rewrite Text_app_cons. by apply item_other. }
  induction n as [|n IH]; intros ts fuel Hn Hfuel tail.
  - destruct ts; [|simpl in Hn; lia]. left. by apply afterItems_stop.
  - destruct ts as [|t ts]; [left; by apply afterItems_stop|].
    destruct fuel as [|fuel]; [simpl in Hfuel; lia|].
    simpl in Hn, Hfuel. rewrite fmap_cons. cbn [fold_right afterItems].
    destruct (decide (t = "")) as [->|Ht].
    + destruct ts as [|t' ts].
      * cbn [fmap list_fmap fold_right]. subst tail.
        rewrite item_empty_tagLine by done. right. by apply afterItems_stop.
      * rewrite fmap_cons. cbn [fold_right].
        assert (Hline : ∃ more, "- " +:+ Str.spaces_to_hyphen t' = String "-" more
                                ∧ oneLine (String "-" more)).
        { eexists. split; [by rewrite Text_app_cons|].
          rewrite <- Text_app_cons. apply oneLine_tagLine. }
        destruct Hline as (more & Hline & Hone'). cbn beta. rewrite Hline.
        rewrite item_empty_tagLine; [|reflexivity|done].
        apply IH; simpl in *; lia.
    + rewrite item_tagLine; [|done|apply span_newline].
      unfold Text.newline at 1. rewrite Text_app_cons, Text_app_nil. simpl optionalNewline.
      apply IH; lia.
Qed.

Lemma tagsBlock_lines (ts : list string) (c : ascii) (name zotero_key : string) :
  Str.is_space c = false → c ≠ "-"%char → oneLine (String c name) →
  item zotero_key = None →
  let block :=
    tagsBlock (lines_then (String c name +:+ Text.newline +:+ zotero_key) (tagLine <$> ts)) in
  block = lines_then "" (tagLine <$> ts)
  ∨ block = lines_then "" ((tagLine <$> ts) ++ [String c name]).
Proof.
  intros Hc Hhyphen Hone Hkey block. subst block. unfold tagsBlock.
  assert (Hfuel : (length ts ≤ String.length
                     (lines_then (String c name +:+ Text.newline +:+ zotero_key)
                        (tagLine <$> ts)))%nat).
  { etrans; [|apply lines_then_length]. by rewrite length_fmap. }
  destruct (afterItems_lines c name zotero_key Hc Hhyphen Hone Hkey
              (length ts) ts _ (le_n _) Hfuel) as [-> | ->].
  - left. rewrite <- (Text_app_nil (String c name +:+ _)) at 1 3.
    rewrite <- lines_then_app, Text_length_app.
    replace (_ + _ - _)%nat with (String.length (lines_then "" (tagLine <$> ts))) by lia.
    apply Text_take_app.
  - right.
    assert (Hsplit : lines_then (String c name +:+ Text.newline +:+ zotero_key)
                       (tagLine <$> ts)
                     = lines_then "" ((tagLine <$> ts) ++ [String c name]) +:+ zotero_key).
    { rewrite lines_then_snoc, lines_then_app.
      by rewrite !Text_append_assoc, Text_app_nil. }
    rewrite Hsplit, Text_length_app.
    replace (_ + _ - _)%nat
      with (String.length (lines_then "" ((tagLine <$> ts) ++ [String c name]))) by lia.
    apply Text_take_app.
Qed.

Lemma split_from_line line rest : ∀ cur,
  oneLine line →
  Str.split_from "010" cur (line +:+ Text.newline +:+ rest)
  = String.rev (String.rev_app line cur) :: Str.split_from "010" "" rest.
Proof.
  induction line as [|c line IH]; intros cur Hone.
  - by rewrite Text_app_nil.
  - apply oneLine_cons in Hone as [Hc Hone]. rewrite Text_app_cons. simpl.
    destruct (Ascii.eqb c "010") eqn:Hfeed; [|by apply IH].
    apply Ascii.eqb_eq in Hfeed as ->. done.
Qed.

Lemma split_lines (body : list string) :
  Forall oneLine body →
  Str.split "010" (lines_then "" body) = body ++ [""].
Proof.
  unfold Str.split. induction 1 as [|line body Hone Hbody IH]; simpl; [done|].
  rewrite split_from_line, IH by done. f_equal. apply rev_involutive.
Qed.

Lemma chars_rev s c :
  c ∈ list_ascii_of_string (String.rev s) → c ∈ list_ascii_of_string s.
Proof.
  induction s as [|x s IH]; [done|].
  rewrite rev_cons, chars_app, !chars_cons, elem_of_app, !elem_of_cons.
  intros [?|[->|Hc]]; [right; by apply IH|by left|by apply elem_of_nil in Hc].
Qed.

Lemma trim_fixed s :
  Forall (λ c, Str.is_space c = false) (list_ascii_of_string s) → Filename.trim s = s.
Proof.
  intros Hchars. rewrite Forall_forall in Hchars. unfold Filename.trim, Filename.trimEnd.
  rewrite (trimStart_fixed s).
  - rewrite trimStart_fixed; [apply rev_involutive|].
    intros c rest Hrev. apply Hchars, chars_rev. rewrite Hrev, chars_cons. by left.
  - intros c rest ->. apply Hchars. rewrite chars_cons. by left.
Qed.

(** A line of the block gives its tag back, the empty tag too: there the
    white space after the hyphen is given back to [.+], and trimmed. *)
Lemma lineTag_tagLine t : lineTag (tagLine t) = Some (Str.spaces_to_hyphen t).
Proof.
  destruct (decide (t = "")) as [->|Hsome]; [done|].
  unfold lineTag. rewrite <- (Text_app_nil_r (tagLine t)).
  rewrite item_tagLine by done. simpl. f_equal.
  apply trim_fixed, spaces_to_hyphen_from_chars.
Qed.

Lemma lineTag_lines (ts : list string) :
  omap lineTag (tagLine <$> ts) = Str.spaces_to_hyphen <$> ts.
Proof.
  induction ts as [|t ts IH]; [done|].
  rewrite !fmap_cons. cbn [omap list_omap]. by rewrite lineTag_tagLine, IH.
Qed.

(** *** The frontmatter as it is written *)

Lemma frontmatterOf_fenced (body : list string) (last rest : string) :
  Forall (λ line, oneLine line ∧ String.prefix "---" line = false) body →
  oneLine last → String.prefix "---" last = false →
  frontmatterOf (Text.join Text.newline (["---"] ++ body ++ [last; "---"]) +:+ rest)
  = Some (Text.join Text.newline (body ++ [last])).
Proof.
  intros Hbody Hlast Hfence.
  replace (["---"] ++ body ++ [last; "---"])
    with (("---" :: body ++ [last]) ++ ["---"]) by (simpl; by rewrite <- app_assoc).
  rewrite !join_then. cbn [fold_right].
  rewrite lines_then_snoc, !Text_append_assoc, lines_then_app, !Text_append_assoc.
  rewrite <- (Text_append_assoc "---" Text.newline).
  unfold frontmatterOf. rewrite prefix_app.
  change 4%nat with (String.length ("---" +:+ Text.newline)). rewrite Text_drop_app.
  cbv zeta. rewrite find_fence by done. simpl. f_equal.
  rewrite <- lines_then_app. apply Text_take_app.
Qed.

Lemma plainLine_field (c : ascii) (name value : string) :
  is_line_terminator c = false → c ≠ "-"%char → c ≠ "t"%char →
  oneLine name → oneLine value →
  plainLine (String c name +:+ value).
Proof.
  intros Hc Hhyphen Ht Hname Hvalue. split_and!.
  - apply oneLine_app; [by apply oneLine_cons|done].
  - rewrite Text_app_cons, prefix_cons. by destruct (ascii_dec "-" c) as [<-|].
  - rewrite Text_app_cons, prefix_cons. by destruct (ascii_dec "t" c) as [<-|].
Qed.

Lemma tagsMatch_without_tags (before : list string) (last_synced zotero_key : string) :
  Forall plainLine before → plainLine last_synced → plainLine zotero_key →
  tagsMatch true (Text.join Text.newline ((before ++ [last_synced]) ++ [zotero_key])) = None.
Proof.
  intros Hbefore Hsynced (Hone & _ & Htags).
  rewrite join_then, tagsMatch_skip_lines; [by apply tagsMatch_last_line|].
  apply Forall_app_2; [done|by constructor].
Qed.

Lemma tagsMatch_with_tags (before ts : list string) (c : ascii)
    (name zotero_key : string) :
  Forall plainLine before → plainLine (String c name) → plainLine zotero_key →
  Str.is_space c = false → c ≠ "-"%char → item zotero_key = None →
  ts ≠ [] →
  ∃ block,
    tagsMatch true
      (Text.join Text.newline
         ((before ++ ("tags: " :: (tagLine <$> ts)) ++ [String c name]) ++ [zotero_key]))
    = Some block
    ∧ omap lineTag (Str.split "010" block) = Str.spaces_to_hyphen <$> ts.
Proof.
  intros Hbefore Hsynced Hkey Hc Hhyphen Hitem Hts.
  assert (Hlast : lineTag (String c name) = None)
    by (unfold lineTag; by rewrite item_other).
  assert (Hlines : Forall oneLine (tagLine <$> ts)).
  { apply Forall_fmap, Forall_true. intros t. apply oneLine_tagLine. }
  eexists. split.
  - rewrite join_then, !fold_right_app, tagsMatch_skip_lines by done.
    cbn [fold_right]. rewrite tagsMatch_eq.
    change "tags: " with ("tags:" +:+ " "). rewrite !Text_append_assoc, prefix_app.
    change 5%nat with (String.length "tags:"). rewrite Text_drop_app.
    simpl andb. cbv iota.
    match goal with |- context [afterKey (_ +:+ _ +:+ ?text)] => set (block := text) end.
    assert (Hblock : ∃ more, block = String "-" more).
    { subst block. destruct ts as [|t ts]; [done|]. rewrite fmap_cons. cbn [fold_right].
      rewrite !Text_append_assoc, Text_app_cons. by eexists. }
    destruct Hblock as [more Hblock].
    replace (afterKey (" " +:+ Text.newline +:+ block)) with (Some block)
      by (rewrite Hblock; unfold Text.newline; by rewrite !Text_app_cons, !Text_app_nil).
    reflexivity.
  - destruct Hsynced as (Hone & _).
    destruct (tagsBlock_lines ts c name zotero_key Hc Hhyphen Hone Hitem) as [-> | ->].
    + rewrite split_lines, omap_app, lineTag_lines by done. simpl. by rewrite app_nil_r.
    + rewrite split_lines by (apply Forall_app_2; [done|by constructor]).
      rewrite !omap_app, lineTag_lines. cbn [omap list_omap]. rewrite Hlast.
      change (lineTag "") with (@None string). cbv iota. by rewrite !app_nil_r.
Qed.

Lemma tagLines_fenced (syncTag : string) (tags : list string) :
  Forall (λ line, oneLine line ∧ String.prefix "---" line = false)
    (tagLines syncTag tags).
Proof.
  unfold tagLines. destruct (List.filter _ tags) as [|t ts]; [constructor|].
  constructor; [split; [by repeat constructor|done]|].
  apply Forall_fmap, Forall_true. intros t'. split; [apply oneLine_tagLine|].
  rewrite !Text_app_cons, !prefix_cons.
  destruct (ascii_dec "-" "-"); [|done]. by destruct (ascii_dec "-" " ").
Qed.

End FrontmatterFacts.

(** X24. What [renderFrontmatter] writes for the tags, [parseFrontmatterTags]
    reads back: from a document that starts with the frontmatter as it is
    rendered, whatever follows it, the tags parsed are the tags of the item
    without the sync tag, in their order, each with its runs of white space
    written as one hyphen; they are equal, as [tagsEqual] compares, to the
    tags of the item without the sync tag when writing white space as a
    hyphen keeps the normal form of each tag. The lines before the tags are
    lines that start neither [---] nor [tags:], and the time and the key
    have no line break in them. *)
Theorem written_tags_are_read_back (before tags : list string)
    (syncTag now key rest : string) :
  Forall Frontmatter.plainLine before →
  Frontmatter.oneLine now → Frontmatter.oneLine key →
  let kept := List.filter (λ t, negb (String.eqb t syncTag)) tags in
  let parsed :=
    Frontmatter.parseFrontmatterTags
      (Frontmatter.renderFrontmatter before syncTag tags now key +:+ rest) in
  parsed = Str.spaces_to_hyphen <$> kept
  ∧ ((∀ t, t ∈ tags → normalizeTag (Str.spaces_to_hyphen t) = normalizeTag t) →
     tagsEqual parsed kept = true).
Proof.
  intros Hbefore Hnow Hkey kept parsed.
  assert (Hkept : ∀ t, t ∈ kept → t ∈ tags).
  { intros t Ht. apply list_elem_of_In, filter_In in Ht as [Ht _].
    by apply list_elem_of_In. }
  assert (Hparsed : parsed = Str.spaces_to_hyphen <$> kept).
  { assert (Hsynced : Frontmatter.plainLine ("last-synced: " +:+ now)).
    { apply (plainLine_field "l" "ast-synced: "); try done. by repeat constructor. }
    assert (Hzotero : Frontmatter.plainLine ("zotero-key: " +:+ key)).
    { apply (plainLine_field "z" "otero-key: "); try done. by repeat constructor. }
    subst parsed.
    unfold Frontmatter.parseFrontmatterTags, Frontmatter.renderFrontmatter.
    replace (before ++ Frontmatter.tagLines syncTag tags
             ++ ["last-synced: " +:+ now; "zotero-key: " +:+ key; "---"])
      with ((before ++ Frontmatter.tagLines syncTag tags ++ ["last-synced: " +:+ now])
            ++ ["zotero-key: " +:+ key; "---"])
      by (by rewrite <- !app_assoc).
    rewrite frontmatterOf_fenced; [|repeat apply Forall_app_2|apply Hzotero..].
    - unfold Frontmatter.tagLines. fold kept.
      clearbody kept. destruct kept as [|t ts].
      + simpl app. by rewrite tagsMatch_without_tags.
      + change ("last-synced: " +:+ now) with (String "l" ("ast-synced: " +:+ now)) in *.
        destruct (tagsMatch_with_tags before (t :: ts) "l" ("ast-synced: " +:+ now)
                    ("zotero-key: " +:+ key)) as (block & -> & Hblock); done.
    - eapply Forall_impl; [exact Hbefore|]. by intros line (? & ? & _).
    - apply tagLines_fenced.
    - constructor; [|constructor]. by destruct Hsynced as (? & ? & _). }
  split; [done|]. intros Htidy. rewrite Hparsed.
  apply tagsEqual_Permutation. rewrite <- list_fmap_compose.
  erewrite (list_fmap_ext (normalizeTag ∘ Str.spaces_to_hyphen)); [done|].
  intros i t Ht. apply Htidy, Hkept. by eapply list_elem_of_lookup_2.
Qed.

(** X24, run: the authors before the tags are no tags, the sync tag is not
    written, and the two tags come back with a hyphen for the space. *)
Lemma written_tags_witness :
  Frontmatter.parseFrontmatterTags
    (Frontmatter.renderFrontmatter Written.before "zotero-sync" Written.tags
       Written.now Written.key +:+ Written.rest)
  = ["machine-learning"; "To-Read"]
  ∧ tagsEqual
      (Frontmatter.parseFrontmatterTags
         (Frontmatter.renderFrontmatter Written.before "zotero-sync" Written.tags
            Written.now Written.key +:+ Written.rest))
      ["machine learning"; "To Read"] = true.
Proof.
  destruct (written_tags_are_read_back Written.before Written.tags "zotero-sync"
              Written.now Written.key Written.rest) as [Hparsed Hequal].
  - repeat constructor.
  - repeat constructor.
  - repeat constructor.
  - split; [exact Hparsed|]. apply Hequal. intros t Ht.
    repeat (apply elem_of_cons in Ht as [->|Ht]; [reflexivity|]).
    by apply elem_of_nil in Ht.
Defined.

(** An empty tag is read back as an empty tag, also at the end of the
    tags, where the line [last-synced] is taken into the block. *)
Example empty_tag_is_read_back :
  Frontmatter.parseFrontmatterTags
    (Frontmatter.renderFrontmatter Written.before "zotero-sync" ["a b"; "zotero-sync"; ""]
       Written.now Written.key)
  = ["a-b"; ""].
Proof. vm_compute. reflexivity. Qed.

(** ** [ensureFolderRecursive] *)

Section FolderLevels.

Import Levels.

Variable E : Env.

Lemma foldersAdded_refl paths w : foldersAdded paths w w.
Proof. unfold foldersAdded. split_and!; try done. by left. Qed.

Lemma foldersAdded_trans first rest w1 w2 w3 :
  foldersAdded [first] w1 w2 → foldersAdded rest w2 w3 →
  foldersAdded (first :: rest) w1 w3.
Proof.
  intros (? & ? & ? & ? & ? & ? & H12) (? & ? & ? & ? & ? & ? & H23).
  unfold foldersAdded. split_and!; try congruence.
  intros p. destruct (H23 p) as [Hsame|(Hfree & Hmade & Hp)].
  - destruct (H12 p) as [Hsame'|(Hfree' & Hmade' & Hp')].
    + left. congruence.
    + right. split_and!; [done|congruence|].
      apply list_elem_of_singleton in Hp' as ->. by left.
  - right. split_and!; [|done|by right].
    destruct (H12 p) as [Hsame'|(Hfree' & _)]; congruence.
Qed.

(** What is in the vault stays there. *)
Lemma foldersAdded_kept paths w w' p :
  foldersAdded paths w w' → is_Some (vault w !! p) → vault w' !! p = vault w !! p.
Proof.
  intros (_ & _ & _ & _ & _ & _ & Hvault) [f Hf].
  destruct (Hvault p) as [?|(Hfree & _)]; [done|congruence].
Qed.

(** One turn of the loop. *)
Lemma ensureFolder_level current w :
  ∃ o w',
    match vault w !! current with
    | None => vault_createFolder E current
    | Some _ => ret tt
    end w = Some (o, w')
    ∧ foldersAdded [current] w w'
    ∧ (o = Ok tt → is_Some (vault w' !! current)
                   ∧ (is_TFile (vault w !! current) = false →
                      vault w' !! current = Some TFolder))
    ∧ (∀ e, o = Throw e → vaultError E (OpCreateFolder current) w = Some e).
Proof.
  destruct (vault w !! current) as [f|] eqn:Hcurrent.
  - exists (Ok tt), w. split_and!; [done|apply foldersAdded_refl| |done].
    intros _. rewrite Hcurrent. split; [done|]. by destruct f.
  - unfold vault_createFolder, getAbstractFileByPath. unfold bind at 1, gets at 1.
    rewrite Hcurrent. unfold vault_write, bind, gets, throw, modify.
    destruct (vaultError E (OpCreateFolder current) w) as [e|] eqn:Hdisk.
    + exists (Throw e), w. split_and!; [done|apply foldersAdded_refl|done|].
      by intros e' [= <-].
    + eexists (Ok tt), _. split_and!; [done| | |done].
      * unfold foldersAdded. simpl. split_and!; try done. intros p.
        destruct (decide (p = current)) as [->|Hp].
        -- right. rewrite lookup_insert_eq. split_and!; [done|done|by left].
        -- left. by rewrite lookup_insert_ne.
      * intros _. simpl. by rewrite lookup_insert_eq.
Qed.

Lemma ensureFolderParts_levels (parts : list string) : ∀ current w,
  ∃ o w',
    ensureFolderParts E current parts w = Some (o, w')
    ∧ foldersAdded (levelsFrom current parts) w w'
    ∧ (o = Ok tt →
       (∀ p, p ∈ levelsFrom current parts → is_Some (vault w' !! p))
       ∧ ((∀ p, p ∈ levelsFrom current parts → is_TFile (vault w !! p) = false) →
          ∀ p, p ∈ levelsFrom current parts → vault w' !! p = Some TFolder))
    ∧ (∀ e, o = Throw e →
         ∃ p w0, p ∈ levelsFrom current parts
                 ∧ vaultError E (OpCreateFolder p) w0 = Some e).
Proof.
  induction parts as [|part parts IH]; intros current w.
  - exists (Ok tt), w. split_and!; [done|apply foldersAdded_refl| |done].
    intros _. split; [by intros p ?%elem_of_nil|by intros _ p ?%elem_of_nil].
  - cbn [ensureFolderParts levelsFrom].
    set (level := if Str.truthy current then current +:+ "/" +:+ part else part).
    destruct (ensureFolder_level level w) as (o1 & w1 & Hrun1 & Hadded1 & Hok1 & Hthrow1).
    unfold getAbstractFileByPath. unfold bind at 1, gets at 1.
    unfold bind at 1. rewrite Hrun1.
    destruct o1 as [[]|e].
    + destruct (IH level w1) as (o & w' & Hrun & Hadded & Hok & Hthrow).
      exists o, w'. rewrite Hrun. destruct (Hok1 eq_refl) as [Hsome1 Hfolder1].
      split_and!; [done|by eapply foldersAdded_trans| |].
      * intros Ho. destruct (Hok Ho) as [Hsome Hfolder]. split.
        -- intros p [->|Hp]%elem_of_cons; [|by apply Hsome].
           by rewrite (foldersAdded_kept _ _ _ _ Hadded Hsome1).
        -- intros Hfiles p [->|Hp]%elem_of_cons.
           ++ rewrite (foldersAdded_kept _ _ _ _ Hadded Hsome1).
              apply Hfolder1, Hfiles. by left.
           ++ apply Hfolder; [|done]. intros q Hq.
              destruct Hadded1 as (_ & _ & _ & _ & _ & _ & Hvault).
              destruct (Hvault q) as [->|(_ & -> & _)]; [|done].
              apply Hfiles. by right.
      * intros e He. destruct (Hthrow e He) as (p & w0 & Hp & Hdisk).
        exists p, w0. split; [by right|done].
    + exists (Throw e), w1. split_and!; [done| |done|].
      * eapply foldersAdded_trans; [done|apply foldersAdded_refl].
      * intros e' [= <-]. exists level, w. split; [by left|by apply Hthrow1].
Qed.

(** The last level is the path itself, unless the path starts with a
    slash: after an empty first part the loop starts again. *)
Lemma split_from_last (s : string) : ∀ cur current,
  Str.truthy current = true ∨ String.prefix "/" (String.rev cur +:+ s) = false →
  last (levelsFrom current (Str.split_from "/" cur s))
  = Some (if Str.truthy current then current +:+ "/" +:+ String.rev cur +:+ s
          else String.rev cur +:+ s).
Proof.
  induction s as [|c s IH]; intros cur current Hstart.
  - simpl. by rewrite Text_app_nil_r.
  - cbn [Str.split_from]. destruct (Ascii.eqb c "/") eqn:Hc.
    + apply Ascii.eqb_eq in Hc as ->. cbn [levelsFrom].
      set (level := if Str.truthy current then current +:+ "/" +:+ String.rev cur
                    else String.rev cur).
      assert (Hlevel : Str.truthy level = true).
      { subst level. destruct current as [|a current]; simpl Str.truthy; cbv iota.
        - destruct Hstart as [?|Hstart]; [done|].
          destruct (String.rev cur); [|done].
          rewrite Text_app_nil, prefix_cons, prefix_nil in Hstart.
          by destruct (ascii_dec "/" "/").
        - first [done|by rewrite Text_app_cons]. }
      rewrite last_cons, IH by (by left). rewrite Hlevel. subst level.
      change (String.rev "") with "". rewrite Text_app_nil.
      destruct (Str.truthy current); f_equal;
        by rewrite ?Text_append_assoc, ?Text_app_cons, ?Text_app_nil.
    + rewrite IH.
      * rewrite rev_cons, !Text_append_assoc, Text_app_cons, Text_app_nil. done.
      * destruct Hstart as [?|Hstart]; [by left|right].
        by rewrite rev_cons, !Text_append_assoc, Text_app_cons, Text_app_nil.
Qed.

Lemma levels_last (normalized : string) :
  String.prefix "/" normalized = false → normalized ∈ levels normalized.
Proof.
  intros Hstart. apply last_Some_elem_of. unfold levels, Str.split.
  rewrite split_from_last; [done|]. by right.
Qed.

End FolderLevels.

(** X25. [ensureFolderRecursive] always returns, and only makes folders:
    what it changes are paths of the levels of the folder that were free,
    and they are folders now. When it returns without error the folder path
    is in the vault, unless the path starts with a slash; either the path
    was a folder already and nothing has changed, or every level of it is in
    the vault, as a folder if no level was a file before. An error it throws
    is one the disk gave for making the folder of a level. *)
Theorem ensureFolderRecursive_makes_every_level (E : Env) (folderPath : string)
    (w : World) :
  let normalized := normalizePath E folderPath in
  ∃ o w',
    ensureFolderRecursive E folderPath w = Some (o, w')
    ∧ Levels.foldersAdded (Levels.levels normalized) w w'
    ∧ (o = Ok tt →
       (String.prefix "/" normalized = false → is_Some (vault w' !! normalized))
       ∧ (is_TFolder (vault w !! normalized) = true ∧ w' = w
          ∨ (∀ p, p ∈ Levels.levels normalized → is_Some (vault w' !! p))
            ∧ ((∀ p, p ∈ Levels.levels normalized → is_TFile (vault w !! p) = false) →
               ∀ p, p ∈ Levels.levels normalized → vault w' !! p = Some TFolder)))
    ∧ (∀ e, o = Throw e →
         ∃ p w0, p ∈ Levels.levels normalized
                 ∧ vaultError E (OpCreateFolder p) w0 = Some e).
Proof.
  intros normalized. unfold ensureFolderRecursive, getAbstractFileByPath.
  unfold bind at 1, gets at 1. fold normalized.
  destruct (is_TFolder (vault w !! normalized)) eqn:Hfolder.
  - exists (Ok tt), w. split_and!; [done|apply foldersAdded_refl| |done].
    intros _. split; [|by left]. intros _.
    by destruct (vault w !! normalized).
  - destruct (ensureFolderParts_levels E (Str.split "/" normalized) "" w)
      as (o & w' & Hrun & Hadded & Hok & Hthrow).
    exists o, w'. split_and!; [done|done| |done].
    intros Ho. destruct (Hok Ho) as [Hsome Hfolders]. split; [|by right].
    intros Hstart. by apply Hsome, levels_last.
Qed.

(** X25, run: under the folder [Maintenance] the two levels below are
    made, and nothing else is changed. *)
Example ensureFolderRecursive_run :
  ensureFolderRecursive (Test.env [] 0 false) "Maintenance/Attachments/smith2020"
    (Test.start Test.defaults Levels.files)
  = Some (Ok tt,
          Test.start Test.defaults
            (<["Maintenance/Attachments/smith2020" := TFolder]>
               (<["Maintenance/Attachments" := TFolder]> Levels.files))).
Proof. vm_compute. reflexivity. Qed.

(** ** The notices of a run *)

Global Instance notices_kept_preorder : PreOrder notices_kept.
Proof.
  split; [by intros w|]. unfold notices_kept. intros w1 w2 w3 H12 H23. congruence.
Qed.

Lemma notices_kept_same w w' : notices w' = notices w → notices_kept w w'.
Proof. done. Qed.

(** The body of a cycle shows no notice. *)
Lemma syncAll_try_notices E fuel : keeps (on_world notices_kept) (syncAll_try E fuel).
Proof.
  apply (cycle_syncAll_try E notices_kept);
    first [ typeclasses eauto
          | by (intros; apply notices_kept_same)
          | (intros; apply keeps_resolveFilename)
          | (intros; apply keeps_syncTagsTwoWay) ];
    same_updates notices_kept_same.
Qed.

Lemma syncAll_notices E fuel w r w' :
  isSyncing w = false → syncAll E fuel w = Some (r, w') → notices w' = notices w.
Proof.
  unfold syncAll. intros ->.
  destruct (syncAll_try E fuel _) as [[o c']|] eqn:Hrun; [|done].
  apply syncAll_try_notices in Hrun. unfold finish. intros [= _ <-]. exact Hrun.
Qed.

(** X26. The notices of a run of the full cycle. Without API key or user id
    the run asks for them, unless it is silent, and does nothing else.
    Otherwise it returns when [syncAll] does, and shows: two notices when a
    cycle is in progress already, silent or not; else the first error of
    the cycle, if there is one; else nothing when it is silent, and one
    notice when it is not, which says [everything up to date] exactly when
    nothing was created or updated. *)
Theorem run_shows_errors_even_when_silent (E : Env) (getApiKey : option string)
    (fuel : nat) (silent : bool) (w : World) :
  let failed e := "Zotero sync completed with errors:" +:+ Text.newline +:+ e in
  match Plugin.runSync E getApiKey fuel silent w with
  | None =>
      Str.truthy (default "" getApiKey) = true
      ∧ Str.truthy (userId (settings w)) = true
      ∧ syncAll E fuel w = None
  | Some w' =>
      ∃ shown,
        notices w' = notices w ++ shown
        ∧ ((Str.truthy (default "" getApiKey) = false
            ∨ Str.truthy (userId (settings w)) = false) →
           shown = (if silent then []
                    else ["Zotero Connector: Please configure API key and User ID in settings."])
           ∧ settings w' = settings w ∧ vault w' = vault w ∧ patches w' = patches w)
        ∧ (Str.truthy (default "" getApiKey) = true →
           Str.truthy (userId (settings w)) = true →
           ∃ r w0,
             syncAll E fuel w = Some (r, w0)
             ∧ (isSyncing w = true →
                shown = ["Zotero sync already in progress";
                         failed "Sync already in progress"])
             ∧ (isSyncing w = false →
                match errors r with
                | e :: _ => shown = [failed e]
                | [] =>
                    if silent then shown = []
                    else ∃ n, shown = [n]
                              ∧ (n = "Zotero: everything up to date"
                                 ↔ created r = 0%nat ∧ updated r = 0%nat)
                end))
  end.
Proof.
  intros failed. unfold Plugin.runSync.
  destruct (Str.truthy (default "" getApiKey)) eqn:Hkey; simpl.
  2: { exists (if silent then []
               else ["Zotero Connector: Please configure API key and User ID in settings."]).
       split_and!; [destruct silent; simpl; by rewrite ?app_nil_r| |done].
       intros _. by destruct silent. }
  destruct (Str.truthy (userId (settings w))) eqn:Huser; simpl.
  2: { exists (if silent then []
               else ["Zotero Connector: Please configure API key and User ID in settings."]).
       split_and!; [destruct silent; simpl; by rewrite ?app_nil_r| |done].
       intros _. by destruct silent. }
  destruct (syncAll E fuel w) as [[r w0]|] eqn:Hrun; [|done].
  destruct (isSyncing w) eqn:Hbusy.
  - unfold syncAll in Hrun. rewrite Hbusy in Hrun. injection Hrun as <- <-.
    eexists. split_and!; [simpl; by rewrite <- app_assoc|by intros [?|?]|].
    intros _ _. eexists _, _. split_and!; [done|done|done].
  - pose proof (syncAll_notices E fuel w r w0 Hbusy Hrun) as Hnotices.
    unfold Plugin.showSyncResult. destruct (errors r) as [|e rest] eqn:Herrors.
    + destruct silent; simpl.
      * exists []. rewrite app_nil_r. split_and!; [done|by intros [?|?]|].
        intros _ _. exists r, w0. rewrite Herrors. done.
      * destruct (Nat.ltb 0 (created r) || Nat.ltb 0 (updated r))%bool eqn:Hsome.
        -- eexists [_]. split_and!; [simpl; by rewrite Hnotices|by intros [?|?]|].
           intros _ _. exists r, w0. rewrite Herrors. split_and!; [done|done|].
           intros _. eexists. split; [done|]. split; [done|].
           intros [Hc Hu]. rewrite Hc, Hu in Hsome. done.
        -- apply orb_false_iff in Hsome as [Hc%Nat.ltb_ge Hu%Nat.ltb_ge].
           assert (created r = 0%nat) as Hc0 by lia.
           assert (updated r = 0%nat) as Hu0 by lia.
           rewrite Hc0, Hu0. simpl.
           eexists [_]. split_and!; [simpl; by rewrite Hnotices|by intros [?|?]|].
           intros _ _. exists r, w0. rewrite Herrors. split_and!; [done|done|].
           intros _. eexists. split; [done|]. done.
    + eexists [_]. split_and!; [simpl; by rewrite Hnotices|by intros [?|?]|].
      intros _ _. exists r, w0. rewrite Herrors. done.
Qed.

(** X26, run: a cycle that finds nothing at the remote says so, and says
    nothing when it is silent; a cycle in progress is reported twice. *)
Example run_notices :
  (notices <$> Plugin.runSync (Test.env [] 0 false) (Some "key") 1 false
                 (Test.start Test.defaults ∅))
  = Some ["Zotero: everything up to date"]
  ∧ (notices <$> Plugin.runSync (Test.env [] 0 false) (Some "key") 1 true
                   (Test.start Test.defaults ∅))
    = Some []
  ∧ (notices <$> Plugin.runSync (Test.env [] 0 false) (Some "key") 1 true
                   (set_isSyncing true (Test.start Test.defaults ∅)))
    = Some ["Zotero sync already in progress";
            "Zotero sync completed with errors:" +:+ Text.newline
            +:+ "Sync already in progress"].
Proof. split_and!; vm_compute; reflexivity. Qed.

(** ** The key of a note is read back *)

Section NoteKeyFacts.

Import Frontmatter NoteKey.

Local Abbreviation lines_then :=
  (fold_right (λ line acc : string, line +:+ Text.newline +:+ acc)).

Lemma keyMatch_eq atLineStart content :
  keyMatch atLineStart content
  = match (if (atLineStart && String.prefix "zotero-key:" content)%bool
           then value (Text.drop 11 content) else None) with
    | Some found => Some found
    | None =>
        match content with
        | EmptyString => None
        | String c content' => keyMatch (is_line_terminator c) content'
        end
    end.
Proof. by destruct content. Qed.

Lemma keyMatch_inside line rest :
  oneLine line →
  keyMatch false (line +:+ Text.newline +:+ rest) = keyMatch true rest.
Proof.
  induction line as [|c line IH]; intros Hone; rewrite keyMatch_eq.
  - by rewrite Text_app_nil.
  - apply oneLine_cons in Hone as [Hc Hone].
    rewrite Text_app_cons. simpl andb. cbv iota. rewrite Hc. by apply IH.
Qed.

Lemma keyMatch_skip_line line rest :
  oneLine line → String.prefix "zotero-key:" line = false →
  keyMatch true (line +:+ Text.newline +:+ rest) = keyMatch true rest.
Proof.
  intros Hone Hline. rewrite keyMatch_eq.
  rewrite prefix_line; [|done|by repeat constructor]. simpl andb. cbv iota.
  destruct line as [|c line].
  - by rewrite Text_app_nil.
  - apply oneLine_cons in Hone as [Hc Hone]. rewrite Text_app_cons, Hc.
    by apply keyMatch_inside.
Qed.

Lemma keyMatch_skip_lines (body : list string) (tail : string) :
  Forall (λ line, oneLine line ∧ String.prefix "zotero-key:" line = false) body →
  keyMatch true (lines_then tail body) = keyMatch true tail.
Proof.
  induction 1 as [|line body [Hone Hline] Hbody IH]; simpl; [done|].
  by rewrite keyMatch_skip_line.
Qed.

Lemma keyMatch_key_line key tail :
  key ≠ "" →
  Forall (λ c, Str.is_space c = false) (list_ascii_of_string key) →
  keyMatch true (("zotero-key: " +:+ key) +:+ Text.newline +:+ tail) = Some key.
Proof.
  intros Hsome Hchars.
  assert (Hbody : span (λ c, negb (is_line_terminator c)) (key +:+ Text.newline +:+ tail)
                  = (key, Text.newline +:+ tail)).
  { apply span_app; [|apply span_newline]. eapply Forall_impl; [exact Hchars|].
    intros c Hc. simpl. by rewrite no_space_no_terminator. }
  destruct key as [|c key]; [done|].
  rewrite chars_cons in Hchars. apply Forall_cons in Hchars as [Hc Hchars].
  rewrite keyMatch_eq.
  change "zotero-key: " with ("zotero-key:" +:+ " "). rewrite !Text_append_assoc, prefix_app.
  change 11%nat with (String.length "zotero-key:"). rewrite Text_drop_app.
  simpl andb. cbv iota. unfold value.
  rewrite (Text_app_cons " "), Text_app_nil, span_cons.
  change (Str.is_space " ") with true. cbv iota.
  rewrite (Text_app_cons c), span_cons, Hc. simpl fst. simpl snd. cbv iota beta.
  rewrite (Text_app_cons c) in Hbody.
  change (Some (span (λ c, negb (is_line_terminator c))
                  (String c (key +:+ Text.newline +:+ tail))).1 = Some (String c key)).
  by rewrite Hbody.
Qed.

Lemma tagLines_no_key (syncTag : string) (tags : list string) :
  Forall (λ line, oneLine line ∧ String.prefix "zotero-key:" line = false)
    (tagLines syncTag tags).
Proof.
  unfold tagLines. destruct (List.filter _ tags) as [|t ts]; [constructor|].
  constructor; [split; [by repeat constructor|done]|].
  apply Forall_fmap, Forall_true. intros t'. split; [apply oneLine_tagLine|].
  rewrite !Text_app_cons, !prefix_cons. by destruct (ascii_dec "z" "-").
Qed.

End NoteKeyFacts.

(** X27. The key [renderFrontmatter] writes is the key [syncCurrentNote]
    reads: from a document that starts with the frontmatter as it is
    rendered, whatever its tags and whatever follows it, the key found is
    the key of the item. The key is not empty and has no white space; no
    line before the tags starts with [zotero-key:] or has a line break, and
    the time has none. *)
Theorem written_key_is_read_back (before tags : list string)
    (syncTag now key rest : string) :
  Forall (λ line, Frontmatter.oneLine line
                  ∧ String.prefix "zotero-key:" line = false) before →
  Frontmatter.oneLine now →
  key ≠ "" →
  Forall (λ c, Str.is_space c = false) (list_ascii_of_string key) →
  NoteKey.zoteroKeyOf (Frontmatter.renderFrontmatter before syncTag tags now key +:+ rest)
  = Some key.
Proof.
  intros Hbefore Hnow Hsome Hchars.
  unfold NoteKey.zoteroKeyOf, Frontmatter.renderFrontmatter.
  replace (["---"] ++ before ++ Frontmatter.tagLines syncTag tags
           ++ ["last-synced: " +:+ now; "zotero-key: " +:+ key; "---"])
    with (((["---"] ++ before ++ Frontmatter.tagLines syncTag tags
            ++ ["last-synced: " +:+ now]) ++ ["zotero-key: " +:+ key]) ++ ["---"])
    by (by rewrite <- !app_assoc).
  rewrite join_then, lines_then_snoc, lines_then_app, keyMatch_skip_lines.
  - rewrite !Text_append_assoc.
    rewrite <- (Text_append_assoc "zotero-key: " key), keyMatch_key_line by done.
    simpl. f_equal. by apply trim_fixed.
  - repeat apply Forall_app_2; [by repeat constructor|done|apply tagLines_no_key|].
    constructor; [|constructor]. split; [|done].
    apply oneLine_app; [by repeat constructor|done].
Qed.

(** X27, run: the key of the frontmatter with the authors and the tags. *)
Lemma written_key_witness :
  NoteKey.zoteroKeyOf
    (Frontmatter.renderFrontmatter Written.before "zotero-sync" Written.tags
       Written.now Written.key +:+ Written.rest)
  = Some "ABCD1234".
Proof.
  apply (written_key_is_read_back Written.before Written.tags "zotero-sync"
           Written.now Written.key Written.rest).
  - repeat constructor.
  - repeat constructor.
  - done.
  - repeat constructor.
Defined.

(** Why the key may not be empty: the white space after the colon goes on
    over the line feed, and the fence is read as the key. *)
Example empty_key_reads_the_fence :
  NoteKey.zoteroKeyOf
    (Frontmatter.renderFrontmatter Written.before "zotero-sync" Written.tags
       Written.now "")
  = Some "---".
Proof. vm_compute. reflexivity. Qed.

(** ** Registering the notes there are *)

Global Instance registered_preorder : PreOrder Register.registered.
Proof.
  split.
  - intros w. unfold Register.registered. split_and!; try reflexivity. by left.
  - intros w1 w2 w3 (Hv12 & Hc12 & Hf12 & Hp12 & Hi12) (Hv23 & Hc23 & Hf23 & Hp23 & Hi23).
    unfold Register.registered. split_and!.
    + congruence.
    + by etrans.
    + by etrans.
    + by etrans.
    + intros k. destruct (Hi23 k) as [-> | ->]; [apply Hi12|by right].
Qed.

Section RegisterLoop.

Import Register.





End RegisterLoop.

Section Registration.

Import Register.

Variable E : Env.
Variable getApiKey : option string.
Variable scanNotes : gmap string TAbstractFile → list (string * NoteInfo).
Variable requestByKeys : list string → World → outcome (list ZoteroItem).




(** *** The loop over the items fetched *)







End Registration.


(** X28, run: of two notes, the first keeps the name and the version it
    has, the second is registered under the name of its file with the
    version 0, and the cursor is back at 0. *)
Example registerExistingNotes_run :
  ∃ w',
    Register.registerExistingNotes (Test.env [] 0 false) (Some "key")
      (λ _, Register.notes) (λ batch _, Ok (Remote.known batch)) Register.before
    = Some (Ok tt, w')
    ∧ itemFilenames (settings w') = {[ "K1" := "K1"; "K2" := "Jones 2021" ]}
    ∧ itemVersions (settings w') = {[ "K1" := 7; "K2" := 0 ]}
    ∧ lastSyncVersion (settings w') = 0
    ∧ patches w' = [].
Proof. eexists. split; [vm_compute; reflexivity|]. vm_compute. done. Qed.

(** * The cycle run twice *)

Global Instance version_kept_at_preorder itemKey : PreOrder (version_kept_at itemKey).
Proof.
  split; [by intros w|]. unfold version_kept_at. intros w1 w2 w3 H12 H23. congruence.
Qed.

Lemma prefix_same_length {A} (l1 l2 : list A) :
  l1 `prefix_of` l2 → (length l2 ≤ length l1)%nat → l1 = l2.
Proof.
  intros [k ->] Hlen. rewrite length_app in Hlen.
  destruct k; [by rewrite app_nil_r|simpl in Hlen; lia].
Qed.

Section RunTwice.

Variable E : Env.

(** ** What the first cycle leaves *)

Lemma regenerate_version_kept_at k it syncData filePath existingFile :
  k ≠ key it →
  keeps (on_world (version_kept_at k)) (regenerate E it syncData filePath existingFile).
Proof.
  intros Hk c o c1 H. unfold regenerate in H.
  apply bind_Some in H as [(e & H & _)|([] & c' & Hwrite & Hversion)].
  - apply rewriteDocument_quiet in H as [H _]. unfold on_world, version_kept_at.
    by rewrite H.
  - apply rewriteDocument_quiet in Hwrite as [Hwrite _].
    apply liftW_Some in Hversion as (w' & Hversion & ->).
    destruct (update_then_save E
                (λ s, with_itemVersions (<[key it := version it]> (itemVersions s)) s)
                (world c')) as (o' & w'' & Hset & Hsettings & _).
    unfold setItemVersion in Hversion. rewrite Hversion in Hset.
    injection Hset as <- <-.
    unfold on_world, version_kept_at. simpl. rewrite Hsettings. simpl.
    rewrite lookup_insert_ne by done. by rewrite Hwrite.
Qed.

Lemma syncItem_version_kept_at k total processed it :
  k ≠ key it →
  keeps (on_world (version_kept_at k)) (syncItem E total processed it).
Proof.
  intros Hk.
  assert (Hlift : ∀ c w', versions_kept (world c) w' →
                          on_world (version_kept_at k) c
                            {| world := w'; result := result c |}).
  { intros c w' H. unfold on_world, version_kept_at. simpl. by rewrite H. }
  pose proof (resolveFilename_versions E). pose proof (shouldSkip_versions E).
  pose proof (buildSyncData_versions E).
  pose proof (λ syncData filePath existingFile,
                regenerate_version_kept_at k it syncData filePath existingFile Hk).
  unfold syncItem. keeps_go.
  - by apply versions_kept_same.
  - unfold getAbstractFileByPath. keeps_go.
  - done.
Qed.

Lemma forEachItem_version_kept_at k total items : ∀ processed,
  k ∉ key <$> items →
  keeps (on_world (version_kept_at k)) (forEachItem E total processed items).
Proof.
  induction items as [|it items IH]; intros processed Hk; simpl.
  - keeps_go.
  - rewrite fmap_cons, not_elem_of_cons in Hk. destruct Hk as [Hhead Hrest].
    pose proof (syncItem_version_kept_at k total (S processed) it Hhead).
    pose proof (IH (S processed) Hrest).
    keeps_go. done.
Qed.

Lemma forEachItem_filenames total items processed :
  keeps (on_world filenames_kept) (forEachItem E total processed items).
Proof.
  apply (cycle_forEachItem E filenames_kept);
    first [ typeclasses eauto
          | by (intros; apply filenames_kept_same)
          | (intros; apply resolveFilename_filenames)
          | (intros; apply keeps_syncTagsTwoWay) ];
    same_updates filenames_kept_same.
Qed.

Lemma forEachItem_configuration total items processed :
  keeps (on_world configuration_kept) (forEachItem E total processed items).
Proof.
  apply (cycle_forEachItem E configuration_kept);
    first [ typeclasses eauto
          | by (intros; apply configuration_kept_same)
          | (intros; apply keeps_resolveFilename)
          | (intros; apply keeps_syncTagsTwoWay) ];
    same_updates configuration_kept_same.
Qed.

Lemma forEachItem_docs total items processed :
  keeps (on_world docs_kept) (forEachItem E total processed items).
Proof. apply keeps_forEachItem with (R := docs_kept); docs_kept_updates. Qed.

(** A record stays tracked as long as the file names, the output folder,
    the documents and its version baseline are kept. *)
Lemma tracked_kept w w' it :
  filenames_kept w w' →
  outputFolder (settings w') = outputFolder (settings w) →
  docs_kept w w' →
  version_kept_at (key it) w w' →
  tracked E w it → tracked E w' it.
Proof.
  intros Hnames Hfolder Hdocs Hversion (filename & v & Hname & Htruthy & Hfile & Hv & Hle).
  exists filename, v. split_and!; [by apply Hnames|done| |by rewrite Hversion|done].
  apply Hdocs. unfold filePathOf in *. by rewrite Hfolder.
Qed.

Lemma resolveFilename_truthy itemKey it w filename w' :
  (∀ s, Str.truthy (generateFilename E it s) = true) →
  resolveFilename E itemKey it w = Some (Ok filename, w') →
  Str.truthy filename = true.
Proof.
  intros Hgenerated. unfold resolveFilename. intros Hrun.
  unfold bind at 1, gets at 1 in Hrun.
  destruct (Str.truthy (default "" (itemFilenames (settings w) !! itemKey)))
    eqn:Hstored.
  - by injection Hrun as <- _.
  - unfold bind at 1, gets at 1 in Hrun. unfold bind at 1, modify at 1 in Hrun.
    apply bind_Some in Hrun as [(? & _ & [=])|([] & w1 & _ & [= <- _])].
    apply Hgenerated.
Qed.

(** The file name [syncItem] has worked with is the name stored when it
    returns. *)
Lemma syncItem_named total processed it c c' :
  (∀ s, Str.truthy (generateFilename E it s) = true) →
  syncItem E total processed it c = Some (Ok tt, c') →
  ∀ filename,
    itemFilenames (settings (world c')) !! key it = Some filename →
    Str.truthy filename = true.
Proof.
  intros Hgenerated H filename' Hstored'. unfold syncItem in H.
  apply bind_Some in H as [(? & _ & [=])|([] & c1 & Hprogress & H)].
  apply liftW_Some in Hprogress as (w1 & _ & ->).
  apply bind_Some in H as [(? & _ & [=])|(filename & c2 & Hname & H)].
  apply liftW_Some in Hname as (w2 & Hname & ->). simpl in *.
  pose proof (resolveFilename_truthy _ _ _ _ _ Hgenerated Hname) as Htruthy.
  apply resolveFilename_Ok in Hname as (Hstored & _ & _).
  assert (Hkept : on_world filenames_kept {| world := w2; result := result c |} c').
  { revert H.
    match goal with |- ?m ?c2 = _ → _ => assert (Hkeeps : keeps (on_world filenames_kept) m) end.
    { pose proof (on_world_lift filenames_kept).
      pose proof (λ it filePath existingFile,
                    keeps_shouldSkip E filenames_kept _ it filePath existingFile).
      keeps_go.
      - unfold getAbstractFileByPath. keeps_go.
      - unfold on_world. simpl. reflexivity.
      - apply keeps_buildSyncData; same_updates filenames_kept_same.
      - apply (cycle_regenerate E filenames_kept);
          first [ typeclasses eauto
                | by (intros; apply filenames_kept_same)
                | (intros; apply keeps_syncTagsTwoWay) ];
          same_updates filenames_kept_same. }
    apply Hkeeps. }
  unfold on_world in Hkept. simpl in Hkept.
  specialize (Hkept _ _ Hstored Htruthy). congruence.
Qed.

(** A loop that has recorded no error leaves every record tracked, when
    each comes once and has a file name that is not empty. *)
Lemma forEachItem_tracks total items : ∀ processed c c',
  forEachItem E total processed items c = Some (Ok tt, c') →
  errors (result c') = errors (result c) →
  NoDup (key <$> items) →
  (∀ it s, it ∈ items → Str.truthy (generateFilename E it s) = true) →
  ∀ it, it ∈ items → tracked E (world c') it.
Proof.
  induction items as [|head items IH]; intros processed c c' Hrun Herrors Hkeys Hnames it Hit.
  { by apply elem_of_nil in Hit. }
  simpl in Hrun.
  apply bind_Some in Hrun as [(? & _ & [=])|([] & c1 & Hhead & Hrest)].
  rewrite fmap_cons in Hkeys. apply NoDup_cons in Hkeys as [Hfresh Hkeys].
  assert (Herrors1 : errors (result c1) = errors (result c)
                     ∧ errors (result c') = errors (result c1)).
  { assert (H1 : errors_kept c c1).
    { revert Hhead. apply (keeps_try_catch errors_kept).
      - apply keeps_syncItem with (R := λ _ _, True);
          first [ typeclasses eauto | done
                | by (intros; unfold errors_kept; simpl; try apply prefix_app_r)
                | split; done ].
      - intros e c0 o c0' [= _ <-]. unfold errors_kept. simpl. apply prefix_app_r.
        done. }
    pose proof (forEachItem_errors_kept E _ _ _ _ _ _ Hrest) as H2.
    unfold errors_kept in H1, H2.
    assert (errors (result c) = errors (result c1)) as Heq.
    { apply prefix_same_length; [done|]. rewrite <- Herrors.
      destruct H2 as [more ->]. rewrite length_app. lia. }
    split; [done|]. by rewrite Herrors. }
  destruct Herrors1 as [Herrors1 Herrors2].
  apply try_catch_Some in Hhead as [([] & Hhead & _)|(e & c0 & Hhead & [= Hpush])].
  2: { apply syncItem_errors in Hhead. rewrite <- Hpush in Herrors1.
       simpl in Herrors1. rewrite Hhead in Herrors1.
       apply (f_equal length) in Herrors1. rewrite length_app in Herrors1.
       simpl in Herrors1. lia. }
  apply elem_of_cons in Hit as [->|Hit].
  - assert (Hhere : tracked E (world c1) head).
    { pose proof (syncItem_named _ _ _ _ _
                    (λ s, Hnames head s (list_elem_of_here _ _)) Hhead) as Htruthy.
      apply syncItem_Ok in Hhead as (filename & v & Hname & Hfile & Hv & Hle & _).
      exists filename, v. split_and!; try done. by apply Htruthy. }
    revert Hhere. apply tracked_kept.
    + exact (forEachItem_filenames _ _ _ _ _ _ Hrest).
    + pose proof (forEachItem_configuration _ _ _ _ _ _ Hrest) as Hconf.
      unfold on_world, configuration_kept, configuration in Hconf. congruence.
    + exact (forEachItem_docs _ _ _ _ _ _ Hrest).
    + exact (forEachItem_version_kept_at _ _ _ _ Hfresh _ _ _ Hrest).
  - apply (IH _ _ _ Hrest Herrors2 Hkeys); [|done].
    intros it' s Hit'. apply Hnames. by apply list_elem_of_further.
Qed.

(** ** The second cycle *)

(** A record stays settled as long as the settings and the files are as
    they were. *)
Lemma settled_kept w w' it :
  settings w' = settings w →
  (∀ path content, vault w !! path = Some (TFile content) →
                   vault w' !! path = Some (TFile content)) →
  settled E w it → settled E w' it.
Proof.
  intros Hsettings Hfiles
    (filename & content & v & Hname & Htruthy & Hfile & Hv & Hle & Himages & Htags).
  exists filename, content, v. rewrite Hsettings.
  split_and!; [done|done|by apply Hfiles|done|done| |].
  - unfold missingImages, hasLocalCache in *. by rewrite Hsettings.
  - unfold tagDrift in *. by rewrite Hsettings.
Qed.

Lemma tracked_at_rest w it : tracked E w it → atRest E w it → settled E w it.
Proof.
  intros (filename & v & Hname & Htruthy & Hfile & Hv & Hle) Hrest.
  destruct (vault w !! filePathOf E (settings w) filename) as [[content|]|] eqn:Hdoc;
    [|done..].
  destruct (Hrest filename content Hname Hdoc) as [Himages Htags].
  exists filename, content, v. by split_and!.
Qed.

Lemma shouldSkip_settled it filename content v w :
  vault w !! filePathOf E (settings w) filename = Some (TFile content) →
  itemVersions (settings w) !! key it = Some v →
  version it ≤ v →
  ¬ missingImages E w content →
  ¬ tagDrift E w (key it) content →
  shouldSkip E it (filePathOf E (settings w) filename)
    (vault w !! filePathOf E (settings w) filename) w = Some (Ok true, w).
Proof.
  intros Hfile Hv Hle Himages Htags.
  destruct (hasMissingImageAnnotations_run E _ content w Hfile) as (b1 & Hrun1 & Hb1).
  destruct (hasLocalTagChanges_run E _ (key it) content w Hfile) as (b2 & Hrun2 & Hb2).
  assert (b1 = false) as -> by (destruct b1; [by destruct Himages; apply Hb1|done]).
  assert (b2 = false) as -> by (destruct b2; [by destruct Htags; apply Hb2|done]).
  unfold shouldSkip, isItemChanged.
  unfold bind at 1. unfold bind at 1, gets at 1, ret at 1. rewrite Hv.
  rewrite bool_decide_eq_false_2 by lia. rewrite Hfile. simpl.
  unfold bind at 1. rewrite Hrun1. unfold bind at 1. by rewrite Hrun2.
Qed.

(** A settled record is skipped: the progress call and the count, and
    nothing else. *)
Lemma syncItem_settled total processed it c :
  settled E (world c) it →
  syncItem E total processed it c
  = Some (Ok tt, {| world := add_progress (processed, total) (world c);
                    result := incr_skipped (result c) |}).
Proof.
  intros (filename & content & v & Hname & Htruthy & Hfile & Hv & Hle & Himages & Htags).
  set (w1 := add_progress (processed, total) (world c)).
  set (c1 := {| world := w1; result := result c |}).
  assert (Hsettled1 : settled E w1 it).
  { apply (settled_kept (world c)); [done|done|].
    exists filename, content, v. by split_and!. }
  unfold syncItem.
  unfold bind at 1.
  change (liftW (modify (add_progress (processed, total))) c) with (Some (Ok tt, c1)).
  cbv iota beta.
  assert (Hresolve : resolveFilename E (key it) it w1 = Some (Ok filename, w1)).
  { unfold resolveFilename, bind, gets, ret. simpl. rewrite Hname. simpl.
    by rewrite Htruthy. }
  unfold bind at 1. rewrite (liftW_run _ c1 _ _ Hresolve).
  change {| world := w1; result := result c1 |} with c1. cbv iota beta.
  unfold bind at 1. rewrite liftW_gets_eq. cbv iota beta.
  unfold bind at 1. unfold getAbstractFileByPath. rewrite liftW_gets_eq. cbv iota beta.
  assert (Hskip : shouldSkip E it (filePathOf E (settings w1) filename)
                    (vault w1 !! filePathOf E (settings w1) filename) w1
                  = Some (Ok true, w1)).
  { by apply (shouldSkip_settled it filename content v). }
  unfold bind at 1. change (world c1) with w1. rewrite (liftW_run _ c1 _ _ Hskip).
  done.
Qed.

(** The loop over settled records skips them all. *)
Lemma forEachItem_settled total items : ∀ processed c,
  (∀ it, it ∈ items → settled E (world c) it) →
  ∃ c',
    forEachItem E total processed items c = Some (Ok tt, c')
    ∧ settings (world c') = settings (world c)
    ∧ saved (world c') = saved (world c)
    ∧ vault (world c') = vault (world c)
    ∧ patches (world c') = patches (world c)
    ∧ isSyncing (world c') = isSyncing (world c)
    ∧ created (result c') = created (result c)
    ∧ updated (result c') = updated (result c)
    ∧ skipped (result c') = (skipped (result c) + length items)%nat
    ∧ errors (result c') = errors (result c).
Proof.
  induction items as [|head items IH]; intros processed c Hsettled; simpl.
  { exists c. split_and!; first [done|lia]. }
  unfold bind at 1. unfold try_catch.
  rewrite (syncItem_settled _ _ _ _ (Hsettled head (list_elem_of_here _ _))).
  cbv iota beta.
  destruct (IH (S processed)
              {| world := add_progress (S processed, total) (world c);
                 result := incr_skipped (result c) |}) as (c' & Hrun & Hrest).
  { intros it Hit. simpl. apply (settled_kept (world c)); [done|done|].
    apply Hsettled. by apply list_elem_of_further. }
  exists c'. split; [exact Hrun|]. simpl in Hrest.
  destruct Hrest as (? & ? & ? & ? & ? & ? & ? & ? & ?).
  split_and!; first [done|lia].
Qed.

(** ** The course of a cycle that has fetched its items *)

Lemma ensureFolder_cases folderPath w :
  (∃ e, ensureFolder E folderPath w = Some (Throw e, w))
  ∨ ∃ w',
      ensureFolder E folderPath w = Some (Ok tt, w')
      ∧ settings w' = settings w ∧ saved w' = saved w
      ∧ patches w' = patches w ∧ isSyncing w' = isSyncing w
      ∧ ∀ path f, vault w !! path = Some f → vault w' !! path = Some f.
Proof.
  unfold ensureFolder, vault_createFolder, vault_write, getAbstractFileByPath,
    bind, gets, throw, modify, ret. simpl.
  destruct (vault w !! normalizePath E folderPath) eqn:Hfree.
  { right. exists w. by split_and!. }
  rewrite Hfree.
  destruct (vaultError E (OpCreateFolder (normalizePath E folderPath)) w) as [e|].
  { left. by exists e. }
  right. eexists. split; [reflexivity|]. simpl. split_and!; try done.
  intros path f Hpath. rewrite lookup_insert_ne; [done|]. intros <-. congruence.
Qed.

Lemma setLibraryVersion_cases v w :
  ∃ o w',
    setLibraryVersion E v w = Some (o, w')
    ∧ settings w' = with_lastSyncVersion v (settings w)
    ∧ vault w' = vault w ∧ patches w' = patches w ∧ isSyncing w' = isSyncing w
    ∧ (saved w' = settings w' ∨ saved w' = saved w)
    ∧ (o = Ok tt → saved w' = settings w').
Proof.
  unfold setLibraryVersion, saveSettings, bind, gets, throw, modify. simpl.
  destruct (saveDataError E (set_settings (with_lastSyncVersion v) w)) as [e|].
  - eexists _, _. split; [reflexivity|]. simpl. split_and!; try done. by right.
  - eexists _, _. split; [reflexivity|]. simpl. split_and!; try done. by left.
Qed.

(** A cycle that has fetched [items] stops with the state as it was, and
    without error only when there is no item and a cursor, or goes on to the
    loop. *)
Lemma syncAll_try_cases fuel c items lv :
  let s := settings (world c) in
  let since :=
    if bool_decide (0 < lastSyncVersion s) then Some (lastSyncVersion s) else None in
  fetchItemsByTag E fuel (syncTag s) since (world c) = Some (Ok (items, lv), world c) →
  (∃ o, syncAll_try E fuel c = Some (o, c)
        ∧ (o = Ok tt → items = [] ∧ 0 < lastSyncVersion s))
  ∨ ((items ≠ [] ∨ ¬ 0 < lastSyncVersion s)
     ∧ ∃ w1,
         settings w1 = s ∧ saved w1 = saved (world c)
         ∧ patches w1 = patches (world c) ∧ isSyncing w1 = isSyncing (world c)
         ∧ (∀ path f, vault (world c) !! path = Some f → vault w1 !! path = Some f)
         ∧ syncAll_try E fuel c
           = bind (forEachItem E (length (List.filter isTopLevel items)) 0
                     (List.filter isTopLevel items))
               (λ _, if bool_decide (0 < lv) then liftW (setLibraryVersion E lv)
                     else ret tt)
               {| world := w1; result := result c |}).
Proof.
  intros s since Hfetch.
  destruct (Str.truthy (userId s)) eqn:Huser; cycle 1.
  { left. exists (Throw "User ID is required. Configure it in settings.").
    split; [|discriminate].
    unfold syncAll_try. unfold bind at 1. rewrite liftW_gets_eq. fold s.
    rewrite Huser. reflexivity. }
  destruct (fetchCollections E (world c)) as [[]|e] eqn:Hcollections; cycle 1.
  { left. exists (Throw e). split; [|discriminate].
    unfold syncAll_try. unfold bind at 1. rewrite liftW_gets_eq. fold s.
    rewrite Huser. change (negb true) with false. cbv iota.
    unfold bind at 1. by rewrite liftW_ask_eq, Hcollections. }
  destruct (Nat.eqb (length items) 0 && bool_decide (0 < lastSyncVersion s))%bool
    eqn:Hnone.
  { left. exists (Ok tt). split.
    - unfold syncAll_try. unfold bind at 1. rewrite liftW_gets_eq. fold s.
      rewrite Huser. change (negb true) with false. cbv iota.
      unfold bind at 1. rewrite liftW_ask_eq, Hcollections.
      unfold bind at 1. unfold getLibraryVersion. rewrite liftW_gets_eq. fold s.
      fold since.
      unfold bind at 1. rewrite (liftW_run _ c _ _ Hfetch).
      replace {| world := world c; result := result c |} with c by by destruct c.
      by rewrite Hnone.
    - intros _. apply andb_true_iff in Hnone as [Hlen Hcursor].
      apply Nat.eqb_eq in Hlen. apply bool_decide_eq_true in Hcursor.
      split; [by destruct items|done]. }
  assert (Hsome : items ≠ [] ∨ ¬ 0 < lastSyncVersion s).
  { apply andb_false_iff in Hnone as [Hlen|Hcursor].
    - left. apply Nat.eqb_neq in Hlen. by destruct items.
    - right. by apply bool_decide_eq_false in Hcursor. }
  destruct (ensureFolder_cases (outputFolder s) (world c))
    as [[e Hfolder]|(w1 & Hfolder & Hs & Hsaved & Hpatches & Hflag & Hvault)].
  { left. exists (Throw e). split; [|discriminate].
    unfold syncAll_try. unfold bind at 1. rewrite liftW_gets_eq. fold s.
    rewrite Huser. change (negb true) with false. cbv iota.
    unfold bind at 1. rewrite liftW_ask_eq, Hcollections.
    unfold bind at 1. unfold getLibraryVersion. rewrite liftW_gets_eq. fold s.
    fold since.
    unfold bind at 1. rewrite (liftW_run _ c _ _ Hfetch).
    replace {| world := world c; result := result c |} with c by by destruct c.
    rewrite Hnone.
    unfold bind at 1. rewrite liftW_gets_eq. fold s.
    unfold bind at 1. rewrite (liftW_run _ c _ _ Hfolder). by destruct c. }
  right. split; [done|]. exists w1. split_and!; try done.
  by apply (syncAll_try_enters E fuel c items lv w1).
Qed.

Lemma served_pages_are_fetched tag items lv fuel since w :
  servesPages E tag items lv →
  (length items < 100 * fuel)%nat →
  fetchItemsByTag E fuel tag since w = Some (Ok (items, lv), w).
Proof.
  intros Hserves Hfuel.
  apply (fetchItemsByTag_from_pages E tag items lv since w fuel 0 0); [done|lia|lia].
Qed.

Lemma syncAll_configuration fuel w r w' :
  syncAll E fuel w = Some (r, w') →
  configuration (settings w') = configuration (settings w).
Proof.
  intros Hrun.
  assert (Hcycle : (∃ fuel, syncAll E fuel w = Some (r, w'))
                   ∨ (∃ itemKey, syncSingleItem E itemKey w = Some (r, w')))
    by (left; by exists fuel).
  revert Hcycle. apply (cycle_keeps E configuration_kept);
    first [ typeclasses eauto
          | by (intros; apply configuration_kept_same)
          | (intros; apply keeps_resolveFilename)
          | (intros; apply keeps_syncTagsTwoWay) ];
    same_updates configuration_kept_same.
Qed.

(** ** The two cycles *)

(** The first cycle, without error, against a remote that serves [items]:
    either it has found no item at a cursor and has changed nothing, or it
    has left every top-level record tracked and, the library version being
    above zero, the cursor at the library version and the settings
    saved. *)
Lemma first_cycle_tracks fuel w0 r1 w1 items lv :
  isSyncing w0 = false →
  syncAll E fuel w0 = Some (r1, w1) →
  servesPages E (syncTag (settings w0)) items lv →
  (length items < 100 * fuel)%nat →
  NoDup (key <$> List.filter isTopLevel items) →
  (∀ it s, it ∈ List.filter isTopLevel items →
           Str.truthy (generateFilename E it s) = true) →
  errors r1 = [] →
  (w1 = w0 ∧ items = [] ∧ 0 < lastSyncVersion (settings w0))
  ∨ ((∀ it, it ∈ List.filter isTopLevel items → tracked E w1 it)
     ∧ (0 < lv → lastSyncVersion (settings w1) = lv ∧ saved w1 = settings w1)).
Proof.
  intros Hidle Hfirst Hserves Hfuel Hkeys Hnames Herrors.
  unfold syncAll in Hfirst. rewrite Hidle in Hfirst.
  set (c0 := {| world := set_isSyncing true w0; result := emptyResult |}) in Hfirst.
  destruct (syncAll_try E fuel c0) as [[o c']|] eqn:Hrun; [|done].
  injection Hfirst as <- <-.
  assert (o = Ok tt ∧ errors (result c') = []) as [-> Herrors'].
  { destruct o as [[]|e]; [done|]. simpl in Herrors. by destruct (errors (result c')). }
  clear Herrors.
  destruct (syncAll_try_cases fuel c0 items lv)
    as [(o & Hstop & Hok)|(_ & wa & Hsa & _ & _ & _ & Hvault & Hloop)].
  { by apply served_pages_are_fetched. }
  { rewrite Hstop in Hrun. injection Hrun as -> <-. left.
    destruct (Hok eq_refl) as [-> Hcursor]. split; [|done].
    simpl. by apply guard_released. }
  right. rewrite Hloop in Hrun.
  apply bind_Some in Hrun as [(? & _ & [=])|([] & c2 & Hitems & Hend)].
  assert (Htracked : ∀ it, it ∈ List.filter isTopLevel items → tracked E (world c2) it).
  { apply (forEachItem_tracks _ _ _ _ _ Hitems); [|done|done].
    simpl. rewrite <- Herrors'.
    destruct (bool_decide (0 < lv)).
    - apply liftW_result in Hend. by rewrite Hend.
    - by injection Hend as <-. }
  case_bool_decide as Hlv.
  - apply liftW_Some in Hend as (w3 & Hend & ->).
    destruct (setLibraryVersion_cases lv (world c2))
      as (o & w' & Hset & Hsettings & Hfiles & _ & _ & _ & Hsaved).
    rewrite Hend in Hset. injection Hset as <- <-. specialize (Hsaved eq_refl).
    split.
    + intros it Hit.
      destruct (Htracked it Hit) as (filename & v & Hname & Htruthy & Hfile & Hv & Hle).
      exists filename, v. unfold filePathOf. simpl. rewrite Hsettings, Hfiles. simpl.
      by split_and!.
    + intros _. simpl. rewrite Hsaved, Hsettings. done.
  - injection Hend as <-. split; [|done].
    intros it Hit.
    destruct (Htracked it Hit) as (filename & v & Hname & Htruthy & Hfile & Hv & Hle).
    exists filename, v. by split_and!.
Qed.

Lemma baselines_at_cursor s :
  baselines (with_lastSyncVersion (lastSyncVersion s) s) = baselines s.
Proof. done. Qed.

(** The second cycle, against a remote that serves [items] whose top-level
    records are all settled: it writes nothing and skips them all. *)
Lemma second_cycle_skips fuel w1 items lv :
  isSyncing w1 = false →
  servesPages E (syncTag (settings w1)) items lv →
  (length items < 100 * fuel)%nat →
  (∀ it, it ∈ List.filter isTopLevel items → settled E w1 it) →
  (items = [] ∧ 0 < lastSyncVersion (settings w1))
  ∨ (0 < lv → lastSyncVersion (settings w1) = lv ∧ saved w1 = settings w1) →
  ∃ r2 w2,
    syncAll E fuel w1 = Some (r2, w2)
    ∧ created r2 = 0%nat ∧ updated r2 = 0%nat
    ∧ baselines (settings w2) = baselines (settings w1)
    ∧ baselines (saved w2) = baselines (saved w1)
    ∧ patches w2 = patches w1
    ∧ (∀ path content, vault w1 !! path = Some (TFile content) →
                       vault w2 !! path = Some (TFile content))
    ∧ (errors r2 = [] → skipped r2 = length (List.filter isTopLevel items)).
Proof.
  intros Hidle Hserves Hfuel Hsettled Hcursor.
  unfold syncAll. rewrite Hidle.
  set (c := {| world := set_isSyncing true w1; result := emptyResult |}).
  destruct (syncAll_try_cases fuel c items lv)
    as [(o & -> & Hok)|(Hsome & wa & Hsa & Hsaved & Hpatches & Hflag & Hvault & ->)].
  { by apply served_pages_are_fetched. }
  { exists (finish o c).1, w1. unfold finish. simpl.
    split; [by rewrite guard_released|].
    split_and!; try done; [by destruct o..|].
    destruct o as [[]|e]; simpl; [|by intros [=]].
    intros _. by destruct (Hok eq_refl) as [-> _]. }
  simpl in Hsa, Hsaved, Hpatches, Hflag, Hvault.
  destruct (forEachItem_settled (length (List.filter isTopLevel items))
              (List.filter isTopLevel items) 0
              {| world := wa; result := emptyResult |})
    as (c2 & Hloop & Hs2 & Hsaved2 & Hvault2 & Hpatches2 & Hflag2
        & Hcreated & Hupdated & Hskipped & Herrors).
  { intros it Hit. simpl. apply (settled_kept w1); [done| |by apply Hsettled].
    intros path content Hpath. by apply Hvault. }
  simpl in Hs2, Hsaved2, Hvault2, Hpatches2, Hflag2, Hcreated, Hupdated, Hskipped, Herrors.
  change (result c) with emptyResult.
  unfold bind at 1. rewrite Hloop.
  case_bool_decide as Hlv.
  - destruct (setLibraryVersion_cases lv (world c2))
      as (o & w' & Hset & Hsettings & Hfiles & Hsent & _ & Hdisk & _).
    rewrite (liftW_run _ c2 _ _ Hset).
    destruct Hcursor as [[-> Hpositive]|Hcursor]; [by destruct Hsome|].
    destruct (Hcursor Hlv) as [Hat Hsynced].
    assert (Hsame : baselines (settings w') = baselines (settings w1)).
    { rewrite Hsettings, Hs2, Hsa, <- Hat. apply baselines_at_cursor. }
    eexists _, _. split; [reflexivity|]. unfold finish. simpl.
    split_and!.
    + destruct o; simpl; congruence.
    + destruct o; simpl; congruence.
    + done.
    + destruct Hdisk as [->| ->]; [by rewrite Hsame, Hsynced|congruence].
    + congruence.
    + intros path content Hpath. rewrite Hfiles, Hvault2. by apply Hvault.
    + destruct o as [[]|e]; simpl; [intros _; lia|].
      intros Hnone. by destruct (errors (result c2)).
  - eexists _, _. split; [reflexivity|]. unfold finish. simpl.
    split_and!;
      first [ congruence
            | (intros path content Hpath; rewrite Hvault2; by apply Hvault)
            | (intros _; lia) ].
Qed.

End RunTwice.

(** C7, as worded, fails. [R1] was synced at version 5; since then its
    document has the tag [mine], and the remote holds it at version 6. The
    first cycle fetches [R1], merges the tags and pushes [mine]; the remote
    accepts, which leaves [R1] at version 10. The first cycle has stored the
    version 6 it had fetched and the library version 9 of before its push:
    the second cycle, run right after it, fetches [R1] at version 10 and
    updates its document, and the version baseline and the cursor move to
    10. *)
Lemma accepted_push_is_fetched_again :
  ¬ Claimed.idempotence Echo.env 5 Echo.start.
Proof.
  intros Hclaim.
  destruct (syncAll Echo.env 5 Echo.start) as [[r1 w1]|] eqn:Hfirst;
    [|by vm_compute in Hfirst].
  destruct (syncAll Echo.env 5 w1) as [[r2 w2]|] eqn:Hsecond; cycle 1.
  { vm_compute in Hfirst. injection Hfirst as _ <-. by vm_compute in Hsecond. }
  destruct (Hclaim r1 w1 r2 w2 Hfirst Hsecond) as (_ & Hupdated & _).
  vm_compute in Hfirst. injection Hfirst as _ <-.
  vm_compute in Hsecond. injection Hsecond as <- _.
  discriminate Hupdated.
Qed.

(** C7, amended. A full cycle run again from the state the first has left
    creates nothing, updates nothing, sends no push, leaves every document
    and all baselines, in memory and on disk, as they were, in two cases.
    When the incremental fetch at the cursor the first cycle has left reports
    no changes, the second cycle ends at once: the state is as it was and
    nothing is counted, and with the user id set and the collections fetched
    the outcome is all zero, without error. When the remote serves the
    second cycle the records it has served the first, each once and at the
    same library version, the first cycle has recorded no error, the file
    names are not empty and the documents the first cycle has left are at
    rest (their tags are those of the tag baseline, and no image is to be
    fetched again), every record is skipped. A push of the first cycle that
    the remote accepts is a change of the remote, and is not covered: the
    record comes back at a new version and is updated. *)
Theorem unchanged_cycle_is_idempotent (E : Env) (fuel1 fuel2 : nat)
    (w0 : World) (r1 : SyncResult) (w1 : World) :
  isSyncing w0 = false →
  syncAll E fuel1 w0 = Some (r1, w1) →
  (0 < fuel2)%nat →
  noChangesSince E w1 ∨ (∃ items, servedAgain E fuel1 fuel2 w0 r1 w1 items) →
  ∃ r2 w2,
    syncAll E fuel2 w1 = Some (r2, w2)
    ∧ created r2 = 0%nat ∧ updated r2 = 0%nat
    ∧ baselines (settings w2) = baselines (settings w1)
    ∧ baselines (saved w2) = baselines (saved w1)
    ∧ patches w2 = patches w1
    ∧ (∀ path content, vault w1 !! path = Some (TFile content) →
                       vault w2 !! path = Some (TFile content))
    ∧ (noChangesSince E w1 →
       w2 = w1 ∧ skipped r2 = 0%nat
       ∧ (Str.truthy (userId (settings w1)) = true →
          (∀ w, fetchCollections E w = Ok tt) →
          r2 = {| created := 0; updated := 0; skipped := 0; errors := [] |}))
    ∧ (∀ items, servedAgain E fuel1 fuel2 w0 r1 w1 items →
       errors r2 = [] →
       skipped r2 = length (List.filter isTopLevel items)).
Proof.
  intros Hidle Hfirst Hfuel Hunchanged.
  assert (Hreset : isSyncing w1 = false).
  { eapply started_cycle_resets; [exact Hidle|]. left. by exists fuel1. }
  assert (Htag : syncTag (settings w1) = syncTag (settings w0)).
  { pose proof (syncAll_configuration E fuel1 w0 r1 w1 Hfirst) as Hconf.
    unfold configuration in Hconf. congruence. }
  assert (Hquiet : noChangesSince E w1 →
            ∃ r2, syncAll E fuel2 w1 = Some (r2, w1)
                  ∧ created r2 = 0%nat ∧ updated r2 = 0%nat ∧ skipped r2 = 0%nat
                  ∧ (Str.truthy (userId (settings w1)) = true →
                     (∀ w, fetchCollections E w = Ok tt) → r2 = emptyResult)).
  { intros [Hcursor Hnone]. exact (no_changes_cycle E fuel2 w1 Hreset Hcursor Hnone Hfuel). }
  assert (Hserved : ∀ items, servedAgain E fuel1 fuel2 w0 r1 w1 items →
            ∃ r2 w2,
              syncAll E fuel2 w1 = Some (r2, w2)
              ∧ created r2 = 0%nat ∧ updated r2 = 0%nat
              ∧ baselines (settings w2) = baselines (settings w1)
              ∧ baselines (saved w2) = baselines (saved w1)
              ∧ patches w2 = patches w1
              ∧ (∀ path content, vault w1 !! path = Some (TFile content) →
                                 vault w2 !! path = Some (TFile content))
              ∧ (errors r2 = [] → skipped r2 = length (List.filter isTopLevel items))).
  { intros items ((lv & Hserves) & Hfuel1 & Hfuel2 & Hkeys & Hnames & Herrors & Hrest).
    pose proof (first_cycle_tracks E fuel1 w0 r1 w1 items lv Hidle Hfirst Hserves
                  Hfuel1 Hkeys Hnames Herrors) as Hleft.
    apply (second_cycle_skips E fuel2 w1 items lv); [done|by rewrite Htag|done| |].
    - destruct Hleft as [(_ & -> & _)|[Htracked _]].
      + intros it Hit. by apply elem_of_nil in Hit.
      + intros it Hit. apply tracked_at_rest; [by apply Htracked|by apply Hrest].
    - destruct Hleft as [(-> & -> & Hcursor)|[_ Hcursor]]; [by left|by right]. }
  assert (Hboth : noChangesSince E w1 →
            ∀ items, servedAgain E fuel1 fuel2 w0 r1 w1 items → items = []).
  { intros [Hcursor Hnone] items ((lv & Hserves) & _).
    destruct (Hserves (Some (lastSyncVersion (settings w1))) 0 w1)
      as (response & Hrequest & Hstatus & _ & _ & Hjson); [lia|].
    specialize (Hnone w1). rewrite Htag, Hrequest in Hnone. simpl in Hnone.
    destruct Hnone as [?|Hempty]; [done|].
    rewrite Hempty in Hjson. unfold pageAt in Hjson. simpl in Hjson.
    symmetry in Hjson. by destruct items. }
  destruct Hunchanged as [Hnone|[items Hitems]].
  - destruct (Hquiet Hnone) as (r2 & Hrun & Hcreated & Hupdated & Hskipped & Hzero).
    exists r2, w1. split_and!; try done.
    intros items Hitems _. by rewrite (Hboth Hnone items Hitems).
  - destruct (Hserved items Hitems)
      as (r2 & w2 & Hrun & Hcreated & Hupdated & Hmemory & Hdisk & Hsent & Hdocs & _).
    exists r2, w2. split_and!; try done.
    + intros Hnone.
      destruct (Hquiet Hnone) as (r2' & Hrun' & _ & _ & Hskipped & Hzero).
      rewrite Hrun in Hrun'. injection Hrun' as <- <-. by split_and!.
    + intros items' Hitems'.
      destruct (Hserved items' Hitems') as (r2' & w2' & Hrun' & _ & _ & _ & _ & _ & _ & Hall).
      rewrite Hrun in Hrun'. by injection Hrun' as <- <-.
Qed.

(** The two cases, run, with [R1] at version 5 and the tag [x], no baseline
    and no document. On a remote that serves [R1] to every fetch (the
    end-to-end scenario), the first cycle creates the document and the second
    skips the record and leaves the baselines as they were. On a remote that
    answers 304 to a fetch at its library version 9, the first cycle leaves
    the cursor at 9 and the second ends at once, all zero, the state as it
    was. *)
Lemma unchanged_cycle_witness :
  (∃ r1 w1 r2 w2,
     syncAll (Paged.env [Test.record "R1" 5 ["x"; "obsidian"]] 9) 5
       (Test.start Test.defaults ∅) = Some (r1, w1)
     ∧ created r1 = 1%nat
     ∧ itemVersions (settings w1) !! "R1" = Some 5
     ∧ lastSyncedTags (settings w1) !! "R1" = Some ["x"]
     ∧ syncAll (Paged.env [Test.record "R1" 5 ["x"; "obsidian"]] 9) 5 w1
       = Some (r2, w2)
     ∧ created r2 = 0%nat ∧ updated r2 = 0%nat ∧ skipped r2 = 1%nat
     ∧ baselines (settings w2) = baselines (settings w1)
     ∧ patches w2 = patches w1)
  ∧ (∃ r1 w1,
       syncAll (Test.env [Test.record "R1" 5 ["x"; "obsidian"]] 9 false) 5
         (Test.start Test.defaults ∅) = Some (r1, w1)
       ∧ created r1 = 1%nat
       ∧ lastSyncVersion (settings w1) = 9
       ∧ syncAll (Test.env [Test.record "R1" 5 ["x"; "obsidian"]] 9 false) 5 w1
         = Some (emptyResult, w1)).
Proof.
  split.
  - destruct (syncAll (Paged.env [Test.record "R1" 5 ["x"; "obsidian"]] 9) 5
                (Test.start Test.defaults ∅)) as [[r1 w1]|] eqn:Hfirst;
      [|by vm_compute in Hfirst].
    assert (Hserved : servedAgain (Paged.env [Test.record "R1" 5 ["x"; "obsidian"]] 9)
                        5 5 (Test.start Test.defaults ∅) r1 w1
                        [Test.record "R1" 5 ["x"; "obsidian"]]).
    { vm_compute in Hfirst. injection Hfirst as <- <-. split_and!.
      - exists 9. intros since start w Hstart. eexists. split; [reflexivity|].
        by split_and!.
      - simpl. lia.
      - simpl. lia.
      - apply NoDup_singleton.
      - intros it s Hit. apply list_elem_of_singleton in Hit as ->. reflexivity.
      - reflexivity.
      - intros it Hit. apply list_elem_of_singleton in Hit as ->.
        intros filename content Hname Hfile.
        vm_compute in Hname. injection Hname as <-.
        vm_compute in Hfile. injection Hfile as <-. split.
        + intros [Hcache _]. by vm_compute in Hcache.
        + intros (lastSynced & Hlast & Hdrift).
          vm_compute in Hlast. injection Hlast as <-. by apply Hdrift. }
    destruct (unchanged_cycle_is_idempotent
                (Paged.env [Test.record "R1" 5 ["x"; "obsidian"]] 9) 5 5
                (Test.start Test.defaults ∅) r1 w1)
      as (r2 & w2 & Hsecond & Hcreated & Hupdated & Hmemory & _ & Hsent & _ & _ & Hskipped).
    + reflexivity.
    + exact Hfirst.
    + lia.
    + right. by eexists.
    + exists r1, w1, r2, w2.
      specialize (Hskipped _ Hserved).
      vm_compute in Hfirst. injection Hfirst as <- <-.
      split_and!; try done.
      apply Hskipped. vm_compute in Hsecond. by injection Hsecond as <- _.
  - destruct (syncAll (Test.env [Test.record "R1" 5 ["x"; "obsidian"]] 9 false) 5
                (Test.start Test.defaults ∅)) as [[r1 w1]|] eqn:Hfirst;
      [|by vm_compute in Hfirst].
    assert (Hnone : noChangesSince
                      (Test.env [Test.record "R1" 5 ["x"; "obsidian"]] 9 false) w1).
    { vm_compute in Hfirst. injection Hfirst as _ <-. split; [done|].
      intros w. vm_compute. by left. }
    destruct (unchanged_cycle_is_idempotent
                (Test.env [Test.record "R1" 5 ["x"; "obsidian"]] 9 false) 5 5
                (Test.start Test.defaults ∅) r1 w1)
      as (r2 & w2 & Hsecond & _ & _ & _ & _ & _ & _ & Hquiet & _).
    + reflexivity.
    + exact Hfirst.
    + lia.
    + by left.
    + destruct (Hquiet Hnone) as (-> & _ & Hzero).
      exists r1, w1. rewrite Hsecond.
      vm_compute in Hfirst. injection Hfirst as <- <-.
      split_and!; [reflexivity|reflexivity|reflexivity|].
      f_equal. f_equal. apply Hzero; [reflexivity|]. intros w. reflexivity.
Defined.

